(** * atamne: the battle engine, embedded and verified

  A shallow embedding of the battle core of the game: the configuration
  tables ([config.js]), the [GameCharacter] class, the [BattleSystem]
  class ([battlesystem.js]) and the [BattleAI] class ([battleai.js]).

  Conventions of the embedding.
  - A JavaScript number is a rational [Q].  Every number the combat code
    computes (stats of the table, the five multipliers, the splash factor
    0.5, action bars) is a dyadic rational of small magnitude, which an
    IEEE double holds exactly, so sums and products agree with [Q].  The
    AI heuristic multiplies by 0.3, 0.2 and 0.8, which a double rounds;
    there the embedding takes the exact product.  [===] on numbers is
    [Qeq_bool].
  - A value that may be [undefined] is an [option]; an action bar entry may
    moreover be [NaN] (type [jsnum]).
  - Objects live in a store [heap : ref -> GameCharacter]; arrays of
    characters are lists of references, so that a character reached
    through a team list, through the turn list or as a target is the same
    mutable object.
  - [Math.random] is an explicit source [rand : nat -> Q], the n-th call
    of an operation reading [rand n].
  - The [while] loop of [calculateUpcomingTurns] runs on fuel; the result
    [OutOfFuel] means that the loop did not finish within the fuel. Every
    operation runs that loop at most once.
  - A call that throws (a property read on [undefined] or [null]) ends in
    [TypeError], with the state it had reached. *)

From Stdlib Require Import QArith Qminmax Qround Lqa ZArith Lia Ascii String Sorted.
From stdpp Require Import gmap strings list fin_maps functions.

Local Open Scope string_scope.
Local Open Scope list_scope.

(** ** Numbers *)

Definition Qlt_bool (x y : Q) : bool := negb (Qle_bool y x).

(** A number that is a whole number: its reduced denominator is 1. *)
Definition isInteger (q : Q) : bool := Pos.eqb (Qden (Qred q)) 1.

(** ** config.js *)

Module Config.

(** The six genes of [GENES], and the sentinel ['Neutral'] that only an
    attack can carry. *)
Inductive Gene : Type := Red | Orange | Yellow | Green | Blue | Purple | Neutral.

#[global] Instance Gene_eq_dec : EqDecision Gene.
Proof. solve_decision. Defined.

Definition GENES : list Gene := [Red; Orange; Yellow; Green; Blue; Purple].

(** [TYPE_EFFECTIVENESS[a]?.[d]]: [None] is [undefined], for a missing row
    (['Neutral'], [undefined]) or a missing column. *)
Definition TYPE_EFFECTIVENESS (a d : option Gene) : option Q :=
  match a, d with
  | Some Red, Some Orange => Some (3#2) | Some Red, Some Yellow => Some (5#4)
  | Some Red, Some Purple => Some (1#2) | Some Red, Some Blue => Some (3#4)
  | Some Orange, Some Yellow => Some (3#2) | Some Orange, Some Green => Some (5#4)
  | Some Orange, Some Red => Some (1#2) | Some Orange, Some Purple => Some (3#4)
  | Some Yellow, Some Green => Some (3#2) | Some Yellow, Some Blue => Some (5#4)
  | Some Yellow, Some Orange => Some (1#2) | Some Yellow, Some Red => Some (3#4)
  | Some Green, Some Blue => Some (3#2) | Some Green, Some Purple => Some (5#4)
  | Some Green, Some Yellow => Some (1#2) | Some Green, Some Orange => Some (3#4)
  | Some Blue, Some Purple => Some (3#2) | Some Blue, Some Red => Some (5#4)
  | Some Blue, Some Green => Some (1#2) | Some Blue, Some Yellow => Some (3#4)
  | Some Purple, Some Red => Some (3#2) | Some Purple, Some Orange => Some (5#4)
  | Some Purple, Some Blue => Some (1#2) | Some Purple, Some Green => Some (3#4)
  | _, _ => None
  end.

(** [CHARACTER_STATS]: id to [[hp, attack, speed]]. *)
Definition CHARACTER_STATS : list (string * (Q * Q * Q)) :=
  [ ("Red", (120, 120, 40)); ("Orange", (240, 80, 40)); ("Yellow", (360, 40, 40));
    ("Green", (240, 40, 80)); ("Blue", (120, 40, 120)); ("Purple", (120, 80, 80));
    ("Red-Red", (144, 104, 48)); ("Orange-Orange", (216, 72, 56));
    ("Yellow-Yellow", (312, 48, 48)); ("Green-Green", (216, 56, 72));
    ("Blue-Blue", (144, 48, 104)); ("Purple-Purple", (168, 72, 72));
    ("Red-Orange", (216, 88, 40)); ("Red-Yellow", (300, 60, 40));
    ("Red-Green", (216, 56, 72)); ("Red-Blue", (120, 60, 100));
    ("Red-Purple", (120, 88, 72));
    ("Orange-Red", (156, 108, 40)); ("Orange-Yellow", (324, 52, 40));
    ("Orange-Green", (240, 48, 72)); ("Orange-Blue", (156, 52, 96));
    ("Orange-Purple", (144, 80, 72));
    ("Yellow-Red", (180, 100, 40)); ("Yellow-Orange", (264, 72, 40));
    ("Yellow-Green", (264, 40, 72)); ("Yellow-Blue", (180, 40, 100));
    ("Yellow-Purple", (168, 72, 72));
    ("Green-Red", (156, 96, 52)); ("Green-Orange", (240, 72, 48));
    ("Green-Yellow", (324, 40, 52)); ("Green-Blue", (156, 40, 108));
    ("Green-Purple", (144, 72, 80));
    ("Blue-Red", (120, 100, 60)); ("Blue-Orange", (216, 72, 56));
    ("Blue-Yellow", (300, 40, 60)); ("Blue-Green", (216, 40, 88));
    ("Blue-Purple", (120, 72, 88));
    ("Purple-Red", (120, 108, 52)); ("Purple-Orange", (216, 80, 48));
    ("Purple-Yellow", (288, 52, 52)); ("Purple-Green", (216, 48, 80));
    ("Purple-Blue", (120, 52, 108)) ]%Q.

(** [CHARACTER_STATS[id]] *)
Fixpoint lookup_stats (tbl : list (string * (Q * Q * Q))) (id : string)
  : option (Q * Q * Q) :=
  match tbl with
  | [] => None
  | (k, v) :: tbl' => if String.eqb k id then Some v else lookup_stats tbl' id
  end.

(** [BATTLE_CONFIG] *)
Definition ACTION_THRESHOLD : Q := 1000.
Definition TEAM_SIZE : nat := 3.
Definition SPLASH_DAMAGE_MULTIPLIER : Q := 1 # 2.

(** [AI_DIFFICULTY] *)
Inductive Difficulty : Type := EASY | NORMAL | HARD | EXTREME.

Definition smartMoveChance (d : Difficulty) : Q :=
  match d with
  | EASY => 0
  | NORMAL => 1 # 2
  | HARD => 8 # 10
  | EXTREME => 1
  end.

End Config.

Export Config.

(** ** The GameCharacter class *)

Module Character.

Record Stats : Type := mkStats {
  hp : Q;
  maxHp : Q;
  attack : Q;
  speed : Q
}.

(** The [symbol] field (an emoji for display) is left out. [isPlayer] is
    [null] (here [None]) until battle setup assigns it. *)
Record GameCharacter : Type := mkChar {
  id : string;
  genes : list Gene;
  unlocked : bool;
  stats : Stats;
  isPlayer : option bool
}.

Inductive AttackType : Type := single | splash.

#[global] Instance AttackType_eq_dec : EqDecision AttackType.
Proof. solve_decision. Defined.

(** [{ gene, type }]; [gene] is [undefined] only for a character without
    genes, which the game never builds. *)
Record AttackObj : Type := mkAttack {
  gene : option Gene;
  type : AttackType
}.

Inductive Rarity : Type := common | uncommon | rare.

Definition set_hp (c : GameCharacter) (h : Q) : GameCharacter :=
  mkChar (id c) (genes c) (unlocked c)
         (mkStats h (maxHp (stats c)) (attack (stats c)) (speed (stats c)))
         (isPlayer c).

Definition set_isPlayer (c : GameCharacter) (p : option bool) : GameCharacter :=
  mkChar (id c) (genes c) (unlocked c) (stats c) p.

Definition set_id (c : GameCharacter) (i : string) : GameCharacter :=
  mkChar i (genes c) (unlocked c) (stats c) (isPlayer c).

(** Truthiness of [isPlayer]: [null] and [false] are falsy. *)
Definition truthy (p : option bool) : bool :=
  match p with Some true => true | _ => false end.

(** [CHARACTER_STATS[this.id] || [80, 80, 80]] *)
Definition getStatDistribution (i : string) : Q * Q * Q :=
  match lookup_stats CHARACTER_STATS i with
  | Some v => v
  | None => (80, 80, 80)%Q
  end.

Definition generateStats (i : string) : Stats :=
  let '(h, a, s) := getStatDistribution i in mkStats h h a s.

(** [new GameCharacter(id, genes, unlocked)] *)
Definition new_GameCharacter (i : string) (gs : list Gene) (u : bool) : GameCharacter :=
  mkChar i gs u (generateStats i) None.

Definition getAttackGenes (c : GameCharacter) : list AttackObj :=
  if Nat.eqb (length (genes c)) 1 then
    [ mkAttack (genes c !! 0%nat) single; mkAttack (Some Neutral) single ]
  else if decide (genes c !! 0%nat = genes c !! 1%nat) then
    [ mkAttack (genes c !! 0%nat) single; mkAttack (genes c !! 0%nat) splash ]
  else
    [ mkAttack (genes c !! 0%nat) single; mkAttack (genes c !! 1%nat) single ].

(** [TYPE_EFFECTIVENESS[attackGene]?.[defendingGene] || 1.0]: a missing
    entry, and an entry that is 0, give 1. *)
Definition getEffectiveness (attackGene : option Gene) (defendingCharacter : GameCharacter) : Q :=
  if decide (attackGene = Some Neutral) then 1
  else
    let defendingGene := genes defendingCharacter !! 0%nat in
    match TYPE_EFFECTIVENESS attackGene defendingGene with
    | Some e => if Qeq_bool e 0 then 1 else e
    | None => 1
    end.

Definition calculateDamage (this : GameCharacter) (attackGene : option Gene)
           (defendingCharacter : GameCharacter) : Q :=
  let baseDamage := attack (stats this) in
  let effectiveness := getEffectiveness attackGene defendingCharacter in
  (baseDamage * effectiveness)%Q.

(** [takeDamage]: the character after the hit, and whether its hp is 0. *)
Definition takeDamage (this : GameCharacter) (damage : Q) : GameCharacter * bool :=
  let h := Qmax 0 (hp (stats this) - damage) in
  (set_hp this h, Qeq_bool h 0).

Definition resetForBattle (this : GameCharacter) : GameCharacter :=
  set_hp this (maxHp (stats this)).

Definition isAlive (this : GameCharacter) : bool :=
  Qlt_bool 0 (hp (stats this)).

(** [(hp / maxHp) * 100]. For [maxHp = 0] JavaScript yields [Infinity] or
    [NaN] where [Q] yields 0; every character of a battle takes its
    [maxHp] from the table or from the fallback 80, so it is positive. *)
Definition getHealthPercentage (this : GameCharacter) : Q :=
  ((hp (stats this) / maxHp (stats this)) * 100)%Q.

(** [clone]: the stats are generated anew from the id. *)
Definition clone (this : GameCharacter) : GameCharacter :=
  set_isPlayer (new_GameCharacter (id this) (genes this) (unlocked this)) (isPlayer this).

(** [this.id.replace(/-E\d+$/, '')] *)
Definition is_digit (c : ascii) : bool :=
  (48 <=? nat_of_ascii c)%nat && (nat_of_ascii c <=? 57)%nat.

Fixpoint all_digits (s : string) : bool :=
  match s with
  | EmptyString => true
  | String c s' => is_digit c && all_digits s'
  end.

Definition is_enemy_suffix (s : string) : bool :=
  match s with
  | String "-" (String "E" (String c rest)) => is_digit c && all_digits rest
  | _ => false
  end.

Fixpoint strip_enemy_suffix (s : string) : string :=
  if is_enemy_suffix s then EmptyString
  else match s with
       | EmptyString => EmptyString
       | String c s' => String c (strip_enemy_suffix s')
       end.

Definition getDisplayName (this : GameCharacter) : string :=
  strip_enemy_suffix (id this).

Definition getRarity (this : GameCharacter) : Rarity :=
  if Nat.eqb (length (genes this)) 1 then common
  else if decide (genes this !! 0%nat = genes this !! 1%nat) then uncommon
  else rare.

(** [`${this.id}-${this.isPlayer ? 'P' : 'E'}`] *)
Definition getBattleId (this : GameCharacter) : string :=
  id this +:+ "-" +:+ (if truthy (isPlayer this) then "P" else "E").

End Character.

Export Character.

(** *** The advantage wheel *)

(** One step forward on Red, Orange, Yellow, Green, Blue, Purple, Red. *)
Definition wheel_next (g : Gene) : Gene :=
match g with
| Red => Orange | Orange => Yellow | Yellow => Green
| Green => Blue | Blue => Purple | Purple => Red
| Neutral => Neutral
end.

Definition wheel_prev (g : Gene) : Gene :=
match g with
| Red => Purple | Orange => Red | Yellow => Orange
| Green => Yellow | Blue => Green | Purple => Blue
| Neutral => Neutral
end.

Definition multipliers : list Q := [1#2; 3#4; 1; 5#4; 3#2]%Q.

(** ** The BattleSystem class *)

Module Battle.

(** A reference to a [GameCharacter] object. *)
Abbreviation ref := nat (only parsing).

(** The value of an action bar entry: a number or [NaN] (what
    [undefined - 1000] leaves behind). *)
Inductive jsnum : Type := Fin (q : Q) | NaN.

Definition jsadd (v : jsnum) (x : Q) : jsnum :=
  match v with Fin q => Fin (q + x) | NaN => NaN end.

(** [o - x] for an entry that may be [undefined]. *)
Definition jssub (o : option jsnum) (x : Q) : jsnum :=
  match o with Some (Fin q) => Fin (q - x) | _ => NaN end.

(** [a !== b] on entries that may be [undefined]: [NaN] differs from
    everything, itself included. *)
Definition bar_neq (a b : option jsnum) : bool :=
  match a, b with
  | None, None => false
  | Some (Fin x), Some (Fin y) => negb (Qeq_bool x y)
  | _, _ => true
  end.

(** [b - a] on entries that may be [undefined]. *)
Definition bar_diff (b a : option jsnum) : jsnum :=
  match b, a with
  | Some (Fin y), Some (Fin x) => Fin (y - x)
  | _, _ => NaN
  end.

Inductive Phase : Type := setup | battle | ended.
Inductive Winner : Type := player | enemy.
Inductive Reason : Type := already_processing | invalid_attacker.

Record LogEntry : Type := mkLog { message : string; className : string }.

(** The fields of [BattleSystem]. [heap] and [nextRef] are the object store
    and its allocation pointer; [this.game] is passed to the operations that
    read it. *)
Record BattleSystem : Type := mkBattle {
  heap : ref -> GameCharacter;
  nextRef : ref;
  playerTeam : list ref;
  enemyTeam : list ref;
  turnQueue : list ref;
  battlePhase : Phase;
  battleLog : list LogEntry;
  difficulty : Difficulty;
  actionBars : gmap string jsnum;
  turnHistory : list ref;
  upcomingTurns : list ref;
  isProcessingTurn : bool;
  attackButtonsDisabled : bool;
  selectedAttackObj : option AttackObj;
  aiTurnTimer : option nat;
  nextTurnTimer : option nat
}.

Definition set_heap (s : BattleSystem) (x : ref -> GameCharacter) : BattleSystem :=
  mkBattle x (nextRef s) (playerTeam s) (enemyTeam s) (turnQueue s) (battlePhase s)
    (battleLog s) (difficulty s) (actionBars s) (turnHistory s) (upcomingTurns s)
    (isProcessingTurn s) (attackButtonsDisabled s) (selectedAttackObj s)
    (aiTurnTimer s) (nextTurnTimer s).

Definition set_nextRef (s : BattleSystem) (x : ref) : BattleSystem :=
  mkBattle (heap s) x (playerTeam s) (enemyTeam s) (turnQueue s) (battlePhase s)
    (battleLog s) (difficulty s) (actionBars s) (turnHistory s) (upcomingTurns s)
    (isProcessingTurn s) (attackButtonsDisabled s) (selectedAttackObj s)
    (aiTurnTimer s) (nextTurnTimer s).

Definition set_playerTeam (s : BattleSystem) (x : list ref) : BattleSystem :=
  mkBattle (heap s) (nextRef s) x (enemyTeam s) (turnQueue s) (battlePhase s)
    (battleLog s) (difficulty s) (actionBars s) (turnHistory s) (upcomingTurns s)
    (isProcessingTurn s) (attackButtonsDisabled s) (selectedAttackObj s)
    (aiTurnTimer s) (nextTurnTimer s).

Definition set_enemyTeam (s : BattleSystem) (x : list ref) : BattleSystem :=
  mkBattle (heap s) (nextRef s) (playerTeam s) x (turnQueue s) (battlePhase s)
    (battleLog s) (difficulty s) (actionBars s) (turnHistory s) (upcomingTurns s)
    (isProcessingTurn s) (attackButtonsDisabled s) (selectedAttackObj s)
    (aiTurnTimer s) (nextTurnTimer s).

Definition set_turnQueue (s : BattleSystem) (x : list ref) : BattleSystem :=
  mkBattle (heap s) (nextRef s) (playerTeam s) (enemyTeam s) x (battlePhase s)
    (battleLog s) (difficulty s) (actionBars s) (turnHistory s) (upcomingTurns s)
    (isProcessingTurn s) (attackButtonsDisabled s) (selectedAttackObj s)
    (aiTurnTimer s) (nextTurnTimer s).

Definition set_battlePhase (s : BattleSystem) (x : Phase) : BattleSystem :=
  mkBattle (heap s) (nextRef s) (playerTeam s) (enemyTeam s) (turnQueue s) x
    (battleLog s) (difficulty s) (actionBars s) (turnHistory s) (upcomingTurns s)
    (isProcessingTurn s) (attackButtonsDisabled s) (selectedAttackObj s)
    (aiTurnTimer s) (nextTurnTimer s).

Definition set_battleLog (s : BattleSystem) (x : list LogEntry) : BattleSystem :=
  mkBattle (heap s) (nextRef s) (playerTeam s) (enemyTeam s) (turnQueue s) (battlePhase s)
    x (difficulty s) (actionBars s) (turnHistory s) (upcomingTurns s)
    (isProcessingTurn s) (attackButtonsDisabled s) (selectedAttackObj s)
    (aiTurnTimer s) (nextTurnTimer s).

Definition set_difficulty (s : BattleSystem) (x : Difficulty) : BattleSystem :=
  mkBattle (heap s) (nextRef s) (playerTeam s) (enemyTeam s) (turnQueue s) (battlePhase s)
    (battleLog s) x (actionBars s) (turnHistory s) (upcomingTurns s)
    (isProcessingTurn s) (attackButtonsDisabled s) (selectedAttackObj s)
    (aiTurnTimer s) (nextTurnTimer s).

Definition set_actionBars (s : BattleSystem) (x : gmap string jsnum) : BattleSystem :=
  mkBattle (heap s) (nextRef s) (playerTeam s) (enemyTeam s) (turnQueue s) (battlePhase s)
    (battleLog s) (difficulty s) x (turnHistory s) (upcomingTurns s)
    (isProcessingTurn s) (attackButtonsDisabled s) (selectedAttackObj s)
    (aiTurnTimer s) (nextTurnTimer s).

Definition set_turnHistory (s : BattleSystem) (x : list ref) : BattleSystem :=
  mkBattle (heap s) (nextRef s) (playerTeam s) (enemyTeam s) (turnQueue s) (battlePhase s)
    (battleLog s) (difficulty s) (actionBars s) x (upcomingTurns s)
    (isProcessingTurn s) (attackButtonsDisabled s) (selectedAttackObj s)
    (aiTurnTimer s) (nextTurnTimer s).

Definition set_upcomingTurns (s : BattleSystem) (x : list ref) : BattleSystem :=
  mkBattle (heap s) (nextRef s) (playerTeam s) (enemyTeam s) (turnQueue s) (battlePhase s)
    (battleLog s) (difficulty s) (actionBars s) (turnHistory s) x
    (isProcessingTurn s) (attackButtonsDisabled s) (selectedAttackObj s)
    (aiTurnTimer s) (nextTurnTimer s).

Definition set_isProcessingTurn (s : BattleSystem) (x : bool) : BattleSystem :=
  mkBattle (heap s) (nextRef s) (playerTeam s) (enemyTeam s) (turnQueue s) (battlePhase s)
    (battleLog s) (difficulty s) (actionBars s) (turnHistory s) (upcomingTurns s)
    x (attackButtonsDisabled s) (selectedAttackObj s)
    (aiTurnTimer s) (nextTurnTimer s).

Definition set_attackButtonsDisabled (s : BattleSystem) (x : bool) : BattleSystem :=
  mkBattle (heap s) (nextRef s) (playerTeam s) (enemyTeam s) (turnQueue s) (battlePhase s)
    (battleLog s) (difficulty s) (actionBars s) (turnHistory s) (upcomingTurns s)
    (isProcessingTurn s) x (selectedAttackObj s)
    (aiTurnTimer s) (nextTurnTimer s).

Definition set_selectedAttackObj (s : BattleSystem) (x : option AttackObj) : BattleSystem :=
  mkBattle (heap s) (nextRef s) (playerTeam s) (enemyTeam s) (turnQueue s) (battlePhase s)
    (battleLog s) (difficulty s) (actionBars s) (turnHistory s) (upcomingTurns s)
    (isProcessingTurn s) (attackButtonsDisabled s) x
    (aiTurnTimer s) (nextTurnTimer s).

Definition set_timers (s : BattleSystem) (a n : option nat) : BattleSystem :=
  mkBattle (heap s) (nextRef s) (playerTeam s) (enemyTeam s) (turnQueue s) (battlePhase s)
    (battleLog s) (difficulty s) (actionBars s) (turnHistory s) (upcomingTurns s)
    (isProcessingTurn s) (attackButtonsDisabled s) (selectedAttackObj s) a n.

(** How a call ends: it returns [a] in state [st], it throws a [TypeError]
    (reading a property of [undefined] or [null]) in state [st], or the
    fuel of a loop ran out. *)
Inductive res (A : Type) : Type :=
| Ok (st : BattleSystem) (a : A)
| TypeError (st : BattleSystem)
| OutOfFuel.

Arguments Ok {A} st a.
Arguments TypeError {A} st.
Arguments OutOfFuel {A}.

Definition bind {A B : Type} (m : res A) (k : BattleSystem -> A -> res B) : res B :=
  match m with
  | Ok st a => k st a
  | TypeError st => TypeError st
  | OutOfFuel => OutOfFuel
  end.

Notation "' ( st , x ) <- m ;; k" := (bind m (fun st x => k))
  (at level 100, m at next level, st name, x name, right associativity).

(** [new]: a fresh object. *)
Definition alloc (s : BattleSystem) (c : GameCharacter) : BattleSystem * ref :=
  (set_nextRef (set_heap s (<[nextRef s := c]> (heap s))) (S (nextRef s)), nextRef s).

(** [this.x = v] on the object behind [r]. *)
Definition store (s : BattleSystem) (r : ref) (c : GameCharacter) : BattleSystem :=
  set_heap s (<[r := c]> (heap s)).

Definition setDifficulty (s : BattleSystem) (d : Difficulty) : BattleSystem :=
  set_difficulty s d.

Definition clearAllTimers (s : BattleSystem) : BattleSystem :=
  set_timers s None None.

Definition getCharId (character : GameCharacter) : string :=
  id character +:+ "-" +:+ (if truthy (isPlayer character) then "P" else "E").

(** [team.indexOf(a)] *)
Fixpoint indexOf_from (l : list ref) (a : ref) (i : Z) : Z :=
  match l with
  | [] => (-1)%Z
  | x :: l' => if Nat.eqb x a then i else indexOf_from l' a (i + 1)%Z
  end.

Definition indexOf (l : list ref) (a : ref) : Z := indexOf_from l a 0%Z.

(** The comparator handed to [readyChars.sort]. *)
Definition compareReady (s : BattleSystem) (simActionBars : gmap string jsnum)
           (a b : ref) : jsnum :=
  let ca := heap s a in
  let cb := heap s b in
  let aBar := simActionBars !! getCharId ca in
  let bBar := simActionBars !! getCharId cb in
  if bar_neq aBar bBar then bar_diff bBar aBar
  else if negb (Qeq_bool (speed (stats ca)) (speed (stats cb))) then
    Fin (speed (stats ca) - speed (stats cb))
  else if negb (bool_decide (isPlayer ca = isPlayer cb)) then
    (if truthy (isPlayer ca) then Fin (-1) else Fin 1)
  else
    let aIndex := if truthy (isPlayer ca) then indexOf (playerTeam s) a
                  else indexOf (enemyTeam s) a in
    let bIndex := if truthy (isPlayer cb) then indexOf (playerTeam s) b
                  else indexOf (enemyTeam s) b in
    Fin (inject_Z (aIndex - bIndex)).

(** [Array.prototype.sort]: stable; [a] stays before [b] unless the
    comparator is positive, a [NaN] result counting as 0. For a consistent
    comparator every conforming sort returns this list. *)
Definition before (cmp : ref -> ref -> jsnum) (a b : ref) : bool :=
  match cmp a b with
  | Fin v => Qle_bool v 0
  | NaN => true
  end.

Fixpoint insert_sorted (cmp : ref -> ref -> jsnum) (x : ref) (l : list ref) : list ref :=
  match l with
  | [] => [x]
  | y :: l' => if before cmp x y then x :: y :: l' else y :: insert_sorted cmp x l'
  end.

Fixpoint sort (cmp : ref -> ref -> jsnum) (l : list ref) : list ref :=
  match l with
  | [] => []
  | x :: l' => insert_sorted cmp x (sort cmp l')
  end.

(** [[...playerTeam, ...enemyTeam].filter(char => char.isAlive())] *)
Definition aliveCharacters (s : BattleSystem) : list ref :=
  List.filter (fun r => isAlive (heap s r)) (playerTeam s ++ enemyTeam s).

(** One character's [simActionBars[charId] += speed], guarded by
    [!== undefined]. *)
Definition fill_bar (s : BattleSystem) (sim : gmap string jsnum) (r : ref)
  : gmap string jsnum :=
  alter (fun v => jsadd v (speed (stats (heap s r)))) (getCharId (heap s r)) sim.

Definition fill_bars (s : BattleSystem) (chars : list ref) (sim : gmap string jsnum)
  : gmap string jsnum :=
  fold_left (fill_bar s) chars sim.

(** [simActionBars[charId] >= ACTION_THRESHOLD] *)
Definition isReady (s : BattleSystem) (sim : gmap string jsnum) (r : ref) : bool :=
  match sim !! getCharId (heap s r) with
  | Some (Fin v) => Qle_bool ACTION_THRESHOLD v
  | _ => false
  end.

(** One character's [simActionBars[charId] -= ACTION_THRESHOLD]. *)
Definition consume_bar (s : BattleSystem) (sim : gmap string jsnum) (r : ref)
  : gmap string jsnum :=
  let charId := getCharId (heap s r) in
  <[charId := jssub (sim !! charId) ACTION_THRESHOLD]> sim.

Definition consume_bars (s : BattleSystem) (ready : list ref) (sim : gmap string jsnum)
  : gmap string jsnum :=
  fold_left (consume_bar s) ready sim.

(** The body of the [while] loop: one tick. *)
Definition tick (s : BattleSystem) (chars : list ref)
           (sim : gmap string jsnum) (turns : list ref)
  : gmap string jsnum * list ref :=
  let sim1 := fill_bars s chars sim in
  let readyChars := List.filter (isReady s sim1) chars in
  if Nat.ltb 0 (length readyChars) then
    let sorted := sort (compareReady s sim1) readyChars in
    (consume_bars s sorted sim1, turns ++ sorted)
  else (sim1, turns).

(** [while (turns.length < numberOfTurns)] *)
Fixpoint simulate (fuel : nat) (s : BattleSystem) (chars : list ref) (numberOfTurns : nat)
         (sim : gmap string jsnum) (turns : list ref) : option (list ref) :=
  if Nat.ltb (length turns) numberOfTurns then
    match fuel with
    | O => None
    | S fuel' =>
        let '(sim', turns') := tick s chars sim turns in
        simulate fuel' s chars numberOfTurns sim' turns'
    end
  else Some turns.

Definition calculateUpcomingTurns (fuel : nat) (s : BattleSystem) (numberOfTurns : nat)
  : res unit :=
  let allCharacters := aliveCharacters s in
  if Nat.eqb (length allCharacters) 0 then Ok (set_upcomingTurns s []) tt
  else
    match simulate fuel s allCharacters numberOfTurns (actionBars s) [] with
    | Some turns => Ok (set_upcomingTurns s turns) tt
    | None => OutOfFuel
    end.

Definition createTurnQueue (fuel : nat) (s : BattleSystem) : res unit :=
  let allCharacters := aliveCharacters s in
  let bars := fold_left (fun m r => <[getCharId (heap s r) := Fin 0]> m)
                        allCharacters (∅ : gmap string jsnum) in
  '(s1, _) <- calculateUpcomingTurns fuel (set_actionBars s bars) 20 ;;
  Ok (set_turnQueue s1 (take 6 (upcomingTurns s1))) tt.

Definition getCurrentCharacter (s : BattleSystem) : option ref :=
  upcomingTurns s !! 0%nat.

(** What [nextTurn] returns: [{ nextCharacter, turnQueue }]. *)
Record NextTurn : Type := mkNextTurn {
  nextCharacter : option ref;
  nt_turnQueue : list ref
}.

Definition nextTurn (fuel : nat) (s : BattleSystem) : res NextTurn :=
  let finish (s' : BattleSystem) : res NextTurn :=
    Ok s' (mkNextTurn (getCurrentCharacter s') (turnQueue s')) in
  match getCurrentCharacter s with
  | Some currentChar =>
      let charId := getCharId (heap s currentChar) in
      let s1 := set_actionBars s
                  (<[charId := jssub (actionBars s !! charId) ACTION_THRESHOLD]> (actionBars s)) in
      let s2 := set_upcomingTurns (set_turnHistory s1 (turnHistory s1 ++ [currentChar]))
                                  (drop 1 (upcomingTurns s1)) in
      '(s3, _) <- (if Nat.ltb (length (upcomingTurns s2)) 20
                   then calculateUpcomingTurns fuel s2 20 else Ok s2 tt) ;;
      finish (set_turnQueue s3 (take 6 (upcomingTurns s3)))
  | None => finish s
  end.

Definition updateTurnQueue (fuel : nat) (s : BattleSystem) : res unit :=
  let allCharacters := playerTeam s ++ enemyTeam s in
  let bars := fold_left (fun m r => if negb (isAlive (heap s r))
                                     then delete (getCharId (heap s r)) m else m)
                        allCharacters (actionBars s) in
  '(s1, _) <- calculateUpcomingTurns fuel (set_actionBars s bars) 20 ;;
  Ok (set_turnQueue s1 (take 6 (upcomingTurns s1))) tt.

(** The record a single attack returns. *)
Record SingleResult : Type := mkSingleResult {
  sr_attacker : string;
  sr_attackGene : option Gene;
  sr_target : string;
  sr_damage : Q;
  sr_effectiveness : Q;
  targetDefeated : bool
}.

(** One entry of [targets] in the record a splash attack returns. *)
Record SplashHit : Type := mkSplashHit {
  sh_name : string;
  sh_damage : Q;
  sh_effectiveness : Q;
  defeated : bool
}.

Record SplashResult : Type := mkSplashResult {
  sp_attacker : string;
  sp_attackGene : option Gene;
  sp_targets : list SplashHit
}.

Inductive TurnResults : Type :=
| SingleTurn (r : SingleResult)
| SplashTurn (r : SplashResult).

(** [targetCharacter] is [None] for [null]: reading its genes throws. *)
Definition processSingleAttack (fuel : nat) (s : BattleSystem) (attacker : ref)
           (attackGene : option Gene) (targetCharacter : option ref) : res SingleResult :=
  match targetCharacter with
  | None => TypeError s
  | Some target =>
      let finalDamage := calculateDamage (heap s attacker) attackGene (heap s target) in
      let effectiveness := getEffectiveness attackGene (heap s target) in
      let '(hit, wasDefeated) := takeDamage (heap s target) finalDamage in
      let s1 := store s target hit in
      let result := mkSingleResult (getDisplayName (heap s1 attacker)) attackGene
                      (getDisplayName (heap s1 target)) finalDamage effectiveness wasDefeated in
      '(s2, _) <- (if wasDefeated then updateTurnQueue fuel s1 else Ok s1 tt) ;;
      Ok s2 result
  end.

(** The targets of a splash attack. *)
Definition splashTargets (s : BattleSystem) (attacker : ref) : list ref :=
  if truthy (isPlayer (heap s attacker))
  then take 3 (List.filter (fun r => isAlive (heap s r)) (enemyTeam s))
  else take 3 (List.filter (fun r => isAlive (heap s r)) (playerTeam s)).

(** One iteration of [for (const target of targets)]. *)
Definition splashHit (attacker : ref) (attackGene : option Gene)
           (acc : BattleSystem * list SplashHit) (target : ref)
  : BattleSystem * list SplashHit :=
  let '(s, hits) := acc in
  let singleDamage := calculateDamage (heap s attacker) attackGene (heap s target) in
  let splashDamage := (singleDamage * SPLASH_DAMAGE_MULTIPLIER)%Q in
  let effectiveness := getEffectiveness attackGene (heap s target) in
  let '(hit, wasDefeated) := takeDamage (heap s target) splashDamage in
  let s1 := store s target hit in
  (s1, hits ++ [mkSplashHit (getDisplayName (heap s1 target)) splashDamage
                            effectiveness wasDefeated]).

Definition processSplashAttack (fuel : nat) (s : BattleSystem) (attacker : ref)
           (attackGene : option Gene) : res SplashResult :=
  let targets := splashTargets s attacker in
  let name := getDisplayName (heap s attacker) in
  let '(s1, hits) := fold_left (splashHit attacker attackGene) targets (s, []) in
  '(s2, _) <- updateTurnQueue fuel s1 ;;
  Ok s2 (mkSplashResult name attackGene hits).

(** [some(char => char.isAlive())] *)
Definition someAlive (s : BattleSystem) (team : list ref) : bool :=
  existsb (fun r => isAlive (heap s r)) team.

(** [{ ended, winner }]; [winner] is absent when [ended] is false. *)
Definition checkBattleEnd (s : BattleSystem) : BattleSystem * (bool * option Winner) :=
  let playerAlive := someAlive s (playerTeam s) in
  let enemyAlive := someAlive s (enemyTeam s) in
  if negb playerAlive || negb enemyAlive then
    (clearAllTimers (set_battlePhase s ended),
     (true, Some (if playerAlive then player else enemy)))
  else (s, (false, None)).

(** What [processTurn] resolves to. *)
Inductive TurnOutcome : Type :=
| Failure (reason : Reason)
| Success (turnResults : TurnResults) (battleEnded : bool) (winner : option Winner).

(** The branch of [processTurn] on [attackObj.type]. *)
Definition resolveAttack (fuel : nat) (s : BattleSystem) (attacker : ref)
           (attackObj : AttackObj) (targetCharacter : option ref) : res TurnResults :=
  if decide (type attackObj = splash)
  then '(s', r) <- processSplashAttack fuel s attacker (gene attackObj) ;;
       Ok s' (SplashTurn r)
  else '(s', r) <- processSingleAttack fuel s attacker (gene attackObj) targetCharacter ;;
       Ok s' (SingleTurn r).

Definition processTurn (fuel : nat) (s : BattleSystem) (attackObj : AttackObj)
           (targetCharacter : option ref) : res TurnOutcome :=
  if isProcessingTurn s then Ok s (Failure already_processing)
  else
    let s1 := set_isProcessingTurn s true in
    match getCurrentCharacter s1 with
    | Some attacker =>
        if negb (isAlive (heap s1 attacker))
        then Ok (set_isProcessingTurn s1 false) (Failure invalid_attacker)
        else
          '(s2, turnResults) <- resolveAttack fuel s1 attacker attackObj targetCharacter ;;
          let '(s3, (isEnded, won)) := checkBattleEnd s2 in
          if isEnded
          then Ok (set_isProcessingTurn s3 false) (Success turnResults true won)
          else Ok (set_isProcessingTurn s3 false) (Success turnResults false None)
    | None => Ok (set_isProcessingTurn s1 false) (Failure invalid_attacker)
    end.

Definition getAvailableTargets (s : BattleSystem) : list ref :=
  match getCurrentCharacter s with
  | None => []
  | Some currentChar =>
      if truthy (isPlayer (heap s currentChar))
      then List.filter (fun r => isAlive (heap s r)) (enemyTeam s)
      else List.filter (fun r => isAlive (heap s r)) (playerTeam s)
  end.

(** [Math.floor(Math.random() * n)], for a draw [r] of [Math.random]. *)
Definition randomIndex (r : Q) (n : nat) : nat :=
  Z.to_nat (Qfloor (r * inject_Z (Z.of_nat n))).

(** [this.playerTeam.some(pChar => pChar.id === i)] *)
Definition inPlayerTeam (s : BattleSystem) (i : string) : bool :=
  existsb (fun p => String.eqb (id (heap s p)) i) (playerTeam s).

(** The decimal digit of [i + 1]; the loops below have [i < TEAM_SIZE]. *)
Definition digit_string (n : nat) : string :=
  String (ascii_of_nat (48 + n)) EmptyString.

(** [findIndex(char => char.id === i)] then [splice(index, 1)]; an index of
    -1 makes [splice] remove the last element. *)
Fixpoint findIndex_id (i : string) (l : list GameCharacter) : option nat :=
  match l with
  | [] => None
  | c :: l' => if String.eqb (id c) i then Some O
               else option_map S (findIndex_id i l')
  end.

Definition splice_id (i : string) (l : list GameCharacter) : list GameCharacter :=
  match findIndex_id i l with
  | Some n => delete n l
  | None => removelast l
  end.

(** The loop of the first branch of [generateEnemyTeam]: duplicates are
    allowed, and an id that the player team holds gets a suffix. *)
Fixpoint pickWithDuplicates (rand : nat -> Q) (allAvailable : list GameCharacter)
         (idxs : list nat) (s : BattleSystem) : res unit :=
  match idxs with
  | [] => Ok s tt
  | i :: idxs' =>
      match allAvailable !! randomIndex (rand i) (length allAvailable) with
      | None => TypeError s
      | Some randomChar =>
          let enemyChar := clone randomChar in
          let enemyChar1 :=
            if inPlayerTeam s (id enemyChar)
            then set_id enemyChar (id enemyChar +:+ "-E" +:+ digit_string (i + 1))
            else enemyChar in
          let enemyChar2 := set_isPlayer (resetForBattle enemyChar1) (Some false) in
          let '(s1, r) := alloc s enemyChar2 in
          pickWithDuplicates rand allAvailable idxs'
            (set_enemyTeam s1 (enemyTeam s1 ++ [r]))
      end
  end.

(** The loop of the second branch: a picked character leaves the pool. *)
Fixpoint pickDistinct (rand : nat -> Q) (availableCharacters : list GameCharacter)
         (idxs : list nat) (s : BattleSystem) : res unit :=
  match idxs with
  | [] => Ok s tt
  | i :: idxs' =>
      match availableCharacters !! randomIndex (rand i) (length availableCharacters) with
      | None => TypeError s
      | Some randomChar =>
          let enemyChar := set_isPlayer (resetForBattle (clone randomChar)) (Some false) in
          let '(s1, r) := alloc s enemyChar in
          pickDistinct rand (splice_id (id randomChar) availableCharacters) idxs'
            (set_enemyTeam s1 (enemyTeam s1 ++ [r]))
      end
  end.

(** [characters] is [Object.values(this.game.characters)]. *)
Definition generateEnemyTeam (rand : nat -> Q) (characters : list GameCharacter)
           (s : BattleSystem) : res unit :=
  let availableCharacters :=
    List.filter (fun c => unlocked c && negb (inPlayerTeam s (id c))) characters in
  if Nat.ltb (length availableCharacters) TEAM_SIZE then
    let allAvailable := List.filter unlocked characters in
    pickWithDuplicates rand allAvailable (seq 0 TEAM_SIZE) (set_enemyTeam s [])
  else
    pickDistinct rand availableCharacters (seq 0 TEAM_SIZE) (set_enemyTeam s []).

(** One step of [playerTeam.map(char => ...)]. *)
Definition clonePlayer (acc : BattleSystem * list ref) (char : GameCharacter)
  : BattleSystem * list ref :=
  let '(s, team) := acc in
  let cloned := set_isPlayer (resetForBattle (clone char)) (Some true) in
  let '(s1, r) := alloc s cloned in
  (s1, team ++ [r]).

(** What [setupBattle] returns. *)
Record SetupResult : Type := mkSetupResult {
  su_playerTeam : list ref;
  su_enemyTeam : list ref;
  firstCharacter : option ref
}.

Definition setupBattle (fuel : nat) (rand : nat -> Q) (characters : list GameCharacter)
           (s : BattleSystem) (playerTeam : list GameCharacter) : res SetupResult :=
  let '(s0, team) := fold_left clonePlayer playerTeam (s, []) in
  let s1 := set_playerTeam s0 team in
  '(s2, _) <- generateEnemyTeam rand characters s1 ;;
  '(s3, _) <- createTurnQueue fuel s2 ;;
  let s4 := set_selectedAttackObj
              (set_isProcessingTurn
                 (set_attackButtonsDisabled
                    (set_battleLog (set_battlePhase s3 battle) []) false) false) None in
  Ok s4 (mkSetupResult (Battle.playerTeam s4) (enemyTeam s4) (getCurrentCharacter s4)).

(** [reset] *)
Definition reset (s : BattleSystem) : BattleSystem :=
  mkBattle (heap s) (nextRef s) [] [] [] setup [] (difficulty s) ∅ [] []
           false false None None None.

End Battle.

Export Battle.

(** ** The caller of setupBattle (breedinggame.js) *)

Module Game.

(** [this.characters[id]], the characters being keyed by their id. *)
Definition lookup_character (characters : list GameCharacter) (i : string)
  : option GameCharacter :=
  List.find (fun c => String.eqb (id c) i) characters.

(** [selectedBattleTeam.map(id => this.characters[id])]; [None] when some
    id has no character, which makes [setupBattle] throw at its first
    [clone]. *)
Fixpoint selectedCharacters (characters : list GameCharacter) (ids : list string)
  : option (list GameCharacter) :=
  match ids with
  | [] => Some []
  | i :: ids' =>
      match lookup_character characters i, selectedCharacters characters ids' with
      | Some c, Some cs => Some (c :: cs)
      | _, _ => None
      end
  end.

(** [startBattle]; rendering the arena is left out. *)
Definition startBattle (fuel : nat) (rand : nat -> Q) (characters : list GameCharacter)
           (selectedBattleTeam : list string) (s : BattleSystem) : res unit :=
  if negb (Nat.eqb (length selectedBattleTeam) 3) then Ok s tt
  else
    match selectedCharacters characters selectedBattleTeam with
    | None => TypeError s
    | Some playerTeam =>
        '(s1, _) <- setupBattle fuel rand characters s playerTeam ;;
        Ok s1 tt
    end.

End Game.

Export Game.

(** ** The BattleAI class *)

Module AI.

(** The fields of [BattleAI] besides the battle system it points to. *)
Record BattleAI : Type := mkAI {
  ai_difficulty : Difficulty;
  thinkingTimer : option nat
}.

(** What [evaluateSplashAttack] returns. *)
Record SplashEval : Type := mkSplashEval {
  se_score : Q;
  totalDamage : Q;
  killCount : Q;
  effectivenessBonus : Q
}.

(** What [evaluateSingleAttack] returns. *)
Record SingleEval : Type := mkSingleEval {
  score : Q;
  damage : Q;
  effectiveness : Q;
  threatScore : Q;
  willKill : bool
}.

(** [{ attack, target }] *)
Record Move : Type := mkMove {
  attack : option AttackObj;
  target : option ref
}.

Record Decision : Type := mkDecision {
  success : bool;
  d_attack : option AttackObj;
  d_target : option ref;
  wasSmartMove : bool;
  d_difficulty : Difficulty
}.

Section WithHeap.

Variable h : ref -> GameCharacter.

(** One iteration of the loop of [evaluateSplashAttack], on the triple
    (totalDamage, killCount, effectivenessBonus). *)
Definition splashStep (attacker : ref) (attackObj : AttackObj)
           (acc : Q * Q * Q) (target : ref) : Q * Q * Q :=
  let '(total, kills, bonus) := acc in
  let eff := getEffectiveness (gene attackObj) (h target) in
  let dmg := ((Character.attack (stats (h attacker)) * eff) * SPLASH_DAMAGE_MULTIPLIER)%Q in
  let total1 := (total + dmg)%Q in
  let kills1 := if Qle_bool (hp (stats (h target))) dmg then (kills + 1)%Q else kills in
  let bonus1 := if Qle_bool (5#4) eff then (bonus + 50 * eff)%Q else bonus in
  (total1, kills1, bonus1).

Definition evaluateSplashAttack (attacker : ref) (attackObj : AttackObj)
           (availableTargets : list ref) : SplashEval :=
  let '(total, kills, bonus) :=
    fold_left (splashStep attacker attackObj) availableTargets (0, 0, 0)%Q in
  mkSplashEval (total + (kills * 200) + bonus)%Q total kills bonus.

(** [allTargets] is never empty here: the only caller passes the list the
    [target] was taken from, so the average divides by a positive length. *)
Definition calculateThreatLevel (target : ref) (allTargets : list ref) : Q :=
  let t0 := 0%Q in
  let t1 := (t0 + Character.attack (stats (h target)) * (3#10))%Q in
  let t2 := (t1 + speed (stats (h target)) * (2#10))%Q in
  let avgAttack :=
    (fold_left (fun sum t => (sum + Character.attack (stats (h t)))%Q) allTargets 0%Q
     / inject_Z (Z.of_nat (length allTargets)))%Q in
  let t3 := if Qlt_bool avgAttack (Character.attack (stats (h target)))
            then (t2 + 50)%Q else t2 in
  let healthPercentage := getHealthPercentage (h target) in
  let t4 := if Qlt_bool 75 healthPercentage then (t3 + 30)%Q
            else if Qlt_bool healthPercentage 25 then (t3 - 20)%Q
            else t3 in
  match getRarity (h target) with
  | rare => (t4 + 40)%Q
  | uncommon => (t4 + 20)%Q
  | common => (t4 + 10)%Q
  end.

Definition evaluateSingleAttack (attacker : ref) (attackObj : AttackObj)
           (target : ref) (allTargets : list ref) : SingleEval :=
  let dmg := calculateDamage (h attacker) (gene attackObj) (h target) in
  let eff := getEffectiveness (gene attackObj) (h target) in
  let s0 := dmg in
  let s1 := if Qle_bool (hp (stats (h target))) dmg then (s0 + 500)%Q else s0 in
  let s2 := if Qle_bool (hp (stats (h target)))
                        (Character.attack (stats (h attacker)) * (3#2))
            then (s1 + 100)%Q else s1 in
  let s3 := if Qle_bool (5#4) eff then (s2 + 50 * eff)%Q
            else if Qle_bool eff (3#4) then (s2 - 25)%Q
            else s2 in
  let threat := calculateThreatLevel target allTargets in
  let s4 := (s3 + threat)%Q in
  let healthPercentage := getHealthPercentage (h target) in
  let s5 := if Qlt_bool healthPercentage 50
               && Qlt_bool (Character.attack (stats (h attacker)) * (8#10))
                           (Character.attack (stats (h target)))
            then (s4 + 75)%Q else s4 in
  mkSingleEval s5 dmg eff threat (Qle_bool (hp (stats (h target))) dmg).

(** [score > bestScore], where [bestScore] starts as [-Infinity] ([None]). *)
Definition beats (sc : Q) (bestScore : option Q) : bool :=
  match bestScore with
  | None => true
  | Some b => Qlt_bool b sc
  end.

(** The inner loop of [calculateBestMove], over the targets of a single
    attack; the accumulator is (bestMove, bestScore). *)
Definition tryTarget (attacker : ref) (attackObj : AttackObj) (availableTargets : list ref)
           (acc : option Move * option Q) (tgt : ref) : option Move * option Q :=
  let singleResult := evaluateSingleAttack attacker attackObj tgt availableTargets in
  if beats (score singleResult) (snd acc)
  then (Some (mkMove (Some attackObj) (Some tgt)), Some (score singleResult))
  else acc.

(** The outer loop, over the attacks. *)
Definition tryAttack (attacker : ref) (availableTargets : list ref)
           (acc : option Move * option Q) (attackObj : AttackObj) : option Move * option Q :=
  if decide (type attackObj = splash) then
    let splashResult := evaluateSplashAttack attacker attackObj availableTargets in
    if beats (se_score splashResult) (snd acc)
    then (Some (mkMove (Some attackObj) (availableTargets !! 0%nat)),
          Some (se_score splashResult))
    else acc
  else fold_left (tryTarget attacker attackObj availableTargets) availableTargets acc.

Definition calculateBestMove (attacker : ref) (availableTargets : list ref) : Move :=
  let attackObjs := getAttackGenes (h attacker) in
  let '(bestMove, _) :=
    fold_left (tryAttack attacker availableTargets) attackObjs (None, None) in
  match bestMove with
  | Some m => m
  | None => mkMove (attackObjs !! 0%nat) (availableTargets !! 0%nat)
  end.

(** [rand 0] decides between the smart and the random move; a random move
    draws [rand 1] for the attack and [rand 2] for the target. *)
Definition makeDecision (rand : nat -> Q) (this : BattleAI) (attacker : ref)
           (availableTargets : list ref) : Decision :=
  let shouldMakeSmartMove := Qlt_bool (rand 0%nat) (smartMoveChance (ai_difficulty this)) in
  let '(selectedAttack, selectedTarget) :=
    if shouldMakeSmartMove then
      let bestMove := calculateBestMove attacker availableTargets in
      (attack bestMove, target bestMove)
    else
      let attackObjs := getAttackGenes (h attacker) in
      (attackObjs !! randomIndex (rand 1%nat) (length attackObjs),
       availableTargets !! randomIndex (rand 2%nat) (length availableTargets)) in
  mkDecision true selectedAttack selectedTarget shouldMakeSmartMove (ai_difficulty this).

End WithHeap.

End AI.

Export AI.

(** ** The rest of the GameCharacter class *)

Module CharacterOps.


Definition isDefeated (this : GameCharacter) : bool :=
  Qeq_bool (hp (stats this)) 0.

(** [ToInt32]: the value of a bitwise operator, in [-2^31, 2^31). *)
Definition toInt32 (z : Z) : Z := ((z + 2 ^ 31) mod 2 ^ 32 - 2 ^ 31)%Z.

(** The body of the loop of [hashCode]: [hash = ((hash << 5) - hash) + char]
    then [hash = hash & hash], for a character of code [char]. *)
Definition hashStep (hash : Z) (c : ascii) : Z :=
  let char := Z.of_nat (nat_of_ascii c) in
  let hash1 := (toInt32 (Z.shiftl (toInt32 hash) 5) - hash + char)%Z in
  toInt32 (Z.land (toInt32 hash1) (toInt32 hash1)).

Fixpoint hashCode_from (str : string) (hash : Z) : Z :=
  match str with
  | EmptyString => hash
  | String c str' => hashCode_from str' (hashStep hash c)
  end.

Definition hashCode (str : string) : Z := hashCode_from str 0%Z.

Definition getStatTotal (this : GameCharacter) : Q :=
  (maxHp (stats this) + Character.attack (stats this) + speed (stats this))%Q.

(** The object [toJSON] builds; [j_stats] may be missing in a saved
    object. *)
Record CharacterJSON : Type := mkJSON {
  j_id : string;
  j_genes : list Gene;
  j_unlocked : bool;
  j_stats : option Stats
}.

Definition toJSON (this : GameCharacter) : CharacterJSON :=
  mkJSON (id this) (genes this) (unlocked this) (Some (stats this)).

Definition fromJSON (data : CharacterJSON) : GameCharacter :=
  let character := new_GameCharacter (j_id data) (j_genes data) (j_unlocked data) in
  match j_stats data with
  | Some st => mkChar (id character) (genes character) (unlocked character) st
                      (isPlayer character)
  | None => character
  end.

End CharacterOps.

Export CharacterOps.

(** ** The battle log (battlesystem.js) *)

Module BattleLog.

(** [addBattleLog]: at most the ten latest entries are kept. *)
Definition addBattleLog (s : BattleSystem) (message className : string)
  : BattleSystem * list LogEntry :=
  let log1 := battleLog s ++ [mkLog message className] in
  let log2 := if Nat.ltb 10 (length log1) then drop 1 log1 else log1 in
  (set_battleLog s log2, log2).

Definition getBattleLog (s : BattleSystem) : list LogEntry := battleLog s.

End BattleLog.

Export BattleLog.

(** ** The game state (breedinggame.js) *)

Module GameState.

(** The name of a gene, as the ids spell it. *)
Definition gene_name (g : Gene) : string :=
  match g with
  | Red => "Red" | Orange => "Orange" | Yellow => "Yellow"
  | Green => "Green" | Blue => "Blue" | Purple => "Purple"
  | Neutral => "Neutral"
  end.

(** [generateCharacters], as [Object.values] lists it: the six single-gene
    characters, unlocked, then the thirty-six pairs, locked. *)
Definition generateCharacters : list GameCharacter :=
  map (fun gene => new_GameCharacter (gene_name gene) [gene] true) GENES
  ++ flat_map
       (fun primary =>
          map (fun secondary =>
                 new_GameCharacter (gene_name primary +:+ "-" +:+ gene_name secondary)
                                   [primary; secondary] false)
              GENES)
       GENES.

(** The fields of [BreedingGame] that the battle reads. *)
Record BreedingGame : Type := mkGame {
  characters : list GameCharacter;
  selectedBattleTeam : list string;
  victoryShown : bool
}.

(** The state the constructor and [resetGame] build. *)
Definition newGame : BreedingGame := mkGame generateCharacters [] false.

(** [this.characters[characterId].unlocked = true] *)
Definition unlockCharacter (g : BreedingGame) (characterId : string) : BreedingGame :=
  mkGame (map (fun c => if String.eqb (id c) characterId
                        then mkChar (id c) (genes c) true (stats c) (isPlayer c)
                        else c) (characters g))
         (selectedBattleTeam g) (victoryShown g).

Definition unlockAllCharacters (g : BreedingGame) : BreedingGame :=
  mkGame (map (fun c => if negb (unlocked c)
                        then mkChar (id c) (genes c) true (stats c) (isPlayer c)
                        else c) (characters g))
         (selectedBattleTeam g) true.

Definition getUnlockedCharacters (g : BreedingGame) : list GameCharacter :=
  List.filter unlocked (characters g).

Definition toggleBattleTeamSelection (g : BreedingGame) (characterId : string)
  : BreedingGame :=
  if existsb (String.eqb characterId) (selectedBattleTeam g) then
    mkGame (characters g)
           (List.filter (fun i => negb (String.eqb i characterId)) (selectedBattleTeam g))
           (victoryShown g)
  else if Nat.ltb (length (selectedBattleTeam g)) 3 then
    mkGame (characters g) (selectedBattleTeam g ++ [characterId]) (victoryShown g)
  else g.

(** [selectRandomTeam]; [shuffled] is what [sort] with the random comparator
    returns, some rearrangement of the unlocked characters. *)
Definition selectRandomTeam (g : BreedingGame) (shuffled : list GameCharacter)
  : BreedingGame :=
  if Nat.ltb (length (getUnlockedCharacters g)) 3 then g
  else mkGame (characters g) (map id (take 3 shuffled)) (victoryShown g).

(** [returnToSetup], on the game and on the battle system. *)
Definition returnToSetup (g : BreedingGame) (s : BattleSystem)
  : BreedingGame * BattleSystem :=
  (mkGame (characters g) [] (victoryShown g), reset s).

(** [startBattle] on the game state. *)
Definition startBattleOf (fuel : nat) (rand : nat -> Q) (g : BreedingGame)
           (s : BattleSystem) : res unit :=
  startBattle fuel rand (characters g) (selectedBattleTeam g) s.

End GameState.

(** ** Offspring (breedinglogic.js) *)

Module Breeding.

(** [offspring.includes(combo)] *)
Definition includes (l : list string) (x : string) : bool :=
  existsb (String.eqb x) l.

(** The body of the inner loop of [getPossibleOffspring]. *)
Definition addCombos (gene1 : Gene) (offspring : list string) (gene2 : Gene)
  : list string :=
  let combo1 := GameState.gene_name gene1 +:+ "-" +:+ GameState.gene_name gene2 in
  let combo2 := GameState.gene_name gene2 +:+ "-" +:+ GameState.gene_name gene1 in
  let offspring1 := if negb (includes offspring combo1)
                    then offspring ++ [combo1] else offspring in
  if negb (includes offspring1 combo2) && negb (String.eqb combo1 combo2)
  then offspring1 ++ [combo2] else offspring1.

Definition getPossibleOffspring (parent1 parent2 : GameCharacter) : list string :=
  fold_left (fun offspring gene1 => fold_left (addCombos gene1) (genes parent2) offspring)
            (genes parent1) [].

End Breeding.

(** ** Turns as the controls run them (battlecontrols.js, battleai.js) *)

Module Controls.

(** [executePlayerTurn]: the attack, and the advance to the next turn when
    the attack succeeded and the battle goes on. Rendering is left out. *)
Definition executePlayerTurn (fuel : nat) (s : BattleSystem) (attackObj : AttackObj)
           (target : option ref) : res (TurnOutcome * option NextTurn) :=
  '(s1, result) <- processTurn fuel s attackObj target ;;
  match result with
  | Success _ false _ =>
      '(s2, nextTurnData) <- nextTurn fuel s1 ;;
      Ok s2 (result, Some nextTurnData)
  | _ => Ok s1 (result, None)
  end.

(** What an AI turn comes to: no target was available, or a decision was
    made and carried out. *)
Inductive AITurn : Type :=
| NoTargets
| Decided (decision : Decision) (result : TurnOutcome) (next : option NextTurn).

(** [processAITurn] of the controls around [processAITurn] of the AI: the
    decision for the current character, then the turn as above. The delay
    of the thinking timer is left out. An attack that is [undefined] makes
    [processTurn] throw once it holds the processing flag. *)
Definition processAITurn (fuel : nat) (rand : nat -> Q) (ai : BattleAI)
           (s : BattleSystem) : res AITurn :=
  let availableTargets := getAvailableTargets s in
  match getCurrentCharacter s with
  | None => Ok s NoTargets
  | Some attacker =>
      if Nat.eqb (length availableTargets) 0 then Ok s NoTargets
      else
        let decision := makeDecision (heap s) rand ai attacker availableTargets in
        match d_attack decision with
        | None =>
            if isProcessingTurn s then Ok s (Decided decision (Failure already_processing) None)
            else if negb (isAlive (heap s attacker))
                 then Ok s (Decided decision (Failure invalid_attacker) None)
                 else TypeError (set_isProcessingTurn s true)
        | Some attackObj =>
            '(s1, r) <- executePlayerTurn fuel s attackObj (d_target decision) ;;
            Ok s1 (Decided decision (fst r) (snd r))
        end
  end.

End Controls.

(** * Vocabulary of the statements *)

(** The members of both teams, allies first. *)
Definition teamMembers (s : BattleSystem) : list ref := playerTeam s ++ enemyTeam s.

(** The action-bar keys of the members of both teams. *)
Definition teamKeys (s : BattleSystem) : list string :=
  map (fun r => getCharId (heap s r)) (teamMembers s).

(** A battle state as [setupBattle] leaves it and the turns keep it: the
    members of the two teams have pairwise distinct action-bar keys, every
    living member has a numeric action bar, speeds are positive, the
    [isPlayer] flag of a member says which team it is in, and the upcoming
    turns belong to members. *)
Record well_formed (s : BattleSystem) : Prop := mk_well_formed {
  wf_keys : NoDup (teamKeys s);
  wf_bars : forall r, In r (teamMembers s) -> isAlive (heap s r) = true ->
                      exists b, actionBars s !! getCharId (heap s r) = Some (Fin b);
  wf_speed : forall r, In r (teamMembers s) -> (0 < speed (stats (heap s r)))%Q;
  wf_player : forall r, In r (playerTeam s) -> isPlayer (heap s r) = Some true;
  wf_enemy : forall r, In r (enemyTeam s) -> isPlayer (heap s r) = Some false;
  wf_turns : forall r, In r (upcomingTurns s) -> In r (teamMembers s)
}.

(** The same, as a check that runs. *)
Definition well_formedb (s : BattleSystem) : bool :=
  bool_decide (NoDup (teamKeys s))
  && forallb (fun r => negb (isAlive (heap s r))
                       || match actionBars s !! getCharId (heap s r) with
                          | Some (Fin _) => true
                          | _ => false
                          end) (teamMembers s)
  && forallb (fun r => Qlt_bool 0 (speed (stats (heap s r)))) (teamMembers s)
  && forallb (fun r => bool_decide (isPlayer (heap s r) = Some true)) (playerTeam s)
  && forallb (fun r => bool_decide (isPlayer (heap s r) = Some false)) (enemyTeam s)
  && forallb (fun r => existsb (Nat.eqb r) (teamMembers s)) (upcomingTurns s).

(** The number of living members of a team. *)
Definition livingCount (s : BattleSystem) (team : list ref) : nat :=
  length (List.filter (fun r => isAlive (heap s r)) team).


(** ** A concrete battle *)

Module Example.

(** The creatures of a game in which nine are unlocked. *)
Definition characters : list GameCharacter :=
  [ new_GameCharacter "Red" [Red] true;
    new_GameCharacter "Orange" [Orange] true;
    new_GameCharacter "Yellow" [Yellow] true;
    new_GameCharacter "Green" [Green] true;
    new_GameCharacter "Blue" [Blue] true;
    new_GameCharacter "Purple" [Purple] true;
    new_GameCharacter "Blue-Blue" [Blue; Blue] true;
    new_GameCharacter "Yellow-Red" [Yellow; Red] true;
    new_GameCharacter "Yellow-Yellow" [Yellow; Yellow] true;
    new_GameCharacter "Green-Purple" [Green; Purple] false ].

Definition roster : list GameCharacter :=
  [ new_GameCharacter "Red" [Red] true;
    new_GameCharacter "Blue-Blue" [Blue; Blue] true;
    new_GameCharacter "Purple" [Purple] true ].

(** A random source: the three draws of the enemy team pick Yellow,
    Yellow-Red and Yellow-Yellow. *)
Definition rand (n : nat) : Q :=
  match n with
  | 0%nat => 1 # 6
  | 1%nat => 4 # 5
  | _ => 9 # 10
  end.

(** A battle system as its constructor leaves it. *)
Definition fresh : BattleSystem :=
  mkBattle (fun _ => new_GameCharacter "" [] false) 0 [] [] [] setup [] EASY ∅ [] []
           false false None None None.

(** The state after [setupBattle(roster)]. *)
Definition started : BattleSystem :=
  match setupBattle 200 rand characters fresh roster with
  | Ok st _ => st
  | _ => fresh
  end.

(** A roster of two. *)
Definition short_roster : list GameCharacter :=
  [ new_GameCharacter "Red" [Red] true;
    new_GameCharacter "Orange" [Orange] true ].

(** The same battle with a turn in flight. *)
Definition busy : BattleSystem := set_isProcessingTurn started true.

(** The battle later on: two enemies are defeated, the Yellow at reference
    3 has 30 hit points left, and the turn queue has been updated. *)
Definition last_stand : BattleSystem :=
  let wounded :=
    store (store (store started 4%nat (set_hp (heap started 4%nat) 0))
                 5%nat (set_hp (heap started 5%nat) 0))
          3%nat (set_hp (heap started 3%nat) 30) in
  match updateTurnQueue 200 wounded with
  | Ok st _ => st
  | _ => wounded
  end.

(** Simulated action bars in which the ally Red (reference 0) and the
    opponents Yellow (3) and Yellow-Red (5), all of speed 40, reach the
    threshold in the same tick. *)
Definition tied : gmap string jsnum :=
  list_to_map [ ("Red-P", Fin 1000); ("Yellow-E", Fin 1000); ("Yellow-Red-E", Fin 1000);
                ("Blue-Blue-P", Fin 600); ("Purple-P", Fin 0);
                ("Yellow-Yellow-E", Fin 200) ].

End Example.


(** The damage a splash attack deals to [t], and the entry it reports. *)
Definition splashDamageOn (s : BattleSystem) (attacker : ref) (attackGene : option Gene)
           (t : ref) : Q :=
  (Character.attack (stats (heap s attacker)) * getEffectiveness attackGene (heap s t)
   * SPLASH_DAMAGE_MULTIPLIER)%Q.

Definition splashHitOf (s : BattleSystem) (attacker : ref) (attackGene : option Gene)
           (t : ref) : SplashHit :=
  mkSplashHit (getDisplayName (heap s t)) (splashDamageOn s attacker attackGene t)
              (getEffectiveness attackGene (heap s t))
              (Qeq_bool (Qmax 0 (hp (stats (heap s t))
                                 - splashDamageOn s attacker attackGene t)) 0).


(** Every numeric action bar of [bars] is below [bound]. *)
Definition bars_below (bars : gmap string jsnum) (bound : Q) : Prop :=
  forall k v, bars !! k = Some (Fin v) -> (v < bound)%Q.

(** No member of a team is faster than one threshold per tick. *)
Definition speeds_bounded (s : BattleSystem) : Prop :=
  forall r, In r (teamMembers s) -> (speed (stats (heap s r)) <= ACTION_THRESHOLD)%Q.


(** [bars_below] and [speeds_bounded] as checks that run. *)
Definition bars_belowb (bars : gmap string jsnum) (bound : Q) : bool :=
  forallb (fun e => match snd e with Fin v => Qlt_bool v bound | NaN => true end)
          (map_to_list bars).

Definition speeds_boundedb (s : BattleSystem) : bool :=
  forallb (fun r => Qle_bool (speed (stats (heap s r))) ACTION_THRESHOLD) (teamMembers s).


(** The index the comparator takes for a character: its position in the
    team its [isPlayer] flag names. *)
Definition ownIndex (s : BattleSystem) (a : ref) : Z :=
  if truthy (isPlayer (heap s a)) then indexOf (playerTeam s) a
  else indexOf (enemyTeam s) a.

(** [a] acts before [b] by the tie-break chain of the specification: a
    higher action bar; on a tie a lower speed; on a tie an ally before an
    opponent; on a tie the earlier position in the team list. *)
Definition precedes (s : BattleSystem) (sim : gmap string jsnum) (a b : ref) : Prop :=
  exists ba bb,
    sim !! getCharId (heap s a) = Some (Fin ba)
    /\ sim !! getCharId (heap s b) = Some (Fin bb)
    /\ ((bb < ba)%Q
        \/ ((ba == bb)%Q
            /\ ((speed (stats (heap s a)) < speed (stats (heap s b)))%Q
                \/ ((speed (stats (heap s a)) == speed (stats (heap s b)))%Q
                    /\ ((In a (playerTeam s) /\ In b (enemyTeam s))
                        \/ exists i j,
                            (i < j)%nat
                            /\ ((playerTeam s !! i = Some a /\ playerTeam s !! j = Some b)
                                \/ (enemyTeam s !! i = Some a
                                    /\ enemyTeam s !! j = Some b))))))).

(** The four keys as numbers, and their lexicographic order. *)
Definition sideRank (s : BattleSystem) (a : ref) : Q :=
  if truthy (isPlayer (heap s a)) then 0 else 1.

Definition lexle (s : BattleSystem) (ba bb : Q) (a b : ref) : Prop :=
  (bb < ba)%Q
  \/ ((ba == bb)%Q
      /\ ((speed (stats (heap s a)) < speed (stats (heap s b)))%Q
          \/ ((speed (stats (heap s a)) == speed (stats (heap s b)))%Q
              /\ ((sideRank s a < sideRank s b)%Q
                  \/ ((sideRank s a == sideRank s b)%Q
                      /\ (inject_Z (ownIndex s a) <= inject_Z (ownIndex s b))%Q))))).


(** The candidates the heuristic considers, each with its score: for every
    attack option, one candidate if it is a splash attack (the target is
    the first available one and does not matter), and one per available
    target if it is a single attack. *)
Definition candidates (h : ref -> GameCharacter) (attacker : ref)
           (availableTargets : list ref) : list (Move * Q) :=
  flat_map
    (fun attackObj =>
       if decide (type attackObj = splash)
       then [ (mkMove (Some attackObj) (availableTargets !! 0%nat),
               se_score (evaluateSplashAttack h attacker attackObj availableTargets)) ]
       else map (fun tgt =>
                   (mkMove (Some attackObj) (Some tgt),
                    score (evaluateSingleAttack h attacker attackObj tgt availableTargets)))
                availableTargets)
    (getAttackGenes (h attacker)).

(** The single-attack score as the specification words it. *)
Definition singleScoreSpec (h : ref -> GameCharacter) (attacker : ref)
           (attackObj : AttackObj) (tgt : ref) (allTargets : list ref) : Q :=
  let dmg := (Character.attack (stats (h attacker))
              * getEffectiveness (gene attackObj) (h tgt))%Q in
  let eff := getEffectiveness (gene attackObj) (h tgt) in
  (dmg
   + (if Qle_bool (hp (stats (h tgt))) dmg then 500 else 0)
   + (if Qle_bool (hp (stats (h tgt))) ((3 # 2) * Character.attack (stats (h attacker)))
      then 100 else 0)
   + (if Qle_bool (5 # 4) eff then 50 * eff
      else if Qle_bool eff (3 # 4) then - (25) else 0)
   + calculateThreatLevel h tgt allTargets
   + (if Qlt_bool (hp (stats (h tgt)) / maxHp (stats (h tgt))) (1 # 2)
         && Qlt_bool ((8 # 10) * Character.attack (stats (h attacker)))
                     (Character.attack (stats (h tgt)))
      then 75 else 0))%Q.

(** One step of a loop that keeps the best candidate seen so far. *)
Definition keepBest (acc : option Move * option Q) (c : Move * Q)
  : option Move * option Q :=
  if beats (snd c) (snd acc) then (Some (fst c), Some (snd c)) else acc.

Module ExampleAI.

(** An enemy of the example battle, the Yellow at reference 3, chooses
    against the three allies at Extreme difficulty. *)
Definition ai : BattleAI := mkAI EXTREME None.
Definition rand (n : nat) : Q := 1 # 2.
Definition targets : list ref := [0; 1; 2]%nat.

End ExampleAI.


(** A character that can take turns: its speed is positive. *)
Definition fit (c : GameCharacter) : Prop := (0 < speed (stats c))%Q.

(** A random source as [Math.random] is: every draw is in [0, 1). *)
Definition unit_draws (rand : nat -> Q) : Prop :=
  forall n, (0 <= rand n)%Q /\ (rand n < 1)%Q.

(** The multiplier of the specification: by the number of steps from the
    attacking gene to the defending gene on the wheel. *)
Definition wheel_effectiveness (a d : Gene) : Q :=
  if decide (a = Neutral) then 1
  else if decide (d = wheel_next a) then 3 # 2
  else if decide (d = wheel_next (wheel_next a)) then 5 # 4
  else if decide (d = wheel_prev a) then 1 # 2
  else if decide (d = wheel_prev (wheel_prev a)) then 3 # 4
  else 1.

(** A character whose gene list starts with [d]; everything else is free. *)
Definition defender (d : Gene) (rest : list Gene) (c : GameCharacter) : GameCharacter :=
  mkChar (id c) (d :: rest) (unlocked c) (stats c) (isPlayer c).

(** The attack values of the stat table. *)
Definition table_attacks : list Q :=
  map (fun e => snd (fst (snd e))) CHARACTER_STATS.

(** The action bars once the entries of the defeated are deleted. *)
Definition barsOfLiving (s : BattleSystem) (members : list ref) (bars : gmap string jsnum)
  : gmap string jsnum :=
  fold_left (fun m r => if negb (isAlive (heap s r))
                        then delete (getCharId (heap s r)) m else m) members bars.

(** The state of [nextTurn] once the bar is consumed and the turn shifted. *)
Definition afterConsumption (s : BattleSystem) (c : ref) : BattleSystem :=
  let charId := getCharId (heap s c) in
  let s1 := set_actionBars s
              (<[charId := jssub (actionBars s !! charId) ACTION_THRESHOLD]> (actionBars s)) in
  set_upcomingTurns (set_turnHistory s1 (turnHistory s1 ++ [c])) (drop 1 (upcomingTurns s1)).

(** What a loop that only allocates characters has done: the state [s']
    extends [s] by the fit characters [new], beyond the old allocation
    pointer, and keeps the old objects. *)
Definition extends (s s' : BattleSystem) (new : list ref) : Prop :=
  (nextRef s <= nextRef s')%nat
  /\ (forall r, (r < nextRef s)%nat -> heap s' r = heap s r)
  /\ (forall r, In r new -> (nextRef s <= r < nextRef s')%nat /\ fit (heap s' r)).

(** A character whose hit points are between 0 and its maximum. *)
Definition hp_in_range (c : GameCharacter) : Prop :=
  (0 <= hp (stats c))%Q /\ (hp (stats c) <= maxHp (stats c))%Q.

(** The polynomial hash of a string: the sum of code(i) * 31^(n-1-i). *)
Fixpoint polyHash_from (str : string) (acc : Z) : Z :=
  match str with
  | EmptyString => acc
  | String c str' => polyHash_from str' (acc * 31 + Z.of_nat (nat_of_ascii c))%Z
  end.

Definition polyHash (str : string) : Z := polyHash_from str 0%Z.

(** A battle between two turns: it is well formed, no attack is in flight,
    at least twenty turns are planned, all of them for living characters,
    and each team has a living member. *)
Record battle_ready (s : BattleSystem) : Prop := mk_battle_ready {
  br_wf : well_formed s;
  br_idle : isProcessingTurn s = false;
  br_turns : forall r, In r (upcomingTurns s) -> isAlive (heap s r) = true;
  br_many : (20 <= length (upcomingTurns s))%nat;
  br_players : someAlive s (playerTeam s) = true;
  br_enemies : someAlive s (enemyTeam s) = true
}.

(** The same, as a check that runs. *)
Definition battle_readyb (s : BattleSystem) : bool :=
  well_formedb s
  && negb (isProcessingTurn s)
  && forallb (fun r => isAlive (heap s r)) (upcomingTurns s)
  && Nat.leb 20 (length (upcomingTurns s))
  && someAlive s (playerTeam s)
  && someAlive s (enemyTeam s).

(** A move the controls can make: any splash attack, or a single attack on
    one of the available targets. *)
Definition legalMove (s : BattleSystem) (attackObj : AttackObj) (target : option ref)
  : Prop :=
  type attackObj <> splash -> exists t, target = Some t /\ In t (getAvailableTargets s).

(** What the attack of a turn leaves behind, [s] being the state before it
    and [s2] the state after it. *)
Record attack_done (s s2 : BattleSystem) (attacker : ref) : Prop := mk_attack_done {
  ad_wf : well_formed s2;
  ad_turns : forall r, In r (upcomingTurns s2) -> isAlive (heap s2 r) = true;
  ad_many : (20 <= length (upcomingTurns s2))%nat;
  ad_players : playerTeam s2 = playerTeam s;
  ad_enemies : enemyTeam s2 = enemyTeam s;
  ad_phase : battlePhase s2 = battlePhase s;
  ad_flag : isProcessingTurn s2 = isProcessingTurn s;
  ad_attacker : heap s2 attacker = heap s attacker;
  ad_history : turnHistory s2 = turnHistory s
}.

(** The sum of a list of numbers, added from the left as a loop does. *)
Definition Qsum (l : list Q) : Q := fold_left Qplus l 0%Q.

(** The copy of a character that enters a battle on the side [p]. *)
Definition battleCopy (p : bool) (c : GameCharacter) : GameCharacter :=
  set_isPlayer (resetForBattle (clone c)) (Some p).

(** What a loop that only allocates has done, with the contents: the state
    [s'] extends [s] by the distinct new objects [new], which hold the
    characters [cs] in this order, and keeps the old objects. *)
Definition allocates (s s' : BattleSystem) (new : list ref) (cs : list GameCharacter)
  : Prop :=
  (nextRef s <= nextRef s')%nat
  /\ (forall r, (r < nextRef s)%nat -> heap s' r = heap s r)
  /\ NoDup new
  /\ (forall r, In r new -> (nextRef s <= r < nextRef s')%nat)
  /\ map (heap s') new = cs.

(** The unlocked characters of the game that the roster does not hold, from
    which the enemies are drawn. *)
Definition availableFor (characters roster : list GameCharacter) : list GameCharacter :=
  List.filter (fun c => unlocked c
                        && negb (existsb (fun p => String.eqb (id p) (id c)) roster))
              characters.

(** The games that the team screen reaches from a new game: characters get
    unlocked (by breeding, whose result is the id of a character of the
    game, or all at once), an unlocked character is toggled in the battle
    team, a random team is chosen ([shuffled] being any rearrangement of
    the unlocked characters), or the player returns from a battle. *)
Inductive reachable : GameState.BreedingGame -> Prop :=
| reach_new : reachable GameState.newGame
| reach_unlock (g : GameState.BreedingGame) (c : GameCharacter) :
    reachable g -> In c (GameState.characters g) ->
    reachable (GameState.unlockCharacter g (id c))
| reach_unlockAll (g : GameState.BreedingGame) :
    reachable g -> reachable (GameState.unlockAllCharacters g)
| reach_toggle (g : GameState.BreedingGame) (c : GameCharacter) :
    reachable g -> In c (GameState.characters g) -> unlocked c = true ->
    reachable (GameState.toggleBattleTeamSelection g (id c))
| reach_random (g : GameState.BreedingGame) (shuffled : list GameCharacter) :
    reachable g -> Permutation shuffled (GameState.getUnlockedCharacters g) ->
    reachable (GameState.selectRandomTeam g shuffled)
| reach_return (g : GameState.BreedingGame) (s : BattleSystem) :
    reachable g -> reachable (fst (GameState.returnToSetup g s)).

(** What every reachable game satisfies: its characters carry the ids of
    the generated ones, in the same order, those unlocked from the start
    still are, and the battle team holds at most three distinct ids of
    characters of the game. *)
Record game_ok (g : GameState.BreedingGame) : Prop := mk_game_ok {
  ok_ids : Forall2 (fun c c0 => id c = id c0 /\ (unlocked c0 = true -> unlocked c = true))
                   (GameState.characters g) GameState.generateCharacters;
  ok_nodup : NoDup (GameState.selectedBattleTeam g);
  ok_three : (length (GameState.selectedBattleTeam g) <= 3)%nat;
  ok_known : forall i, In i (GameState.selectedBattleTeam g) ->
                       In i (map id (GameState.characters g))
}.

(** A new game in which Red, Blue and Purple have been chosen for battle. *)
Definition chosenGame : GameState.BreedingGame :=
  GameState.toggleBattleTeamSelection
    (GameState.toggleBattleTeamSelection
       (GameState.toggleBattleTeamSelection GameState.newGame "Red") "Blue") "Purple".

(** ** Vocabulary of the schedule *)

(** Two states that the scheduler cannot tell apart: the same teams, and
    characters with the same action-bar keys, speeds and sides (they may
    differ in their hit points). *)
Definition alike (s s' : BattleSystem) : Prop :=
  playerTeam s' = playerTeam s
  /\ enemyTeam s' = enemyTeam s
  /\ forall r, getCharId (heap s' r) = getCharId (heap s r)
               /\ speed (stats (heap s' r)) = speed (stats (heap s r))
               /\ isPlayer (heap s' r) = isPlayer (heap s r).

(** The plan of upcoming turns is the one the scheduler computes from the
    action bars as they are, for some number of turns, twenty at least. *)
Definition planned (s : BattleSystem) : Prop :=
  exists n fuel,
    (20 <= n)%nat
    /\ simulate fuel s (aliveCharacters s) n (actionBars s) [] = Some (upcomingTurns s).

(** A battle that is ready and on schedule: the plan is the computed one,
    the action bars are below the threshold and no speed exceeds it. *)
Record on_schedule (s : BattleSystem) : Prop := mk_on_schedule {
  os_ready : battle_ready s;
  os_planned : planned s;
  os_bars : bars_below (actionBars s) ACTION_THRESHOLD;
  os_speeds : speeds_bounded s
}.

(** Action-bar values that are the same number. *)
Definition bar_equiv (v w : option jsnum) : Prop :=
  match v, w with
  | Some (Fin a), Some (Fin b) => (a == b)%Q
  | Some NaN, Some NaN => True
  | None, None => True
  | _, _ => False
  end.

(** Simulated action bars that hold the same numbers. *)
Definition bars_equiv (sim sim' : gmap string jsnum) : Prop :=
  forall k, bar_equiv (sim !! k) (sim' !! k).

(** The bars [simA] are the bars [sim] with one threshold taken off the bar
    of [c], whose bar is [b] in [sim]. *)
Definition behind (s : BattleSystem) (c : ref) (b : Q) (sim simA : gmap string jsnum)
  : Prop :=
  sim !! getCharId (heap s c) = Some (Fin b)
  /\ exists bA, (bA == b - ACTION_THRESHOLD)%Q
                /\ bars_equiv simA (<[getCharId (heap s c) := Fin bA]> sim).

(** The state [s'] is the state [s] after hits: the teams are the same, the
    characters differ at most in their hit points, and nobody who was
    defeated is alive again. *)
Definition wounded (s s' : BattleSystem) : Prop :=
  playerTeam s' = playerTeam s
  /\ enemyTeam s' = enemyTeam s
  /\ (forall r, heap s' r = set_hp (heap s r) (hp (stats (heap s' r))))
  /\ (forall r, isAlive (heap s' r) = true -> isAlive (heap s r) = true).

(** What an attack leaves of the schedule: the plan is a computed one, the
    attacker is still first in it, the characters are the same but for their
    hit points, no action bar has grown and the living keep theirs, and when
    nobody was defeated the new plan is the beginning of the old one. *)
Record turn_kept (s s2 : BattleSystem) (attacker : ref) : Prop := mk_turn_kept {
  tk_planned : planned s2;
  tk_current : getCurrentCharacter s2 = Some attacker;
  tk_wounded : wounded s s2;
  tk_bars : forall bound, bars_below (actionBars s) bound ->
                          bars_below (actionBars s2) bound;
  tk_living : forall r, In r (teamMembers s) -> isAlive (heap s2 r) = true ->
                        actionBars s2 !! getCharId (heap s r)
                        = actionBars s !! getCharId (heap s r);
  tk_prefix : aliveCharacters s2 = aliveCharacters s ->
              exists more, upcomingTurns s = upcomingTurns s2 ++ more
}.

(** One turn that does not end the battle: a legal move of the player, or
    a turn of the AI. *)
Inductive turn : BattleSystem -> BattleSystem -> Prop :=
| turn_player (fuel : nat) (s : BattleSystem) (attackObj : AttackObj) (target : option ref)
              (s' : BattleSystem) (tr : TurnResults) (w : option Winner)
              (next : option NextTurn) :
    legalMove s attackObj target ->
    Controls.executePlayerTurn fuel s attackObj target = Ok s' (Success tr false w, next) ->
    turn s s'
| turn_ai (fuel : nat) (rand : nat -> Q) (ai : BattleAI) (s s' : BattleSystem)
          (d : Decision) (tr : TurnResults) (w : option Winner) (next : option NextTurn) :
    unit_draws rand ->
    Controls.processAITurn fuel rand ai s
    = Ok s' (Controls.Decided d (Success tr false w) next) ->
    turn s s'.

(** The battle [s'] is the battle [s] some turns later, the characters of
    [acted] having taken these turns, in this order. *)
Inductive played : BattleSystem -> list ref -> BattleSystem -> Prop :=
| played_none (s : BattleSystem) : played s [] s
| played_more (s s1 s2 : BattleSystem) (acted : list ref) (c : ref) :
    played s acted s1 -> getCurrentCharacter s1 = Some c -> turn s1 s2 ->
    played s (acted ++ [c]) s2.

(** The number of turns of [c] among the turns [acted]. *)
Definition turnsOf (c : ref) (acted : list ref) : nat := count_occ Nat.eq_dec acted c.

(** Between [s] and [s'] the action bar of every character still alive has
    lost one threshold for each of its turns among [acted], and nothing
    else. *)
Definition bar_spent (s s' : BattleSystem) (acted : list ref) : Prop :=
  forall r, In r (teamMembers s) -> isAlive (heap s' r) = true ->
    exists b b',
      actionBars s !! getCharId (heap s r) = Some (Fin b)
      /\ actionBars s' !! getCharId (heap s r) = Some (Fin b')
      /\ (b' == b - ACTION_THRESHOLD * inject_Z (Z.of_nat (turnsOf r acted)))%Q.

(** The battle of the example after its first turn: the ally Blue-Blue has
    attacked the enemy Yellow. *)
Definition after_first_move : BattleSystem :=
  match Controls.executePlayerTurn 200 Example.started (mkAttack (Some Blue) single)
                                   (Some 3%nat) with
  | Ok st _ => st
  | _ => Example.started
  end.

(** ** Vocabulary of the end of a battle *)

(** What a character has left to lose: a tenth of its hit points, and one
    more while it is alive. *)
Definition vigour (c : GameCharacter) : Q :=
  (hp (stats c) * (1 # 10) + (if isAlive c then 1 else 0))%Q.

Fixpoint vigourOf (h : ref -> GameCharacter) (l : list ref) : Q :=
  match l with
  | [] => 0
  | r :: l' => (vigour (h r) + vigourOf h l')%Q
  end.

(** The vigour of the two teams together. *)
Definition battleVigour (s : BattleSystem) : Q := vigourOf (heap s) (teamMembers s).

(** Every member of a team has hit points that are not negative and an
    attack of 40 at least, the least of the table. *)
Definition armed (s : BattleSystem) : Prop :=
  forall r, In r (teamMembers s) ->
            (0 <= hp (stats (heap s r)))%Q /\ (40 <= Character.attack (stats (heap s r)))%Q.

(** * Properties *)

(** ** Numbers *)

Lemma Qlt_bool_iff (x y : Q) : Qlt_bool x y = true <-> (x < y)%Q.
Proof.
  unfold Qlt_bool. rewrite negb_true_iff.
  split.
  - intros H. apply Qnot_le_lt. intros Hle.
    apply Qle_bool_iff in Hle. congruence.
  - intros H. destruct (Qle_bool y x) eqn:E; [|reflexivity].
    apply Qle_bool_iff in E. exfalso. eapply Qlt_not_le; eauto.
Qed.

Lemma Qlt_bool_false_iff (x y : Q) : Qlt_bool x y = false <-> (y <= x)%Q.
Proof.
  unfold Qlt_bool. rewrite negb_false_iff. apply Qle_bool_iff.
Qed.

Lemma Qle_bool_false_iff (x y : Q) : Qle_bool x y = false <-> (y < x)%Q.
Proof.
  rewrite <- Qlt_bool_iff. unfold Qlt_bool.
  destruct (Qle_bool x y); simpl; split; congruence.
Qed.

Lemma isInteger_spec (q : Q) : isInteger q = true -> exists z : Z, (q == inject_Z z)%Q.
Proof.
  unfold isInteger. intros H. apply Pos.eqb_eq in H.
  exists (Qnum (Qred q)).
  rewrite <- (Qred_correct q) at 1.
  destruct (Qred q) as [n d]. simpl in *. subst d. reflexivity.
Qed.

(** Every rational is below some multiple of a positive step. *)
Lemma Q_archimedean (x s : Q) :
  (0 < s)%Q -> exists k : nat, (x <= inject_Z (Z.of_nat k) * s)%Q.
Proof.
  intros Hs.
  exists (Z.to_nat (Qceiling (x / s))).
  assert (H1 : (x / s <= inject_Z (Z.of_nat (Z.to_nat (Qceiling (x / s)))))%Q).
  { eapply Qle_trans; [apply Qle_ceiling|].
    rewrite <- Zle_Qle. lia. }
  apply (Qmult_le_compat_r _ _ s) in H1; [|apply Qlt_le_weak; exact Hs].
  assert (E : (x / s * s == x)%Q).
  { field. intros E0. rewrite E0 in Hs. apply (Qlt_irrefl 0), Hs. }
  rewrite E in H1. exact H1.
Qed.

(** ** The effectiveness table *)

Lemma getEffectiveness_in_multipliers (g : option Gene) (c : GameCharacter) :
  In (getEffectiveness g c) multipliers.
Proof.
  unfold getEffectiveness.
  destruct (genes c !! 0%nat) as [d|]; destruct g as [[]|]; try destruct d;
    vm_compute; tauto.
Qed.

(** C2. [getEffectiveness] is 1.0 for a Neutral attack; for every attacking
    gene [a] and every defender it is one of 0.5, 0.75, 1.0, 1.25, 1.5,
    namely the multiplier the wheel assigns to [a] against the defender's
    first gene (1.5 one step forward, 1.25 two forward, 0.5 one backward,
    0.75 two backward, 1.0 otherwise); a gene against itself gives 1.0; and
    the later genes of the defender, like all its other fields, play no
    part. *)
Theorem getEffectiveness_wheel :
  forall (a d : Gene) (rest rest' : list Gene) (c c' : GameCharacter),
    getEffectiveness (Some Neutral) c = 1%Q
    /\ In (getEffectiveness (Some a) c) multipliers
    /\ getEffectiveness (Some a) (defender d rest c) = wheel_effectiveness a d
    /\ getEffectiveness (Some d) (defender d rest c) = 1%Q
    /\ getEffectiveness (Some a) (defender d rest c)
       = getEffectiveness (Some a) (defender d rest' c').
Proof.
  intros a d rest rest' c c'.
  split; [reflexivity|].
  split; [apply getEffectiveness_in_multipliers|].
  repeat split.
  - destruct a, d; reflexivity.
  - destruct d; reflexivity.
Qed.

(** ** The stat table *)

Lemma table_attacks_exact :
  forallb (fun a => Z.eqb (Qnum a mod 4) 0 && Pos.eqb (Qden a) 1
                    && forallb (fun m => isInteger (a * m)) multipliers)
          table_attacks = true.
Proof. vm_compute. reflexivity. Qed.

(** C10. Every attack value of [CHARACTER_STATS] is a multiple of 4, its
    product with each of the five multipliers is a whole number, and so is
    the damage [calculateDamage] computes for an attacker with that attack
    value, whatever the attack gene and the defender. *)
Theorem table_damage_is_integer :
  forall (i : string) (h a s : Q),
    In (i, (h, a, s)) CHARACTER_STATS ->
    (exists k : Z, a = inject_Z (4 * k))
    /\ (forall m, In m multipliers -> exists z : Z, (a * m == inject_Z z)%Q)
    /\ (forall (this target : GameCharacter) (g : Gene),
          Character.attack (stats this) = a ->
          exists z : Z, (calculateDamage this (Some g) target == inject_Z z)%Q).
Proof.
  intros i h a s Hin.
  assert (Ha : In a table_attacks).
  { unfold table_attacks. apply in_map_iff. exists (i, (h, a, s)). auto. }
  pose proof table_attacks_exact as Hall.
  rewrite forallb_forall in Hall. specialize (Hall a Ha).
  apply andb_prop in Hall as [Hall Hmul]. apply andb_prop in Hall as [Hmod Hden].
  apply Z.eqb_eq in Hmod. apply Pos.eqb_eq in Hden.
  rewrite forallb_forall in Hmul.
  assert (Hprod : forall m, In m multipliers -> exists z : Z, (a * m == inject_Z z)%Q).
  { intros m Hm. apply isInteger_spec, Hmul, Hm. }
  split; [|split].
  - exists (Qnum a / 4)%Z. destruct a as [n d]. simpl in *. subst d.
    unfold inject_Z. f_equal.
    apply Z.div_exact in Hmod; lia.
  - exact Hprod.
  - intros this target g Hatt. unfold calculateDamage. rewrite Hatt.
    apply Hprod, getEffectiveness_in_multipliers.
Qed.

Lemma table_damage_is_integer_witness :
  In ("Red-Yellow", (300, 60, 40)%Q) CHARACTER_STATS
  /\ (exists k : Z, 60%Q = inject_Z (4 * k))
  /\ (exists z : Z, (60 * (5 # 4) == inject_Z z)%Q)
  /\ (exists z : Z,
         (calculateDamage (new_GameCharacter "Red-Yellow" [Red; Yellow] true)
            (Some Red) (new_GameCharacter "Yellow" [Yellow] true) == inject_Z z)%Q).
Proof.
  assert (Hin : In ("Red-Yellow", (300, 60, 40)%Q) CHARACTER_STATS).
  { vm_compute. tauto. }
  split; [exact Hin|].
  destruct (table_damage_is_integer "Red-Yellow" 300 60 40 Hin) as (H4 & Hm & Hd).
  split; [exact H4|]. split.
  - apply Hm. vm_compute. tauto.
  - apply Hd. reflexivity.
Defined.

(** ** The scheduler: sorting and the simulation loop *)

Section Sorting.

Variable cmp : ref -> ref -> jsnum.

Lemma insert_sorted_perm (x : ref) (l : list ref) :
  Permutation (insert_sorted cmp x l) (x :: l).
Proof.
  induction l as [|y l IH]; simpl; [reflexivity|].
  destruct (before cmp x y); [reflexivity|].
  rewrite IH. apply perm_swap.
Qed.

Lemma sort_perm (l : list ref) : Permutation (sort cmp l) l.
Proof.
  induction l as [|x l IH]; simpl; [reflexivity|].
  rewrite insert_sorted_perm. constructor. exact IH.
Qed.

Lemma sort_length (l : list ref) : length (sort cmp l) = length l.
Proof. apply Permutation_length, sort_perm. Qed.

Lemma sort_In (l : list ref) (x : ref) : In x (sort cmp l) <-> In x l.
Proof.
  split; apply Permutation_in; [apply sort_perm|symmetry; apply sort_perm].
Qed.

End Sorting.

Section Scheduler.

Variable s : BattleSystem.

Local Abbreviation key r := (getCharId (heap s r)).
Local Abbreviation spd r := (speed (stats (heap s r))).

Lemma fill_bars_Fin (chars : list ref) :
  forall (sim : gmap string jsnum) (k : string) (b : Q),
    sim !! k = Some (Fin b) ->
    (forall r, In r chars -> (0 <= spd r)%Q) ->
    exists b', fill_bars s chars sim !! k = Some (Fin b')
               /\ (b <= b')%Q
               /\ (forall c, In c chars -> key c = k -> (b + spd c <= b')%Q).
Proof.
  induction chars as [|a chars IH]; intros sim k b Hk Hsp.
  - exists b. split; [exact Hk|]. split; [apply Qle_refl|]. intros c [].
  - simpl.
    assert (Ha : (0 <= spd a)%Q) by (apply Hsp; left; reflexivity).
    assert (H1 : exists b1, fill_bar s sim a !! k = Some (Fin b1) /\ (b <= b1)%Q
                            /\ (key a = k -> (b + spd a <= b1)%Q)).
    { unfold fill_bar. destruct (decide (key a = k)) as [E|E].
      - rewrite E, lookup_alter_eq, Hk. simpl.
        exists (b + spd a)%Q. split; [reflexivity|]. split; [lra|]. intros _. lra.
      - rewrite lookup_alter_ne by exact E.
        exists b. split; [exact Hk|]. split; [lra|]. intros E'. contradiction. }
    destruct H1 as (b1 & Hb1 & Hle & Hka).
    destruct (IH (fill_bar s sim a) k b1 Hb1) as (b' & Hb' & Hle' & Hc).
    { intros r Hr. apply Hsp. right. exact Hr. }
    exists b'. split; [exact Hb'|]. split; [lra|].
    intros c [->|Hin] Hkc.
    + specialize (Hka Hkc). lra.
    + specialize (Hc c Hin Hkc).
      assert ((0 <= spd c)%Q) by (apply Hsp; right; exact Hin). lra.
Qed.

Lemma consume_bars_Fin (ready : list ref) :
  forall (sim : gmap string jsnum) (k : string) (b : Q),
    sim !! k = Some (Fin b) ->
    exists b', consume_bars s ready sim !! k = Some (Fin b').
Proof.
  induction ready as [|a ready IH]; intros sim k b Hk; simpl.
  - exists b. exact Hk.
  - destruct (decide (key a = k)) as [E|E].
    + eapply IH. unfold consume_bar. rewrite E, lookup_insert_eq, Hk. reflexivity.
    + eapply IH. unfold consume_bar. rewrite lookup_insert_ne by exact E. exact Hk.
Qed.

(** A tick either appends a turn or moves a character with a positive
    speed closer to the threshold. *)
Lemma tick_progress (chars : list ref) (sim : gmap string jsnum) (turns : list ref)
      (c : ref) (b : Q) :
  In c chars ->
  sim !! key c = Some (Fin b) ->
  (forall r, In r chars -> (0 <= spd r)%Q) ->
  exists b',
    fst (tick s chars sim turns) !! key c = Some (Fin b')
    /\ ((length turns < length (snd (tick s chars sim turns)))%nat
        \/ (snd (tick s chars sim turns) = turns
            /\ (b + spd c <= b')%Q /\ (b' < ACTION_THRESHOLD)%Q)).
Proof.
  intros Hc Hk Hsp.
  destruct (fill_bars_Fin chars sim (key c) b Hk Hsp) as (b1 & Hb1 & _ & Hadd).
  specialize (Hadd c Hc eq_refl).
  unfold tick.
  destruct (List.filter (isReady s (fill_bars s chars sim)) chars) as [|r0 rs] eqn:Hready.
  - simpl. exists b1. split; [exact Hb1|]. right. split; [reflexivity|].
    split; [exact Hadd|].
    assert (Hnr : isReady s (fill_bars s chars sim) c = false).
    { destruct (isReady s (fill_bars s chars sim) c) eqn:E; [|reflexivity].
      assert (Hin : In c (List.filter (isReady s (fill_bars s chars sim)) chars)).
      { apply filter_In. split; assumption. }
      rewrite Hready in Hin. destruct Hin. }
    unfold isReady in Hnr. rewrite Hb1 in Hnr.
    apply Qle_bool_false_iff in Hnr. exact Hnr.
  - cbn [length Nat.ltb Nat.leb fst snd].
    destruct (consume_bars_Fin
                (sort (compareReady s (fill_bars s chars sim)) (r0 :: rs))
                (fill_bars s chars sim) (key c) b1 Hb1) as (b' & Hb').
    exists b'. split; [exact Hb'|]. left.
    rewrite length_app, sort_length. simpl. lia.
Qed.

Lemma simulate_done (fuel : nat) (chars : list ref) (n : nat)
      (sim : gmap string jsnum) (turns : list ref) :
  (n <= length turns)%nat -> simulate fuel s chars n sim turns = Some turns.
Proof.
  intros H. destruct fuel; simpl;
    destruct (Nat.ltb_spec (length turns) n); try lia; reflexivity.
Qed.

Lemma simulate_step (fuel : nat) (chars : list ref) (n : nat)
      (sim : gmap string jsnum) (turns : list ref) :
  (length turns < n)%nat ->
  simulate (S fuel) s chars n sim turns
  = simulate fuel s chars n (fst (tick s chars sim turns)) (snd (tick s chars sim turns)).
Proof.
  intros H. simpl.
  destruct (Nat.ltb_spec (length turns) n); try lia.
  destruct (tick s chars sim turns). reflexivity.
Qed.

(** The loop finishes as soon as one simulated character has an action bar
    and a positive speed, and no simulated speed is negative. *)
Lemma simulate_terminates (chars : list ref) (n : nat) (c : ref) :
  In c chars ->
  (0 < spd c)%Q ->
  (forall r, In r chars -> (0 <= spd r)%Q) ->
  forall (d : nat) (sim : gmap string jsnum) (turns : list ref) (b : Q),
    (n - length turns <= d)%nat ->
    sim !! key c = Some (Fin b) ->
    exists fuel result, simulate fuel s chars n sim turns = Some result.
Proof.
  intros Hc Hpos Hsp.
  induction d as [|d IHd]; intros sim turns b Hd Hk.
  - exists 0%nat, turns. apply simulate_done. lia.
  - destruct (Q_archimedean (ACTION_THRESHOLD - b) (spd c) Hpos) as (k & Hkb).
    revert sim turns b Hd Hk Hkb.
    induction k as [|k IHk]; intros sim turns b Hd Hk Hkb.
    + destruct (Nat.le_gt_cases n (length turns)) as [Hn|Hn].
      { exists 0%nat, turns. apply simulate_done. exact Hn. }
      destruct (tick_progress chars sim turns c b Hc Hk Hsp) as (b' & Hb' & [Hlt|(_ & Hadd & Hlow)]).
      * destruct (IHd (fst (tick s chars sim turns)) (snd (tick s chars sim turns)) b')
          as (fuel & result & Hres); [lia|exact Hb'|].
        exists (S fuel), result. rewrite simulate_step by exact Hn. exact Hres.
      * exfalso. unfold ACTION_THRESHOLD in *.
        change (inject_Z (Z.of_nat 0)) with 0%Q in Hkb. lra.
    + destruct (Nat.le_gt_cases n (length turns)) as [Hn|Hn].
      { exists 0%nat, turns. apply simulate_done. exact Hn. }
      destruct (tick_progress chars sim turns c b Hc Hk Hsp) as (b' & Hb' & [Hlt|(Hsame & Hadd & Hlow)]).
      * destruct (IHd (fst (tick s chars sim turns)) (snd (tick s chars sim turns)) b')
          as (fuel & result & Hres); [lia|exact Hb'|].
        exists (S fuel), result. rewrite simulate_step by exact Hn. exact Hres.
      * destruct (IHk (fst (tick s chars sim turns)) (snd (tick s chars sim turns)) b')
          as (fuel & result & Hres).
        { rewrite Hsame. exact Hd. }
        { exact Hb'. }
        { rewrite Nat2Z.inj_succ in Hkb. unfold Z.succ in Hkb.
          rewrite inject_Z_plus in Hkb.
          change (inject_Z 1) with 1%Q in Hkb. lra. }
        exists (S fuel), result. rewrite simulate_step by exact Hn. exact Hres.
Qed.

End Scheduler.

(** ** Well-formed battle states *)

Lemma well_formedb_sound (s : BattleSystem) : well_formedb s = true -> well_formed s.
Proof.
  unfold well_formedb. intros H.
  repeat (apply andb_prop in H as [H ?]).
  apply bool_decide_eq_true in H.
  repeat match goal with
         | Hf : forallb _ _ = true |- _ => rewrite forallb_forall in Hf
         end.
  constructor.
  - exact H.
  - intros r Hr Hal.
    match goal with
    | Hf : forall x, In x (teamMembers s) -> negb _ || _ = true |- _ =>
        specialize (Hf r Hr); rewrite Hal in Hf; simpl in Hf
    end.
    destruct (actionBars s !! getCharId (heap s r)) as [[b|]|]; try discriminate.
    exists b. reflexivity.
  - intros r Hr. apply Qlt_bool_iff. auto.
  - intros r Hr. eapply bool_decide_eq_true. eauto.
  - intros r Hr. eapply bool_decide_eq_true. eauto.
  - intros r Hr.
    match goal with
    | Hf : forall x, In x (upcomingTurns s) -> existsb _ _ = true |- _ =>
        specialize (Hf r Hr); apply existsb_exists in Hf as (x & Hx & Hxr)
    end.
    apply Nat.eqb_eq in Hxr. subst x. exact Hx.
Qed.

Lemma NoDup_map_inj {A B : Type} (f : A -> B) (l : list A) (x y : A) :
  NoDup (map f l) -> In x l -> In y l -> f x = f y -> x = y.
Proof.
  induction l as [|a l IH]; simpl; intros Hnd Hx Hy Hf; [destruct Hx|].
  inversion Hnd as [|? ? Hnotin Hnd']; subst.
  rewrite list_elem_of_In in Hnotin.
  destruct Hx as [->|Hx], Hy as [->|Hy]; auto.
  - exfalso. apply Hnotin. rewrite Hf. apply in_map. exact Hy.
  - exfalso. apply Hnotin. rewrite <- Hf. apply in_map. exact Hx.
Qed.

Lemma store_lookup (s : BattleSystem) (t r : ref) (c : GameCharacter) :
  heap (store s t c) r = if decide (t = r) then c else heap s r.
Proof.
  unfold store. simpl. destruct (decide (t = r)) as [->|E].
  - apply fn_lookup_insert.
  - apply fn_lookup_insert_ne. exact E.
Qed.

(** Changing hit points without reviving anybody keeps the state well
    formed. *)
Lemma well_formed_set_heap (s : BattleSystem) (h' : ref -> GameCharacter) :
  well_formed s ->
  (forall r, h' r = set_hp (heap s r) (hp (stats (h' r)))) ->
  (forall r, isAlive (h' r) = true -> isAlive (heap s r) = true) ->
  well_formed (set_heap s h').
Proof.
  intros [Hk Hb Hs Hp He Ht] Hhp Halive.
  assert (Hkey : forall r, getCharId (h' r) = getCharId (heap s r)).
  { intros r. rewrite (Hhp r). reflexivity. }
  assert (Hspd : forall r, speed (stats (h' r)) = speed (stats (heap s r))).
  { intros r. rewrite (Hhp r). reflexivity. }
  assert (Hflag : forall r, isPlayer (h' r) = isPlayer (heap s r)).
  { intros r. rewrite (Hhp r). reflexivity. }
  constructor; simpl.
  - unfold teamKeys. simpl. erewrite map_ext; [exact Hk|]. intros r. apply Hkey.
  - intros r Hr Hr'. rewrite Hkey. apply Hb; [exact Hr|]. apply Halive, Hr'.
  - intros r Hr. rewrite Hspd. apply Hs, Hr.
  - intros r Hr. rewrite Hflag. apply Hp, Hr.
  - intros r Hr. rewrite Hflag. apply He, Hr.
  - exact Ht.
Qed.

(** A hit on a living target keeps the state well formed. *)
Lemma well_formed_hit (s : BattleSystem) (t : ref) (d : Q) :
  well_formed s -> isAlive (heap s t) = true ->
  well_formed (store s t (fst (takeDamage (heap s t) d))).
Proof.
  intros Hwf Hal. unfold store. apply well_formed_set_heap; [exact Hwf| |].
  - intros r. destruct (decide (t = r)) as [->|E].
    + rewrite fn_lookup_insert. reflexivity.
    + rewrite fn_lookup_insert_ne by exact E. destruct (heap s r) as [? ? ? [] ?]. reflexivity.
  - intros r. destruct (decide (t = r)) as [->|E].
    + intros _. exact Hal.
    + rewrite fn_lookup_insert_ne by exact E. auto.
Qed.

(** ** Recomputing the upcoming turns *)

Lemma calculateUpcomingTurns_frame (fuel : nat) (s s' : BattleSystem) (n : nat) (u : unit) :
  calculateUpcomingTurns fuel s n = Ok s' u ->
  exists turns, s' = set_upcomingTurns s turns.
Proof.
  unfold calculateUpcomingTurns.
  destruct (Nat.eqb _ 0).
  - intros [= <- _]. eauto.
  - destruct (simulate _ _ _ _ _ _) as [turns|]; [|discriminate].
    intros [= <- _]. eauto.
Qed.

Lemma calculateUpcomingTurns_no_throw (fuel : nat) (s s' : BattleSystem) (n : nat) :
  calculateUpcomingTurns fuel s n <> TypeError s'.
Proof.
  unfold calculateUpcomingTurns.
  destruct (Nat.eqb _ 0); [discriminate|].
  destruct (simulate _ _ _ _ _ _); discriminate.
Qed.

(** The loop finishes when every living member of a team has a numeric
    action bar and a positive speed. *)
Lemma calculateUpcomingTurns_terminates (s : BattleSystem) (n : nat) :
  (forall r, In r (teamMembers s) -> isAlive (heap s r) = true ->
             (exists b, actionBars s !! getCharId (heap s r) = Some (Fin b))
             /\ (0 < speed (stats (heap s r)))%Q) ->
  exists fuel s', calculateUpcomingTurns fuel s n = Ok s' tt.
Proof.
  intros H. unfold calculateUpcomingTurns.
  destruct (aliveCharacters s) as [|c chars] eqn:E.
  - exists 0%nat. simpl. eauto.
  - assert (Hin : forall r, In r (c :: chars) ->
                            In r (teamMembers s) /\ isAlive (heap s r) = true).
    { intros r Hr. rewrite <- E in Hr. unfold aliveCharacters in Hr.
      apply filter_In in Hr. exact Hr. }
    destruct (Hin c (or_introl eq_refl)) as [Hc Hal].
    destruct (H c Hc Hal) as [[b Hb] Hpos].
    destruct (simulate_terminates s (c :: chars) n c (or_introl eq_refl) Hpos) with
      (d := n) (sim := actionBars s) (turns := @nil nat) (b := b)
      as (fuel & result & Hres).
    + intros r Hr. destruct (Hin r Hr) as [Hr1 Hr2].
      apply Qlt_le_weak. apply (H r Hr1 Hr2).
    + simpl. lia.
    + exact Hb.
    + exists fuel. simpl. rewrite Hres. eauto.
Qed.

Section UpdateTurnQueue.

Variable s : BattleSystem.

Lemma barsOfLiving_lookup (members : list ref) :
  forall (bars : gmap string jsnum) (k : string),
    (forall r, In r members -> isAlive (heap s r) = false -> getCharId (heap s r) <> k) ->
    barsOfLiving s members bars !! k = bars !! k.
Proof.
  induction members as [|a members IH]; intros bars k H; simpl; [reflexivity|].
  unfold barsOfLiving in *. simpl. rewrite IH.
  - destruct (isAlive (heap s a)) eqn:E; simpl; [reflexivity|].
    apply lookup_delete_ne. apply H; [left; reflexivity|exact E].
  - intros r Hr. apply H. right. exact Hr.
Qed.

Lemma updateTurnQueue_frame (fuel : nat) (s' : BattleSystem) (u : unit) :
  updateTurnQueue fuel s = Ok s' u ->
  exists bars turns,
    s' = set_turnQueue (set_upcomingTurns (set_actionBars s bars) turns) (take 6 turns).
Proof.
  unfold updateTurnQueue.
  destruct (calculateUpcomingTurns _ _ _) as [s1 u1| |] eqn:E; simpl; try discriminate.
  intros [= <- _].
  apply calculateUpcomingTurns_frame in E as [turns ->].
  eauto.
Qed.

Lemma updateTurnQueue_no_throw (fuel : nat) (s' : BattleSystem) :
  updateTurnQueue fuel s <> TypeError s'.
Proof.
  unfold updateTurnQueue.
  destruct (calculateUpcomingTurns _ _ _) as [s1 u1|s1|] eqn:E; simpl; try discriminate.
  exfalso. eapply calculateUpcomingTurns_no_throw, E.
Qed.

Lemma updateTurnQueue_terminates :
  well_formed s -> exists fuel s', updateTurnQueue fuel s = Ok s' tt.
Proof.
  intros [Hk Hb Hs Hp He Ht].
  unfold updateTurnQueue.
  fold (teamMembers s). fold (barsOfLiving s (teamMembers s) (actionBars s)).
  destruct (calculateUpcomingTurns_terminates
              (set_actionBars s (barsOfLiving s (teamMembers s) (actionBars s))) 20)
    as (fuel & s1 & H1).
  - simpl. intros r Hr Hal. split; [|apply Hs, Hr].
    destruct (Hb r Hr Hal) as [b Hb']. exists b.
    rewrite barsOfLiving_lookup; [exact Hb'|].
    intros r' Hr' Hdead Heq.
    assert (r' = r).
    { eapply (NoDup_map_inj (fun r => getCharId (heap s r))); eauto. }
    subst r'. congruence.
  - exists fuel. rewrite H1. simpl. eauto.
Qed.

End UpdateTurnQueue.

(** ** Resolving a single attack *)

Lemma getEffectiveness_first_gene (a d : Gene) (c : GameCharacter) :
  genes c !! 0%nat = Some d ->
  getEffectiveness (Some a) c = wheel_effectiveness a d.
Proof.
  intros H. unfold getEffectiveness. rewrite H.
  destruct a, d; reflexivity.
Qed.

Lemma takeDamage_hp (c : GameCharacter) (d : Q) :
  hp (stats (fst (takeDamage c d))) = Qmax 0 (hp (stats c) - d)
  /\ snd (takeDamage c d) = Qeq_bool (Qmax 0 (hp (stats c) - d)) 0.
Proof. split; reflexivity. Qed.

Lemma example_well_formed : well_formed Example.started.
Proof. apply well_formedb_sound. vm_compute. reflexivity. Qed.

Lemma processSingleAttack_returns (s : BattleSystem) (attacker target : ref)
      (attackGene : option Gene) :
  well_formed s -> isAlive (heap s target) = true ->
  exists fuel s' r, processSingleAttack fuel s attacker attackGene (Some target) = Ok s' r.
Proof.
  intros Hwf Halive. unfold processSingleAttack.
  set (dmg := calculateDamage (heap s attacker) attackGene (heap s target)).
  pose proof (well_formed_hit s target dmg Hwf Halive) as Hwf'.
  destruct (takeDamage (heap s target) dmg) as [hit wasDefeated] eqn:Etd.
  simpl in Hwf'. destruct wasDefeated.
  - destruct (updateTurnQueue_terminates _ Hwf') as (fuel & s2 & H2).
    exists fuel. rewrite H2. simpl. eauto.
  - exists 0%nat. simpl. eauto.
Qed.

(** What a single attack that returns has done. *)
Lemma processSingleAttack_run (fuel : nat) (s s' : BattleSystem) (attacker target : ref)
      (attackGene : option Gene) (r : SingleResult) :
  processSingleAttack fuel s attacker attackGene (Some target) = Ok s' r ->
  let dmg := calculateDamage (heap s attacker) attackGene (heap s target) in
  heap s' = heap (store s target (fst (takeDamage (heap s target) dmg)))
  /\ playerTeam s' = playerTeam s
  /\ enemyTeam s' = enemyTeam s
  /\ battlePhase s' = battlePhase s
  /\ r = mkSingleResult (getDisplayName (heap s attacker)) attackGene
           (getDisplayName (heap s target)) dmg
           (getEffectiveness attackGene (heap s target))
           (snd (takeDamage (heap s target) dmg)).
Proof.
  intros Hrun dmg.
  unfold processSingleAttack, takeDamage in Hrun. cbv beta iota zeta in Hrun.
  fold dmg in Hrun.
  unfold takeDamage. cbn [fst snd].
  set (hit := set_hp (heap s target) (Qmax 0 (hp (stats (heap s target)) - dmg))) in *.
  assert (Hnames : forall x, getDisplayName (heap (store s target hit) x)
                             = getDisplayName (heap s x)).
  { intros x. rewrite store_lookup. destruct (decide (target = x)) as [->|]; reflexivity. }
  rewrite !Hnames in Hrun.
  destruct (Qeq_bool (Qmax 0 (hp (stats (heap s target)) - dmg)) 0).
  - destruct (updateTurnQueue fuel (store s target hit)) as [s2 u| |] eqn:E2;
      simpl in Hrun; try discriminate.
    injection Hrun as <- <-.
    apply updateTurnQueue_frame in E2 as (bars & turns & ->). repeat split; reflexivity.
  - simpl in Hrun. injection Hrun as <- <-. repeat split; reflexivity.
Qed.

Lemma processSingleAttack_no_throw (fuel : nat) (s s' : BattleSystem) (attacker target : ref)
      (attackGene : option Gene) :
  processSingleAttack fuel s attacker attackGene (Some target) <> TypeError s'.
Proof.
  unfold processSingleAttack.
  destruct (takeDamage _ _) as [hit wasDefeated].
  destruct wasDefeated; simpl; [|discriminate].
  destruct (updateTurnQueue fuel (store s target hit)) as [s2 u|s2|] eqn:E2;
    simpl; try discriminate.
  exfalso. eapply updateTurnQueue_no_throw, E2.
Qed.

(** C1. On a well-formed battle with a living target, a single attack
    returns; the damage it reports is the attacker's attack times the
    effectiveness of the attack gene against the target (the wheel's
    multiplier for the target's first gene); the target's hp becomes
    max(0, hp - damage), which is never negative; [targetDefeated] is true
    exactly when that hp is 0; and no other character changes. *)
Theorem processSingleAttack_damage :
  forall (s : BattleSystem) (attacker target : ref) (attackGene : option Gene),
    well_formed s ->
    isAlive (heap s target) = true ->
    (exists fuel s' r,
        processSingleAttack fuel s attacker attackGene (Some target) = Ok s' r)
    /\ forall fuel s' r,
        processSingleAttack fuel s attacker attackGene (Some target) = Ok s' r ->
        sr_damage r
        = (Character.attack (stats (heap s attacker))
           * getEffectiveness attackGene (heap s target))%Q
        /\ (forall a d, attackGene = Some a -> genes (heap s target) !! 0%nat = Some d ->
                        sr_effectiveness r = wheel_effectiveness a d)
        /\ hp (stats (heap s' target))
           = Qmax 0 (hp (stats (heap s target)) - sr_damage r)
        /\ (0 <= hp (stats (heap s' target)))%Q
        /\ (targetDefeated r = true <-> (hp (stats (heap s' target)) == 0)%Q)
        /\ (forall other, other <> target -> heap s' other = heap s other).
Proof.
  intros s attacker target attackGene Hwf Halive.
  split; [apply processSingleAttack_returns; assumption|].
  intros fuel s' r Hrun.
  apply processSingleAttack_run in Hrun as (Hheap & _ & _ & _ & ->).
  simpl. rewrite Hheap, store_lookup.
  destruct (decide (target = target)) as [_|]; [|contradiction].
  split; [reflexivity|].
  split; [intros a d -> Hd; apply getEffectiveness_first_gene, Hd|].
  split; [reflexivity|].
  split; [apply Q.le_max_l|].
  split; [apply Qeq_bool_iff|].
  intros other Hne. rewrite store_lookup.
  destruct (decide (target = other)); [congruence|reflexivity].
Qed.

Lemma processSingleAttack_damage_witness :
  well_formed Example.started
  /\ isAlive (heap Example.started 3%nat) = true
  /\ exists fuel s' r,
       processSingleAttack fuel Example.started 0%nat (Some Red) (Some 3%nat) = Ok s' r.
Proof.
  split; [exact example_well_formed|].
  split; [reflexivity|].
  exact (proj1 (processSingleAttack_damage Example.started 0%nat 3%nat (Some Red)
                  example_well_formed eq_refl)).
Defined.

Example takeDamage_60_75 (c : GameCharacter) :
  hp (stats c) = 60%Q ->
  hp (stats (fst (takeDamage c 75))) = 0%Q /\ snd (takeDamage c 75) = true.
Proof. intros H. unfold takeDamage. simpl. rewrite H. split; reflexivity. Qed.

(** ** The turn-in-progress guard *)

(** C7. While the turn-in-progress flag is held, [processTurn] returns the
    failure [already_processing] (it neither throws nor runs a loop), and
    the battle system it leaves is the one it found: hit points, action
    bars, turn lists and phase included. *)
Theorem processTurn_already_processing :
  forall (fuel : nat) (s : BattleSystem) (attackObj : AttackObj) (target : option ref),
    isProcessingTurn s = true ->
    processTurn fuel s attackObj target = Ok s (Failure already_processing).
Proof.
  intros fuel s attackObj target H. unfold processTurn. rewrite H. reflexivity.
Qed.

Lemma processTurn_already_processing_witness :
  isProcessingTurn Example.busy = true
  /\ processTurn 0 Example.busy (mkAttack (Some Blue) splash) None
     = Ok Example.busy (Failure already_processing).
Proof.
  split; [reflexivity|].
  apply (processTurn_already_processing 0 Example.busy (mkAttack (Some Blue) splash) None).
  reflexivity.
Defined.

(** ** Resolving a splash attack *)

Section Splash.

Variables (attacker : ref) (attackGene : option Gene).

Lemma splashHit_eq (s : BattleSystem) (hits : list SplashHit) (t : ref) :
  splashHit attacker attackGene (s, hits) t
  = (store s t (set_hp (heap s t)
                       (Qmax 0 (hp (stats (heap s t))
                                - splashDamageOn s attacker attackGene t))),
     hits ++ [splashHitOf s attacker attackGene t]).
Proof.
  unfold splashHit, takeDamage, splashHitOf, splashDamageOn, calculateDamage.
  f_equal. f_equal. rewrite store_lookup.
  destruct (decide (t = t)); [reflexivity|contradiction].
Qed.

(** The loop over the targets: each is hit once, with the damage computed
    from the state before the attack. *)
Lemma splash_fold (targets : list ref) :
  forall (s : BattleSystem) (hits : list SplashHit),
    NoDup targets ->
    exists h1,
      fold_left (splashHit attacker attackGene) targets (s, hits)
      = (set_heap s h1, hits ++ map (splashHitOf s attacker attackGene) targets)
      /\ (forall r, ~ In r targets -> h1 r = heap s r)
      /\ (forall t, In t targets ->
                    h1 t = set_hp (heap s t)
                             (Qmax 0 (hp (stats (heap s t))
                                      - splashDamageOn s attacker attackGene t))).
Proof.
  induction targets as [|t ts IH]; intros s hits Hnd.
  - exists (heap s). simpl. rewrite app_nil_r.
    split; [destruct s; reflexivity|]. split; [reflexivity|]. intros t [].
  - inversion Hnd as [|? ? Hnotin Hnd']; subst.
    rewrite list_elem_of_In in Hnotin.
    cbn [fold_left]. rewrite splashHit_eq.
    set (c' := set_hp (heap s t)
                 (Qmax 0 (hp (stats (heap s t)) - splashDamageOn s attacker attackGene t))).
    destruct (IH (store s t c') (hits ++ [splashHitOf s attacker attackGene t]) Hnd')
      as (h1 & Hfold & Hout & Hin).
    assert (Hsame : forall r, r <> t ->
               splashDamageOn (store s t c') attacker attackGene r
               = splashDamageOn s attacker attackGene r).
    { intros r Hr. unfold splashDamageOn. rewrite !store_lookup.
      destruct (decide (t = r)); [congruence|].
      destruct (decide (t = attacker)) as [<-|]; reflexivity. }
    exists h1. split; [|split].
    + rewrite Hfold. f_equal. simpl map. rewrite <- app_assoc. simpl.
      f_equal. f_equal. apply map_ext_in. intros r Hr.
      assert (r <> t) by (intros ->; contradiction).
      unfold splashHitOf. rewrite Hsame by assumption.
      rewrite store_lookup. destruct (decide (t = r)); [congruence|reflexivity].
    + intros r Hr. rewrite Hout by (intros ?; apply Hr; right; assumption).
      rewrite store_lookup. destruct (decide (t = r)) as [->|]; [|reflexivity].
      exfalso. apply Hr. left. reflexivity.
    + intros r [<-|Hr].
      * rewrite Hout by exact Hnotin. rewrite store_lookup.
        destruct (decide (t = t)); [reflexivity|contradiction].
      * assert (r <> t) by (intros ->; contradiction).
        rewrite (Hin r Hr), Hsame by assumption.
        rewrite store_lookup. destruct (decide (t = r)); [congruence|reflexivity].
Qed.

End Splash.

Lemma well_formed_NoDup (s : BattleSystem) : well_formed s -> NoDup (teamMembers s).
Proof.
  intros [Hk _ _ _ _ _]. unfold teamKeys in Hk.
  apply NoDup_ListNoDup. apply NoDup_ListNoDup in Hk.
  eapply NoDup_map_inv; exact Hk.
Qed.

Lemma splashTargets_spec (s : BattleSystem) (attacker t : ref) :
  In t (splashTargets s attacker) ->
  isAlive (heap s t) = true
  /\ In t (if truthy (isPlayer (heap s attacker)) then enemyTeam s else playerTeam s).
Proof.
  unfold splashTargets. intros H.
  destruct (truthy (isPlayer (heap s attacker)));
    apply list_elem_of_In, subseteq_take, list_elem_of_In in H;
    apply filter_In in H; tauto.
Qed.

Lemma splashTargets_NoDup (s : BattleSystem) (attacker : ref) :
  well_formed s -> NoDup (splashTargets s attacker).
Proof.
  intros Hwf. apply well_formed_NoDup in Hwf. unfold teamMembers in Hwf.
  unfold splashTargets.
  apply list.NoDup_app in Hwf as (Hp & _ & He).
  destruct (truthy (isPlayer (heap s attacker)));
    (eapply sublist_NoDup; [|apply sublist_take]);
    apply NoDup_ListNoDup, NoDup_filter, NoDup_ListNoDup; assumption.
Qed.

(** The state a splash attack leaves before the turn queue is updated. *)
Lemma splash_hits (s : BattleSystem) (attacker : ref) (attackGene : option Gene) :
  well_formed s ->
  exists h1,
    fold_left (splashHit attacker attackGene) (splashTargets s attacker) (s, [])
    = (set_heap s h1, map (splashHitOf s attacker attackGene) (splashTargets s attacker))
    /\ (forall r, ~ In r (splashTargets s attacker) -> h1 r = heap s r)
    /\ (forall t, In t (splashTargets s attacker) ->
                  h1 t = set_hp (heap s t)
                           (Qmax 0 (hp (stats (heap s t))
                                    - splashDamageOn s attacker attackGene t)))
    /\ well_formed (set_heap s h1).
Proof.
  intros Hwf.
  destruct (splash_fold attacker attackGene (splashTargets s attacker) s []
              (splashTargets_NoDup s attacker Hwf)) as (h1 & Hfold & Hout & Hin).
  exists h1. split; [exact Hfold|]. split; [exact Hout|]. split; [exact Hin|].
  apply well_formed_set_heap; [exact Hwf| |].
  - intros r. destruct (in_dec Nat.eq_dec r (splashTargets s attacker)) as [Hr|Hr].
    + rewrite (Hin r Hr). reflexivity.
    + rewrite (Hout r Hr). destruct (heap s r) as [? ? ? [] ?]. reflexivity.
  - intros r. destruct (in_dec Nat.eq_dec r (splashTargets s attacker)) as [Hr|Hr].
    + intros _. apply (splashTargets_spec s attacker r Hr).
    + rewrite (Hout r Hr). auto.
Qed.

Lemma processSplashAttack_run (fuel : nat) (s s' : BattleSystem) (attacker : ref)
      (attackGene : option Gene) (r : SplashResult) (h1 : ref -> GameCharacter) :
  fold_left (splashHit attacker attackGene) (splashTargets s attacker) (s, [])
  = (set_heap s h1, map (splashHitOf s attacker attackGene) (splashTargets s attacker)) ->
  processSplashAttack fuel s attacker attackGene = Ok s' r ->
  (exists bars turns,
      s' = set_turnQueue (set_upcomingTurns (set_actionBars (set_heap s h1) bars) turns)
                         (take 6 turns))
  /\ r = mkSplashResult (getDisplayName (heap s attacker)) attackGene
           (map (splashHitOf s attacker attackGene) (splashTargets s attacker)).
Proof.
  intros Hfold. unfold processSplashAttack. rewrite Hfold.
  destruct (updateTurnQueue fuel (set_heap s h1)) as [s2 u| |] eqn:E; simpl; try discriminate.
  intros [= <- <-].
  apply updateTurnQueue_frame in E as (bars & turns & ->).
  split; [eauto|reflexivity].
Qed.



(** ** The end of the battle *)

Lemma someAlive_livingCount (s : BattleSystem) (team : list ref) :
  (someAlive s team = false <-> livingCount s team = 0%nat)
  /\ (someAlive s team = true <-> (0 < livingCount s team)%nat).
Proof.
  unfold someAlive, livingCount.
  induction team as [|r team [IH0 IH1]]; simpl.
  - split; split; intros; try reflexivity; try discriminate; lia.
  - destruct (isAlive (heap s r)); simpl.
    + split; split; intros; try reflexivity; try discriminate; lia.
    + split; assumption.
Qed.

Lemma someAlive_member (s : BattleSystem) (team : list ref) (r : ref) :
  In r team -> isAlive (heap s r) = true -> someAlive s team = true.
Proof.
  intros Hr Hal. unfold someAlive. apply existsb_exists. eauto.
Qed.

Lemma well_formed_processing (s : BattleSystem) (b : bool) :
  well_formed s -> well_formed (set_isProcessingTurn s b).
Proof. intros [Hk Hb Hs Hp He Ht]. constructor; assumption. Qed.

(** A member of the team opposite to the attacker's is not the attacker. *)
Lemma opposing_neq (s : BattleSystem) (attacker t : ref) :
  well_formed s ->
  In attacker (teamMembers s) ->
  In t (if truthy (isPlayer (heap s attacker)) then enemyTeam s else playerTeam s) ->
  t <> attacker.
Proof.
  intros Hwf Ha Ht ->.
  apply in_app_or in Ha as [Ha|Ha].
  - pose proof (wf_player s Hwf attacker Ha) as Hf. rewrite Hf in Ht. simpl in Ht.
    pose proof (wf_enemy s Hwf attacker Ht). congruence.
  - pose proof (wf_enemy s Hwf attacker Ha) as Hf. rewrite Hf in Ht. simpl in Ht.
    pose proof (wf_player s Hwf attacker Ht). congruence.
Qed.

Lemma getAvailableTargets_spec (s : BattleSystem) (attacker t : ref) :
  getCurrentCharacter s = Some attacker ->
  In t (getAvailableTargets s) ->
  isAlive (heap s t) = true
  /\ In t (if truthy (isPlayer (heap s attacker)) then enemyTeam s else playerTeam s).
Proof.
  unfold getAvailableTargets. intros -> H.
  destruct (truthy (isPlayer (heap s attacker))); apply filter_In in H; tauto.
Qed.

(** The attack of a turn returns, never throws, and leaves the teams, the
    phase and the attacker as they were. *)
Lemma resolveAttack_frame (s : BattleSystem) (attacker : ref) (attackObj : AttackObj)
      (target : option ref) :
  well_formed s ->
  In attacker (teamMembers s) ->
  (type attackObj <> splash ->
   exists t, target = Some t /\ isAlive (heap s t) = true /\ t <> attacker) ->
  (exists fuel s2 tr, resolveAttack fuel s attacker attackObj target = Ok s2 tr)
  /\ (forall fuel s2, resolveAttack fuel s attacker attackObj target <> TypeError s2)
  /\ (forall fuel s2 tr,
        resolveAttack fuel s attacker attackObj target = Ok s2 tr ->
        playerTeam s2 = playerTeam s /\ enemyTeam s2 = enemyTeam s
        /\ battlePhase s2 = battlePhase s /\ heap s2 attacker = heap s attacker).
Proof.
  intros Hwf Ha Htarget. unfold resolveAttack.
  destruct (decide (type attackObj = splash)) as [Hs|Hs].
  - destruct (splash_hits s attacker (gene attackObj) Hwf) as (h1 & Hfold & Hout & Hin & Hwf1).
    assert (Hnot : ~ In attacker (splashTargets s attacker)).
    { intros H. apply splashTargets_spec in H as [_ H].
      exact (opposing_neq s attacker attacker Hwf Ha H eq_refl). }
    split; [|split].
    + destruct (updateTurnQueue_terminates _ Hwf1) as (fuel & s2 & H2).
      exists fuel. unfold processSplashAttack. rewrite Hfold, H2. simpl. eauto.
    + intros fuel s2. unfold processSplashAttack. rewrite Hfold.
      destruct (updateTurnQueue fuel (set_heap s h1)) as [s3 u|s3|] eqn:E; simpl;
        try discriminate.
      exfalso. eapply updateTurnQueue_no_throw, E.
    + intros fuel s2 tr Hrun.
      destruct (processSplashAttack fuel s attacker (gene attackObj)) as [s3 r| |] eqn:E;
        simpl in Hrun; try discriminate.
      injection Hrun as <- <-.
      destruct (processSplashAttack_run fuel s s3 attacker (gene attackObj) r h1 Hfold E)
        as ((bars & turns & ->) & _).
      simpl. repeat split. apply Hout, Hnot.
  - destruct (Htarget Hs) as (t & -> & Hal & Hne).
    split; [|split].
    + destruct (processSingleAttack_returns s attacker t (gene attackObj) Hwf Hal)
        as (fuel & s2 & r & H).
      exists fuel. rewrite H. simpl. eauto.
    + intros fuel s2.
      destruct (processSingleAttack fuel s attacker (gene attackObj) (Some t))
        as [s3 r|s3|] eqn:E; simpl; try discriminate.
      exfalso. eapply processSingleAttack_no_throw, E.
    + intros fuel s2 tr Hrun.
      destruct (processSingleAttack fuel s attacker (gene attackObj) (Some t))
        as [s3 r| |] eqn:E; simpl in Hrun; try discriminate.
      injection Hrun as <- <-.
      apply processSingleAttack_run in E as (Hheap & Hp & He & Hph & _).
      repeat split; try assumption.
      rewrite Hheap, store_lookup. destruct (decide (t = attacker)); [contradiction|reflexivity].
Qed.

(** C6. A turn is processed when no turn is in flight, the current
    character is alive and, for a single attack, the target is one of the
    available targets. On a well-formed battle such a turn returns a
    success whose [battleEnded] flag is true exactly when, in the state the
    turn leaves, the players or the enemies have no living member. When it
    is true the phase is [ended] and the winner is the side that has a
    living member, the other side having none; when it is false no winner
    is reported and the phase is as before. *)
Theorem processTurn_battle_end :
  forall (s : BattleSystem) (attackObj : AttackObj) (target : option ref) (attacker : ref),
    well_formed s ->
    isProcessingTurn s = false ->
    getCurrentCharacter s = Some attacker ->
    isAlive (heap s attacker) = true ->
    (type attackObj <> splash ->
     exists t, target = Some t /\ In t (getAvailableTargets s)) ->
    (exists fuel s' o, processTurn fuel s attackObj target = Ok s' o)
    /\ (forall fuel s', processTurn fuel s attackObj target <> TypeError s')
    /\ forall fuel s' o,
        processTurn fuel s attackObj target = Ok s' o ->
        exists turnResults isEnded won,
          o = Success turnResults isEnded won
          /\ (isEnded = true <->
              livingCount s' (playerTeam s') = 0%nat \/ livingCount s' (enemyTeam s') = 0%nat)
          /\ (isEnded = true ->
              battlePhase s' = ended
              /\ ((won = Some player /\ (0 < livingCount s' (playerTeam s'))%nat
                   /\ livingCount s' (enemyTeam s') = 0%nat)
                  \/ (won = Some enemy /\ (0 < livingCount s' (enemyTeam s'))%nat
                      /\ livingCount s' (playerTeam s') = 0%nat)))
          /\ (isEnded = false -> won = None /\ battlePhase s' = battlePhase s).
Proof.
  intros s attackObj target attacker Hwf Hflag Hcur Hal Htarget.
  set (s1 := set_isProcessingTurn s true).
  assert (Hwf1 : well_formed s1) by (apply well_formed_processing, Hwf).
  assert (Ha : In attacker (teamMembers s1)).
  { apply (wf_turns s Hwf). unfold getCurrentCharacter in Hcur.
    apply list_elem_of_In. eapply list_elem_of_lookup_2, Hcur. }
  assert (Htarget1 : type attackObj <> splash ->
            exists t, target = Some t /\ isAlive (heap s1 t) = true /\ t <> attacker).
  { intros Hs. destruct (Htarget Hs) as (t & -> & Ht).
    destruct (getAvailableTargets_spec s attacker t Hcur Ht) as [Halt Hopp].
    exists t. split; [reflexivity|]. split; [exact Halt|].
    eapply opposing_neq; eauto. }
  destruct (resolveAttack_frame s1 attacker attackObj target Hwf1 Ha Htarget1)
    as ((fuel0 & s20 & tr0 & Hrun0) & Hnothrow & Hframe).
  assert (Hunfold : forall fuel,
             processTurn fuel s attackObj target
             = bind (resolveAttack fuel s1 attacker attackObj target)
                    (fun s2 turnResults =>
                       let '(s3, (isEnded, won)) := checkBattleEnd s2 in
                       if isEnded
                       then Ok (set_isProcessingTurn s3 false) (Success turnResults true won)
                       else Ok (set_isProcessingTurn s3 false) (Success turnResults false None))).
  { intros fuel. unfold processTurn. rewrite Hflag.
    change (getCurrentCharacter (set_isProcessingTurn s true)) with (getCurrentCharacter s).
    rewrite Hcur.
    change (heap (set_isProcessingTurn s true) attacker) with (heap s attacker).
    rewrite Hal. reflexivity. }
  split; [|split].
  - exists fuel0. rewrite Hunfold, Hrun0. simpl.
    destruct (checkBattleEnd s20) as [s3 [[|] won]]; eauto.
  - intros fuel s'. rewrite Hunfold.
    destruct (resolveAttack fuel s1 attacker attackObj target) as [s2 tr|s2|] eqn:E;
      simpl; try discriminate.
    + destruct (checkBattleEnd s2) as [s3 [[|] won]]; discriminate.
    + exfalso. eapply Hnothrow, E.
  - intros fuel s' o. rewrite Hunfold.
    destruct (resolveAttack fuel s1 attacker attackObj target) as [s2 tr| |] eqn:E;
      simpl; try discriminate.
    destruct (Hframe fuel s2 tr E) as (Hp & He & Hph & Hatt).
    assert (Hal2 : isAlive (heap s2 attacker) = true) by (rewrite Hatt; exact Hal).
    destruct (someAlive_livingCount s2 (playerTeam s2)) as [Hp0 Hp1].
    destruct (someAlive_livingCount s2 (enemyTeam s2)) as [He0 He1].
    unfold checkBattleEnd.
    destruct (someAlive s2 (playerTeam s2)) eqn:EP;
      destruct (someAlive s2 (enemyTeam s2)) eqn:EE; simpl; intros [= <- <-];
      eexists _, _, _; (split; [reflexivity|]); simpl;
      unfold livingCount in *; simpl.
    + (* both sides have a living member *)
      split; [|split].
      * split; [discriminate|]. intros [H|H]; [apply Hp0 in H|apply He0 in H]; discriminate.
      * discriminate.
      * intros _. split; [reflexivity|]. exact Hph.
    + (* no living enemy *)
      split; [|split].
      * split; [intros _; right; apply He0; reflexivity|reflexivity].
      * intros _. split; [reflexivity|]. left.
        split; [reflexivity|]. split; [apply Hp1; reflexivity|apply He0; reflexivity].
      * discriminate.
    + (* no living player *)
      split; [|split].
      * split; [intros _; left; apply Hp0; reflexivity|reflexivity].
      * intros _. split; [reflexivity|]. right.
        split; [reflexivity|]. split; [apply He1; reflexivity|apply Hp0; reflexivity].
      * discriminate.
    + (* nobody alive: excluded, the attacker is *)
      exfalso.
      assert (Hmem : In attacker (playerTeam s2 ++ enemyTeam s2)).
      { rewrite Hp, He. exact Ha. }
      apply in_app_or in Hmem as [Hm|Hm].
      * pose proof (someAlive_member s2 _ attacker Hm Hal2). congruence.
      * pose proof (someAlive_member s2 _ attacker Hm Hal2). congruence.
Qed.

(** ** Consuming the action bar *)

Section DistinctKeys.

Variable s : BattleSystem.

Local Abbreviation key r := (getCharId (heap s r)).
Local Abbreviation spd r := (speed (stats (heap s r))).

Lemma fill_bars_other (chars : list ref) :
  forall (sim : gmap string jsnum) (k : string),
    ~ In k (map (fun r => key r) chars) ->
    fill_bars s chars sim !! k = sim !! k.
Proof.
  induction chars as [|a chars IH]; intros sim k Hk; simpl; [reflexivity|].
  rewrite IH by (intros H; apply Hk; right; exact H).
  unfold fill_bar. apply lookup_alter_ne. intros E. apply Hk. left. exact E.
Qed.

Lemma fill_bars_member (chars : list ref) :
  forall (sim : gmap string jsnum) (c : ref),
    List.NoDup (map (fun r => key r) chars) ->
    In c chars ->
    fill_bars s chars sim !! key c = (fun v => jsadd v (spd c)) <$> sim !! key c.
Proof.
  induction chars as [|a chars IH]; intros sim c Hnd Hc; [destruct Hc|].
  inversion Hnd as [|? ? Hnotin Hnd']; subst. simpl.
  destruct Hc as [->|Hc].
  - rewrite fill_bars_other by exact Hnotin.
    unfold fill_bar. apply lookup_alter_eq.
  - rewrite IH by assumption.
    unfold fill_bar. rewrite lookup_alter_ne; [reflexivity|].
    intros E. apply Hnotin. rewrite E. apply (in_map (fun r => key r)). exact Hc.
Qed.

Lemma consume_bars_other (ready : list ref) :
  forall (sim : gmap string jsnum) (k : string),
    ~ In k (map (fun r => key r) ready) ->
    consume_bars s ready sim !! k = sim !! k.
Proof.
  induction ready as [|a ready IH]; intros sim k Hk; simpl; [reflexivity|].
  rewrite IH by (intros H; apply Hk; right; exact H).
  unfold consume_bar. apply lookup_insert_ne. intros E. apply Hk. left. exact E.
Qed.

Lemma consume_bars_member (ready : list ref) :
  forall (sim : gmap string jsnum) (c : ref),
    List.NoDup (map (fun r => key r) ready) ->
    In c ready ->
    consume_bars s ready sim !! key c = Some (jssub (sim !! key c) ACTION_THRESHOLD).
Proof.
  induction ready as [|a ready IH]; intros sim c Hnd Hc; [destruct Hc|].
  inversion Hnd as [|? ? Hnotin Hnd']; subst. simpl.
  destruct Hc as [->|Hc].
  - rewrite consume_bars_other by exact Hnotin.
    unfold consume_bar. apply lookup_insert_eq.
  - rewrite IH by assumption.
    unfold consume_bar. rewrite lookup_insert_ne; [reflexivity|].
    intros E. apply Hnotin. rewrite E. apply (in_map (fun r => key r)). exact Hc.
Qed.

Lemma NoDup_map_filter (f : ref -> bool) (l : list ref) :
  List.NoDup (map (fun r => key r) l) ->
  List.NoDup (map (fun r => key r) (List.filter f l)).
Proof.
  induction l as [|a l IH]; simpl; intros Hnd; [constructor|].
  inversion Hnd as [|? ? Hnotin Hnd']; subst.
  destruct (f a); simpl; [|auto].
  constructor; [|auto].
  intros H. apply Hnotin. apply in_map_iff in H as (x & Hx & Hin).
  apply filter_In in Hin as [Hin _]. rewrite <- Hx. apply (in_map (fun r => key r)). exact Hin.
Qed.

(** One tick on characters with distinct keys and bounded speeds: the bars
    stay below the threshold, and every character that takes a turn has
    exactly one threshold taken off its filled bar. *)
Lemma tick_consumption (chars : list ref) (sim : gmap string jsnum) (turns : list ref) :
  List.NoDup (map (fun r => key r) chars) ->
  (forall r, In r chars -> (spd r <= ACTION_THRESHOLD)%Q) ->
  bars_below sim ACTION_THRESHOLD ->
  bars_below (fst (tick s chars sim turns)) ACTION_THRESHOLD
  /\ exists new,
      snd (tick s chars sim turns) = turns ++ new
      /\ forall c, In c new ->
           exists b1,
             fill_bars s chars sim !! key c = Some (Fin b1)
             /\ fst (tick s chars sim turns) !! key c = Some (Fin (b1 - ACTION_THRESHOLD))
             /\ (0 <= b1 - ACTION_THRESHOLD)%Q
             /\ (b1 - ACTION_THRESHOLD < 2 * ACTION_THRESHOLD)%Q.
Proof.
  intros Hnd Hspeed Hinv.
  set (sim1 := fill_bars s chars sim).
  set (ready := List.filter (isReady s sim1) chars).
  assert (Hready : forall c, In c ready ->
             exists b, sim !! key c = Some (Fin b)
                       /\ sim1 !! key c = Some (Fin (b + spd c))
                       /\ (ACTION_THRESHOLD <= b + spd c)%Q
                       /\ (b + spd c < 2 * ACTION_THRESHOLD)%Q).
  { intros c Hc. apply filter_In in Hc as [Hc Hr].
    unfold isReady in Hr. unfold sim1 in *.
    rewrite (fill_bars_member chars sim c Hnd Hc) in Hr |- *.
    destruct (sim !! key c) as [[b|]|] eqn:Eb; simpl in Hr; try discriminate.
    exists b. split; [reflexivity|]. split; [reflexivity|].
    apply Qle_bool_iff in Hr. split; [exact Hr|].
    pose proof (Hinv _ _ Eb). pose proof (Hspeed c Hc).
    unfold ACTION_THRESHOLD in *. lra. }
  assert (Hidle : forall k v, ~ In k (map (fun r => key r) ready) ->
             sim1 !! k = Some (Fin v) -> (v < ACTION_THRESHOLD)%Q).
  { intros k v Hk Hv.
    destruct (in_dec string_dec k (map (fun r => key r) chars)) as [Hin|Hout].
    - apply in_map_iff in Hin as (c & <- & Hc).
      destruct (isReady s sim1 c) eqn:Er.
      + exfalso. apply Hk. apply (in_map (fun r => key r)). apply filter_In. auto.
      + unfold isReady in Er. rewrite Hv in Er. apply Qle_bool_false_iff in Er. exact Er.
    - unfold sim1 in Hv. rewrite fill_bars_other in Hv by exact Hout.
      eapply Hinv, Hv. }
  unfold tick. fold sim1. fold ready.
  destruct ready as [|r0 rs] eqn:Eready.
  - simpl. split.
    + intros k v Hv. apply (Hidle k v); [intros []|exact Hv].
    + exists []. split; [symmetry; apply app_nil_r|]. intros c [].
  - cbn [length Nat.ltb Nat.leb fst snd].
    set (sorted := sort (compareReady s sim1) (r0 :: rs)).
    assert (Hperm : Permutation sorted (r0 :: rs)) by apply sort_perm.
    assert (Hnds : List.NoDup (map (fun r => key r) sorted)).
    { eapply Permutation_NoDup; [apply Permutation_map; symmetry; exact Hperm|].
      rewrite <- Eready. apply NoDup_map_filter, Hnd. }
    assert (Hsorted : forall c, In c sorted ->
               exists b1, sim1 !! key c = Some (Fin b1)
                          /\ consume_bars s sorted sim1 !! key c
                             = Some (Fin (b1 - ACTION_THRESHOLD))
                          /\ (0 <= b1 - ACTION_THRESHOLD)%Q
                          /\ (b1 - ACTION_THRESHOLD < ACTION_THRESHOLD)%Q).
    { intros c Hc.
      destruct (Hready c) as (b & Hb & Hb1 & Hge & Hlt).
      { eapply Permutation_in; [exact Hperm|exact Hc]. }
      exists (b + spd c)%Q. split; [exact Hb1|].
      rewrite (consume_bars_member sorted sim1 c Hnds Hc), Hb1. simpl.
      split; [reflexivity|]. unfold ACTION_THRESHOLD in *. split; lra. }
    split.
    + intros k v Hv.
      destruct (in_dec string_dec k (map (fun r => key r) sorted)) as [Hin|Hout].
      * apply in_map_iff in Hin as (c & <- & Hc).
        destruct (Hsorted c Hc) as (b1 & _ & Hc1 & _ & Hlt).
        rewrite Hc1 in Hv. injection Hv as <-. exact Hlt.
      * rewrite consume_bars_other in Hv by exact Hout.
        apply (Hidle k v); [|exact Hv].
        intros Hin. apply Hout. apply in_map_iff in Hin as (c & <- & Hc).
        apply (in_map (fun r => key r)).
        eapply Permutation_in; [symmetry; exact Hperm|exact Hc].
    + exists sorted. split; [reflexivity|].
      intros c Hc. destruct (Hsorted c Hc) as (b1 & H1 & H2 & H3 & H4).
      exists b1. split; [exact H1|]. split; [exact H2|]. split; [exact H3|].
      unfold ACTION_THRESHOLD in *. lra.
Qed.

End DistinctKeys.

Lemma aliveCharacters_keys (s : BattleSystem) :
  well_formed s ->
  List.NoDup (map (fun r => getCharId (heap s r)) (aliveCharacters s)).
Proof.
  intros Hwf. unfold aliveCharacters. apply NoDup_map_filter.
  apply NoDup_ListNoDup. exact (wf_keys s Hwf).
Qed.

Lemma aliveCharacters_members (s : BattleSystem) (r : ref) :
  In r (aliveCharacters s) -> In r (teamMembers s) /\ isAlive (heap s r) = true.
Proof. unfold aliveCharacters. intros H. apply filter_In in H. exact H. Qed.

Lemma nextTurn_unfold (fuel : nat) (s : BattleSystem) (c : ref) :
  getCurrentCharacter s = Some c ->
  nextTurn fuel s
  = bind (if Nat.ltb (length (upcomingTurns (afterConsumption s c))) 20
          then calculateUpcomingTurns fuel (afterConsumption s c) 20
          else Ok (afterConsumption s c) tt)
         (fun s3 _ =>
            Ok (set_turnQueue s3 (take 6 (upcomingTurns s3)))
               (mkNextTurn (getCurrentCharacter (set_turnQueue s3 (take 6 (upcomingTurns s3))))
                           (turnQueue (set_turnQueue s3 (take 6 (upcomingTurns s3)))))).
Proof. intros H. unfold nextTurn. rewrite H. reflexivity. Qed.

Lemma nextTurn_bars (fuel : nat) (s s' : BattleSystem) (c : ref) (r : NextTurn) :
  getCurrentCharacter s = Some c ->
  nextTurn fuel s = Ok s' r ->
  actionBars s'
  = <[getCharId (heap s c) := jssub (actionBars s !! getCharId (heap s c)) ACTION_THRESHOLD]>
      (actionBars s).
Proof.
  intros Hc. rewrite (nextTurn_unfold fuel s c Hc).
  destruct (Nat.ltb _ 20).
  - destruct (calculateUpcomingTurns fuel (afterConsumption s c) 20) as [s3 u| |] eqn:E;
      simpl; try discriminate.
    intros [= <- _]. apply calculateUpcomingTurns_frame in E as [turns ->]. reflexivity.
  - simpl. intros [= <- _]. reflexivity.
Qed.

Lemma nextTurn_returns (s : BattleSystem) (c : ref) :
  well_formed s ->
  getCurrentCharacter s = Some c ->
  exists fuel s' r, nextTurn fuel s = Ok s' r.
Proof.
  intros Hwf Hc.
  destruct (Nat.ltb (length (upcomingTurns (afterConsumption s c))) 20) eqn:El.
  - destruct (calculateUpcomingTurns_terminates (afterConsumption s c) 20)
      as (fuel & s3 & H3).
    + intros r Hr Hal. simpl in Hr, Hal. split; [|apply (wf_speed s Hwf), Hr].
      destruct (wf_bars s Hwf r Hr Hal) as [b Hb]. simpl.
      destruct (decide (getCharId (heap s c) = getCharId (heap s r))) as [E|E].
      * rewrite E, lookup_insert_eq, Hb. simpl. eauto.
      * rewrite lookup_insert_ne by exact E. eauto.
    + exists fuel. rewrite (nextTurn_unfold fuel s c Hc), El, H3. simpl. eauto.
  - exists 0%nat. rewrite (nextTurn_unfold 0 s c Hc), El. simpl. eauto.
Qed.

(** C5. On a well-formed battle whose speeds do not exceed the threshold
    and whose action bars are below it (they are 0 after setup): when the
    current character, alive, ends its turn, [nextTurn] returns and the
    character's action bar is its old value minus exactly 1000, not 0;
    that value is below twice the threshold and the bars stay below the
    threshold. In every tick of the simulation that plans the turns, each
    character that receives a turn has exactly 1000 taken off its filled
    bar, so that the excess (which is not negative) is kept, the result is
    below twice the threshold, and all bars are again below the threshold
    when the tick ends. *)
Theorem consumption_subtracts_threshold :
  forall (s : BattleSystem),
    well_formed s ->
    speeds_bounded s ->
    bars_below (actionBars s) ACTION_THRESHOLD ->
    (forall c, getCurrentCharacter s = Some c -> isAlive (heap s c) = true ->
       exists b,
         actionBars s !! getCharId (heap s c) = Some (Fin b)
         /\ (exists fuel s' r, nextTurn fuel s = Ok s' r)
         /\ forall fuel s' r,
             nextTurn fuel s = Ok s' r ->
             actionBars s' !! getCharId (heap s c) = Some (Fin (b - 1000))
             /\ (b - 1000 < 2 * ACTION_THRESHOLD)%Q
             /\ bars_below (actionBars s') ACTION_THRESHOLD)
    /\ (forall (sim : gmap string jsnum) (turns : list ref),
          bars_below sim ACTION_THRESHOLD ->
          bars_below (fst (tick s (aliveCharacters s) sim turns)) ACTION_THRESHOLD
          /\ exists new,
              snd (tick s (aliveCharacters s) sim turns) = turns ++ new
              /\ forall c, In c new ->
                   exists b1,
                     fill_bars s (aliveCharacters s) sim !! getCharId (heap s c)
                     = Some (Fin b1)
                     /\ fst (tick s (aliveCharacters s) sim turns) !! getCharId (heap s c)
                        = Some (Fin (b1 - 1000))
                     /\ (0 <= b1 - 1000)%Q
                     /\ (b1 - 1000 < 2 * ACTION_THRESHOLD)%Q).
Proof.
  intros s Hwf Hspeed Hbars. split.
  - intros c Hc Hal.
    assert (Hmem : In c (teamMembers s)).
    { apply (wf_turns s Hwf). unfold getCurrentCharacter in Hc.
      apply list_elem_of_In. eapply list_elem_of_lookup_2, Hc. }
    destruct (wf_bars s Hwf c Hmem Hal) as [b Hb].
    exists b. split; [exact Hb|]. split; [eapply nextTurn_returns; eauto|].
    intros fuel s' r Hrun.
    rewrite (nextTurn_bars fuel s s' c r Hc Hrun), Hb.
    pose proof (Hbars _ _ Hb) as Hlt.
    split; [apply lookup_insert_eq|].
    split; [unfold ACTION_THRESHOLD in *; lra|].
    intros k v Hv.
    destruct (decide (getCharId (heap s c) = k)) as [<-|E].
    + rewrite lookup_insert_eq in Hv. simpl in Hv. injection Hv as <-.
      unfold ACTION_THRESHOLD in *. lra.
    + rewrite lookup_insert_ne in Hv by exact E. eapply Hbars, Hv.
  - intros sim turns Hsim.
    apply tick_consumption.
    + apply aliveCharacters_keys, Hwf.
    + intros r Hr. apply Hspeed. apply (aliveCharacters_members s r Hr).
    + exact Hsim.
Qed.

Lemma bars_belowb_sound (bars : gmap string jsnum) (bound : Q) :
  bars_belowb bars bound = true -> bars_below bars bound.
Proof.
  unfold bars_belowb. rewrite forallb_forall. intros H k v Hk.
  apply elem_of_map_to_list, list_elem_of_In in Hk.
  specialize (H _ Hk). simpl in H. apply Qlt_bool_iff. exact H.
Qed.

Lemma speeds_boundedb_sound (s : BattleSystem) :
  speeds_boundedb s = true -> speeds_bounded s.
Proof.
  unfold speeds_boundedb. rewrite forallb_forall. intros H r Hr.
  apply Qle_bool_iff. auto.
Qed.

Lemma example_speeds_bounded : speeds_bounded Example.started.
Proof. apply speeds_boundedb_sound. vm_compute. reflexivity. Qed.

Lemma example_bars_below : bars_below (actionBars Example.started) ACTION_THRESHOLD.
Proof. apply bars_belowb_sound. vm_compute. reflexivity. Qed.

Lemma consumption_subtracts_threshold_witness :
  well_formed Example.started
  /\ speeds_bounded Example.started
  /\ bars_below (actionBars Example.started) ACTION_THRESHOLD
  /\ getCurrentCharacter Example.started = Some 1%nat
  /\ isAlive (heap Example.started 1%nat) = true
  /\ exists b,
       actionBars Example.started !! getCharId (heap Example.started 1%nat) = Some (Fin b)
       /\ (exists fuel s' r, nextTurn fuel Example.started = Ok s' r)
       /\ forall fuel s' r,
           nextTurn fuel Example.started = Ok s' r ->
           actionBars s' !! getCharId (heap Example.started 1%nat) = Some (Fin (b - 1000))
           /\ (b - 1000 < 2 * ACTION_THRESHOLD)%Q
           /\ bars_below (actionBars s') ACTION_THRESHOLD.
Proof.
  split; [exact example_well_formed|].
  split; [exact example_speeds_bounded|].
  split; [exact example_bars_below|].
  split; [reflexivity|].
  split; [reflexivity|].
  apply (proj1 (consumption_subtracts_threshold Example.started example_well_formed
                  example_speeds_bounded example_bars_below) 1%nat); reflexivity.
Defined.

Lemma processTurn_battle_end_witness :
  well_formed Example.started
  /\ isProcessingTurn Example.started = false
  /\ getCurrentCharacter Example.started = Some 1%nat
  /\ isAlive (heap Example.started 1%nat) = true
  /\ In 3%nat (getAvailableTargets Example.started)
  /\ exists fuel s' o,
       processTurn fuel Example.started (mkAttack (Some Blue) single) (Some 3%nat) = Ok s' o.
Proof.
  assert (Ht : In 3%nat (getAvailableTargets Example.started)) by (vm_compute; tauto).
  split; [exact example_well_formed|].
  split; [reflexivity|].
  split; [reflexivity|].
  split; [reflexivity|].
  split; [exact Ht|].
  apply (processTurn_battle_end Example.started (mkAttack (Some Blue) single) (Some 3%nat)
           1%nat example_well_formed eq_refl eq_refl eq_refl).
  intros _. exists 3%nat. split; [reflexivity|exact Ht].
Defined.

(** ** The order of the characters that are ready in one tick *)

Section InsertionSort.

Variable cmp : ref -> ref -> jsnum.

Local Abbreviation R a b := (before cmp a b = true).

Lemma insert_sorted_In (x y : ref) (l : list ref) :
  In y (insert_sorted cmp x l) <-> y = x \/ In y l.
Proof.
  split.
  - intros H. eapply Permutation_in in H; [|apply insert_sorted_perm].
    destruct H as [<-|H]; auto.
  - intros H. eapply Permutation_in; [symmetry; apply insert_sorted_perm|].
    destruct H as [->|H]; [left|right]; auto.
Qed.

Lemma insert_sorted_strongly (x : ref) (l : list ref) :
  (forall a b, In a (x :: l) -> In b (x :: l) -> R a b \/ R b a) ->
  (forall a b c, In a (x :: l) -> In b (x :: l) -> In c (x :: l) -> R a b -> R b c -> R a c) ->
  StronglySorted (fun a b => R a b) l ->
  StronglySorted (fun a b => R a b) (insert_sorted cmp x l).
Proof.
  intros Htot Htrans Hs.
  induction l as [|y l IH]; simpl.
  - constructor; constructor.
  - inversion Hs as [|? ? Hs' Hall]; subst.
    destruct (before cmp x y) eqn:Exy.
    + constructor; [exact Hs|]. constructor; [exact Exy|].
      rewrite Forall_forall in Hall |- *. intros z Hz.
      apply (Htrans x y z); simpl; auto.
    + constructor.
      * apply IH; [| |exact Hs'].
        -- intros a b Ha Hb. apply Htot; simpl in *; tauto.
        -- intros a b c Ha Hb Hc. apply Htrans; simpl in *; tauto.
      * rewrite Forall_forall in Hall |- *. intros z Hz.
        apply insert_sorted_In in Hz as [->|Hz]; [|auto].
        destruct (Htot x y) as [H|H]; simpl; auto. congruence.
Qed.

Lemma sort_strongly (l : list ref) :
  (forall a b, In a l -> In b l -> R a b \/ R b a) ->
  (forall a b c, In a l -> In b l -> In c l -> R a b -> R b c -> R a c) ->
  StronglySorted (fun a b => R a b) (sort cmp l).
Proof.
  induction l as [|x l IH]; intros Htot Htrans; simpl; [constructor|].
  apply insert_sorted_strongly.
  - intros a b Ha Hb. apply Htot.
    + destruct Ha as [->|Ha]; [left; reflexivity|right; apply (sort_In cmp), Ha].
    + destruct Hb as [->|Hb]; [left; reflexivity|right; apply (sort_In cmp), Hb].
  - intros a b c Ha Hb Hc. apply Htrans.
    + destruct Ha as [->|Ha]; [left; reflexivity|right; apply (sort_In cmp), Ha].
    + destruct Hb as [->|Hb]; [left; reflexivity|right; apply (sort_In cmp), Hb].
    + destruct Hc as [->|Hc]; [left; reflexivity|right; apply (sort_In cmp), Hc].
  - apply IH.
    + intros a b Ha Hb. apply Htot; right; assumption.
    + intros a b c Ha Hb Hc. apply Htrans; right; assumption.
Qed.

End InsertionSort.

Lemma StronglySorted_lookup {A : Type} (R : A -> A -> Prop) (l : list A) :
  StronglySorted R l ->
  forall i j a b, (i < j)%nat -> l !! i = Some a -> l !! j = Some b -> R a b.
Proof.
  induction 1 as [|x l Hs IH Hall]; intros i j a b Hij Ha Hb.
  - rewrite lookup_nil in Ha. discriminate.
  - destruct j as [|j]; [lia|]. simpl in Hb.
    destruct i as [|i]; simpl in Ha.
    + injection Ha as <-. rewrite Forall_forall in Hall. apply Hall.
      apply list_elem_of_In. eapply list_elem_of_lookup_2, Hb.
    + apply (IH i j); [lia|assumption|assumption].
Qed.

Section Comparator.

Variables (s : BattleSystem) (sim : gmap string jsnum).

Local Abbreviation key r := (getCharId (heap s r)).
Local Abbreviation spd r := (speed (stats (heap s r))).

Ltac lex_close :=
  first
    [ left; lra
    | right; split; [lra|];
      first
        [ left; lra
        | right; split; [lra|];
          first
            [ left; lra
            | right; split; lra ] ] ].

Lemma lexle_total (ba bb : Q) (a b : ref) : lexle s ba bb a b \/ lexle s bb ba b a.
Proof.
  unfold lexle.
  destruct (Q_dec ba bb) as [[H|H]|H];
    [right; left; lra|left; left; lra|].
  destruct (Q_dec (spd a) (spd b)) as [[H1|H1]|H1];
    [left; lex_close|right; lex_close|].
  destruct (Q_dec (sideRank s a) (sideRank s b)) as [[H2|H2]|H2];
    [left; lex_close|right; lex_close|].
  destruct (Qlt_le_dec (inject_Z (ownIndex s b)) (inject_Z (ownIndex s a))) as [H3|H3].
  - right. right. split; [lra|]. right. split; [lra|]. right. split; lra.
  - left. lex_close.
Qed.

Lemma lexle_trans (ba bb bc : Q) (a b c : ref) :
  lexle s ba bb a b -> lexle s bb bc b c -> lexle s ba bc a c.
Proof.
  unfold lexle.
  intros [H1|(H1 & [H2|(H2 & [H3|(H3 & H4)])])]
         [G1|(G1 & [G2|(G2 & [G3|(G3 & G4)])])]; lex_close.
Qed.

Lemma before_lexle (a b : ref) (ba bb : Q) (fa fb : bool) :
  sim !! key a = Some (Fin ba) ->
  sim !! key b = Some (Fin bb) ->
  isPlayer (heap s a) = Some fa ->
  isPlayer (heap s b) = Some fb ->
  before (compareReady s sim) a b = true <-> lexle s ba bb a b.
Proof.
  intros Ha Hb Hfa Hfb.
  unfold before, compareReady, lexle, sideRank, ownIndex.
  rewrite Ha, Hb, Hfa, Hfb. simpl bar_neq. simpl bar_diff.
  destruct (Qeq_bool ba bb) eqn:E1; simpl negb; cbv iota.
  2:{ apply Qeq_bool_neq in E1. rewrite Qle_bool_iff. split.
      - intros H. left. assert ((bb <= ba)%Q) by lra.
        apply Qle_lt_or_eq in H0 as [?|E]; [assumption|]. exfalso. apply E1. lra.
      - intros [H|[H _]]; [lra|contradiction]. }
  apply Qeq_bool_iff in E1.
  destruct (Qeq_bool (spd a) (spd b)) eqn:E2; simpl negb; cbv iota.
  2:{ apply Qeq_bool_neq in E2. rewrite Qle_bool_iff. split.
      - intros H. right. split; [exact E1|]. left.
        assert ((spd a <= spd b)%Q) by lra.
        apply Qle_lt_or_eq in H0 as [?|E]; [assumption|]. contradiction.
      - intros [H|[_ [H|[H _]]]]; [lra|lra|contradiction]. }
  apply Qeq_bool_iff in E2.
  destruct fa, fb; simpl; rewrite ?Qle_bool_iff.
  - (* both allies *)
    split.
    + intros H. right. split; [exact E1|]. right. split; [exact E2|]. right.
      split; [reflexivity|]. rewrite <- Zle_Qle.
      change 0%Q with (inject_Z 0) in H. rewrite <- Zle_Qle in H. lia.
    + intros [H|[_ [H|[_ [H|[_ H]]]]]]; try lra.
      rewrite <- Zle_Qle in H.
      change 0%Q with (inject_Z 0). rewrite <- Zle_Qle. lia.
  - (* an ally and an opponent *)
    split; [intros _|intros _; lra].
    right. split; [exact E1|]. right. split; [exact E2|]. left. lra.
  - (* an opponent and an ally *)
    split; [intros H; lra|].
    intros [H|[_ [H|[_ [H|[H _]]]]]]; lra.
  - (* both opponents *)
    split.
    + intros H. right. split; [exact E1|]. right. split; [exact E2|]. right.
      split; [reflexivity|]. rewrite <- Zle_Qle.
      change 0%Q with (inject_Z 0) in H. rewrite <- Zle_Qle in H. lia.
    + intros [H|[_ [H|[_ [H|[_ H]]]]]]; try lra.
      rewrite <- Zle_Qle in H.
      change 0%Q with (inject_Z 0). rewrite <- Zle_Qle. lia.
Qed.

End Comparator.

Lemma indexOf_from_spec (l : list ref) (a : ref) :
  forall i0 : Z,
    In a l ->
    exists i, l !! i = Some a /\ indexOf_from l a i0 = (i0 + Z.of_nat i)%Z.
Proof.
  induction l as [|x l IH]; intros i0 Hin; [destruct Hin|].
  simpl. destruct (Nat.eqb_spec x a) as [->|Hne].
  - exists 0%nat. split; [reflexivity|]. lia.
  - destruct Hin as [E|Hin]; [contradiction|].
    destruct (IH (i0 + 1)%Z Hin) as (i & Hi & Hidx).
    exists (S i). split; [exact Hi|]. rewrite Hidx. lia.
Qed.

(** In a team without repetition [indexOf] is the position. *)
Lemma indexOf_position (l : list ref) (a : ref) (i : nat) :
  NoDup l -> l !! i = Some a -> indexOf l a = Z.of_nat i.
Proof.
  intros Hnd Hi.
  assert (Hin : In a l) by (apply list_elem_of_In; eapply list_elem_of_lookup_2, Hi).
  destruct (indexOf_from_spec l a 0%Z Hin) as (j & Hj & Hidx).
  unfold indexOf. rewrite Hidx.
  rewrite (NoDup_lookup l i j a Hnd Hi Hj). lia.
Qed.

Section TieBreak.

Variables (s : BattleSystem) (sim : gmap string jsnum).

Hypothesis Hwf : well_formed s.

(** A member is on exactly one team, the one its flag names, at one
    position. *)
Lemma member_side (a : ref) :
  In a (teamMembers s) ->
  (isPlayer (heap s a) = Some true /\ In a (playerTeam s) /\ ~ In a (enemyTeam s)
   /\ sideRank s a = 0%Q
   /\ exists i, playerTeam s !! i = Some a /\ ownIndex s a = Z.of_nat i)
  \/ (isPlayer (heap s a) = Some false /\ In a (enemyTeam s) /\ ~ In a (playerTeam s)
      /\ sideRank s a = 1%Q
      /\ exists i, enemyTeam s !! i = Some a /\ ownIndex s a = Z.of_nat i).
Proof.
  intros Ha.
  pose proof (well_formed_NoDup s Hwf) as Hnd. unfold teamMembers in Hnd.
  apply list.NoDup_app in Hnd as (Hndp & Hdisj & Hnde).
  apply in_app_or in Ha as [Ha|Ha].
  - left. pose proof (wf_player s Hwf a Ha) as Hf.
    split; [exact Hf|]. split; [exact Ha|].
    split; [apply list_elem_of_In in Ha; rewrite <- list_elem_of_In; apply Hdisj, Ha|].
    unfold sideRank, ownIndex. rewrite Hf. simpl. split; [reflexivity|].
    apply list_elem_of_In, list_elem_of_lookup_1 in Ha as [i Hi].
    exists i. split; [exact Hi|]. apply indexOf_position; assumption.
  - right. pose proof (wf_enemy s Hwf a Ha) as Hf.
    split; [exact Hf|]. split; [exact Ha|].
    split.
    { intros Hp. apply list_elem_of_In in Hp. apply (Hdisj a Hp).
      apply list_elem_of_In, Ha. }
    unfold sideRank, ownIndex. rewrite Hf. simpl. split; [reflexivity|].
    apply list_elem_of_In, list_elem_of_lookup_1 in Ha as [i Hi].
    exists i. split; [exact Hi|]. apply indexOf_position; assumption.
Qed.

Lemma member_position_unique (a : ref) (i j : nat) :
  (playerTeam s !! i = Some a /\ playerTeam s !! j = Some a)
  \/ (enemyTeam s !! i = Some a /\ enemyTeam s !! j = Some a) ->
  i = j.
Proof.
  pose proof (well_formed_NoDup s Hwf) as Hnd. unfold teamMembers in Hnd.
  apply list.NoDup_app in Hnd as (Hndp & _ & Hnde).
  intros [[H1 H2]|[H1 H2]].
  - exact (NoDup_lookup _ _ _ _ Hndp H1 H2).
  - exact (NoDup_lookup _ _ _ _ Hnde H1 H2).
Qed.

(** Equal keys on all four criteria: the same character. *)
Lemma lexle_antisym (a b : ref) (ba bb : Q) :
  In a (teamMembers s) -> In b (teamMembers s) ->
  lexle s ba bb a b -> lexle s bb ba b a -> a = b.
Proof.
  intros Ha Hb Hab Hba.
  assert (Hkeys : (sideRank s a == sideRank s b)%Q
                  /\ ownIndex s a = ownIndex s b).
  { unfold lexle in *.
    destruct Hab as [H1|(H1 & [H2|(H2 & [H3|(H3 & H4)])])];
      destruct Hba as [G1|(G1 & [G2|(G2 & [G3|(G3 & G4)])])]; try lra.
    split; [exact H3|]. rewrite <- Zle_Qle in H4, G4. lia. }
  destruct Hkeys as [Hside Hidx].
  destruct (member_side a Ha) as [(_ & _ & _ & Hra & i & Hi & Hia)|(_ & _ & _ & Hra & i & Hi & Hia)];
    destruct (member_side b Hb) as [(_ & _ & _ & Hrb & j & Hj & Hjb)|(_ & _ & _ & Hrb & j & Hj & Hjb)];
    rewrite Hra, Hrb in Hside; try (exfalso; lra).
  - assert (i = j) by lia. subst j. congruence.
  - assert (i = j) by lia. subst j. congruence.
Qed.

Lemma position_keys (a : ref) (i : nat) :
  (playerTeam s !! i = Some a -> sideRank s a = 0%Q /\ ownIndex s a = Z.of_nat i)
  /\ (enemyTeam s !! i = Some a -> sideRank s a = 1%Q /\ ownIndex s a = Z.of_nat i).
Proof.
  pose proof (well_formed_NoDup s Hwf) as Hnd. unfold teamMembers in Hnd.
  apply list.NoDup_app in Hnd as (Hndp & _ & Hnde).
  split; intros Hi.
  - assert (Ha : In a (playerTeam s)).
    { apply list_elem_of_In. eapply list_elem_of_lookup_2, Hi. }
    unfold sideRank, ownIndex. rewrite (wf_player s Hwf a Ha). simpl.
    split; [reflexivity|]. apply indexOf_position; assumption.
  - assert (Ha : In a (enemyTeam s)).
    { apply list_elem_of_In. eapply list_elem_of_lookup_2, Hi. }
    unfold sideRank, ownIndex. rewrite (wf_enemy s Hwf a Ha). simpl.
    split; [reflexivity|]. apply indexOf_position; assumption.
Qed.

Lemma side_keys (a : ref) :
  (In a (playerTeam s) -> sideRank s a = 0%Q)
  /\ (In a (enemyTeam s) -> sideRank s a = 1%Q).
Proof.
  split; intros Ha; unfold sideRank.
  - rewrite (wf_player s Hwf a Ha). reflexivity.
  - rewrite (wf_enemy s Hwf a Ha). reflexivity.
Qed.

(** For different members the comparator's order is the tie-break chain. *)
Lemma lexle_precedes (a b : ref) (ba bb : Q) :
  In a (teamMembers s) -> In b (teamMembers s) -> a <> b ->
  sim !! getCharId (heap s a) = Some (Fin ba) ->
  sim !! getCharId (heap s b) = Some (Fin bb) ->
  lexle s ba bb a b -> precedes s sim a b.
Proof.
  intros Ha Hb Hne Hba Hbb Hle.
  exists ba, bb. split; [exact Hba|]. split; [exact Hbb|].
  destruct Hle as [H1|(H1 & [H2|(H2 & H3)])].
  - left. exact H1.
  - right. split; [exact H1|]. left. exact H2.
  - right. split; [exact H1|]. right. split; [exact H2|].
    destruct (member_side a Ha)
      as [(_ & Hpa & _ & Hra & i & Hi & Hia)|(_ & Hpa & _ & Hra & i & Hi & Hia)];
      destruct (member_side b Hb)
        as [(_ & Hpb & _ & Hrb & j & Hj & Hjb)|(_ & Hpb & _ & Hrb & j & Hj & Hjb)];
      rewrite Hra, Hrb, Hia, Hjb in H3.
    + right. exists i, j. split; [|left; split; assumption].
      destruct H3 as [H3|[_ H4]]; [lra|]. rewrite <- Zle_Qle in H4.
      destruct (Nat.eq_dec i j) as [->|]; [congruence|lia].
    + left. split; assumption.
    + exfalso. destruct H3 as [H3|[H3 _]]; lra.
    + right. exists i, j. split; [|right; split; assumption].
      destruct H3 as [H3|[_ H4]]; [lra|]. rewrite <- Zle_Qle in H4.
      destruct (Nat.eq_dec i j) as [->|]; [congruence|lia].
Qed.

Lemma precedes_lexle (a b : ref) (ba bb : Q) :
  sim !! getCharId (heap s a) = Some (Fin ba) ->
  sim !! getCharId (heap s b) = Some (Fin bb) ->
  precedes s sim a b -> lexle s ba bb a b.
Proof.
  intros Hba Hbb (ba' & bb' & Hba' & Hbb' & H).
  rewrite Hba in Hba'. rewrite Hbb in Hbb'.
  injection Hba' as <-. injection Hbb' as <-.
  destruct H as [H1|(H1 & [H2|(H2 & H3)])].
  - left. exact H1.
  - right. split; [exact H1|]. left. exact H2.
  - right. split; [exact H1|]. right. split; [exact H2|].
    destruct H3 as [[Hpa Hpb]|(i & j & Hlt & [[Hi Hj]|[Hi Hj]])].
    + left. rewrite (proj1 (side_keys a) Hpa), (proj2 (side_keys b) Hpb). lra.
    + right.
      destruct (proj1 (position_keys a i) Hi) as [-> ->].
      destruct (proj1 (position_keys b j) Hj) as [-> ->].
      split; [reflexivity|]. rewrite <- Zle_Qle. lia.
    + right.
      destruct (proj2 (position_keys a i) Hi) as [-> ->].
      destruct (proj2 (position_keys b j) Hj) as [-> ->].
      split; [reflexivity|]. rewrite <- Zle_Qle. lia.
Qed.

End TieBreak.

Section ReadyOrder.

Variables (s : BattleSystem) (sim : gmap string jsnum) (chars : list ref).

Hypothesis Hwf : well_formed s.
Hypothesis Hmembers : forall r, In r chars -> In r (teamMembers s).

Local Abbreviation ready := (List.filter (isReady s sim) chars).

Lemma ready_bar (a : ref) :
  In a ready ->
  In a (teamMembers s)
  /\ (exists ba, sim !! getCharId (heap s a) = Some (Fin ba))
  /\ (exists fa, isPlayer (heap s a) = Some fa).
Proof.
  intros Ha. apply filter_In in Ha as [Ha Hr].
  pose proof (Hmembers a Ha) as Hm. split; [exact Hm|]. split.
  - unfold isReady in Hr.
    destruct (sim !! getCharId (heap s a)) as [[ba|]|]; try discriminate. eauto.
  - destruct (member_side s Hwf a Hm) as [(Hf & _)|(Hf & _)]; eauto.
Qed.

Lemma ready_before_lexle (a b : ref) (ba bb : Q) :
  In a ready -> In b ready ->
  sim !! getCharId (heap s a) = Some (Fin ba) ->
  sim !! getCharId (heap s b) = Some (Fin bb) ->
  before (compareReady s sim) a b = true <-> lexle s ba bb a b.
Proof.
  intros Ha Hb Hba Hbb.
  destruct (ready_bar a Ha) as (_ & _ & fa & Hfa).
  destruct (ready_bar b Hb) as (_ & _ & fb & Hfb).
  eapply before_lexle; eauto.
Qed.

Lemma ready_sorted :
  StronglySorted (fun a b => before (compareReady s sim) a b = true)
                 (sort (compareReady s sim) ready).
Proof.
  apply sort_strongly.
  - intros a b Ha Hb.
    destruct (ready_bar a Ha) as (_ & (ba & Hba) & _).
    destruct (ready_bar b Hb) as (_ & (bb & Hbb) & _).
    rewrite (ready_before_lexle a b ba bb), (ready_before_lexle b a bb ba) by assumption.
    apply lexle_total.
  - intros a b c Ha Hb Hc.
    destruct (ready_bar a Ha) as (_ & (ba & Hba) & _).
    destruct (ready_bar b Hb) as (_ & (bb & Hbb) & _).
    destruct (ready_bar c Hc) as (_ & (bc & Hbc) & _).
    rewrite (ready_before_lexle a b ba bb), (ready_before_lexle b c bb bc),
      (ready_before_lexle a c ba bc) by assumption.
    apply lexle_trans.
Qed.

(** The comparator never answers 0 for two different ready characters. *)
Lemma compareReady_nonzero (a b : ref) :
  In a ready -> In b ready -> a <> b ->
  exists v, compareReady s sim a b = Fin v /\ ~ (v == 0)%Q.
Proof.
  intros Ha Hb Hne.
  destruct (ready_bar a Ha) as (Hma & (ba & Hba) & fa & Hfa).
  destruct (ready_bar b Hb) as (Hmb & (bb & Hbb) & fb & Hfb).
  assert (Hval : exists v, compareReady s sim a b = Fin v
                           /\ ((v == 0)%Q -> lexle s ba bb a b /\ lexle s bb ba b a)).
  { unfold compareReady, lexle, sideRank, ownIndex.
    rewrite Hba, Hbb, Hfa, Hfb. simpl bar_neq. simpl bar_diff.
    destruct (Qeq_bool ba bb) eqn:E1; simpl negb; cbv iota.
    2:{ apply Qeq_bool_neq in E1. eexists. split; [reflexivity|].
        intros H. exfalso. apply E1. lra. }
    apply Qeq_bool_iff in E1.
    destruct (Qeq_bool (speed (stats (heap s a))) (speed (stats (heap s b)))) eqn:E2;
      simpl negb; cbv iota.
    2:{ apply Qeq_bool_neq in E2. eexists. split; [reflexivity|].
        intros H. exfalso. apply E2. lra. }
    apply Qeq_bool_iff in E2.
    destruct fa, fb; simpl; eexists; (split; [reflexivity|]); intros H;
      try (exfalso; lra).
    - unfold Qeq in H. simpl in H.
      split; right; (split; [lra|]); right; (split; [lra|]); right;
        (split; [reflexivity|]); rewrite <- Zle_Qle; lia.
    - unfold Qeq in H. simpl in H.
      split; right; (split; [lra|]); right; (split; [lra|]); right;
        (split; [reflexivity|]); rewrite <- Zle_Qle; lia. }
  destruct Hval as (v & Hv & Hzero).
  exists v. split; [exact Hv|]. intros Hz.
  destruct (Hzero Hz) as [Hab Hba'].
  apply Hne. eapply lexle_antisym; eauto.
Qed.

End ReadyOrder.

(** The turns a tick appends are the sorted ready characters. *)
Lemma tick_turns (s : BattleSystem) (chars : list ref) (sim0 : gmap string jsnum)
      (turns : list ref) :
  snd (tick s chars sim0 turns)
  = turns ++ sort (compareReady s (fill_bars s chars sim0))
                  (List.filter (isReady s (fill_bars s chars sim0)) chars).
Proof.
  unfold tick.
  destruct (List.filter (isReady s (fill_bars s chars sim0)) chars) as [|r rs]; simpl.
  - symmetry. apply app_nil_r.
  - reflexivity.
Qed.

(** C3. The characters that are ready in a tick (members of the teams of a
    well-formed battle) are sorted into a permutation of themselves in
    which an earlier character precedes a later one by the chain: higher
    action bar, then lower speed, then ally before opponent, then earlier
    position in the team list. The chain is a total order on them: the
    comparator never returns 0 for two different ready characters, of two
    different ready characters exactly one precedes the other. Hence one
    ally and two opponents with equal bars and equal speeds come out as
    the ally, then the opponents in the order of the enemy team list. The
    turns a tick appends are this sorted list, for the bars as filled in
    that tick. *)
Theorem ready_order_total :
  forall (s : BattleSystem) (sim : gmap string jsnum) (chars : list ref),
    well_formed s ->
    (forall r, In r chars -> In r (teamMembers s)) ->
    List.NoDup chars ->
    (forall sim0 turns,
        snd (tick s chars sim0 turns)
        = turns ++ sort (compareReady s (fill_bars s chars sim0))
                        (List.filter (isReady s (fill_bars s chars sim0)) chars))
    /\ Permutation (sort (compareReady s sim) (List.filter (isReady s sim) chars))
                (List.filter (isReady s sim) chars)
    /\ (forall i j a b,
          (i < j)%nat ->
          sort (compareReady s sim) (List.filter (isReady s sim) chars) !! i = Some a ->
          sort (compareReady s sim) (List.filter (isReady s sim) chars) !! j = Some b ->
          precedes s sim a b)
    /\ (forall a b,
          In a (List.filter (isReady s sim) chars) ->
          In b (List.filter (isReady s sim) chars) ->
          a <> b ->
          (exists v, compareReady s sim a b = Fin v /\ ~ (v == 0)%Q)
          /\ (precedes s sim a b \/ precedes s sim b a)
          /\ ~ (precedes s sim a b /\ precedes s sim b a))
    /\ (forall a o1 o2 i j ba b1 b2,
          Permutation (List.filter (isReady s sim) chars) [a; o1; o2] ->
          In a (playerTeam s) ->
          enemyTeam s !! i = Some o1 -> enemyTeam s !! j = Some o2 -> (i < j)%nat ->
          sim !! getCharId (heap s a) = Some (Fin ba) ->
          sim !! getCharId (heap s o1) = Some (Fin b1) ->
          sim !! getCharId (heap s o2) = Some (Fin b2) ->
          (ba == b1)%Q -> (b1 == b2)%Q ->
          (speed (stats (heap s a)) == speed (stats (heap s o1)))%Q ->
          (speed (stats (heap s o1)) == speed (stats (heap s o2)))%Q ->
          sort (compareReady s sim) (List.filter (isReady s sim) chars) = [a; o1; o2]).
Proof.
  intros s sim chars Hwf Hmembers Hnd.
  set (ready := List.filter (isReady s sim) chars).
  set (sorted := sort (compareReady s sim) ready).
  assert (Hperm : Permutation sorted ready) by apply sort_perm.
  assert (Hndr : List.NoDup ready) by (apply NoDup_filter, Hnd).
  assert (Hnds : List.NoDup sorted).
  { eapply Permutation_NoDup; [symmetry; exact Hperm|exact Hndr]. }
  assert (Hasym : forall a b, In a ready -> In b ready -> a <> b ->
                              ~ (precedes s sim a b /\ precedes s sim b a)).
  { intros a b Ha Hb Hne [Hab Hba].
    destruct (ready_bar s sim chars Hwf Hmembers a Ha) as (Hma & (ba & Hbara) & _).
    destruct (ready_bar s sim chars Hwf Hmembers b Hb) as (Hmb & (bb & Hbarb) & _).
    apply Hne. eapply (lexle_antisym s Hwf a b ba bb); try assumption.
    - eapply precedes_lexle; eauto.
    - eapply precedes_lexle; eauto. }
  assert (Hsortedp : forall i j a b, (i < j)%nat ->
             sorted !! i = Some a -> sorted !! j = Some b -> precedes s sim a b).
  { intros i j a b Hij Hi Hj.
    pose proof (StronglySorted_lookup _ _ (ready_sorted s sim chars Hwf Hmembers)
                  i j a b Hij Hi Hj) as Hbefore.
    assert (Ha : In a ready).
    { eapply Permutation_in; [exact Hperm|].
      apply list_elem_of_In. eapply list_elem_of_lookup_2, Hi. }
    assert (Hb : In b ready).
    { eapply Permutation_in; [exact Hperm|].
      apply list_elem_of_In. eapply list_elem_of_lookup_2, Hj. }
    destruct (ready_bar s sim chars Hwf Hmembers a Ha) as (Hma & (ba & Hbara) & _).
    destruct (ready_bar s sim chars Hwf Hmembers b Hb) as (Hmb & (bb & Hbarb) & _).
    apply (lexle_precedes s sim Hwf a b ba bb); try assumption.
    - intros ->. apply NoDup_ListNoDup in Hnds.
      pose proof (NoDup_lookup _ _ _ _ Hnds Hi Hj). lia.
    - apply (ready_before_lexle s sim chars Hwf Hmembers a b ba bb); assumption. }
  split; [intros sim0 turns; apply tick_turns|].
  split; [exact Hperm|]. split; [exact Hsortedp|]. split.
  - intros a b Ha Hb Hne.
    split; [apply (compareReady_nonzero s sim chars Hwf Hmembers); assumption|].
    split; [|apply Hasym; assumption].
    destruct (ready_bar s sim chars Hwf Hmembers a Ha) as (Hma & (ba & Hbara) & _).
    destruct (ready_bar s sim chars Hwf Hmembers b Hb) as (Hmb & (bb & Hbarb) & _).
    destruct (lexle_total s ba bb a b) as [H|H].
    + left. eapply lexle_precedes; eauto.
    + right. eapply lexle_precedes; eauto.
  - intros a o1 o2 i j ba b1 b2 Hp3 Hpa Ho1 Ho2 Hij Hba Hb1 Hb2 Ebar1 Ebar2 Es1 Es2.
    assert (Hin1 : In o1 (enemyTeam s)).
    { apply list_elem_of_In. eapply list_elem_of_lookup_2, Ho1. }
    assert (Hin2 : In o2 (enemyTeam s)).
    { apply list_elem_of_In. eapply list_elem_of_lookup_2, Ho2. }
    assert (Pa1 : precedes s sim a o1).
    { exists ba, b1. repeat (split; [assumption|]).
      right. split; [exact Ebar1|]. right. split; [exact Es1|]. left. split; assumption. }
    assert (Pa2 : precedes s sim a o2).
    { exists ba, b2. repeat (split; [assumption|]).
      right. split; [lra|]. right. split; [lra|]. left. split; assumption. }
    assert (P12 : precedes s sim o1 o2).
    { exists b1, b2. repeat (split; [assumption|]).
      right. split; [exact Ebar2|]. right. split; [exact Es2|]. right.
      exists i, j. split; [exact Hij|]. right. split; assumption. }
    assert (Hra : In a ready) by (eapply Permutation_in; [symmetry; exact Hp3|simpl; tauto]).
    assert (Hr1 : In o1 ready) by (eapply Permutation_in; [symmetry; exact Hp3|simpl; tauto]).
    assert (Hr2 : In o2 ready) by (eapply Permutation_in; [symmetry; exact Hp3|simpl; tauto]).
    assert (Hnd3 : List.NoDup [a; o1; o2]).
    { eapply Permutation_NoDup; [exact Hp3|exact Hndr]. }
    assert (Da1 : a <> o1).
    { intros ->. inversion Hnd3 as [|? ? Hn _]; subst. apply Hn. left. reflexivity. }
    assert (Da2 : a <> o2).
    { intros ->. inversion Hnd3 as [|? ? Hn _]; subst. apply Hn. right. left. reflexivity. }
    assert (D12 : o1 <> o2).
    { intros ->. lia || (pose proof (member_position_unique s Hwf o2 i j
                                       (or_intror (conj Ho1 Ho2))); lia). }
    assert (N1a : ~ precedes s sim o1 a).
    { intros H. apply (Hasym a o1 Hra Hr1 Da1). split; assumption. }
    assert (N2a : ~ precedes s sim o2 a).
    { intros H. apply (Hasym a o2 Hra Hr2 Da2). split; assumption. }
    assert (N21 : ~ precedes s sim o2 o1).
    { intros H. apply (Hasym o1 o2 Hr1 Hr2 D12). split; assumption. }
    assert (Hp : Permutation sorted [a; o1; o2]) by (etransitivity; eassumption).
    pose proof (Permutation_length Hp) as Hlen.
    fold ready. fold sorted.
    destruct sorted as [|x [|y [|z [|w rest]]]]; simpl in Hlen; try discriminate.
    pose proof (Hsortedp 0%nat 1%nat x y ltac:(lia) eq_refl eq_refl) as Pxy.
    pose proof (Hsortedp 0%nat 2%nat x z ltac:(lia) eq_refl eq_refl) as Pxz.
    pose proof (Hsortedp 1%nat 2%nat y z ltac:(lia) eq_refl eq_refl) as Pyz.
    assert (Hx : In x [a; o1; o2]) by (eapply Permutation_in; [exact Hp|simpl; tauto]).
    assert (Hy : In y [a; o1; o2]) by (eapply Permutation_in; [exact Hp|simpl; tauto]).
    assert (Hz : In z [a; o1; o2]) by (eapply Permutation_in; [exact Hp|simpl; tauto]).
    inversion Hnds as [|? ? Hnx Hnds']; subst.
    inversion Hnds' as [|? ? Hny _]; subst.
    simpl in Hnx, Hny.
    destruct Hx as [<-|[<-|[<-|[]]]]; destruct Hy as [<-|[<-|[<-|[]]]];
      destruct Hz as [<-|[<-|[<-|[]]]];
      try reflexivity; exfalso; tauto.
Qed.

Lemma ready_order_total_witness :
  well_formed Example.started
  /\ (forall r, In r [5; 1; 3; 2; 0; 4]%nat -> In r (teamMembers Example.started))
  /\ List.NoDup [5; 1; 3; 2; 0; 4]%nat
  /\ sort (compareReady Example.started Example.tied)
          (List.filter (isReady Example.started Example.tied) [5; 1; 3; 2; 0; 4]%nat)
     = [0; 3; 5]%nat.
Proof.
  assert (Hm : forall r, In r [5; 1; 3; 2; 0; 4]%nat -> In r (teamMembers Example.started)).
  { intros r Hr. change (teamMembers Example.started) with [0; 1; 2; 3; 4; 5]%nat.
    simpl in *. tauto. }
  assert (Hnd : List.NoDup [5; 1; 3; 2; 0; 4]%nat).
  { apply NoDup_ListNoDup. apply (bool_decide_unpack _). vm_compute. reflexivity. }
  split; [exact example_well_formed|].
  split; [exact Hm|]. split; [exact Hnd|].
  destruct (ready_order_total Example.started Example.tied [5; 1; 3; 2; 0; 4]%nat
              example_well_formed Hm Hnd) as (_ & _ & _ & _ & H3).
  apply (H3 0 3 5 0 2 1000%Q 1000%Q 1000%Q)%nat.
  - change (List.filter (isReady Example.started Example.tied) [5; 1; 3; 2; 0; 4]%nat)
      with (rev [0; 3; 5]%nat).
    symmetry. apply Permutation_rev.
  - vm_compute. tauto.
  - reflexivity.
  - reflexivity.
  - lia.
  - reflexivity.
  - reflexivity.
  - reflexivity.
  - reflexivity.
  - reflexivity.
  - vm_compute. reflexivity.
  - vm_compute. reflexivity.
Defined.

(** ** The heuristic of the AI *)

Section BestMove.

Variable h : ref -> GameCharacter.

Lemma keepBest_max (cands : list (Move * Q)) :
  forall (bm : Move) (bs : Q),
    exists m sc,
      fold_left keepBest cands (Some bm, Some bs) = (Some m, Some sc)
      /\ (bs <= sc)%Q
      /\ ((m, sc) = (bm, bs) \/ In (m, sc) cands)
      /\ (forall m' sc', In (m', sc') cands -> (sc' <= sc)%Q).
Proof.
  induction cands as [|[m0 s0] cands IH]; intros bm bs.
  - exists bm, bs. simpl. split; [reflexivity|]. split; [apply Qle_refl|].
    split; [left; reflexivity|]. intros m' sc' [].
  - simpl. unfold keepBest at 2. simpl.
    destruct (Qlt_bool bs s0) eqn:E.
    + apply Qlt_bool_iff in E.
      destruct (IH m0 s0) as (m & sc & Hfold & Hle & Hin & Hmax).
      exists m, sc. split; [exact Hfold|]. split; [lra|]. split.
      * right. destruct Hin as [Hin|Hin]; [left; symmetry; exact Hin|right; exact Hin].
      * intros m' sc' [Heq|H']; [injection Heq as <- <-; exact Hle|eauto].
    + apply Qlt_bool_false_iff in E.
      destruct (IH bm bs) as (m & sc & Hfold & Hle & Hin & Hmax).
      exists m, sc. split; [exact Hfold|]. split; [exact Hle|]. split.
      * destruct Hin as [Hin|Hin]; [left; exact Hin|right; right; exact Hin].
      * intros m' sc' [Heq|H']; [injection Heq as <- <-; lra|eauto].
Qed.

(** Starting from nothing, the loop ends on a candidate of maximal score. *)
Lemma keepBest_argmax (cands : list (Move * Q)) :
  cands <> [] ->
  exists m sc,
    fold_left keepBest cands (None, None) = (Some m, Some sc)
    /\ In (m, sc) cands
    /\ (forall m' sc', In (m', sc') cands -> (sc' <= sc)%Q).
Proof.
  destruct cands as [|[m0 s0] cands]; [congruence|]. intros _.
  simpl. unfold keepBest at 2. simpl.
  destruct (keepBest_max cands m0 s0) as (m & sc & Hfold & Hle & Hin & Hmax).
  exists m, sc. split; [exact Hfold|]. split.
  - destruct Hin as [Hin|Hin]; [left; symmetry; exact Hin|right; exact Hin].
  - intros m' sc' [Heq|H']; [injection Heq as <- <-; exact Hle|eauto].
Qed.

Variables (attacker : ref) (availableTargets : list ref).

Lemma tryTargets_keepBest (attackObj : AttackObj) (ts : list ref) :
  forall acc,
    fold_left (tryTarget h attacker attackObj availableTargets) ts acc
    = fold_left keepBest
        (map (fun tgt =>
                (mkMove (Some attackObj) (Some tgt),
                 score (evaluateSingleAttack h attacker attackObj tgt availableTargets)))
             ts) acc.
Proof.
  induction ts as [|t ts IH]; intros acc; [reflexivity|].
  simpl. rewrite IH. reflexivity.
Qed.

(** The two nested loops of [calculateBestMove] visit the candidates in
    order and keep the best. *)
Lemma tryAttacks_keepBest (attackObjs : list AttackObj) :
  forall acc,
    fold_left (tryAttack h attacker availableTargets) attackObjs acc
    = fold_left keepBest
        (flat_map
           (fun attackObj =>
              if decide (type attackObj = splash)
              then [ (mkMove (Some attackObj) (availableTargets !! 0%nat),
                      se_score (evaluateSplashAttack h attacker attackObj availableTargets)) ]
              else map (fun tgt =>
                          (mkMove (Some attackObj) (Some tgt),
                           score (evaluateSingleAttack h attacker attackObj tgt
                                                       availableTargets)))
                       availableTargets)
           attackObjs) acc.
Proof.
  induction attackObjs as [|a attackObjs IH]; intros acc; [reflexivity|].
  simpl. rewrite fold_left_app, <- IH. f_equal.
  unfold tryAttack. destruct (decide (type a = splash)).
  - reflexivity.
  - apply tryTargets_keepBest.
Qed.

Lemma candidates_nonempty :
  availableTargets <> [] -> candidates h attacker availableTargets <> [].
Proof.
  intros Hne. unfold candidates, getAttackGenes.
  destruct availableTargets as [|t ts]; [congruence|].
  destruct (Nat.eqb (length (genes (h attacker))) 1); simpl; [discriminate|].
  destruct (decide (genes (h attacker) !! 0%nat = genes (h attacker) !! 1%nat));
    simpl; discriminate.
Qed.

Lemma calculateBestMove_argmax :
  availableTargets <> [] ->
  exists sc,
    In (calculateBestMove h attacker availableTargets, sc)
       (candidates h attacker availableTargets)
    /\ (forall m' sc', In (m', sc') (candidates h attacker availableTargets) ->
                       (sc' <= sc)%Q).
Proof.
  intros Hne. unfold calculateBestMove.
  rewrite tryAttacks_keepBest. fold (candidates h attacker availableTargets).
  destruct (keepBest_argmax _ (candidates_nonempty Hne)) as (m & sc & Hfold & Hin & Hmax).
  rewrite Hfold. exists sc. split; assumption.
Qed.

Lemma evaluateSingleAttack_score (attackObj : AttackObj) (tgt : ref) :
  (score (evaluateSingleAttack h attacker attackObj tgt availableTargets)
   == singleScoreSpec h attacker attackObj tgt availableTargets)%Q.
Proof.
  unfold evaluateSingleAttack, singleScoreSpec, calculateDamage, getHealthPercentage.
  cbn [score].
  set (dmg := (Character.attack (stats (h attacker))
               * getEffectiveness (gene attackObj) (h tgt))%Q).
  set (eff := getEffectiveness (gene attackObj) (h tgt)).
  set (thr := calculateThreatLevel h tgt availableTargets).
  assert (E1 : Qle_bool (hp (stats (h tgt))) (Character.attack (stats (h attacker)) * (3 # 2))
               = Qle_bool (hp (stats (h tgt))) ((3 # 2) * Character.attack (stats (h attacker)))).
  { apply Qleb_comp; [reflexivity|ring]. }
  assert (E2 : Qlt_bool (Character.attack (stats (h attacker)) * (8 # 10))
                        (Character.attack (stats (h tgt)))
               = Qlt_bool ((8 # 10) * Character.attack (stats (h attacker)))
                          (Character.attack (stats (h tgt)))).
  { unfold Qlt_bool. f_equal. apply Qleb_comp; [reflexivity|ring]. }
  assert (E3 : Qlt_bool (hp (stats (h tgt)) / maxHp (stats (h tgt)) * 100) 50
               = Qlt_bool (hp (stats (h tgt)) / maxHp (stats (h tgt))) (1 # 2)).
  { set (x := (hp (stats (h tgt)) / maxHp (stats (h tgt)))%Q).
    destruct (Qlt_bool x (1 # 2)) eqn:E.
    - apply Qlt_bool_iff in E. apply Qlt_bool_iff. lra.
    - apply Qlt_bool_false_iff in E. apply Qlt_bool_false_iff. lra. }
  rewrite E1, E2, E3.
  destruct (Qle_bool (hp (stats (h tgt))) dmg);
    destruct (Qle_bool (hp (stats (h tgt))) ((3 # 2) * Character.attack (stats (h attacker))));
    destruct (Qle_bool (5 # 4) eff); destruct (Qle_bool eff (3 # 4));
    destruct (Qlt_bool (hp (stats (h tgt)) / maxHp (stats (h tgt))) (1 # 2)
              && Qlt_bool ((8 # 10) * Character.attack (stats (h attacker)))
                          (Character.attack (stats (h tgt))));
    ring.
Qed.

End BestMove.

(** C9. When the smart branch is taken (the draw is below the smart-move
    chance, which at Extreme difficulty every draw below 1 is), the
    decision is flagged smart and is a candidate of maximal heuristic score
    among all candidates: every (single attack, target) pair and every
    splash attack once. The score of a single attack is the damage, plus
    500 if the damage reaches the target's hp, plus 100 if the target's hp
    is at most 1.5 times the attacker's attack, plus 50 times the
    effectiveness if that is at least 1.25 or minus 25 if it is at most
    0.75, plus the threat score, plus 75 if the target is below half of its
    health and its attack exceeds 0.8 times the attacker's. The targets
    have a positive maxHp, as every character of a battle has; there the
    health percentage of the embedding is the one the code computes. *)
Theorem makeDecision_smart_max :
  forall (h : ref -> GameCharacter) (rand : nat -> Q) (this : BattleAI)
         (attacker : ref) (availableTargets : list ref),
    availableTargets <> [] ->
    (forall t, In t availableTargets -> (0 < maxHp (stats (h t)))%Q) ->
    (rand 0%nat < 1)%Q ->
    ai_difficulty this = EXTREME
    \/ (rand 0%nat < smartMoveChance (ai_difficulty this))%Q ->
    wasSmartMove (makeDecision h rand this attacker availableTargets) = true
    /\ success (makeDecision h rand this attacker availableTargets) = true
    /\ (exists sc,
           In (mkMove (d_attack (makeDecision h rand this attacker availableTargets))
                      (d_target (makeDecision h rand this attacker availableTargets)), sc)
              (candidates h attacker availableTargets)
           /\ forall m' sc', In (m', sc') (candidates h attacker availableTargets) ->
                             (sc' <= sc)%Q)
    /\ (forall attackObj tgt,
           (score (evaluateSingleAttack h attacker attackObj tgt availableTargets)
            == singleScoreSpec h attacker attackObj tgt availableTargets)%Q).
Proof.
  intros h rand this attacker availableTargets Hne _ Hdraw Hsmart.
  assert (Hbranch : Qlt_bool (rand 0%nat) (smartMoveChance (ai_difficulty this)) = true).
  { apply Qlt_bool_iff. destruct Hsmart as [->|H]; [exact Hdraw|exact H]. }
  unfold makeDecision. rewrite Hbranch. cbn [wasSmartMove success d_attack d_target].
  split; [reflexivity|]. split; [reflexivity|]. split.
  - destruct (calculateBestMove_argmax h attacker availableTargets Hne) as (sc & Hin & Hmax).
    exists sc. split; [|exact Hmax].
    destruct (calculateBestMove h attacker availableTargets). exact Hin.
  - intros attackObj tgt. apply evaluateSingleAttack_score.
Qed.

Lemma makeDecision_smart_max_witness :
  ExampleAI.targets <> []
  /\ (forall t, In t ExampleAI.targets -> (0 < maxHp (stats (heap Example.started t)))%Q)
  /\ (ExampleAI.rand 0%nat < 1)%Q
  /\ ai_difficulty ExampleAI.ai = EXTREME
  /\ exists sc,
       In (mkMove (d_attack (makeDecision (heap Example.started) ExampleAI.rand
                                          ExampleAI.ai 3%nat ExampleAI.targets))
                  (d_target (makeDecision (heap Example.started) ExampleAI.rand
                                          ExampleAI.ai 3%nat ExampleAI.targets)), sc)
          (candidates (heap Example.started) 3%nat ExampleAI.targets)
       /\ forall m' sc', In (m', sc') (candidates (heap Example.started) 3%nat
                                                  ExampleAI.targets) ->
                         (sc' <= sc)%Q.
Proof.
  assert (H1 : ExampleAI.targets <> []) by discriminate.
  assert (H2 : forall t, In t ExampleAI.targets ->
                         (0 < maxHp (stats (heap Example.started t)))%Q).
  { intros t [<-|[<-|[<-|[]]]]; vm_compute; reflexivity. }
  assert (H3 : (ExampleAI.rand 0%nat < 1)%Q) by (vm_compute; reflexivity).
  split; [exact H1|]. split; [exact H2|]. split; [exact H3|]. split; [reflexivity|].
  exact (proj1 (proj2 (proj2 (makeDecision_smart_max (heap Example.started) ExampleAI.rand
                                ExampleAI.ai 3%nat ExampleAI.targets H1 H2 H3
                                (or_introl eq_refl))))).
Defined.

Example makeDecision_example :
  let d := makeDecision (heap Example.started) ExampleAI.rand ExampleAI.ai 3%nat
                        ExampleAI.targets in
  d_attack d = Some (mkAttack (Some Yellow) single) /\ d_target d = Some 1%nat.
Proof. vm_compute. split; reflexivity. Qed.

(** ** Setting up a battle *)

Lemma lookup_stats_In (tbl : list (string * (Q * Q * Q))) (i : string) (v : Q * Q * Q) :
  lookup_stats tbl i = Some v -> In (i, v) tbl.
Proof.
  induction tbl as [|[k w] tbl IH]; simpl; [discriminate|].
  destruct (String.eqb_spec k i) as [->|].
  - intros [= ->]. left. reflexivity.
  - intros H. right. apply IH, H.
Qed.

Lemma table_speeds_positive :
  forallb (fun e => Qlt_bool 0 (snd (snd e))) CHARACTER_STATS = true.
Proof. vm_compute. reflexivity. Qed.

Lemma generateStats_speed (i : string) : (0 < speed (generateStats i))%Q.
Proof.
  unfold generateStats, getStatDistribution.
  destruct (lookup_stats CHARACTER_STATS i) as [[[hp0 a] sp]|] eqn:E; simpl.
  - apply lookup_stats_In in E.
    pose proof table_speeds_positive as H. rewrite forallb_forall in H.
    apply Qlt_bool_iff. apply (H _ E).
  - reflexivity.
Qed.

(** Whatever battle setup does to a clone, it stays fit. *)
Lemma clone_fit (c : GameCharacter) (p : option bool) (rename : option string) :
  fit (set_isPlayer
         (resetForBattle
            (match rename with Some i => set_id (clone c) i | None => clone c end)) p).
Proof.
  unfold fit. destruct rename; exact (generateStats_speed (id c)).
Qed.

Lemma randomIndex_lt (r : Q) (n : nat) :
  (0 <= r)%Q -> (r < 1)%Q -> (0 < n)%nat -> (randomIndex r n < n)%nat.
Proof.
  intros H0 H1 Hn. unfold randomIndex.
  assert (Hlt : (Qfloor (r * inject_Z (Z.of_nat n)) < Z.of_nat n)%Z).
  { rewrite Zlt_Qlt.
    eapply Qle_lt_trans; [apply Qfloor_le|].
    assert (Hpos : (0 < inject_Z (Z.of_nat n))%Q).
    { change 0%Q with (inject_Z 0). rewrite <- Zlt_Qlt. lia. }
    pose proof (Qmult_lt_compat_r r 1 (inject_Z (Z.of_nat n)) Hpos H1) as Hm.
    lra. }
  lia.
Qed.

Lemma findIndex_id_lt (i : string) (l : list GameCharacter) (n : nat) :
  findIndex_id i l = Some n -> (n < length l)%nat.
Proof.
  revert n. induction l as [|c l IH]; intros n; simpl; [discriminate|].
  destruct (String.eqb (id c) i).
  - intros [= <-]. lia.
  - destruct (findIndex_id i l) as [m|]; simpl; [|discriminate].
    intros [= <-]. specialize (IH m eq_refl). lia.
Qed.

Lemma splice_id_length (i : string) (l : list GameCharacter) :
  length (splice_id i l) = (length l - 1)%nat.
Proof.
  unfold splice_id. destruct (findIndex_id i l) as [n|] eqn:E.
  - apply length_delete. apply lookup_lt_is_Some. eapply findIndex_id_lt, E.
  - rewrite removelast_firstn_len, length_firstn. lia.
Qed.

Section Allocation.

Lemma extends_refl (s : BattleSystem) : extends s s [].
Proof. split; [lia|]. split; [reflexivity|]. intros r []. Qed.

Lemma extends_alloc (s : BattleSystem) (c : GameCharacter) :
  fit c -> extends s (fst (alloc s c)) [snd (alloc s c)].
Proof.
  intros Hc. unfold alloc, extends. simpl. split; [lia|]. split.
  - intros r Hr. apply fn_lookup_insert_ne. lia.
  - intros r [<-|[]]. split; [lia|]. rewrite fn_lookup_insert. exact Hc.
Qed.

Lemma extends_trans (s s1 s2 : BattleSystem) (new1 new2 : list ref) :
  extends s s1 new1 -> extends s1 s2 new2 -> extends s s2 (new1 ++ new2).
Proof.
  intros (Hn1 & Hold1 & Hnew1) (Hn2 & Hold2 & Hnew2).
  split; [lia|]. split.
  - intros r Hr. rewrite Hold2 by lia. apply Hold1, Hr.
  - intros r Hr. apply in_app_or in Hr as [Hr|Hr].
    + destruct (Hnew1 r Hr) as [Hrange Hfit]. split; [lia|].
      rewrite Hold2 by lia. exact Hfit.
    + destruct (Hnew2 r Hr) as [Hrange Hfit]. split; [lia|exact Hfit].
Qed.

Lemma clonePlayers (roster : list GameCharacter) :
  forall (s : BattleSystem) (team : list ref),
    exists s' new,
      fold_left clonePlayer roster (s, team) = (s', team ++ new)
      /\ length new = length roster
      /\ extends s s' new.
Proof.
  induction roster as [|c roster IH]; intros s team.
  - exists s, []. simpl. rewrite app_nil_r. split; [reflexivity|]. split; [reflexivity|].
    apply extends_refl.
  - cbn [fold_left]. unfold clonePlayer at 2.
    set (cloned := set_isPlayer (resetForBattle (clone c)) (Some true)).
    pose proof (extends_alloc s cloned (clone_fit c (Some true) None)) as Hext.
    destruct (alloc s cloned) as [s1 r] eqn:Ealloc. simpl in Hext.
    destruct (IH s1 (team ++ [r])) as (s' & new & Hfold & Hlen & Hext').
    exists s', (r :: new). split; [|split].
    + rewrite Hfold, <- app_assoc. reflexivity.
    + simpl. lia.
    + apply (extends_trans s s1 s' [r] new); assumption.
Qed.

Variables (rand : nat -> Q).

Hypothesis Hrand : unit_draws rand.

Lemma pickWithDuplicates_ok (allAvailable : list GameCharacter) (idxs : list nat) :
  allAvailable <> [] ->
  forall s,
    exists s' new,
      pickWithDuplicates rand allAvailable idxs s = Ok s' tt
      /\ playerTeam s' = playerTeam s
      /\ enemyTeam s' = enemyTeam s ++ new
      /\ length new = length idxs
      /\ extends s s' new.
Proof.
  intros Hne. induction idxs as [|i idxs IH]; intros s.
  - exists s, []. simpl. rewrite app_nil_r.
    do 4 (split; [reflexivity|]). apply extends_refl.
  - cbn [pickWithDuplicates].
    destruct (lookup_lt_is_Some_2 allAvailable
                (randomIndex (rand i) (length allAvailable))) as [randomChar Hpick].
    { destruct (Hrand i). apply randomIndex_lt; try assumption.
      destruct allAvailable; [congruence|simpl; lia]. }
    rewrite Hpick.
    set (renamed := if inPlayerTeam s (id (clone randomChar))
                    then set_id (clone randomChar)
                           (id (clone randomChar) +:+ "-E" +:+ digit_string (i + 1))
                    else clone randomChar).
    set (enemyChar := set_isPlayer (resetForBattle renamed) (Some false)).
    assert (Hfit : fit enemyChar).
    { unfold enemyChar, renamed. destruct (inPlayerTeam s (id (clone randomChar))).
      - apply (clone_fit randomChar (Some false) (Some _)).
      - apply (clone_fit randomChar (Some false) None). }
    pose proof (extends_alloc s enemyChar Hfit) as Hext.
    destruct (alloc s enemyChar) as [s1 r] eqn:Ealloc. simpl in Hext.
    assert (Hs1 : playerTeam s1 = playerTeam s /\ enemyTeam s1 = enemyTeam s).
    { unfold alloc in Ealloc. injection Ealloc as <- _. split; reflexivity. }
    destruct Hs1 as [Hp1 He1].
    destruct (IH (set_enemyTeam s1 (enemyTeam s1 ++ [r])))
      as (s' & new & Hrun & Hp & He & Hlen & Hext').
    exists s', (r :: new). split; [exact Hrun|].
    split; [rewrite Hp; exact Hp1|].
    split; [rewrite He; simpl; rewrite He1, <- app_assoc; reflexivity|].
    split; [simpl; lia|].
    apply (extends_trans s s1 s' [r] new); [exact Hext|exact Hext'].
Qed.

Lemma pickDistinct_ok (idxs : list nat) :
  forall (availableCharacters : list GameCharacter) s,
    (length idxs <= length availableCharacters)%nat ->
    exists s' new,
      pickDistinct rand availableCharacters idxs s = Ok s' tt
      /\ playerTeam s' = playerTeam s
      /\ enemyTeam s' = enemyTeam s ++ new
      /\ length new = length idxs
      /\ extends s s' new.
Proof.
  induction idxs as [|i idxs IH]; intros pool s Hlen.
  - exists s, []. simpl. rewrite app_nil_r.
    do 4 (split; [reflexivity|]). apply extends_refl.
  - simpl in Hlen. cbn [pickDistinct].
    destruct (lookup_lt_is_Some_2 pool (randomIndex (rand i) (length pool)))
      as [randomChar Hpick].
    { destruct (Hrand i). apply randomIndex_lt; try assumption. lia. }
    rewrite Hpick.
    set (enemyChar := set_isPlayer (resetForBattle (clone randomChar)) (Some false)).
    pose proof (extends_alloc s enemyChar (clone_fit randomChar (Some false) None)) as Hext.
    destruct (alloc s enemyChar) as [s1 r] eqn:Ealloc. simpl in Hext.
    assert (Hs1 : playerTeam s1 = playerTeam s /\ enemyTeam s1 = enemyTeam s).
    { unfold alloc in Ealloc. injection Ealloc as <- _. split; reflexivity. }
    destruct Hs1 as [Hp1 He1].
    destruct (IH (splice_id (id randomChar) pool)
                 (set_enemyTeam s1 (enemyTeam s1 ++ [r])))
      as (s' & new & Hrun & Hp & He & Hlen' & Hext').
    { rewrite splice_id_length. lia. }
    exists s', (r :: new). split; [exact Hrun|].
    split; [rewrite Hp; exact Hp1|].
    split; [rewrite He; simpl; rewrite He1, <- app_assoc; reflexivity|].
    split; [simpl; lia|].
    apply (extends_trans s s1 s' [r] new); [exact Hext|exact Hext'].
Qed.

(** With one unlocked creature in the game the enemy team is drawn: three
    fit enemies, the allies untouched. *)
Lemma generateEnemyTeam_ok (characters : list GameCharacter) (s : BattleSystem) :
  (exists c, In c characters /\ unlocked c = true) ->
  exists s' new,
    generateEnemyTeam rand characters s = Ok s' tt
    /\ playerTeam s' = playerTeam s
    /\ enemyTeam s' = new
    /\ length new = 3%nat
    /\ extends s s' new.
Proof.
  intros (c & Hc & Hu). unfold generateEnemyTeam.
  destruct (Nat.ltb_spec
              (length (List.filter (fun c0 => unlocked c0 && negb (inPlayerTeam s (id c0)))
                                   characters)) TEAM_SIZE) as [Hfew|Hmany].
  - destruct (pickWithDuplicates_ok (List.filter unlocked characters) (seq 0 TEAM_SIZE))
      with (s := set_enemyTeam s []) as (s' & new & Hrun & Hp & He & Hlen & Hext).
    { intros E. assert (Hin : In c (List.filter unlocked characters))
        by (apply filter_In; auto).
      rewrite E in Hin. destruct Hin. }
    exists s', new. split; [exact Hrun|]. split; [exact Hp|]. split; [exact He|].
    split; [exact Hlen|exact Hext].
  - destruct (pickDistinct_ok (seq 0 TEAM_SIZE)
                (List.filter (fun c0 => unlocked c0 && negb (inPlayerTeam s (id c0)))
                             characters) (set_enemyTeam s []))
      as (s' & new & Hrun & Hp & He & Hlen & Hext).
    { simpl. unfold TEAM_SIZE in Hmany. lia. }
    exists s', new. split; [exact Hrun|]. split; [exact Hp|]. split; [exact He|].
    split; [exact Hlen|exact Hext].
Qed.

End Allocation.

Section CreateTurnQueue.

Variable s : BattleSystem.

Lemma init_bars_keep (l : list ref) :
  forall (m : gmap string jsnum) (k : string),
    m !! k = Some (Fin 0) ->
    fold_left (fun m r => <[getCharId (heap s r) := Fin 0]> m) l m !! k = Some (Fin 0).
Proof.
  induction l as [|a l IH]; intros m k Hk; simpl; [exact Hk|].
  apply IH. destruct (decide (getCharId (heap s a) = k)) as [->|E].
  - apply lookup_insert_eq.
  - rewrite lookup_insert_ne by exact E. exact Hk.
Qed.

Lemma init_bars_lookup (l : list ref) :
  forall (m : gmap string jsnum) (r : ref),
    In r l ->
    fold_left (fun m r => <[getCharId (heap s r) := Fin 0]> m) l m
      !! getCharId (heap s r) = Some (Fin 0).
Proof.
  induction l as [|a l IH]; intros m r Hr; [destruct Hr|].
  simpl. destruct Hr as [->|Hr].
  - apply init_bars_keep, lookup_insert_eq.
  - apply IH, Hr.
Qed.

Lemma createTurnQueue_frame (fuel : nat) (s' : BattleSystem) (u : unit) :
  createTurnQueue fuel s = Ok s' u ->
  exists bars turns,
    s' = set_turnQueue (set_upcomingTurns (set_actionBars s bars) turns) (take 6 turns).
Proof.
  unfold createTurnQueue.
  destruct (calculateUpcomingTurns _ _ _) as [s1 u1| |] eqn:E; simpl; try discriminate.
  intros [= <- _].
  apply calculateUpcomingTurns_frame in E as [turns ->]. eauto.
Qed.

Lemma createTurnQueue_no_throw (fuel : nat) (s' : BattleSystem) :
  createTurnQueue fuel s <> TypeError s'.
Proof.
  unfold createTurnQueue.
  destruct (calculateUpcomingTurns _ _ _) as [s1 u1|s1|] eqn:E; simpl; try discriminate.
  exfalso. eapply calculateUpcomingTurns_no_throw, E.
Qed.

Lemma createTurnQueue_terminates :
  (forall r, In r (teamMembers s) -> fit (heap s r)) ->
  exists fuel s', createTurnQueue fuel s = Ok s' tt.
Proof.
  intros Hfit. unfold createTurnQueue.
  set (bars := fold_left (fun m r => <[getCharId (heap s r) := Fin 0]> m)
                         (aliveCharacters s) ∅).
  destruct (calculateUpcomingTurns_terminates (set_actionBars s bars) 20)
    as (fuel & s1 & H1).
  - simpl. intros r Hr Hal. split; [|apply Hfit, Hr].
    exists 0%Q. unfold bars. apply init_bars_lookup.
    unfold aliveCharacters. apply filter_In. split; assumption.
  - exists fuel. rewrite H1. simpl. eauto.
Qed.

End CreateTurnQueue.

Lemma example_unit_draws : unit_draws Example.rand.
Proof.
  intros [|[|n]]; split; vm_compute; congruence.
Qed.

(** C8, as the code has it. [setupBattle] does not look at the size of the
    roster. With a random source in [0, 1) and at least one unlocked
    creature in the game, it returns for a roster of any length, never
    throwing; the ally team has one clone per template of the roster,
    there are three enemies, the phase is [battle] and no turn is in
    flight. That a battle has three allies is checked by the caller alone:
    for a selection that does not have 3 entries [startBattle] returns
    without calling [setupBattle], the battle system left as it was. *)
Theorem setupBattle_any_roster :
  forall (rand : nat -> Q) (characters : list GameCharacter) (s : BattleSystem)
         (roster : list GameCharacter),
    unit_draws rand ->
    (exists c, In c characters /\ unlocked c = true) ->
    (exists fuel s' r, setupBattle fuel rand characters s roster = Ok s' r)
    /\ (forall fuel s', setupBattle fuel rand characters s roster <> TypeError s')
    /\ (forall fuel s' r,
          setupBattle fuel rand characters s roster = Ok s' r ->
          length (playerTeam s') = length roster
          /\ length (enemyTeam s') = 3%nat
          /\ battlePhase s' = battle
          /\ isProcessingTurn s' = false
          /\ su_playerTeam r = playerTeam s'
          /\ su_enemyTeam r = enemyTeam s')
    /\ (forall fuel selectedBattleTeam,
          length selectedBattleTeam <> 3%nat ->
          startBattle fuel rand characters selectedBattleTeam s = Ok s tt).
Proof.
  intros rand characters s roster Hrand Hunlocked.
  destruct (clonePlayers roster s []) as (s0 & allies & Hfold & Hlen & Hext0).
  simpl in Hfold.
  destruct (generateEnemyTeam_ok rand Hrand characters (set_playerTeam s0 allies) Hunlocked)
    as (s2 & enemies & Hgen & Hp2 & He2 & Hlen2 & Hext2).
  simpl in Hp2.
  assert (Hfit : forall r, In r (teamMembers s2) -> fit (heap s2 r)).
  { intros r Hr. unfold teamMembers in Hr. rewrite Hp2, He2 in Hr.
    destruct Hext0 as (_ & _ & Hnew0). destruct Hext2 as (_ & Hold2 & Hnew2).
    apply in_app_or in Hr as [Hr|Hr].
    - destruct (Hnew0 r Hr) as [Hrange Hf].
      rewrite Hold2 by (simpl; lia). exact Hf.
    - apply Hnew2, Hr. }
  assert (Hunfold : forall fuel,
             setupBattle fuel rand characters s roster
             = bind (createTurnQueue fuel s2)
                    (fun s3 _ =>
                       let s4 := set_selectedAttackObj
                                   (set_isProcessingTurn
                                      (set_attackButtonsDisabled
                                         (set_battleLog (set_battlePhase s3 battle) [])
                                         false) false) None in
                       Ok s4 (mkSetupResult (playerTeam s4) (enemyTeam s4)
                                            (getCurrentCharacter s4)))).
  { intros fuel. unfold setupBattle. rewrite Hfold, Hgen. reflexivity. }
  split; [|split; [|split]].
  4:{ intros fuel selection Hsel. unfold startBattle.
      destruct (Nat.eqb_spec (length selection) 3); [contradiction|reflexivity]. }
  - destruct (createTurnQueue_terminates s2 Hfit) as (fuel & s3 & H3).
    exists fuel. rewrite Hunfold, H3. simpl. eauto.
  - intros fuel s'. rewrite Hunfold.
    destruct (createTurnQueue fuel s2) as [s3 u|s3|] eqn:E; simpl; try discriminate.
    exfalso. eapply createTurnQueue_no_throw, E.
  - intros fuel s' r. rewrite Hunfold.
    destruct (createTurnQueue fuel s2) as [s3 u| |] eqn:E; simpl; try discriminate.
    intros [= <- <-].
    apply createTurnQueue_frame in E as (bars & turns & ->). simpl.
    rewrite Hp2, He2. repeat split; assumption.
Qed.

Lemma setupBattle_any_roster_witness :
  unit_draws Example.rand
  /\ (exists c, In c Example.characters /\ unlocked c = true)
  /\ length Example.short_roster = 2%nat
  /\ exists fuel s' r,
       setupBattle fuel Example.rand Example.characters Example.fresh Example.short_roster
       = Ok s' r.
Proof.
  assert (Hu : exists c, In c Example.characters /\ unlocked c = true).
  { exists (new_GameCharacter "Red" [Red] true). split; [left|]; reflexivity. }
  split; [exact example_unit_draws|]. split; [exact Hu|]. split; [reflexivity|].
  exact (proj1 (setupBattle_any_roster Example.rand Example.characters Example.fresh
                  Example.short_roster example_unit_draws Hu)).
Defined.

(** A roster of two templates is accepted: the battle starts with two
    allies. *)
Lemma setupBattle_accepts_two :
  length Example.short_roster <> 3%nat
  /\ match setupBattle 200 Example.rand Example.characters Example.fresh
                       Example.short_roster with
     | Ok s' r =>
         battlePhase Example.fresh = setup
         /\ battlePhase s' = battle
         /\ length (playerTeam s') = 2%nat
         /\ length (su_playerTeam r) = 2%nat
     | _ => False
     end.
Proof. split; [discriminate|]. vm_compute. repeat split. Qed.

(** In the example battle the Blue-Blue at reference 1 strikes the last
    enemy, who has 30 hit points, for 36: the battle ends and the player
    wins. *)
Example processTurn_last_blow :
  well_formedb Example.last_stand = true
  /\ getCurrentCharacter Example.last_stand = Some 1%nat
  /\ match processTurn 200 Example.last_stand (mkAttack (Some Blue) single) (Some 3%nat) with
     | Ok s' (Success (SingleTurn r) isEnded won) =>
         (sr_damage r == 36)%Q /\ targetDefeated r = true
         /\ isEnded = true /\ won = Some player /\ battlePhase s' = ended
         /\ livingCount s' (enemyTeam s') = 0%nat
         /\ livingCount s' (playerTeam s') = 3%nat
     | _ => False
     end.
Proof. vm_compute. repeat split. Qed.


(** * More of the code *)

(** ** The remaining operations of a character *)

Lemma Qeq_bool_false_iff (x y : Q) : Qeq_bool x y = false <-> ~ (x == y)%Q.
Proof.
  split.
  - intros H E. apply Qeq_bool_iff in E. congruence.
  - intros H. destruct (Qeq_bool x y) eqn:E; [|reflexivity].
    apply Qeq_bool_iff in E. contradiction.
Qed.

Lemma stats_set_hp (c : GameCharacter) (h : Q) :
  hp (stats (set_hp c h)) = h
  /\ maxHp (stats (set_hp c h)) = maxHp (stats c)
  /\ Character.attack (stats (set_hp c h)) = Character.attack (stats c)
  /\ speed (stats (set_hp c h)) = speed (stats c).
Proof. repeat split. Qed.


(** X2. Damage that is not negative never raises the hit points and never
    takes them below 0; [takeDamage] returns true exactly when the
    character is defeated afterwards, which is exactly when it is no longer
    alive; and a defeated character stays defeated whatever damage
    follows. *)
Theorem takeDamage_defeats :
  forall (c : GameCharacter) (damage : Q),
    (0 <= damage)%Q ->
    hp_in_range c ->
    let c' := fst (takeDamage c damage) in
    hp_in_range c'
    /\ (hp (stats c') <= hp (stats c))%Q
    /\ snd (takeDamage c damage) = isDefeated c'
    /\ isDefeated c' = negb (isAlive c')
    /\ (isDefeated c' = true <-> (hp (stats c) <= damage)%Q)
    /\ (isDefeated c = true -> isDefeated c' = true)
    /\ c' = set_hp c (hp (stats c')).
Proof.
  intros c damage Hd [H0 H1] c'.
  assert (Hc : hp (stats c') = Qmax 0 (hp (stats c) - damage)) by reflexivity.
  assert (Hm : maxHp (stats c') = maxHp (stats c)) by reflexivity.
  assert (Hs : snd (takeDamage c damage) = isDefeated c') by reflexivity.
  assert (He : c' = set_hp c (hp (stats c'))) by reflexivity.
  unfold hp_in_range, isDefeated, isAlive in *. rewrite Hm.
  clearbody c'.
  pose proof (Q.max_spec 0 (hp (stats c) - damage)) as Hmax.
  rewrite <- Hc in Hmax.
  set (h' := hp (stats c')) in *. clearbody h'.
  assert (Hrange : (0 <= h')%Q /\ (h' <= hp (stats c))%Q)
    by (destruct Hmax as [[? ?]|[? ?]]; split; lra).
  assert (Hiff : Qeq_bool h' 0 = true <-> (hp (stats c) <= damage)%Q).
  { rewrite Qeq_bool_iff. destruct Hmax as [[? ?]|[? ?]]; split; intros; lra. }
  split; [split; lra|]. split; [lra|]. split; [exact Hs|].
  split.
  { destruct (Qeq_bool h' 0) eqn:E.
    - apply Qeq_bool_iff in E. symmetry. apply negb_true_iff, Qlt_bool_false_iff. lra.
    - apply Qeq_bool_false_iff in E. symmetry. apply negb_false_iff, Qlt_bool_iff.
      destruct Hrange as [Hr0 _]. apply Qle_lt_or_eq in Hr0. destruct Hr0 as [?|Hr0]; [assumption|].
      exfalso. apply E. symmetry. exact Hr0. }
  split; [exact Hiff|]. split; [|exact He].
  intros Hdead. apply Qeq_bool_iff in Hdead. apply Hiff. lra.
Qed.

Lemma takeDamage_defeats_witness :
  (0 <= 150)%Q
  /\ hp_in_range (new_GameCharacter "Red" [Red] true)
  /\ isDefeated (fst (takeDamage (new_GameCharacter "Red" [Red] true) 150)) = true.
Proof.
  assert (Ha : (0 <= 150)%Q) by (unfold Qle; simpl; lia).
  assert (Hr : hp_in_range (new_GameCharacter "Red" [Red] true))
    by (split; unfold Qle; simpl; lia).
  split; [exact Ha|]. split; [exact Hr|].
  apply (proj1 (proj2 (proj2 (proj2 (proj2 (takeDamage_defeats _ _ Ha Hr)))))).
  unfold Qle; simpl; lia.
Defined.

(** X3. The two ways to copy a character. Saving and loading keeps the
    stats as they are, damage included, and forgets the side; [clone]
    keeps the side and builds the stats anew from the id, so that damage
    never reaches a clone and a clone is at full health. *)
Theorem copies_of_a_character :
  forall (c : GameCharacter) (damage : Q),
    fromJSON (toJSON c) = set_isPlayer c None
    /\ fromJSON (toJSON (fst (takeDamage c damage)))
       = set_isPlayer (fst (takeDamage c damage)) None
    /\ clone (fst (takeDamage c damage)) = clone c
    /\ clone (clone c) = clone c
    /\ stats (clone c) = generateStats (id c)
    /\ hp (stats (clone c)) = maxHp (stats (clone c))
    /\ isPlayer (clone c) = isPlayer c
    /\ fromJSON (mkJSON (id c) (genes c) (unlocked c) None)
       = set_isPlayer (clone c) None.
Proof.
  intros c damage. repeat split.
  unfold clone, new_GameCharacter, generateStats. cbn [stats set_isPlayer].
  destruct (getStatDistribution (id c)) as [[h a] s]. reflexivity.
Qed.

(** X4. A character always has exactly two attacks, the first a single
    attack of its first gene; the second is the Neutral attack for a common
    character, the splash attack of its gene for an uncommon one and a
    single attack of the second gene for a rare one. So a splash attack is
    offered exactly to the uncommon characters. *)
Theorem getAttackGenes_by_rarity :
  forall (c : GameCharacter),
    length (getAttackGenes c) = 2%nat
    /\ getAttackGenes c !! 0%nat = Some (mkAttack (genes c !! 0%nat) single)
    /\ getAttackGenes c !! 1%nat
       = Some (match getRarity c with
               | common => mkAttack (Some Neutral) single
               | uncommon => mkAttack (genes c !! 0%nat) splash
               | rare => mkAttack (genes c !! 1%nat) single
               end)
    /\ ((exists a, In a (getAttackGenes c) /\ type a = splash) <-> getRarity c = uncommon)
    /\ (getRarity c = rare <->
        length (genes c) <> 1%nat /\ genes c !! 0%nat <> genes c !! 1%nat).
Proof.
  intros c. unfold getAttackGenes, getRarity.
  destruct (Nat.eqb (length (genes c)) 1) eqn:E1;
    [apply Nat.eqb_eq in E1 | apply Nat.eqb_neq in E1];
    [| destruct (decide (genes c !! 0%nat = genes c !! 1%nat)) as [E2|E2]].
  - repeat split; try reflexivity; try discriminate.
    + intros (a & [<-|[<-|[]]] & Ha); discriminate.
    + intros [H _]. contradiction.
  - repeat split; try reflexivity; try discriminate.
    + exists (mkAttack (genes c !! 0%nat) splash). split; [right; left|]; reflexivity.
    + intros [_ H]. contradiction.
  - repeat split; try reflexivity; try discriminate; try assumption.
    intros (a & [<-|[<-|[]]] & Ha); discriminate.
Qed.

(** *** Display names *)

Lemma append_cons (a : ascii) (x y : string) : String a x +:+ y = String a (x +:+ y).
Proof. reflexivity. Qed.

Lemma append_nil (y : string) : "" +:+ y = y.
Proof. reflexivity. Qed.

Lemma all_digits_dash (x y : string) : all_digits (x +:+ String "-" y) = false.
Proof.
  induction x as [|a x IH]; [reflexivity|].
  rewrite append_cons. cbn [all_digits]. rewrite IH. apply andb_false_r.
Qed.

Lemma is_enemy_suffix_inside (a : ascii) (x y : string) :
  is_enemy_suffix (String a x +:+ String "-" (String "E" y)) = false.
Proof.
  unfold is_enemy_suffix. rewrite append_cons.
  destruct x as [|b x]; [rewrite append_nil | rewrite append_cons].
  - destruct a as [[] [] [] [] [] [] [] []]; reflexivity.
  - destruct x as [|d x]; [rewrite append_nil | rewrite append_cons].
    + destruct a as [[] [] [] [] [] [] [] []]; try reflexivity;
        destruct b as [[] [] [] [] [] [] [] []]; reflexivity.
    + rewrite all_digits_dash, andb_false_r.
      destruct a as [[] [] [] [] [] [] [] []]; try reflexivity;
        destruct b as [[] [] [] [] [] [] [] []]; reflexivity.
Qed.

Lemma strip_enemy_suffix_app (x d : string) :
  is_enemy_suffix (String "-" (String "E" d)) = true ->
  strip_enemy_suffix (x +:+ String "-" (String "E" d)) = x.
Proof.
  intros Hd. induction x as [|a x IH].
  - rewrite append_nil. cbn [strip_enemy_suffix]. rewrite Hd. reflexivity.
  - pose proof (is_enemy_suffix_inside a x d) as Hin.
    rewrite append_cons in *. cbn [strip_enemy_suffix].
    rewrite Hin, IH. reflexivity.
Qed.

(** X5. The display name undoes the renaming of a duplicated enemy: for any
    id, the id with the suffix [-E] and one digit displays as the id
    itself. *)
Theorem getDisplayName_of_renamed :
  forall (c : GameCharacter) (i : nat),
    (i <= 9)%nat ->
    getDisplayName (set_id c (id c +:+ "-E" +:+ digit_string i)) = id c.
Proof.
  intros c i Hi. unfold getDisplayName. cbn [id set_id].
  change ("-E" +:+ digit_string i) with (String "-" (String "E" (digit_string i))).
  apply strip_enemy_suffix_app.
  do 10 (destruct i as [|i]; [reflexivity|]). lia.
Qed.

Lemma getDisplayName_of_renamed_witness :
  (3 <= 9)%nat
  /\ getDisplayName (set_id (new_GameCharacter "Red-Blue" [Red; Blue] true) "Red-Blue-E3")
     = "Red-Blue".
Proof.
  split; [lia|].
  exact (getDisplayName_of_renamed (new_GameCharacter "Red-Blue" [Red; Blue] true) 3
           ltac:(lia)).
Defined.

(** *** The hash of a string *)

Lemma toInt32_range (z : Z) : (- 2 ^ 31 <= toInt32 z < 2 ^ 31)%Z.
Proof.
  unfold toInt32. pose proof (Z.mod_pos_bound (z + 2 ^ 31) (2 ^ 32) ltac:(lia)). lia.
Qed.

Lemma toInt32_small (z : Z) : (- 2 ^ 31 <= z < 2 ^ 31)%Z -> toInt32 z = z.
Proof.
  intros H. unfold toInt32. rewrite Z.mod_small; lia.
Qed.

Lemma toInt32_congr (x y : Z) :
  (x mod 2 ^ 32 = y mod 2 ^ 32)%Z -> toInt32 x = toInt32 y.
Proof.
  intros H. unfold toInt32.
  rewrite <- (Zplus_mod_idemp_l x), <- (Zplus_mod_idemp_l y), H. reflexivity.
Qed.

Lemma toInt32_shift (z : Z) : exists k : Z, toInt32 z = (z + k * 2 ^ 32)%Z.
Proof.
  exists (- ((z + 2 ^ 31) / 2 ^ 32))%Z. unfold toInt32.
  rewrite Z.mod_eq by lia. lia.
Qed.

Lemma toInt32_mod (z : Z) : (toInt32 z mod 2 ^ 32 = z mod 2 ^ 32)%Z.
Proof.
  destruct (toInt32_shift z) as [k ->]. apply Z_mod_plus_full.
Qed.

Lemma mod_eq_shift (x y : Z) :
  (x mod 2 ^ 32 = y mod 2 ^ 32)%Z -> exists k : Z, x = (y + k * 2 ^ 32)%Z.
Proof.
  intros H. exists (x / 2 ^ 32 - y / 2 ^ 32)%Z.
  pose proof (Z.div_mod x (2 ^ 32) ltac:(lia)).
  pose proof (Z.div_mod y (2 ^ 32) ltac:(lia)). lia.
Qed.

Lemma hashStep_spec (h a : Z) (c : ascii) :
  (h mod 2 ^ 32 = a mod 2 ^ 32)%Z ->
  (hashStep h c mod 2 ^ 32 = (a * 31 + Z.of_nat (nat_of_ascii c)) mod 2 ^ 32)%Z.
Proof.
  intros H. unfold hashStep. rewrite Z.land_diag, toInt32_mod, toInt32_mod.
  set (k := Z.of_nat (nat_of_ascii c)).
  destruct (mod_eq_shift h a H) as [k0 E0].
  destruct (toInt32_shift h) as [k1 E1]. rewrite E1.
  rewrite Z.shiftl_mul_pow2 by lia.
  destruct (toInt32_shift ((h + k1 * 2 ^ 32) * 2 ^ 5)) as [k2 E2]. rewrite E2.
  replace ((h + k1 * 2 ^ 32) * 2 ^ 5 + k2 * 2 ^ 32 - h + k)%Z
    with (a * 31 + k + (31 * k0 + 32 * k1 + k2) * 2 ^ 32)%Z by lia.
  apply Z_mod_plus_full.
Qed.

Lemma hashStep_range (h : Z) (c : ascii) : (- 2 ^ 31 <= hashStep h c < 2 ^ 31)%Z.
Proof. apply toInt32_range. Qed.

Lemma hashCode_from_spec (str : string) :
  forall h a : Z,
    (- 2 ^ 31 <= h < 2 ^ 31)%Z ->
    (h mod 2 ^ 32 = a mod 2 ^ 32)%Z ->
    hashCode_from str h = toInt32 (polyHash_from str a).
Proof.
  induction str as [|c str IH]; intros h a Hr Hm; cbn [hashCode_from polyHash_from].
  - rewrite <- (toInt32_small h Hr). apply toInt32_congr. exact Hm.
  - apply IH; [apply hashStep_range | apply hashStep_spec; exact Hm].
Qed.

(** X6. [hashCode] is the polynomial hash with base 31 (the sum of
    code(i) * 31^(n-1-i)) reduced to a signed 32-bit integer: the shift,
    the subtraction and the [&] of each round lose nothing beyond that
    reduction. The result is always in [-2^31, 2^31). *)
Theorem hashCode_polynomial :
  forall (str : string),
    hashCode str = toInt32 (polyHash str)
    /\ (- 2 ^ 31 <= hashCode str < 2 ^ 31)%Z
    /\ (polyHash str mod 2 ^ 32 = hashCode str mod 2 ^ 32)%Z.
Proof.
  intros str.
  assert (H : hashCode str = toInt32 (polyHash str))
    by (apply hashCode_from_spec; [lia | reflexivity]).
  rewrite H. split; [reflexivity|]. split; [apply toInt32_range|].
  symmetry. apply toInt32_mod.
Qed.

(** ** The stat table and the characters of a game *)

Lemma table_budget :
  forallb (fun e => let '(h, a, s) := snd e in
                    Qeq_bool (h / 3 + a + s) 200
                    && Qle_bool 120 h && Qle_bool h 360
                    && Qle_bool 40 a && Qle_bool a 120
                    && Qle_bool 40 s && Qle_bool s 120)
          CHARACTER_STATS = true.
Proof. vm_compute. reflexivity. Qed.


Lemma generateCharacters_ids :
  NoDup (map id GameState.generateCharacters)
  /\ NoDup (map fst CHARACTER_STATS)
  /\ forallb (fun c => existsb (String.eqb (id c)) (map fst CHARACTER_STATS))
             GameState.generateCharacters = true
  /\ forallb (fun k => existsb (fun c => String.eqb (id c) k) GameState.generateCharacters)
             (map fst CHARACTER_STATS) = true.
Proof.
  split; [|split; [|split]].
  - apply (bool_decide_unpack _). vm_compute. reflexivity.
  - apply (bool_decide_unpack _). vm_compute. reflexivity.
  - vm_compute. reflexivity.
  - vm_compute. reflexivity.
Qed.

Lemma lookup_character_NoDup (l : list GameCharacter) (c : GameCharacter) :
  NoDup (map id l) -> In c l -> lookup_character l (id c) = Some c.
Proof.
  unfold lookup_character. induction l as [|x l IH]; intros Hnd Hin; [destruct Hin|].
  cbn [map] in Hnd. apply list.NoDup_cons in Hnd. destruct Hnd as [Hx Hnd].
  cbn [find]. destruct Hin as [->|Hin].
  - rewrite String.eqb_refl. reflexivity.
  - destruct (String.eqb (id x) (id c)) eqn:E.
    + apply String.eqb_eq in E. exfalso. apply Hx. rewrite E.
      apply list_elem_of_In, in_map, Hin.
    + apply IH; assumption.
Qed.

Lemma generateCharacters_new (c : GameCharacter) :
  In c GameState.generateCharacters ->
  c = new_GameCharacter (id c) (genes c) (unlocked c)
  /\ (unlocked c = true <-> length (genes c) = 1%nat).
Proof.
  unfold GameState.generateCharacters. rewrite in_app_iff, in_map_iff, in_flat_map.
  intros [(g & <- & _)|(p & _ & Hin)].
  - split; [reflexivity|]. split; reflexivity.
  - apply in_map_iff in Hin. destruct Hin as (q & <- & _).
    split; [reflexivity|]. split; discriminate.
Qed.

(** X8. [generateCharacters] builds 42 characters with pairwise distinct
    ids, so that no key of the object is written twice; their ids are
    exactly the keys of the stat table, so the fallback stats are never
    used; a character is found under its own id; and the unlocked ones are
    exactly the six single-gene characters, in the order of [GENES]. *)
Theorem generateCharacters_table :
  forall (c : GameCharacter),
    length GameState.generateCharacters = 42%nat
    /\ NoDup (map id GameState.generateCharacters)
    /\ (forall i, In i (map id GameState.generateCharacters)
                  <-> In i (map fst CHARACTER_STATS))
    /\ (In c GameState.generateCharacters ->
        lookup_character GameState.generateCharacters (id c) = Some c
        /\ lookup_stats CHARACTER_STATS (id c)
           = Some (maxHp (stats c), Character.attack (stats c), speed (stats c))
        /\ (unlocked c = true <-> length (genes c) = 1%nat)
        /\ isPlayer c = None)
    /\ map id (List.filter unlocked GameState.generateCharacters)
       = map GameState.gene_name GENES.
Proof.
  intros c.
  destruct generateCharacters_ids as (Hnd & Hndt & Hsub & Hsup).
  split; [reflexivity|]. split; [exact Hnd|]. split; [|split; [|reflexivity]].
  - intros i. split; intros Hin.
    + apply in_map_iff in Hin. destruct Hin as (x & <- & Hx).
      rewrite forallb_forall in Hsub. specialize (Hsub x Hx).
      apply existsb_exists in Hsub. destruct Hsub as (k & Hk & E).
      apply String.eqb_eq in E. rewrite E. exact Hk.
    + rewrite forallb_forall in Hsup. specialize (Hsup i Hin).
      apply existsb_exists in Hsup. destruct Hsup as (x & Hx & E).
      apply String.eqb_eq in E. rewrite <- E. apply in_map. exact Hx.
  - intros Hin. destruct (generateCharacters_new c Hin) as [Hnew Hu].
    split; [apply lookup_character_NoDup; assumption|].
    split; [|split; [exact Hu | rewrite Hnew; reflexivity]].
    rewrite forallb_forall in Hsub. specialize (Hsub c Hin).
    apply existsb_exists in Hsub. destruct Hsub as (k & Hk & E).
    apply String.eqb_eq in E. subst k.
    apply in_map_iff in Hk. destruct Hk as ([k [[h a] s]] & Ek & Hk). cbn [fst] in Ek. subst k.
    assert (Hl : lookup_stats CHARACTER_STATS (id c) = Some (h, a, s)).
    { clear - Hk Hndt. induction CHARACTER_STATS as [|[k v] tbl IH]; [destruct Hk|].
      cbn [map fst] in Hndt. apply list.NoDup_cons in Hndt. destruct Hndt as [Hx Hndt].
      cbn [lookup_stats]. destruct Hk as [Hk|Hk].
      - inversion Hk; subst. rewrite String.eqb_refl. reflexivity.
      - destruct (String.eqb k (id c)) eqn:E.
        + apply String.eqb_eq in E. exfalso. apply Hx. rewrite E.
          apply list_elem_of_In. apply (in_map fst _ _ Hk).
        + apply IH; assumption. }
    rewrite Hl. rewrite Hnew at 1 2 3.
    unfold new_GameCharacter, generateStats, getStatDistribution. rewrite Hl. reflexivity.
Qed.

(** ** What the scheduler computes *)

Section SimulateResult.

Variable s : BattleSystem.

Lemma tick_new (chars : list ref) (sim : gmap string jsnum) (turns : list ref) :
  exists new,
    snd (tick s chars sim turns) = turns ++ new
    /\ (forall r, In r new -> In r chars)
    /\ (length new <= length chars)%nat.
Proof.
  rewrite tick_turns. eexists. split; [reflexivity|]. split.
  - intros r Hr. apply sort_In in Hr. apply filter_In in Hr. tauto.
  - rewrite sort_length. apply List.filter_length_le.
Qed.

Lemma simulate_result (fuel : nat) :
  forall (chars : list ref) (n : nat) (sim : gmap string jsnum) (turns result : list ref),
    simulate fuel s chars n sim turns = Some result ->
    exists new,
      result = turns ++ new
      /\ (forall r, In r new -> In r chars)
      /\ (n <= length result)%nat
      /\ ((length turns < n)%nat -> (length result < n + length chars)%nat)
      /\ ((n <= length turns)%nat -> new = []).
Proof.
  induction fuel as [|fuel IH]; intros chars n sim turns result Hsim.
  - cbn [simulate] in Hsim. destruct (Nat.ltb (length turns) n) eqn:E; [discriminate|].
    apply Nat.ltb_ge in E. inversion Hsim; subst. exists [].
    rewrite app_nil_r. repeat split; try lia. intros r [].
  - destruct (Nat.ltb (length turns) n) eqn:E.
    + apply Nat.ltb_lt in E. rewrite simulate_step in Hsim by exact E.
      destruct (tick_new chars sim turns) as (new1 & Ht & Hin1 & Hlen1).
      apply IH in Hsim. destruct Hsim as (new2 & -> & Hin2 & Hn & Hlt & Hge).
      rewrite Ht in *. exists (new1 ++ new2). rewrite app_assoc.
      split; [reflexivity|]. split.
      { intros r Hr. apply in_app_iff in Hr. destruct Hr; auto. }
      split; [exact Hn|]. split; [|lia].
      intros _. destruct (Nat.lt_ge_cases (length (turns ++ new1)) n) as [Hc|Hc].
      * apply Hlt. exact Hc.
      * rewrite (Hge Hc), app_nil_r. rewrite length_app. lia.
    + apply Nat.ltb_ge in E. rewrite simulate_done in Hsim by exact E.
      inversion Hsim; subst. exists []. rewrite app_nil_r.
      repeat split; try lia. intros r [].
Qed.

Lemma simulate_fuel_mono (fuel : nat) :
  forall (chars : list ref) (n : nat) (sim : gmap string jsnum) (turns result : list ref),
    simulate fuel s chars n sim turns = Some result ->
    forall fuel', (fuel <= fuel')%nat -> simulate fuel' s chars n sim turns = Some result.
Proof.
  induction fuel as [|fuel IH]; intros chars n sim turns result Hsim fuel' Hle.
  - cbn [simulate] in Hsim. destruct (Nat.ltb (length turns) n) eqn:E; [discriminate|].
    apply Nat.ltb_ge in E. inversion Hsim; subst. apply simulate_done. exact E.
  - destruct (Nat.ltb (length turns) n) eqn:E.
    + apply Nat.ltb_lt in E. rewrite simulate_step in Hsim by exact E.
      destruct fuel' as [|fuel']; [lia|].
      rewrite simulate_step by exact E. apply (IH _ _ _ _ _ Hsim). lia.
    + apply Nat.ltb_ge in E. rewrite simulate_done in Hsim by exact E.
      inversion Hsim; subst. apply simulate_done. exact E.
Qed.

End SimulateResult.

Lemma calculateUpcomingTurns_result (fuel : nat) (s s' : BattleSystem) (n : nat) (u : unit) :
  calculateUpcomingTurns fuel s n = Ok s' u ->
  s' = set_upcomingTurns s (upcomingTurns s')
  /\ (forall r, In r (upcomingTurns s') -> In r (aliveCharacters s))
  /\ (aliveCharacters s = [] -> upcomingTurns s' = [])
  /\ (aliveCharacters s <> [] ->
      (n <= length (upcomingTurns s'))%nat
      /\ ((0 < n)%nat -> (length (upcomingTurns s') < n + length (aliveCharacters s))%nat)).
Proof.
  unfold calculateUpcomingTurns. intros H.
  destruct (Nat.eqb (length (aliveCharacters s)) 0) eqn:E.
  - apply Nat.eqb_eq in E. inversion H; subst. cbn.
    split; [reflexivity|]. split; [intros r []|]. split; [reflexivity|].
    intros Hne. destruct (aliveCharacters s); [congruence|discriminate].
  - apply Nat.eqb_neq in E.
    destruct (simulate fuel s (aliveCharacters s) n (actionBars s) []) as [turns|] eqn:Hs;
      [|discriminate].
    inversion H; subst. cbn.
    apply simulate_result in Hs. destruct Hs as (new & Hr & Hin & Hn & Hlt & _).
    cbn [app] in Hr. subst new.
    split; [reflexivity|]. split; [exact Hin|]. split.
    + intros Hnil. rewrite Hnil in E. cbn in E. congruence.
    + intros _. split; [exact Hn|]. intros Hpos. apply Hlt. cbn. exact Hpos.
Qed.

Lemma calculateUpcomingTurns_fuel (fuel fuel' : nat) (s s1 s2 : BattleSystem) (n : nat)
      (u1 u2 : unit) :
  calculateUpcomingTurns fuel s n = Ok s1 u1 ->
  calculateUpcomingTurns fuel' s n = Ok s2 u2 ->
  s1 = s2.
Proof.
  unfold calculateUpcomingTurns.
  destruct (Nat.eqb (length (aliveCharacters s)) 0); [congruence|].
  destruct (simulate fuel s (aliveCharacters s) n (actionBars s) []) as [t1|] eqn:H1;
    [|discriminate].
  destruct (simulate fuel' s (aliveCharacters s) n (actionBars s) []) as [t2|] eqn:H2;
    [|discriminate].
  intros E1 E2. inversion E1; inversion E2; subst.
  pose proof (simulate_fuel_mono s _ _ _ _ _ _ H1 (Nat.max fuel fuel') ltac:(lia)) as H1'.
  pose proof (simulate_fuel_mono s _ _ _ _ _ _ H2 (Nat.max fuel fuel') ltac:(lia)) as H2'.
  congruence.
Qed.

(** ** The turn queue after a defeat *)

Section UpdateTurnQueueRun.

Variable s : BattleSystem.

Lemma barsOfLiving_spec (members : list ref) :
  forall (bars : gmap string jsnum) (k : string),
    barsOfLiving s members bars !! k
    = if existsb (fun r => negb (isAlive (heap s r))
                           && String.eqb (getCharId (heap s r)) k) members
      then None else bars !! k.
Proof.
  induction members as [|r members IH]; intros bars k; [reflexivity|].
  unfold barsOfLiving in *. cbn [fold_left existsb]. rewrite IH.
  destruct (existsb _ members); [rewrite orb_true_r; reflexivity|].
  rewrite orb_false_r.
  destruct (isAlive (heap s r)); cbn [negb andb]; [reflexivity|].
  destruct (String.eqb (getCharId (heap s r)) k) eqn:E.
  - apply String.eqb_eq in E. subst k. apply lookup_delete_eq.
  - apply String.eqb_neq in E. apply lookup_delete_ne. exact E.
Qed.

Lemma barsOfLiving_dead (members : list ref) (bars : gmap string jsnum) (r : ref) :
  In r members -> isAlive (heap s r) = false ->
  barsOfLiving s members bars !! getCharId (heap s r) = None.
Proof.
  intros Hin Hdead. rewrite barsOfLiving_spec.
  replace (existsb _ members) with true; [reflexivity|].
  symmetry. apply existsb_exists. exists r. split; [exact Hin|].
  rewrite Hdead, String.eqb_refl. reflexivity.
Qed.

Lemma barsOfLiving_alive (bars : gmap string jsnum) (r : ref) :
  well_formed s ->
  In r (teamMembers s) -> isAlive (heap s r) = true ->
  barsOfLiving s (teamMembers s) bars !! getCharId (heap s r)
  = bars !! getCharId (heap s r).
Proof.
  intros Hwf Hin Hal. apply barsOfLiving_lookup.
  intros r' Hr' Hdead Heq.
  assert (r' = r)
    by exact (NoDup_map_inj (fun r => getCharId (heap s r)) _ _ _ (wf_keys s Hwf) Hr' Hin Heq).
  subst r'. congruence.
Qed.

(** What [updateTurnQueue] that returns has done. *)
Lemma updateTurnQueue_run (fuel : nat) (s' : BattleSystem) (u : unit) :
  well_formed s ->
  updateTurnQueue fuel s = Ok s' u ->
  s' = set_turnQueue
         (set_upcomingTurns
            (set_actionBars s (barsOfLiving s (teamMembers s) (actionBars s)))
            (upcomingTurns s'))
         (take 6 (upcomingTurns s'))
  /\ (forall r, In r (upcomingTurns s') ->
                In r (teamMembers s) /\ isAlive (heap s r) = true)
  /\ (aliveCharacters s <> [] -> (20 <= length (upcomingTurns s') < 20 + length (aliveCharacters s))%nat)
  /\ (aliveCharacters s = [] -> upcomingTurns s' = [])
  /\ well_formed s'.
Proof.
  intros Hwf. unfold updateTurnQueue.
  fold (teamMembers s). fold (barsOfLiving s (teamMembers s) (actionBars s)).
  set (s0 := set_actionBars s (barsOfLiving s (teamMembers s) (actionBars s))).
  destruct (calculateUpcomingTurns fuel s0 20) as [s1 u1| |] eqn:E; cbn [bind];
    try discriminate.
  intros [= <- <-].
  apply calculateUpcomingTurns_result in E. destruct E as (E1 & Hin & Hnil & Hlen).
  change (aliveCharacters s0) with (aliveCharacters s) in *.
  assert (Hmem : forall r, In r (upcomingTurns s1) ->
                           In r (teamMembers s) /\ isAlive (heap s r) = true).
  { intros r Hr. apply aliveCharacters_members, Hin, Hr. }
  split; [rewrite E1 at 1; reflexivity|].
  split; [exact Hmem|]. split; [intros Hne; destruct (Hlen Hne) as [H1 H2]; split;
                                 [exact H1 | apply H2; lia]|].
  split; [exact Hnil|].
  rewrite E1. destruct Hwf as [Hk Hb Hs Hp He Ht].
  constructor; cbn; try assumption.
  - intros r Hr Hal. destruct (Hb r Hr Hal) as [b Hb']. exists b.
    rewrite barsOfLiving_alive; [exact Hb' | constructor; assumption | exact Hr | exact Hal].
  - intros r Hr. apply Hmem, Hr.
Qed.

End UpdateTurnQueueRun.

(** ** More fuel changes nothing *)

Lemma calculateUpcomingTurns_mono (fuel fuel' : nat) (s s' : BattleSystem) (n : nat) (u : unit) :
  calculateUpcomingTurns fuel s n = Ok s' u -> (fuel <= fuel')%nat ->
  calculateUpcomingTurns fuel' s n = Ok s' u.
Proof.
  unfold calculateUpcomingTurns. intros H Hle.
  destruct (Nat.eqb (length (aliveCharacters s)) 0); [exact H|].
  destruct (simulate fuel s (aliveCharacters s) n (actionBars s) []) as [t|] eqn:E;
    [|discriminate].
  rewrite (simulate_fuel_mono s fuel _ _ _ _ _ E fuel' Hle). exact H.
Qed.

Lemma updateTurnQueue_mono (fuel fuel' : nat) (s s' : BattleSystem) (u : unit) :
  updateTurnQueue fuel s = Ok s' u -> (fuel <= fuel')%nat ->
  updateTurnQueue fuel' s = Ok s' u.
Proof.
  unfold updateTurnQueue. intros H Hle.
  destruct (calculateUpcomingTurns fuel _ 20) as [s1 u1| |] eqn:E; cbn [bind] in H;
    try discriminate.
  rewrite (calculateUpcomingTurns_mono _ _ _ _ _ _ E Hle). exact H.
Qed.

Lemma nextTurn_mono (fuel fuel' : nat) (s s' : BattleSystem) (r : NextTurn) :
  nextTurn fuel s = Ok s' r -> (fuel <= fuel')%nat -> nextTurn fuel' s = Ok s' r.
Proof.
  intros H Hle. destruct (getCurrentCharacter s) as [c|] eqn:Hc.
  - rewrite (nextTurn_unfold fuel s c Hc) in H. rewrite (nextTurn_unfold fuel' s c Hc).
    destruct (Nat.ltb (length (upcomingTurns (afterConsumption s c))) 20); [|exact H].
    destruct (calculateUpcomingTurns fuel _ 20) as [s1 u1| |] eqn:E; cbn [bind] in H;
      try discriminate.
    rewrite (calculateUpcomingTurns_mono _ _ _ _ _ _ E Hle). exact H.
  - unfold nextTurn in *. rewrite Hc in *. exact H.
Qed.

Lemma processTurn_mono (fuel fuel' : nat) (s s' : BattleSystem) (attackObj : AttackObj)
      (target : option ref) (o : TurnOutcome) :
  processTurn fuel s attackObj target = Ok s' o -> (fuel <= fuel')%nat ->
  processTurn fuel' s attackObj target = Ok s' o.
Proof.
  unfold processTurn. intros H Hle.
  destruct (isProcessingTurn s); [exact H|].
  destruct (getCurrentCharacter (set_isProcessingTurn s true)) as [attacker|]; [|exact H].
  destruct (negb (isAlive (heap (set_isProcessingTurn s true) attacker))); [exact H|].
  set (s1 := set_isProcessingTurn s true) in *.
  assert (Hres : forall s2 tr, resolveAttack fuel s1 attacker attackObj target = Ok s2 tr ->
                               resolveAttack fuel' s1 attacker attackObj target = Ok s2 tr).
  { unfold resolveAttack. intros s2 tr.
    destruct (decide (type attackObj = splash)).
    - unfold processSplashAttack.
      destruct (fold_left _ (splashTargets s1 attacker) (s1, [])) as [s3 hits].
      destruct (updateTurnQueue fuel s3) as [s4 u4| |] eqn:E; cbn [bind]; try discriminate.
      rewrite (updateTurnQueue_mono _ _ _ _ _ E Hle). trivial.
    - unfold processSingleAttack. destruct target as [t|]; [|trivial].
      destruct (takeDamage (heap s1 t) _) as [hit wasDefeated].
      destruct wasDefeated; [|trivial].
      destruct (updateTurnQueue fuel _) as [s4 u4| |] eqn:E; cbn [bind]; try discriminate.
      rewrite (updateTurnQueue_mono _ _ _ _ _ E Hle). trivial. }
  destruct (resolveAttack fuel s1 attacker attackObj target) as [s2 tr| |] eqn:E;
    cbn [bind] in H; try discriminate.
  rewrite (Hres _ _ eq_refl). exact H.
Qed.

(** ** The advance to the next turn *)

Lemma In_drop {A : Type} (n : nat) (l : list A) (x : A) : In x (drop n l) -> In x l.
Proof.
  revert l. induction n as [|n IH]; intros l; [rewrite drop_0; trivial|].
  destruct l as [|y l]; [trivial|]. cbn [drop]. intros H. right. apply IH, H.
Qed.

Lemma afterConsumption_well_formed (s : BattleSystem) (c : ref) :
  well_formed s -> well_formed (afterConsumption s c).
Proof.
  intros [Hk Hb Hs Hp He Ht]. constructor; cbn; try assumption.
  - intros r Hr Hal. destruct (Hb r Hr Hal) as [b Hb'].
    destruct (decide (getCharId (heap s c) = getCharId (heap s r))) as [E|E].
    + rewrite E, lookup_insert_eq, Hb'. cbn. eauto.
    + rewrite lookup_insert_ne by exact E. eauto.
  - intros r Hr. apply Ht. apply (In_drop 1). exact Hr.
Qed.

(** What [nextTurn] that returns has done, for the current character [c]. *)
Lemma nextTurn_run (fuel : nat) (s s' : BattleSystem) (c : ref) (r : NextTurn) :
  well_formed s ->
  getCurrentCharacter s = Some c ->
  nextTurn fuel s = Ok s' r ->
  s' = set_turnQueue (set_upcomingTurns (afterConsumption s c) (upcomingTurns s'))
                     (take 6 (upcomingTurns s'))
  /\ r = mkNextTurn (getCurrentCharacter s') (take 6 (upcomingTurns s'))
  /\ ((21 <= length (upcomingTurns s))%nat -> upcomingTurns s' = drop 1 (upcomingTurns s))
  /\ ((length (upcomingTurns s) <= 20)%nat ->
      (forall x, In x (upcomingTurns s') ->
                 In x (teamMembers s) /\ isAlive (heap s x) = true)
      /\ (aliveCharacters s <> [] ->
          (20 <= length (upcomingTurns s') < 20 + length (aliveCharacters s))%nat)
      /\ (aliveCharacters s = [] -> upcomingTurns s' = []))
  /\ well_formed s'.
Proof.
  intros Hwf Hc. rewrite (nextTurn_unfold fuel s c Hc).
  pose proof (afterConsumption_well_formed s c Hwf) as Hwf1.
  assert (Hlen : length (upcomingTurns (afterConsumption s c))
                 = (length (upcomingTurns s) - 1)%nat)
    by (cbn; apply length_drop).
  destruct (Nat.ltb (length (upcomingTurns (afterConsumption s c))) 20) eqn:El.
  - apply Nat.ltb_lt in El.
    destruct (calculateUpcomingTurns fuel (afterConsumption s c) 20) as [s3 u| |] eqn:E;
      cbn [bind]; try discriminate.
    intros [= <- <-].
    apply calculateUpcomingTurns_result in E. destruct E as (E1 & Hin & Hnil & Hmany).
    change (aliveCharacters (afterConsumption s c)) with (aliveCharacters s) in *.
    split; [rewrite E1 at 1; reflexivity|]. split; [reflexivity|].
    split; [intros H21; lia|]. cbn [upcomingTurns set_turnQueue].
    assert (Hmem : forall x, In x (upcomingTurns s3) ->
                             In x (teamMembers s) /\ isAlive (heap s x) = true).
    { intros x Hx. apply aliveCharacters_members, Hin, Hx. }
    split.
    { intros _. split; [exact Hmem|]. split; [|exact Hnil].
      intros Hne. destruct (Hmany Hne) as [H1 H2]. split; [exact H1 | apply H2; lia]. }
    rewrite E1. destruct Hwf1 as [Hk Hb Hs Hp He Ht].
    constructor; cbn; try assumption.
    intros x Hx. apply Hmem, Hx.
  - apply Nat.ltb_ge in El. cbn [bind]. intros [= <- <-].
    split; [reflexivity|]. split; [reflexivity|].
    split; [intros _; reflexivity|].
    split; [intros Hle; lia|].
    destruct Hwf1 as [Hk Hb Hs Hp He Ht]. constructor; cbn; assumption.
Qed.

Lemma someAlive_ext (s s' : BattleSystem) (team : list ref) :
  (forall r, In r team -> isAlive (heap s' r) = isAlive (heap s r)) ->
  someAlive s' team = someAlive s team.
Proof.
  unfold someAlive. induction team as [|r team IH]; intros H; [reflexivity|].
  cbn [existsb]. rewrite (H r (or_introl eq_refl)), IH; [reflexivity|].
  intros x Hx. apply H. right. exact Hx.
Qed.

Lemma someAlive_aliveCharacters (s : BattleSystem) :
  someAlive s (playerTeam s) = true \/ someAlive s (enemyTeam s) = true ->
  aliveCharacters s <> [].
Proof.
  unfold someAlive, aliveCharacters. intros H Hnil.
  assert (Hex : exists r, In r (playerTeam s ++ enemyTeam s) /\ isAlive (heap s r) = true).
  { destruct H as [H|H]; apply existsb_exists in H; destruct H as (r & Hr & Hal);
      exists r; (split; [apply in_or_app; auto | exact Hal]). }
  destruct Hex as (r & Hr & Hal).
  assert (Hin : In r (List.filter (fun r => isAlive (heap s r)) (playerTeam s ++ enemyTeam s)))
    by (apply filter_In; auto).
  rewrite Hnil in Hin. destruct Hin.
Qed.

Lemma battle_ready_current (s : BattleSystem) :
  battle_ready s ->
  exists c, getCurrentCharacter s = Some c
            /\ In c (teamMembers s) /\ isAlive (heap s c) = true.
Proof.
  intros [Hwf _ Ht Hm _ _]. unfold getCurrentCharacter.
  destruct (upcomingTurns s) as [|c l] eqn:E; [cbn in Hm; lia|].
  exists c. split; [reflexivity|]. split.
  - apply (wf_turns s Hwf). rewrite E. left. reflexivity.
  - apply Ht. left. reflexivity.
Qed.

(** [nextTurn] keeps a battle ready. *)
Lemma nextTurn_ready (fuel : nat) (s s' : BattleSystem) (r : NextTurn) :
  battle_ready s -> nextTurn fuel s = Ok s' r -> battle_ready s'.
Proof.
  intros Hbr Hrun. destruct (battle_ready_current s Hbr) as (c & Hc & _ & _).
  destruct Hbr as [Hwf Hidle Ht Hm Hp He].
  destruct (nextTurn_run fuel s s' c r Hwf Hc Hrun) as (E & _ & Hkeep & Hnew & Hwf').
  assert (Hheap : heap s' = heap s) by (rewrite E; reflexivity).
  assert (Hpt : playerTeam s' = playerTeam s) by (rewrite E; reflexivity).
  assert (Het : enemyTeam s' = enemyTeam s) by (rewrite E; reflexivity).
  assert (Hpr : isProcessingTurn s' = isProcessingTurn s) by (rewrite E; reflexivity).
  constructor.
  - exact Hwf'.
  - congruence.
  - intros x Hx. rewrite Hheap.
    destruct (Nat.le_gt_cases (length (upcomingTurns s)) 20) as [Hle|Hgt].
    + apply (proj1 (Hnew Hle)), Hx.
    + rewrite (Hkeep Hgt) in Hx. apply Ht. apply (In_drop 1). exact Hx.
  - destruct (Nat.le_gt_cases (length (upcomingTurns s)) 20) as [Hle|Hgt].
    + apply (proj1 (proj2 (Hnew Hle))). apply someAlive_aliveCharacters. left. exact Hp.
    + rewrite (Hkeep Hgt), length_drop. lia.
  - rewrite Hpt. rewrite (someAlive_ext s s'); [exact Hp|]. intros; rewrite Hheap; reflexivity.
  - rewrite Het. rewrite (someAlive_ext s s'); [exact He|]. intros; rewrite Hheap; reflexivity.
Qed.

(** ** A turn from start to end *)

Lemma aliveCharacters_member (s : BattleSystem) (r : ref) :
  In r (teamMembers s) -> isAlive (heap s r) = true -> aliveCharacters s <> [].
Proof.
  intros Hr Hal Hnil.
  assert (Hin : In r (aliveCharacters s)) by (apply filter_In; auto).
  rewrite Hnil in Hin. destruct Hin.
Qed.

Lemma updateTurnQueue_done (fuel : nat) (s s1 s2 : BattleSystem) (attacker : ref) (u : unit) :
  well_formed s1 ->
  playerTeam s1 = playerTeam s -> enemyTeam s1 = enemyTeam s ->
  battlePhase s1 = battlePhase s -> isProcessingTurn s1 = isProcessingTurn s ->
  turnHistory s1 = turnHistory s ->
  heap s1 attacker = heap s attacker ->
  In attacker (teamMembers s1) -> isAlive (heap s1 attacker) = true ->
  updateTurnQueue fuel s1 = Ok s2 u ->
  attack_done s s2 attacker.
Proof.
  intros Hwf1 Hp He Hph Hfl Hh Ha Hin Hal Hrun.
  destruct (updateTurnQueue_run s1 fuel s2 u Hwf1 Hrun) as (E & Hmem & Hlen & _ & Hwf2).
  assert (Hheap : heap s2 = heap s1) by (rewrite E; reflexivity).
  constructor; try (rewrite E; cbn; assumption).
  - exact Hwf2.
  - intros r Hr. rewrite Hheap. apply Hmem, Hr.
  - apply Hlen. apply (aliveCharacters_member s1 attacker); assumption.
Qed.

Lemma processSingleAttack_done (fuel : nat) (s s2 : BattleSystem) (attacker t : ref)
      (attackGene : option Gene) (r : SingleResult) :
  well_formed s ->
  (forall x, In x (upcomingTurns s) -> isAlive (heap s x) = true) ->
  (20 <= length (upcomingTurns s))%nat ->
  In attacker (teamMembers s) -> isAlive (heap s attacker) = true ->
  isAlive (heap s t) = true -> t <> attacker ->
  processSingleAttack fuel s attacker attackGene (Some t) = Ok s2 r ->
  attack_done s s2 attacker.
Proof.
  intros Hwf Hturns Hmany Hin Hal Htal Hne Hrun.
  unfold processSingleAttack, takeDamage in Hrun. cbv beta iota zeta in Hrun.
  set (dmg := calculateDamage (heap s attacker) attackGene (heap s t)) in *.
  set (h' := Qmax 0 (hp (stats (heap s t)) - dmg)) in *.
  set (hit := set_hp (heap s t) h') in *.
  pose proof (well_formed_hit s t dmg Hwf Htal) as Hwf1.
  change (fst (takeDamage (heap s t) dmg)) with hit in Hwf1.
  assert (Hatt : heap (store s t hit) attacker = heap s attacker).
  { rewrite store_lookup. destruct (decide (t = attacker)); [contradiction|reflexivity]. }
  destruct (Qeq_bool h' 0) eqn:Ed.
  - destruct (updateTurnQueue fuel (store s t hit)) as [s3 u| |] eqn:E; cbn [bind] in Hrun;
      try discriminate.
    injection Hrun as <- _.
    apply (updateTurnQueue_done fuel s (store s t hit) s3 attacker u); try reflexivity;
      try assumption.
    rewrite Hatt. exact Hal.
  - cbn [bind] in Hrun. injection Hrun as <- _.
    constructor; try reflexivity; try assumption.
    intros x Hx. cbn [upcomingTurns store set_heap] in Hx.
    rewrite store_lookup. destruct (decide (t = x)) as [->|]; [|apply Hturns, Hx].
    unfold isAlive, hit. cbn [stats set_hp hp].
    apply Qeq_bool_false_iff in Ed. apply Qlt_bool_iff.
    pose proof (Q.le_max_l 0 (hp (stats (heap s x)) - dmg)) as Hge. fold h' in Hge.
    apply Qle_lt_or_eq in Hge. destruct Hge as [Hlt|Heq]; [exact Hlt|].
    exfalso. apply Ed. symmetry. exact Heq.
Qed.

Lemma processSplashAttack_done (fuel : nat) (s s2 : BattleSystem) (attacker : ref)
      (attackGene : option Gene) (r : SplashResult) :
  well_formed s ->
  In attacker (teamMembers s) -> isAlive (heap s attacker) = true ->
  processSplashAttack fuel s attacker attackGene = Ok s2 r ->
  attack_done s s2 attacker.
Proof.
  intros Hwf Hin Hal Hrun.
  destruct (splash_hits s attacker attackGene Hwf) as (h1 & Hfold & Hout & _ & Hwf1).
  assert (Hnot : ~ In attacker (splashTargets s attacker)).
  { intros H. apply splashTargets_spec in H as [_ H].
    exact (opposing_neq s attacker attacker Hwf Hin H eq_refl). }
  unfold processSplashAttack in Hrun. rewrite Hfold in Hrun.
  destruct (updateTurnQueue fuel (set_heap s h1)) as [s3 u| |] eqn:E; cbn [bind] in Hrun;
    try discriminate.
  injection Hrun as <- _.
  apply (updateTurnQueue_done fuel s (set_heap s h1) s3 attacker u); try reflexivity;
    try assumption.
  - cbn. apply Hout, Hnot.
  - cbn. rewrite (Hout _ Hnot). exact Hal.
Qed.

Lemma resolveAttack_done (fuel : nat) (s s2 : BattleSystem) (attacker : ref)
      (attackObj : AttackObj) (target : option ref) (tr : TurnResults) :
  well_formed s ->
  (forall x, In x (upcomingTurns s) -> isAlive (heap s x) = true) ->
  (20 <= length (upcomingTurns s))%nat ->
  In attacker (teamMembers s) -> isAlive (heap s attacker) = true ->
  (type attackObj <> splash ->
   exists t, target = Some t /\ isAlive (heap s t) = true /\ t <> attacker) ->
  resolveAttack fuel s attacker attackObj target = Ok s2 tr ->
  attack_done s s2 attacker.
Proof.
  intros Hwf Hturns Hmany Hin Hal Htarget. unfold resolveAttack.
  destruct (decide (type attackObj = splash)) as [Hs|Hs].
  - destruct (processSplashAttack fuel s attacker (gene attackObj)) as [s3 r| |] eqn:E;
      cbn [bind]; try discriminate.
    intros [= <- _]. eapply processSplashAttack_done; eassumption.
  - destruct (Htarget Hs) as (t & -> & Htal & Hne).
    destruct (processSingleAttack fuel s attacker (gene attackObj) (Some t))
      as [s3 r| |] eqn:E; cbn [bind]; try discriminate.
    intros [= <- _]. eapply processSingleAttack_done; eassumption.
Qed.

Lemma legalMove_target (s : BattleSystem) (attacker : ref) (attackObj : AttackObj)
      (target : option ref) :
  well_formed s ->
  getCurrentCharacter s = Some attacker ->
  In attacker (teamMembers s) ->
  legalMove s attackObj target ->
  type attackObj <> splash ->
  exists t, target = Some t /\ isAlive (heap s t) = true /\ t <> attacker.
Proof.
  intros Hwf Hc Hin Hlegal Hs. destruct (Hlegal Hs) as (t & -> & Ht).
  destruct (getAvailableTargets_spec s attacker t Hc Ht) as [Hal Hopp].
  exists t. split; [reflexivity|]. split; [exact Hal|].
  exact (opposing_neq s attacker t Hwf Hin Hopp).
Qed.

Lemma battle_ready_targets (s : BattleSystem) :
  battle_ready s -> getAvailableTargets s <> [].
Proof.
  intros Hbr. destruct (battle_ready_current s Hbr) as (c & Hc & _ & _).
  destruct Hbr as [_ _ _ _ Hp He]. unfold getAvailableTargets. rewrite Hc.
  unfold someAlive in *.
  destruct (truthy (isPlayer (heap s c)));
    [apply existsb_exists in He as (r & Hr & Hal) | apply existsb_exists in Hp as (r & Hr & Hal)];
    intros Hnil;
    match goal with H : List.filter ?f ?l = [] |- _ =>
      assert (Hin : In r (List.filter f l)) by (apply filter_In; auto);
      rewrite H in Hin; destruct Hin
    end.
Qed.

(** What a turn that starts from a ready battle with a legal move does. *)
Lemma processTurn_ready (fuel : nat) (s s' : BattleSystem) (attackObj : AttackObj)
      (target : option ref) (o : TurnOutcome) :
  battle_ready s ->
  legalMove s attackObj target ->
  processTurn fuel s attackObj target = Ok s' o ->
  exists attacker tr e w,
    getCurrentCharacter s = Some attacker
    /\ o = Success tr e w
    /\ well_formed s'
    /\ isProcessingTurn s' = false
    /\ playerTeam s' = playerTeam s /\ enemyTeam s' = enemyTeam s
    /\ heap s' attacker = heap s attacker
    /\ turnHistory s' = turnHistory s
    /\ (forall r, In r (upcomingTurns s') -> isAlive (heap s' r) = true)
    /\ (20 <= length (upcomingTurns s'))%nat
    /\ (e = false ->
        w = None /\ battle_ready s' /\ battlePhase s' = battlePhase s)
    /\ (e = true ->
        battlePhase s' = ended
        /\ (someAlive s' (playerTeam s') = false \/ someAlive s' (enemyTeam s') = false)
        /\ w = Some (if someAlive s' (playerTeam s') then player else enemy)).
Proof.
  intros Hbr Hlegal Hrun.
  destruct (battle_ready_current s Hbr) as (attacker & Hc & Hin & Hal).
  destruct Hbr as [Hwf Hidle Hturns Hmany Hp He].
  unfold processTurn in Hrun. rewrite Hidle in Hrun.
  change (getCurrentCharacter (set_isProcessingTurn s true)) with (getCurrentCharacter s)
    in Hrun.
  rewrite Hc in Hrun.
  change (heap (set_isProcessingTurn s true) attacker) with (heap s attacker) in Hrun.
  rewrite Hal in Hrun. cbn [negb] in Hrun.
  set (s1 := set_isProcessingTurn s true) in *.
  destruct (resolveAttack fuel s1 attacker attackObj target) as [s2 tr| |] eqn:E;
    cbn [bind] in Hrun; try discriminate.
  assert (Hdone : attack_done s1 s2 attacker).
  { apply (resolveAttack_done fuel s1 s2 attacker attackObj target tr); try assumption.
    - apply well_formed_processing, Hwf.
    - intros Hs. exact (legalMove_target s attacker attackObj target Hwf Hc Hin Hlegal Hs). }
  destruct Hdone as [Hwf2 Ht2 Hm2 Hp2 He2 Hph2 Hfl2 Ha2 Hh2].
  unfold checkBattleEnd in Hrun.
  exists attacker, tr.
  destruct (negb (someAlive s2 (playerTeam s2)) || negb (someAlive s2 (enemyTeam s2)))
    eqn:Eend.
  - injection Hrun as <- <-.
    exists true, (Some (if someAlive s2 (playerTeam s2) then player else enemy)).
    split; [exact Hc|]. split; [reflexivity|].
    split. { destruct Hwf2 as [? ? ? ? ? ?]. constructor; cbn; assumption. }
    do 7 (split; [cbn; assumption || reflexivity|]).
    split; [discriminate|]. intros _. split; [reflexivity|].
    split; [|reflexivity]. cbn.
    change (someAlive _ (playerTeam s2)) with (someAlive s2 (playerTeam s2)).
    change (someAlive _ (enemyTeam s2)) with (someAlive s2 (enemyTeam s2)).
    apply orb_true_iff in Eend. destruct Eend as [H|H]; apply negb_true_iff in H; auto.
  - injection Hrun as <- <-.
    exists false, None.
    assert (Hwf3 : well_formed (set_isProcessingTurn s2 false))
      by (apply well_formed_processing, Hwf2).
    split; [exact Hc|]. split; [reflexivity|]. split; [exact Hwf3|].
    do 7 (split; [cbn; assumption || reflexivity|]).
    split; [|discriminate]. intros _. split; [reflexivity|]. split; [|exact Hph2].
    apply orb_false_iff in Eend. destruct Eend as [H1 H2].
    apply negb_false_iff in H1. apply negb_false_iff in H2.
    constructor; [exact Hwf3 | reflexivity | exact Ht2 | exact Hm2 | exact H1 | exact H2].
Qed.

Lemma processTurn_returns (s : BattleSystem) (attackObj : AttackObj) (target : option ref) :
  battle_ready s ->
  legalMove s attackObj target ->
  (exists fuel s' o, processTurn fuel s attackObj target = Ok s' o)
  /\ (forall fuel s', processTurn fuel s attackObj target <> TypeError s').
Proof.
  intros Hbr Hlegal.
  destruct (battle_ready_current s Hbr) as (attacker & Hc & Hin & Hal).
  destruct Hbr as [Hwf Hidle Hturns Hmany Hp He].
  set (s1 := set_isProcessingTurn s true).
  destruct (resolveAttack_frame s1 attacker attackObj target) as (Hret & Hno & _).
  { apply well_formed_processing, Hwf. }
  { exact Hin. }
  { intros Hs. exact (legalMove_target s attacker attackObj target Hwf Hc Hin Hlegal Hs). }
  assert (Hunf : forall fuel,
    processTurn fuel s attackObj target
    = bind (resolveAttack fuel s1 attacker attackObj target)
           (fun s2 turnResults =>
              let '(s3, (isEnded, won)) := checkBattleEnd s2 in
              if isEnded
              then Ok (set_isProcessingTurn s3 false) (Success turnResults true won)
              else Ok (set_isProcessingTurn s3 false) (Success turnResults false None))).
  { intros fuel. unfold processTurn. rewrite Hidle.
    change (getCurrentCharacter (set_isProcessingTurn s true)) with (getCurrentCharacter s).
    rewrite Hc.
    change (heap (set_isProcessingTurn s true) attacker) with (heap s attacker).
    rewrite Hal. reflexivity. }
  split.
  - destruct Hret as (fuel & s2 & tr & H2). exists fuel.
    rewrite Hunf, H2. cbn [bind].
    destruct (checkBattleEnd s2) as [s3 [isEnded won]]. destruct isEnded; eauto.
  - intros fuel s'. rewrite Hunf.
    destruct (resolveAttack fuel s1 attacker attackObj target) as [s2 tr|s2|] eqn:E;
      cbn [bind]; try discriminate.
    + destruct (checkBattleEnd s2) as [s3 [isEnded won]]. destruct isEnded; discriminate.
    + exfalso. exact (Hno fuel s2 E).
Qed.

Lemma battle_readyb_sound (s : BattleSystem) : battle_readyb s = true -> battle_ready s.
Proof.
  unfold battle_readyb. intros H.
  do 5 (apply andb_prop in H; destruct H as [H ?]).
  constructor.
  - apply well_formedb_sound, H.
  - apply negb_true_iff. assumption.
  - intros r Hr.
    match goal with Hf : forallb _ (upcomingTurns s) = true |- _ =>
      rewrite forallb_forall in Hf; apply Hf, Hr end.
  - apply Nat.leb_le. assumption.
  - assumption.
  - assumption.
Qed.

Lemma example_battle_ready : battle_ready Example.started.
Proof. apply battle_readyb_sound. vm_compute. reflexivity. Qed.

(** X9. Planning the turns on a well-formed battle returns, and with more
    fuel it returns the same. Nothing but the plan changes. The plan holds
    only living members of the teams; it is empty exactly when nobody is
    alive, and otherwise it has at least the number of turns asked for and
    fewer than that number plus the number of the living (the last tick may
    bring several characters at once). *)
Theorem calculateUpcomingTurns_plan :
  forall (s : BattleSystem) (n : nat),
    well_formed s ->
    (exists fuel s', calculateUpcomingTurns fuel s n = Ok s' tt)
    /\ forall fuel s',
        calculateUpcomingTurns fuel s n = Ok s' tt ->
        s' = set_upcomingTurns s (upcomingTurns s')
        /\ (forall fuel', (fuel <= fuel')%nat -> calculateUpcomingTurns fuel' s n = Ok s' tt)
        /\ (forall r, In r (upcomingTurns s') ->
                      In r (teamMembers s) /\ isAlive (heap s r) = true)
        /\ (livingCount s (teamMembers s) = 0%nat -> upcomingTurns s' = [])
        /\ ((0 < livingCount s (teamMembers s))%nat ->
            (n <= length (upcomingTurns s'))%nat
            /\ ((0 < n)%nat ->
                (length (upcomingTurns s') < n + livingCount s (teamMembers s))%nat)).
Proof.
  intros s n Hwf. split.
  - apply calculateUpcomingTurns_terminates. intros r Hr Hal.
    split; [exact (wf_bars s Hwf r Hr Hal) | exact (wf_speed s Hwf r Hr)].
  - intros fuel s' Hrun.
    pose proof (calculateUpcomingTurns_result fuel s s' n tt Hrun) as (E & Hin & Hnil & Hlen).
    change (length (aliveCharacters s)) with (livingCount s (teamMembers s)) in Hlen.
    split; [exact E|]. split.
    { intros fuel' Hle. exact (calculateUpcomingTurns_mono fuel fuel' s s' n tt Hrun Hle). }
    split; [intros r Hr; apply aliveCharacters_members, Hin, Hr|].
    split.
    + intros H0. apply Hnil. apply length_zero_iff_nil. exact H0.
    + intros Hpos. apply Hlen. intros Hnil'.
      change (livingCount s (teamMembers s)) with (length (aliveCharacters s)) in Hpos.
      rewrite Hnil' in Hpos. cbn in Hpos. lia.
Qed.

Lemma calculateUpcomingTurns_plan_witness :
  well_formed Example.started
  /\ exists fuel s', calculateUpcomingTurns fuel Example.started 20 = Ok s' tt.
Proof.
  split; [exact example_well_formed|].
  exact (proj1 (calculateUpcomingTurns_plan Example.started 20 example_well_formed)).
Defined.

(** X10. After a defeat, [updateTurnQueue] on a well-formed battle returns,
    and then the action bar of every defeated member is gone while the bar
    of every living member is what it was; the plan is rebuilt with living
    members only (at least twenty turns when somebody is alive), the
    displayed queue is its first six entries, the characters and the teams
    are untouched, and the battle is still well formed. *)
Theorem updateTurnQueue_drops_defeated :
  forall (s : BattleSystem),
    well_formed s ->
    (exists fuel s', updateTurnQueue fuel s = Ok s' tt)
    /\ forall fuel s',
        updateTurnQueue fuel s = Ok s' tt ->
        (forall r, In r (teamMembers s) ->
           actionBars s' !! getCharId (heap s r)
           = if isAlive (heap s r) then actionBars s !! getCharId (heap s r) else None)
        /\ (forall r, In r (upcomingTurns s') ->
                      In r (teamMembers s) /\ isAlive (heap s r) = true)
        /\ ((0 < livingCount s (teamMembers s))%nat ->
            (20 <= length (upcomingTurns s') < 20 + livingCount s (teamMembers s))%nat)
        /\ turnQueue s' = take 6 (upcomingTurns s')
        /\ heap s' = heap s
        /\ playerTeam s' = playerTeam s /\ enemyTeam s' = enemyTeam s
        /\ turnHistory s' = turnHistory s
        /\ well_formed s'.
Proof.
  intros s Hwf. split; [apply updateTurnQueue_terminates, Hwf|].
  intros fuel s' Hrun.
  destruct (updateTurnQueue_run s fuel s' tt Hwf Hrun) as (E & Hmem & Hlen & _ & Hwf').
  split.
  { intros r Hr. rewrite E. cbn [actionBars set_turnQueue set_upcomingTurns set_actionBars].
    destruct (isAlive (heap s r)) eqn:Hal.
    - apply barsOfLiving_alive; assumption.
    - apply barsOfLiving_dead; assumption. }
  split; [exact Hmem|]. split.
  { intros Hpos. apply Hlen. intros Hnil.
    change (livingCount s (teamMembers s)) with (length (aliveCharacters s)) in Hpos.
    rewrite Hnil in Hpos. cbn in Hpos. lia. }
  split; [rewrite E at 1; reflexivity|].
  split; [rewrite E; reflexivity|]. split; [rewrite E; reflexivity|].
  split; [rewrite E; reflexivity|]. split; [rewrite E; reflexivity|]. exact Hwf'.
Qed.

Lemma updateTurnQueue_drops_defeated_witness :
  well_formed Example.last_stand
  /\ exists fuel s', updateTurnQueue fuel Example.last_stand = Ok s' tt.
Proof.
  assert (Hwf : well_formed Example.last_stand)
    by (apply well_formedb_sound; vm_compute; reflexivity).
  split; [exact Hwf|].
  exact (proj1 (updateTurnQueue_drops_defeated Example.last_stand Hwf)).
Defined.

(** X11. [nextTurn] on a ready battle returns and keeps it ready. The
    character whose turn it was is appended to the history; the plan loses
    its first entry and, when fewer than twenty entries are left, is
    rebuilt; the next character is the new head of the plan, a living
    member of a team, and the displayed queue is the first six entries.
    The characters themselves are untouched. *)
Theorem nextTurn_advances :
  forall (s : BattleSystem),
    battle_ready s ->
    exists c,
      getCurrentCharacter s = Some c
      /\ (exists fuel s' r, nextTurn fuel s = Ok s' r)
      /\ forall fuel s' r,
          nextTurn fuel s = Ok s' r ->
          battle_ready s'
          /\ turnHistory s' = turnHistory s ++ [c]
          /\ ((21 <= length (upcomingTurns s))%nat ->
              upcomingTurns s' = drop 1 (upcomingTurns s))
          /\ (exists c', nextCharacter r = Some c'
                         /\ getCurrentCharacter s' = Some c'
                         /\ In c' (teamMembers s') /\ isAlive (heap s' c') = true)
          /\ nt_turnQueue r = take 6 (upcomingTurns s')
          /\ turnQueue s' = take 6 (upcomingTurns s')
          /\ heap s' = heap s
          /\ playerTeam s' = playerTeam s /\ enemyTeam s' = enemyTeam s.
Proof.
  intros s Hbr. destruct (battle_ready_current s Hbr) as (c & Hc & _ & _).
  exists c. split; [exact Hc|].
  split; [exact (nextTurn_returns s c (br_wf s Hbr) Hc)|].
  intros fuel s' r Hrun.
  pose proof (nextTurn_ready fuel s s' r Hbr Hrun) as Hbr'.
  destruct (nextTurn_run fuel s s' c r (br_wf s Hbr) Hc Hrun) as (E & Er & Hkeep & _ & _).
  split; [exact Hbr'|]. split; [rewrite E; reflexivity|]. split; [exact Hkeep|].
  split.
  { destruct (battle_ready_current s' Hbr') as (c' & Hc' & Hin' & Hal').
    exists c'. rewrite Er. cbn [nextCharacter]. auto. }
  split; [rewrite Er; reflexivity|].
  split; [rewrite E at 1; reflexivity|].
  split; [rewrite E; reflexivity|]. split; rewrite E; reflexivity.
Qed.

Lemma nextTurn_advances_witness :
  battle_ready Example.started
  /\ exists c, getCurrentCharacter Example.started = Some c
               /\ exists fuel s' r, nextTurn fuel Example.started = Ok s' r.
Proof.
  split; [exact example_battle_ready|].
  destruct (nextTurn_advances Example.started example_battle_ready) as (c & Hc & Hret & _).
  exists c. split; [exact Hc | exact Hret].
Defined.

(** What a whole turn does, the attack and then the advance. *)
Lemma executePlayerTurn_cycle :
  forall (s : BattleSystem) (attackObj : AttackObj) (target : option ref),
    battle_ready s ->
    legalMove s attackObj target ->
    (exists fuel s' r, Controls.executePlayerTurn fuel s attackObj target = Ok s' r)
    /\ (forall fuel s', Controls.executePlayerTurn fuel s attackObj target <> TypeError s')
    /\ forall fuel s' r,
        Controls.executePlayerTurn fuel s attackObj target = Ok s' r ->
        exists tr e w,
          fst r = Success tr e w
          /\ isProcessingTurn s' = false
          /\ (e = true ->
              snd r = None /\ battlePhase s' = ended
              /\ (livingCount s' (playerTeam s') = 0%nat
                  \/ livingCount s' (enemyTeam s') = 0%nat))
          /\ (e = false ->
              battle_ready s'
              /\ length (turnHistory s') = S (length (turnHistory s))
              /\ getAvailableTargets s' <> []
              /\ exists nt c', snd r = Some nt /\ nextCharacter nt = Some c'
                               /\ getCurrentCharacter s' = Some c'
                               /\ isAlive (heap s' c') = true).
Proof.
  intros s attackObj target Hbr Hlegal.
  destruct (processTurn_returns s attackObj target Hbr Hlegal) as [Hret Hno].
  unfold Controls.executePlayerTurn. split; [|split].
  - destruct Hret as (fuel1 & s1 & o & H1).
    destruct (processTurn_ready fuel1 s s1 attackObj target o Hbr Hlegal H1)
      as (attacker & tr & e & w & _ & -> & _ & _ & _ & _ & _ & _ & _ & _ & Hgo & _).
    destruct e.
    + exists fuel1. rewrite H1. cbn [bind]. eauto.
    + destruct (Hgo eq_refl) as (_ & Hbr1 & _).
      destruct (battle_ready_current s1 Hbr1) as (c & Hc & _ & _).
      destruct (nextTurn_returns s1 c (br_wf s1 Hbr1) Hc) as (fuel2 & s2 & nt & H2).
      exists (Nat.max fuel1 fuel2).
      rewrite (processTurn_mono fuel1 _ s s1 attackObj target _ H1) by lia. cbn [bind].
      rewrite (nextTurn_mono fuel2 _ s1 s2 nt H2) by lia. cbn [bind]. eauto.
  - intros fuel s'.
    destruct (processTurn fuel s attackObj target) as [s1 o|s1|] eqn:H1; cbn [bind];
      try discriminate.
    + destruct (processTurn_ready fuel s s1 attackObj target o Hbr Hlegal H1)
        as (attacker & tr & e & w & _ & -> & _ & _ & _ & _ & _ & _ & _ & _ & Hgo & _).
      destruct e; [discriminate|].
      destruct (Hgo eq_refl) as (_ & Hbr1 & _).
      destruct (battle_ready_current s1 Hbr1) as (c & Hc & _ & _).
      rewrite (nextTurn_unfold fuel s1 c Hc).
      destruct (Nat.ltb _ 20); [|discriminate].
      destruct (calculateUpcomingTurns fuel (afterConsumption s1 c) 20) as [s3 u|s3|] eqn:E;
        cbn [bind]; try discriminate.
      exfalso. exact (calculateUpcomingTurns_no_throw _ _ _ _ E).
    + exfalso. exact (Hno fuel s1 H1).
  - intros fuel s' r.
    destruct (processTurn fuel s attackObj target) as [s1 o| |] eqn:H1; cbn [bind];
      try discriminate.
    destruct (processTurn_ready fuel s s1 attackObj target o Hbr Hlegal H1)
      as (attacker & tr & e & w & _ & -> & _ & Hidle & _ & _ & _ & Hhist & _ & _ & Hgo & Hend).
    destruct e.
    + intros [= <- <-]. exists tr, true, w.
      split; [reflexivity|]. split; [exact Hidle|].
      split; [|discriminate]. intros _.
      destruct (Hend eq_refl) as (Hph & Hdead & _).
      split; [reflexivity|]. split; [exact Hph|].
      destruct Hdead as [H|H]; [left|right]; apply someAlive_livingCount; exact H.
    + destruct (Hgo eq_refl) as (_ & Hbr1 & _).
      destruct (nextTurn fuel s1) as [s2 nt| |] eqn:H2; cbn [bind]; try discriminate.
      intros [= <- <-]. exists tr, false, w. cbn [fst snd].
      pose proof (nextTurn_ready fuel s1 s2 nt Hbr1 H2) as Hbr2.
      destruct (battle_ready_current s1 Hbr1) as (c & Hc & _ & _).
      destruct (nextTurn_run fuel s1 s2 c nt (br_wf s1 Hbr1) Hc H2) as (E & Er & _).
      split; [reflexivity|]. split; [exact (br_idle s2 Hbr2)|].
      split; [discriminate|]. intros _.
      split; [exact Hbr2|]. split.
      { rewrite E. cbn. rewrite length_app, Hhist. cbn. lia. }
      split; [exact (battle_ready_targets s2 Hbr2)|].
      destruct (battle_ready_current s2 Hbr2) as (c' & Hc' & _ & Hal').
      exists nt, c'. split; [reflexivity|]. split; [|auto].
      rewrite Er. cbn [nextCharacter]. exact Hc'.
Qed.

(** X12. A whole turn as the controls run it, from a ready battle and with
    a legal move (any splash attack, or a single attack on an available
    target): the attack and the advance return and never throw; the attack
    succeeds; if it ends the battle the phase is 'ended', one team has
    nobody alive and no advance is made; otherwise the battle is ready
    again, with one more turn in the history, and the character named as
    next is alive and has at least one target. A ready battle always
    offers a target, and more fuel changes nothing of the result. *)
Theorem executePlayerTurn_safe :
  forall (s : BattleSystem) (attackObj : AttackObj) (target : option ref),
    battle_ready s ->
    legalMove s attackObj target ->
    (exists fuel s' r, Controls.executePlayerTurn fuel s attackObj target = Ok s' r)
    /\ (forall fuel s', Controls.executePlayerTurn fuel s attackObj target <> TypeError s')
    /\ (forall fuel s' r,
        Controls.executePlayerTurn fuel s attackObj target = Ok s' r ->
        exists tr e w,
          fst r = Success tr e w
          /\ isProcessingTurn s' = false
          /\ (e = true ->
              snd r = None /\ battlePhase s' = ended
              /\ (livingCount s' (playerTeam s') = 0%nat
                  \/ livingCount s' (enemyTeam s') = 0%nat))
          /\ (e = false ->
              battle_ready s'
              /\ length (turnHistory s') = S (length (turnHistory s))
              /\ getAvailableTargets s' <> []
              /\ exists nt c', snd r = Some nt /\ nextCharacter nt = Some c'
                               /\ getCurrentCharacter s' = Some c'
                               /\ isAlive (heap s' c') = true))
    /\ getAvailableTargets s <> []
    /\ forall fuel fuel' s' r,
        Controls.executePlayerTurn fuel s attackObj target = Ok s' r ->
        (fuel <= fuel')%nat ->
        Controls.executePlayerTurn fuel' s attackObj target = Ok s' r.
Proof.
  intros s attackObj target Hbr Hlegal.
  destruct (executePlayerTurn_cycle s attackObj target Hbr Hlegal) as (Hret & Hno & Hrun).
  split; [exact Hret|]. split; [exact Hno|]. split; [exact Hrun|].
  split; [exact (battle_ready_targets s Hbr)|].
  intros fuel fuel' s' r H Hle. unfold Controls.executePlayerTurn in *.
  destruct (processTurn fuel s attackObj target) as [s1 o| |] eqn:E1; cbn [bind] in H;
    try discriminate.
  rewrite (processTurn_mono fuel fuel' _ _ _ _ _ E1 Hle). cbn [bind].
  destruct o as [reason|tr e w]; [exact H|]. destruct e; [exact H|].
  destruct (nextTurn fuel s1) as [s2 nt| |] eqn:E2; cbn [bind] in H; try discriminate.
  rewrite (nextTurn_mono fuel fuel' _ _ _ E2 Hle). exact H.
Qed.

Lemma executePlayerTurn_safe_witness :
  battle_ready Example.started
  /\ legalMove Example.started (mkAttack (Some Blue) single) (Some 3%nat)
  /\ exists fuel s' r,
       Controls.executePlayerTurn fuel Example.started (mkAttack (Some Blue) single)
                                  (Some 3%nat) = Ok s' r.
Proof.
  assert (Hlegal : legalMove Example.started (mkAttack (Some Blue) single) (Some 3%nat)).
  { intros _. exists 3%nat. split; [reflexivity|]. vm_compute. left. reflexivity. }
  split; [exact example_battle_ready|]. split; [exact Hlegal|].
  exact (proj1 (executePlayerTurn_safe _ _ _ example_battle_ready Hlegal)).
Defined.

(** ** Turns that cannot be played *)

Lemma set_isProcessingTurn_idle (s : BattleSystem) :
  isProcessingTurn s = false ->
  set_isProcessingTurn (set_isProcessingTurn s true) false = s.
Proof. destruct s. cbn. intros ->. reflexivity. Qed.

(** X13. A turn without a valid attacker changes nothing: when no turn is
    in flight and there is no current character, or the current character
    is defeated, [processTurn] returns the failure 'invalid_attacker' and
    the battle system is exactly as before, the processing flag released.
    This is so in particular after [reset], where moreover no target is
    available and [nextTurn] does nothing. *)
Theorem processTurn_invalid_attacker :
  forall (fuel : nat) (s : BattleSystem) (attackObj : AttackObj) (target : option ref),
    isProcessingTurn s = false ->
    (forall c, getCurrentCharacter s = Some c -> isAlive (heap s c) = false) ->
    processTurn fuel s attackObj target = Ok s (Failure invalid_attacker)
    /\ processTurn fuel (reset s) attackObj target = Ok (reset s) (Failure invalid_attacker)
    /\ getAvailableTargets (reset s) = []
    /\ nextTurn fuel (reset s) = Ok (reset s) (mkNextTurn None []).
Proof.
  intros fuel s attackObj target Hidle Hdead.
  split; [|repeat split].
  unfold processTurn. rewrite Hidle.
  change (getCurrentCharacter (set_isProcessingTurn s true)) with (getCurrentCharacter s).
  destruct (getCurrentCharacter s) as [c|] eqn:Hc.
  - change (heap (set_isProcessingTurn s true) c) with (heap s c).
    rewrite (Hdead c eq_refl). cbn [negb].
    rewrite (set_isProcessingTurn_idle s Hidle). reflexivity.
  - rewrite (set_isProcessingTurn_idle s Hidle). reflexivity.
Qed.

Lemma processTurn_invalid_attacker_witness :
  isProcessingTurn Example.fresh = false
  /\ (forall c, getCurrentCharacter Example.fresh = Some c ->
                isAlive (heap Example.fresh c) = false)
  /\ processTurn 0 Example.fresh (mkAttack (Some Red) single) (Some 0%nat)
     = Ok Example.fresh (Failure invalid_attacker).
Proof.
  assert (H1 : isProcessingTurn Example.fresh = false) by reflexivity.
  assert (H2 : forall c, getCurrentCharacter Example.fresh = Some c ->
                         isAlive (heap Example.fresh c) = false)
    by (intros c Hc; discriminate Hc).
  split; [exact H1|]. split; [exact H2|].
  exact (proj1 (processTurn_invalid_attacker 0 Example.fresh (mkAttack (Some Red) single)
                  (Some 0%nat) H1 H2)).
Defined.

(** X14. A single attack without a target blocks the battle: when the
    current character is alive and no turn is in flight, [processTurn] with
    a single attack and [null] as target throws after it has taken the
    processing flag, and leaves nothing else changed; from then on every
    [processTurn] is refused as 'already_processing'. *)
Theorem processTurn_missing_target_locks :
  forall (fuel : nat) (s : BattleSystem) (attackObj : AttackObj) (attacker : ref),
    isProcessingTurn s = false ->
    getCurrentCharacter s = Some attacker ->
    isAlive (heap s attacker) = true ->
    type attackObj <> splash ->
    processTurn fuel s attackObj None = TypeError (set_isProcessingTurn s true)
    /\ forall fuel' attackObj' target',
         processTurn fuel' (set_isProcessingTurn s true) attackObj' target'
         = Ok (set_isProcessingTurn s true) (Failure already_processing).
Proof.
  intros fuel s attackObj attacker Hidle Hc Hal Hs. split; [|reflexivity].
  unfold processTurn. rewrite Hidle.
  change (getCurrentCharacter (set_isProcessingTurn s true)) with (getCurrentCharacter s).
  rewrite Hc.
  change (heap (set_isProcessingTurn s true) attacker) with (heap s attacker).
  rewrite Hal. cbn [negb]. unfold resolveAttack.
  destruct (decide (type attackObj = splash)); [contradiction|]. reflexivity.
Qed.

Lemma processTurn_missing_target_locks_witness :
  isProcessingTurn Example.started = false
  /\ getCurrentCharacter Example.started = Some 1%nat
  /\ isAlive (heap Example.started 1%nat) = true
  /\ type (mkAttack (Some Blue) single) <> splash
  /\ processTurn 0 Example.started (mkAttack (Some Blue) single) None
     = TypeError (set_isProcessingTurn Example.started true).
Proof.
  assert (H1 : isProcessingTurn Example.started = false) by (vm_compute; reflexivity).
  assert (H2 : getCurrentCharacter Example.started = Some 1%nat) by (vm_compute; reflexivity).
  assert (H3 : isAlive (heap Example.started 1%nat) = true) by (vm_compute; reflexivity).
  assert (H4 : type (mkAttack (Some Blue) single) <> splash) by discriminate.
  split; [exact H1|]. split; [exact H2|]. split; [exact H3|]. split; [exact H4|].
  exact (proj1 (processTurn_missing_target_locks 0 Example.started
                  (mkAttack (Some Blue) single) 1%nat H1 H2 H3 H4)).
Defined.

(** ** The battle log *)

(** X15. The battle log keeps the ten latest entries: on a log of at most
    ten entries, [addBattleLog] appends the entry, drops the oldest one
    when that makes eleven, and returns the log it stored; the new entry is
    the last one and the log again has at most ten entries. Nothing else
    in the battle system changes. *)
Theorem addBattleLog_keeps_ten :
  forall (s : BattleSystem) (message className : string),
    (length (battleLog s) <= 10)%nat ->
    let s' := fst (addBattleLog s message className) in
    let log := snd (addBattleLog s message className) in
    log = getBattleLog s'
    /\ s' = set_battleLog s log
    /\ (length log <= 10)%nat
    /\ length log = Nat.min (S (length (battleLog s))) 10
    /\ last log (mkLog "" "") = mkLog message className
    /\ ((length (battleLog s) < 10)%nat -> log = battleLog s ++ [mkLog message className])
    /\ (length (battleLog s) = 10%nat ->
        log = drop 1 (battleLog s) ++ [mkLog message className]).
Proof.
  intros s message className Hlen s' log.
  assert (Hlog : log = if Nat.ltb 10 (length (battleLog s ++ [mkLog message className]))
                       then drop 1 (battleLog s ++ [mkLog message className])
                       else battleLog s ++ [mkLog message className]) by reflexivity.
  split; [reflexivity|]. split; [reflexivity|].
  clearbody log s'. rewrite length_app in Hlog. cbn [length] in Hlog.
  destruct (Nat.ltb 10 (length (battleLog s) + 1)) eqn:E;
    [apply Nat.ltb_lt in E | apply Nat.ltb_ge in E]; subst log.
  - assert (H10 : length (battleLog s) = 10%nat) by lia.
    destruct (battleLog s) as [|e l]; [discriminate|]. cbn [app drop].
    rewrite drop_0. rewrite length_app. cbn [length] in *.
    split; [lia|]. split; [lia|]. split; [apply last_last|].
    split; [intros; exfalso; lia | intros; reflexivity].
  - rewrite length_app. cbn [length].
    split; [lia|]. split; [lia|]. split; [apply last_last|].
    split; [intros; reflexivity | intros; exfalso; lia].
Qed.

Lemma addBattleLog_keeps_ten_witness :
  (length (battleLog Example.started) <= 10)%nat
  /\ snd (addBattleLog Example.started "Battle begins" "info")
     = [mkLog "Battle begins" "info"].
Proof.
  assert (H : (length (battleLog Example.started) <= 10)%nat) by (vm_compute; lia).
  split; [exact H|].
  pose proof (addBattleLog_keeps_ten Example.started "Battle begins" "info" H)
    as (_ & _ & _ & _ & _ & Hshort & _).
  apply Hshort. vm_compute. lia.
Defined.

(** ** The choice of the team *)

Lemma existsb_eqb_In (x : string) (l : list string) :
  existsb (String.eqb x) l = true <-> In x l.
Proof.
  rewrite existsb_exists. split.
  - intros (y & Hy & E). apply String.eqb_eq in E. subst. exact Hy.
  - intros H. exists x. split; [exact H | apply String.eqb_refl].
Qed.

(** X16. Toggling a character in the battle team keeps the selection free
    of duplicates and of length at most 3, and changes nothing else in the
    game. A selected id is removed (the others keep their order); an id
    that is not selected is appended when fewer than three are selected,
    and ignored when three are. Toggling an id that was just added takes
    it away again. *)
Theorem toggleBattleTeamSelection_keeps :
  forall (g : GameState.BreedingGame) (characterId : string),
    NoDup (GameState.selectedBattleTeam g) ->
    (length (GameState.selectedBattleTeam g) <= 3)%nat ->
    let g' := GameState.toggleBattleTeamSelection g characterId in
    NoDup (GameState.selectedBattleTeam g')
    /\ (length (GameState.selectedBattleTeam g') <= 3)%nat
    /\ GameState.characters g' = GameState.characters g
    /\ (In characterId (GameState.selectedBattleTeam g) ->
        ~ In characterId (GameState.selectedBattleTeam g')
        /\ GameState.selectedBattleTeam g'
           = List.filter (fun i => negb (String.eqb i characterId))
                         (GameState.selectedBattleTeam g)
        /\ length (GameState.selectedBattleTeam g')
           = (length (GameState.selectedBattleTeam g) - 1)%nat)
    /\ (~ In characterId (GameState.selectedBattleTeam g) ->
        GameState.selectedBattleTeam g'
        = (if Nat.ltb (length (GameState.selectedBattleTeam g)) 3
           then GameState.selectedBattleTeam g ++ [characterId]
           else GameState.selectedBattleTeam g)
        /\ ((length (GameState.selectedBattleTeam g) < 3)%nat ->
            GameState.selectedBattleTeam (GameState.toggleBattleTeamSelection g' characterId)
            = GameState.selectedBattleTeam g)).
Proof.
  intros g characterId Hnd Hlen g'. subst g'.
  unfold GameState.toggleBattleTeamSelection.
  set (sel := GameState.selectedBattleTeam g) in *.
  assert (Hfilter_notin : forall l, ~ In characterId l ->
            List.filter (fun i => negb (String.eqb i characterId)) l = l).
  { induction l as [|x l IH]; intros Hn; [reflexivity|]. cbn [List.filter].
    destruct (String.eqb x characterId) eqn:E.
    - apply String.eqb_eq in E. exfalso. apply Hn. left. exact E.
    - cbn [negb]. rewrite IH; [reflexivity|]. intros H. apply Hn. right. exact H. }
  destruct (existsb (String.eqb characterId) sel) eqn:Ein.
  - apply existsb_eqb_In in Ein. cbn [GameState.selectedBattleTeam GameState.characters].
    assert (Hout : ~ In characterId (List.filter (fun i => negb (String.eqb i characterId)) sel)).
    { intros H. apply filter_In in H. destruct H as [_ H].
      rewrite String.eqb_refl in H. discriminate. }
    assert (Hcount : length (List.filter (fun i => negb (String.eqb i characterId)) sel)
                     = (length sel - 1)%nat).
    { clear Hlen Hout. induction sel as [|x l IH]; [destruct Ein|].
      apply list.NoDup_cons in Hnd. destruct Hnd as [Hx Hnd].
      cbn [List.filter]. destruct (String.eqb x characterId) eqn:E.
      - apply String.eqb_eq in E. subst x. cbn [negb length].
        rewrite Hfilter_notin; [lia|]. intros H. apply Hx, list_elem_of_In, H.
      - apply String.eqb_neq in E. cbn [negb length].
        destruct Ein as [->|Ein]; [congruence|].
        rewrite (IH Hnd Ein). destruct l; [destruct Ein|]. cbn [length]. lia. }
    split. { apply NoDup_ListNoDup, List.NoDup_filter, NoDup_ListNoDup, Hnd. }
    split; [rewrite Hcount; lia|]. split; [reflexivity|].
    split; [intros _; auto|]. intros Hn. contradiction.
  - assert (Hnotin : ~ In characterId sel).
    { intros H. apply existsb_eqb_In in H. congruence. }
    destruct (Nat.ltb (length sel) 3) eqn:E3;
      [apply Nat.ltb_lt in E3 | apply Nat.ltb_ge in E3];
      cbn [GameState.selectedBattleTeam GameState.characters]; fold sel.
    + split.
      { apply list.NoDup_app. split; [exact Hnd|]. split; [|apply list.NoDup_singleton].
        intros x Hx Hx'. apply list_elem_of_In in Hx, Hx'. destruct Hx' as [<-|[]].
        contradiction. }
      split; [rewrite length_app; cbn; lia|]. split; [reflexivity|].
      split; [intros H; contradiction|]. intros _. split; [reflexivity|]. intros _.
      replace (existsb (String.eqb characterId) (sel ++ [characterId])) with true
        by (symmetry; apply existsb_eqb_In, in_or_app; right; left; reflexivity).
      cbn [GameState.selectedBattleTeam].
      rewrite List.filter_app, Hfilter_notin by exact Hnotin.
      cbn [List.filter]. rewrite String.eqb_refl. cbn [negb]. apply app_nil_r.
    + split; [exact Hnd|]. split; [exact Hlen|]. split; [reflexivity|].
      split; [intros H; contradiction|]. intros _. split; [reflexivity|]. intros; lia.
Qed.

Lemma toggleBattleTeamSelection_keeps_witness :
  NoDup (GameState.selectedBattleTeam GameState.newGame)
  /\ (length (GameState.selectedBattleTeam GameState.newGame) <= 3)%nat
  /\ GameState.selectedBattleTeam (GameState.toggleBattleTeamSelection GameState.newGame "Red")
     = ["Red"].
Proof.
  assert (H1 : NoDup (GameState.selectedBattleTeam GameState.newGame)) by constructor.
  assert (H2 : (length (GameState.selectedBattleTeam GameState.newGame) <= 3)%nat)
    by (cbn; lia).
  split; [exact H1|]. split; [exact H2|].
  pose proof (toggleBattleTeamSelection_keeps GameState.newGame "Red" H1 H2)
    as (_ & _ & _ & _ & Hadd).
  apply Hadd. intros [].
Defined.

(** ** Offspring *)

Section Offspring.

Local Abbreviation combo g1 g2 :=
  (GameState.gene_name g1 +:+ "-" +:+ GameState.gene_name g2).

Lemma includes_In (l : list string) (x : string) :
  Breeding.includes l x = true <-> In x l.
Proof. apply existsb_eqb_In. Qed.

Lemma push_new_NoDup (l : list string) (x : string) :
  NoDup l -> Breeding.includes l x = false -> NoDup (l ++ [x]).
Proof.
  intros Hnd Hx. apply list.NoDup_app. split; [exact Hnd|].
  split; [|apply list.NoDup_singleton].
  intros y Hy Hy'. apply list_elem_of_In in Hy, Hy'. destruct Hy' as [<-|[]].
  apply includes_In in Hy. congruence.
Qed.

Lemma addCombos_spec (gene1 gene2 : Gene) (offspring : list string) :
  NoDup offspring ->
  NoDup (Breeding.addCombos gene1 offspring gene2)
  /\ forall i, In i (Breeding.addCombos gene1 offspring gene2)
               <-> In i offspring \/ i = combo gene1 gene2 \/ i = combo gene2 gene1.
Proof.
  intros Hnd. unfold Breeding.addCombos.
  set (c1 := combo gene1 gene2). set (c2 := combo gene2 gene1).
  set (o1 := if negb (Breeding.includes offspring c1) then offspring ++ [c1] else offspring).
  assert (H1 : NoDup o1 /\ forall i, In i o1 <-> In i offspring \/ i = c1).
  { subst o1. destruct (Breeding.includes offspring c1) eqn:E; cbn [negb].
    - apply includes_In in E. split; [exact Hnd|]. intros i. split; [auto|].
      intros [H| ->]; assumption.
    - split; [apply push_new_NoDup; assumption|]. intros i.
      rewrite in_app_iff. cbn [In]. split.
      + intros [H|[<-|[]]]; auto.
      + intros [H| ->]; auto. }
  destruct H1 as [Hnd1 Hin1].
  destruct (Breeding.includes o1 c2) eqn:E2; cbn [negb andb].
  - apply includes_In in E2. split; [exact Hnd1|]. intros i. rewrite Hin1.
    split; [tauto|]. intros [H|[H|Heq]]; auto. subst i. apply Hin1. exact E2.
  - destruct (String.eqb c1 c2) eqn:E12; cbn [negb].
    + apply String.eqb_eq in E12. split; [exact Hnd1|]. intros i. rewrite Hin1.
      split; [tauto|]. intros [H|[H|H]]; auto. right. congruence.
    + split; [apply push_new_NoDup; assumption|]. intros i.
      rewrite in_app_iff, Hin1. cbn [In]. split.
      * intros [[H|H]|[<-|[]]]; auto.
      * intros [H|[H|H]]; auto.
Qed.

Lemma addCombos_fold (gene1 : Gene) (genes2 : list Gene) :
  forall offspring,
    NoDup offspring ->
    NoDup (fold_left (Breeding.addCombos gene1) genes2 offspring)
    /\ forall i, In i (fold_left (Breeding.addCombos gene1) genes2 offspring)
                 <-> In i offspring
                     \/ exists gene2, In gene2 genes2
                                      /\ (i = combo gene1 gene2 \/ i = combo gene2 gene1).
Proof.
  induction genes2 as [|g2 genes2 IH]; intros offspring Hnd; cbn [fold_left].
  - split; [exact Hnd|]. intros i. split; [auto|]. intros [H|(g & [] & _)]. exact H.
  - destruct (addCombos_spec gene1 g2 offspring Hnd) as [Hnd1 Hin1].
    destruct (IH _ Hnd1) as [Hnd2 Hin2]. split; [exact Hnd2|].
    intros i. rewrite Hin2, Hin1. split.
    + intros [[H|H]|(g & Hg & H)]; auto.
      * right. exists g2. split; [left; reflexivity | exact H].
      * right. exists g. split; [right; exact Hg | exact H].
    + intros [H|(g & [<-|Hg] & H)]; auto. right. exists g. auto.
Qed.

Lemma getPossibleOffspring_spec (parent1 parent2 : GameCharacter) :
  NoDup (Breeding.getPossibleOffspring parent1 parent2)
  /\ forall i, In i (Breeding.getPossibleOffspring parent1 parent2)
               <-> exists gene1 gene2,
                     In gene1 (genes parent1) /\ In gene2 (genes parent2)
                     /\ (i = combo gene1 gene2 \/ i = combo gene2 gene1).
Proof.
  unfold Breeding.getPossibleOffspring.
  assert (H : forall genes1 offspring,
             NoDup offspring ->
             NoDup (fold_left (fun offspring gene1 =>
                                 fold_left (Breeding.addCombos gene1) (genes parent2) offspring)
                              genes1 offspring)
             /\ forall i,
                 In i (fold_left (fun offspring gene1 =>
                                    fold_left (Breeding.addCombos gene1) (genes parent2)
                                              offspring)
                                 genes1 offspring)
                 <-> In i offspring
                     \/ exists gene1 gene2,
                          In gene1 genes1 /\ In gene2 (genes parent2)
                          /\ (i = combo gene1 gene2 \/ i = combo gene2 gene1)).
  { induction genes1 as [|g1 genes1 IH]; intros offspring Hnd; cbn [fold_left].
    - split; [exact Hnd|]. intros i. split; [auto|]. intros [H|(g & g' & [] & _)]. exact H.
    - destruct (addCombos_fold g1 (genes parent2) offspring Hnd) as [Hnd1 Hin1].
      destruct (IH _ Hnd1) as [Hnd2 Hin2]. split; [exact Hnd2|].
      intros i. rewrite Hin2, Hin1. split.
      + intros [[H|(g2 & Hg2 & H)]|(g & g' & Hg & Hg' & H)]; auto.
        * right. exists g1, g2. split; [left; reflexivity | auto].
        * right. exists g, g'. split; [right; exact Hg | auto].
      + intros [H|(g & g' & [<-|Hg] & Hg' & H)]; auto.
        * left. right. exists g'. auto.
        * right. exists g, g'. auto. }
  destruct (H (genes parent1) [] (NoDup_nil_2)) as [Hnd Hin]. split; [exact Hnd|].
  intros i. rewrite Hin. split; [intros [[]|Hi]; exact Hi | auto].
Qed.

End Offspring.

(** X17. The possible offspring of two parents are listed without
    duplicates; they are exactly the ids made of a gene of one parent and a
    gene of the other, in both orders, so that the list has the same
    members whichever parent comes first; it is not empty when both parents
    have a gene; and each id is the id of one of the 36 two-gene characters
    of the game, so looking the character up cannot fail. *)
Theorem getPossibleOffspring_ids :
  forall (parent1 parent2 : GameCharacter),
    NoDup (Breeding.getPossibleOffspring parent1 parent2)
    /\ (forall i, In i (Breeding.getPossibleOffspring parent1 parent2)
                  <-> exists gene1 gene2,
                        In gene1 (genes parent1) /\ In gene2 (genes parent2)
                        /\ (i = GameState.gene_name gene1 +:+ "-" +:+ GameState.gene_name gene2
                            \/ i = GameState.gene_name gene2 +:+ "-"
                                   +:+ GameState.gene_name gene1))
    /\ (forall i, In i (Breeding.getPossibleOffspring parent1 parent2)
                  <-> In i (Breeding.getPossibleOffspring parent2 parent1))
    /\ (genes parent1 <> [] -> genes parent2 <> [] ->
        Breeding.getPossibleOffspring parent1 parent2 <> [])
    /\ (In parent1 GameState.generateCharacters ->
        In parent2 GameState.generateCharacters ->
        forall i, In i (Breeding.getPossibleOffspring parent1 parent2) ->
                  exists c, lookup_character GameState.generateCharacters i = Some c
                            /\ id c = i /\ length (genes c) = 2%nat).
Proof.
  intros parent1 parent2.
  destruct (getPossibleOffspring_spec parent1 parent2) as [Hnd Hin].
  destruct (getPossibleOffspring_spec parent2 parent1) as [_ Hin'].
  split; [exact Hnd|]. split; [exact Hin|]. split; [|split].
  - intros i. rewrite Hin, Hin'. split; intros (g1 & g2 & H1 & H2 & H);
      exists g2, g1; tauto.
  - intros H1 H2 Hnil.
    destruct (genes parent1) as [|g1 l1] eqn:E1; [congruence|].
    destruct (genes parent2) as [|g2 l2] eqn:E2; [congruence|].
    assert (Hi : In (GameState.gene_name g1 +:+ "-" +:+ GameState.gene_name g2)
                    (Breeding.getPossibleOffspring parent1 parent2)).
    { apply Hin. exists g1, g2. rewrite ?E1, ?E2. cbn [In]. auto. }
    rewrite Hnil in Hi. destruct Hi.
  - intros Hp1 Hp2 i Hi. apply Hin in Hi. destruct Hi as (g1 & g2 & Hg1 & Hg2 & Hi).
    assert (Hreal : forall p g, In p GameState.generateCharacters -> In g (genes p) ->
                                g <> Neutral).
    { intros p g Hp Hg.
      assert (Hall : forallb (fun p => forallb (fun g => negb (bool_decide (g = Neutral)))
                                               (genes p))
                             GameState.generateCharacters = true) by (vm_compute; reflexivity).
      rewrite forallb_forall in Hall. specialize (Hall p Hp).
      rewrite forallb_forall in Hall. specialize (Hall g Hg).
      apply negb_true_iff, bool_decide_eq_false in Hall. exact Hall. }
    pose proof (Hreal _ _ Hp1 Hg1) as Hn1. pose proof (Hreal _ _ Hp2 Hg2) as Hn2.
    destruct Hi as [-> | ->]; destruct g1, g2; try contradiction;
      (eexists; split; [vm_compute; reflexivity | split; reflexivity]).
Qed.

(** ** Random choices *)



(** ** The decisions of the AI *)

Lemma getAttackGenes_length (c : GameCharacter) : length (getAttackGenes c) = 2%nat.
Proof.
  unfold getAttackGenes. destruct (Nat.eqb (length (genes c)) 1); [reflexivity|].
  destruct (decide (genes c !! 0%nat = genes c !! 1%nat)); reflexivity.
Qed.

Lemma lookup_In {A : Type} (l : list A) (i : nat) (x : A) : l !! i = Some x -> In x l.
Proof. intros H. apply list_elem_of_In. exact (list_elem_of_lookup_2 l i x H). Qed.

Lemma lookup_lt_Some {A : Type} (l : list A) (i : nat) :
  (i < length l)%nat -> exists x, l !! i = Some x /\ In x l.
Proof.
  intros H. destruct (lookup_lt_is_Some_2 l i H) as [x Hx].
  exists x. split; [exact Hx | exact (lookup_In l i x Hx)].
Qed.

Section Legal.

Variable h : ref -> GameCharacter.
Variables (attacker : ref) (availableTargets : list ref).

Lemma candidates_legal (m : Move) (sc : Q) :
  availableTargets <> [] ->
  In (m, sc) (candidates h attacker availableTargets) ->
  exists a t, attack m = Some a /\ target m = Some t
              /\ In a (getAttackGenes (h attacker)) /\ In t availableTargets.
Proof.
  intros Hne Hin. unfold candidates in Hin. apply in_flat_map in Hin.
  destruct Hin as (a & Ha & Hin).
  destruct (decide (type a = splash)).
  - destruct Hin as [[= <- _]|[]].
    destruct availableTargets as [|t ts] eqn:E; [congruence|].
    exists a, t. cbn. auto.
  - apply in_map_iff in Hin. destruct Hin as (t & [= <- _] & Ht).
    exists a, t. cbn. auto.
Qed.

Lemma makeDecision_legal (rand : nat -> Q) (this : BattleAI) :
  availableTargets <> [] ->
  unit_draws rand ->
  exists a t,
    d_attack (makeDecision h rand this attacker availableTargets) = Some a
    /\ d_target (makeDecision h rand this attacker availableTargets) = Some t
    /\ In a (getAttackGenes (h attacker)) /\ In t availableTargets.
Proof.
  intros Hne Hrand. unfold makeDecision.
  destruct (Qlt_bool (rand 0%nat) (smartMoveChance (ai_difficulty this))).
  - cbn [d_attack d_target].
    destruct (calculateBestMove_argmax h attacker availableTargets Hne) as (sc & Hin & _).
    exact (candidates_legal _ sc Hne Hin).
  - cbn [d_attack d_target].
    destruct (Hrand 1%nat) as [H10 H11]. destruct (Hrand 2%nat) as [H20 H21].
    destruct (lookup_lt_Some (getAttackGenes (h attacker))
                (randomIndex (rand 1%nat) (length (getAttackGenes (h attacker)))))
      as (a & Ha & Hain).
    { apply randomIndex_lt; try assumption. rewrite getAttackGenes_length. lia. }
    destruct (lookup_lt_Some availableTargets
                (randomIndex (rand 2%nat) (length availableTargets)))
      as (t & Ht & Htin).
    { apply randomIndex_lt; try assumption.
      destruct availableTargets; [congruence | cbn; lia]. }
    exists a, t. auto.
Qed.

End Legal.

(** X19. Whatever the difficulty and the draws, the AI decides on a move it
    may make: with at least one target available, the attack is one of the
    attacker's two attacks and the target is one of the available targets.
    The move is the calculated one exactly when the first draw is below
    the smart-move chance of the difficulty; at 'easy' it never is, and
    then the attack and the target are the ones the second and third draw
    index. *)
Theorem makeDecision_always_legal :
  forall (h : ref -> GameCharacter) (rand : nat -> Q) (this : BattleAI)
         (attacker : ref) (availableTargets : list ref),
    availableTargets <> [] ->
    unit_draws rand ->
    let d := makeDecision h rand this attacker availableTargets in
    success d = true
    /\ d_difficulty d = ai_difficulty this
    /\ (exists a t, d_attack d = Some a /\ d_target d = Some t
                    /\ In a (getAttackGenes (h attacker)) /\ In t availableTargets)
    /\ (wasSmartMove d = true <-> (rand 0%nat < smartMoveChance (ai_difficulty this))%Q)
    /\ (wasSmartMove d = true ->
        d_attack d = attack (calculateBestMove h attacker availableTargets)
        /\ d_target d = target (calculateBestMove h attacker availableTargets))
    /\ (ai_difficulty this = EASY ->
        wasSmartMove d = false
        /\ d_attack d = getAttackGenes (h attacker) !! randomIndex (rand 1%nat) 2
        /\ d_target d
           = availableTargets !! randomIndex (rand 2%nat) (length availableTargets)).
Proof.
  intros h rand this attacker availableTargets Hne Hrand d.
  pose proof (makeDecision_legal h attacker availableTargets rand this Hne Hrand) as Hlegal.
  fold d in Hlegal. subst d. unfold makeDecision in *.
  destruct (Qlt_bool (rand 0%nat) (smartMoveChance (ai_difficulty this))) eqn:E;
    cbn [success d_difficulty d_attack d_target wasSmartMove] in *.
  - apply Qlt_bool_iff in E.
    split; [reflexivity|]. split; [reflexivity|]. split; [exact Hlegal|].
    split; [tauto|]. split; [auto|]. intros He. rewrite He in E. cbn in E.
    destruct (Hrand 0%nat). lra.
  - apply Qlt_bool_false_iff in E.
    split; [reflexivity|]. split; [reflexivity|]. split; [exact Hlegal|].
    split; [split; [discriminate | intros; lra]|]. split; [discriminate|].
    intros _. rewrite getAttackGenes_length. auto.
Qed.

Lemma makeDecision_always_legal_witness :
  ExampleAI.targets <> []
  /\ unit_draws ExampleAI.rand
  /\ success (makeDecision (heap Example.started) ExampleAI.rand (mkAI EASY None) 3%nat
                           ExampleAI.targets) = true.
Proof.
  assert (H1 : ExampleAI.targets <> []) by discriminate.
  assert (H2 : unit_draws ExampleAI.rand)
    by (intros n; split; [unfold Qle | unfold Qlt]; simpl; lia).
  split; [exact H1|]. split; [exact H2|].
  exact (proj1 (makeDecision_always_legal (heap Example.started) ExampleAI.rand
                  (mkAI EASY None) 3%nat ExampleAI.targets H1 H2)).
Defined.

Lemma processAITurn_unfold (fuel : nat) (rand : nat -> Q) (ai : BattleAI) (s : BattleSystem) :
  battle_ready s ->
  unit_draws rand ->
  exists attacker a t,
    getCurrentCharacter s = Some attacker
    /\ d_attack (makeDecision (heap s) rand ai attacker (getAvailableTargets s)) = Some a
    /\ d_target (makeDecision (heap s) rand ai attacker (getAvailableTargets s)) = Some t
    /\ In a (getAttackGenes (heap s attacker))
    /\ In t (getAvailableTargets s)
    /\ Controls.processAITurn fuel rand ai s
       = bind (Controls.executePlayerTurn fuel s a (Some t))
              (fun s1 r =>
                 Ok s1 (Controls.Decided
                          (makeDecision (heap s) rand ai attacker (getAvailableTargets s))
                          (fst r) (snd r))).
Proof.
  intros Hbr Hrand.
  destruct (battle_ready_current s Hbr) as (attacker & Hc & _ & _).
  pose proof (battle_ready_targets s Hbr) as Hne.
  destruct (makeDecision_legal (heap s) attacker (getAvailableTargets s) rand ai Hne Hrand)
    as (a & t & Ha & Ht & Hain & Htin).
  exists attacker, a, t. do 5 (split; [assumption|]).
  unfold Controls.processAITurn. rewrite Hc.
  destruct (getAvailableTargets s) as [|t0 ts] eqn:E; [congruence|].
  cbn [length Nat.eqb]. rewrite Ha, Ht. reflexivity.
Qed.

(** X20. A turn of the AI from a ready battle, with draws in [0, 1): there
    is a current character and a target, so the AI decides; the decision
    is carried out as a legal move (one of the attacker's attacks, on an
    available target), the turn returns and never throws, the attack
    succeeds, and afterwards the battle either has ended (phase 'ended',
    a team without living members) or is ready for the next turn. *)
Theorem processAITurn_safe :
  forall (s : BattleSystem) (rand : nat -> Q) (ai : BattleAI),
    battle_ready s ->
    unit_draws rand ->
    (exists fuel s' r, Controls.processAITurn fuel rand ai s = Ok s' r)
    /\ (forall fuel s', Controls.processAITurn fuel rand ai s <> TypeError s')
    /\ forall fuel s' r,
        Controls.processAITurn fuel rand ai s = Ok s' r ->
        exists attacker a t tr e w next,
          getCurrentCharacter s = Some attacker
          /\ r = Controls.Decided
                   (makeDecision (heap s) rand ai attacker (getAvailableTargets s))
                   (Success tr e w) next
          /\ d_attack (makeDecision (heap s) rand ai attacker (getAvailableTargets s))
             = Some a
          /\ d_target (makeDecision (heap s) rand ai attacker (getAvailableTargets s))
             = Some t
          /\ In a (getAttackGenes (heap s attacker))
          /\ In t (getAvailableTargets s)
          /\ isProcessingTurn s' = false
          /\ (e = true ->
              next = None /\ battlePhase s' = ended
              /\ (livingCount s' (playerTeam s') = 0%nat
                  \/ livingCount s' (enemyTeam s') = 0%nat))
          /\ (e = false -> battle_ready s' /\ exists nt, next = Some nt).
Proof.
  intros s rand ai Hbr Hrand.
  assert (Hun : forall fuel, _) by (intros fuel; exact (processAITurn_unfold fuel rand ai s Hbr Hrand)).
  destruct (Hun 0%nat) as (attacker & a & t & Hc & Ha & Ht & Hain & Htin & _).
  assert (Hlegal : legalMove s a (Some t)) by (intros _; exists t; auto).
  destruct (executePlayerTurn_cycle s a (Some t) Hbr Hlegal) as (Hret & Hno & Hrun).
  assert (Heq : forall fuel,
             Controls.processAITurn fuel rand ai s
             = bind (Controls.executePlayerTurn fuel s a (Some t))
                    (fun s1 r =>
                       Ok s1 (Controls.Decided
                                (makeDecision (heap s) rand ai attacker (getAvailableTargets s))
                                (fst r) (snd r)))).
  { intros fuel. destruct (Hun fuel) as (attacker' & a' & t' & Hc' & Ha' & Ht' & _ & _ & E).
    assert (attacker' = attacker) by congruence. subst attacker'.
    assert (a' = a) by congruence. assert (t' = t) by congruence. subst. exact E. }
  split; [|split].
  - destruct Hret as (fuel & s' & r & H). exists fuel. rewrite Heq, H. cbn [bind]. eauto.
  - intros fuel s'. rewrite Heq.
    destruct (Controls.executePlayerTurn fuel s a (Some t)) as [s1 r|s1|] eqn:E; cbn [bind];
      try discriminate.
    exfalso. exact (Hno fuel s1 E).
  - intros fuel s' r. rewrite Heq.
    destruct (Controls.executePlayerTurn fuel s a (Some t)) as [s1 r1| |] eqn:E; cbn [bind];
      try discriminate.
    intros [= <- <-].
    destruct (Hrun fuel s1 r1 E) as (tr & e & w & Hfst & Hidle & Hend & Hgo).
    exists attacker, a, t, tr, e, w, (snd r1).
    split; [exact Hc|]. split; [rewrite Hfst; reflexivity|].
    do 5 (split; [assumption|]). split.
    + intros He. destruct (Hend He) as (H1 & H2 & H3). auto.
    + intros He. destruct (Hgo He) as (H1 & _ & _ & nt & c' & H2 & _). eauto.
Qed.

Lemma processAITurn_safe_witness :
  battle_ready Example.started
  /\ unit_draws ExampleAI.rand
  /\ exists fuel s' r,
       Controls.processAITurn fuel ExampleAI.rand ExampleAI.ai Example.started = Ok s' r.
Proof.
  assert (H2 : unit_draws ExampleAI.rand)
    by (intros n; split; [unfold Qle | unfold Qlt]; simpl; lia).
  split; [exact example_battle_ready|]. split; [exact H2|].
  exact (proj1 (processAITurn_safe Example.started ExampleAI.rand ExampleAI.ai
                  example_battle_ready H2)).
Defined.

(** ** The forecast of the AI and the engine *)

Lemma defeated_iff_willKill (h d : Q) :
  Qeq_bool (Qmax 0 (h - d)) 0 = Qle_bool h d.
Proof.
  pose proof (Q.max_spec 0 (h - d)) as Hmax.
  set (m := Qmax 0 (h - d)) in *. clearbody m.
  destruct (Qle_bool h d) eqn:E.
  - apply Qle_bool_iff in E. apply Qeq_bool_iff.
    destruct Hmax as [[? ?]|[? ?]]; lra.
  - apply Qle_bool_false_iff in E. apply Qeq_bool_false_iff.
    destruct Hmax as [[? ?]|[? ?]]; lra.
Qed.

Section Forecast.

Variables (s : BattleSystem) (attacker : ref) (attackObj : AttackObj).

Lemma splashStep_fold (targets : list ref) :
  forall total kills bonus,
    let '(total', kills', _) :=
      fold_left (splashStep (heap s) attacker attackObj) targets (total, kills, bonus) in
    total' = fold_left Qplus (map (splashDamageOn s attacker (gene attackObj)) targets) total
    /\ (kills' == kills
                  + inject_Z (Z.of_nat
                      (length (List.filter
                                 (fun t => defeated (splashHitOf s attacker (gene attackObj) t))
                                 targets))))%Q.
Proof.
  induction targets as [|t targets IH]; intros total kills bonus.
  - cbn [fold_left map List.filter length]. split; [reflexivity|].
    change (inject_Z (Z.of_nat 0)) with 0%Q. lra.
  - cbn [fold_left map List.filter].
    unfold splashStep at 2. cbv beta iota zeta.
    set (dmg := (Character.attack (stats (heap s attacker))
                 * getEffectiveness (gene attackObj) (heap s t)
                 * SPLASH_DAMAGE_MULTIPLIER)%Q).
    change (splashDamageOn s attacker (gene attackObj) t) with dmg.
    assert (Hd : defeated (splashHitOf s attacker (gene attackObj) t)
                 = Qle_bool (hp (stats (heap s t))) dmg).
    { unfold splashHitOf. cbn [defeated].
      change (splashDamageOn s attacker (gene attackObj) t) with dmg.
      apply defeated_iff_willKill. }
    rewrite Hd.
    match goal with
    | |- context [fold_left _ targets (?a, ?b, ?c)] => specialize (IH a b c)
    end.
    destruct (fold_left (splashStep (heap s) attacker attackObj) targets _)
      as [[total' kills'] bonus'].
    destruct IH as [IH1 IH2]. split; [exact IH1|].
    destruct (Qle_bool (hp (stats (heap s t))) dmg).
    + cbn [length]. rewrite IH2, Nat2Z.inj_succ, <- Z.add_1_r, inject_Z_plus.
      change (inject_Z 1) with 1%Q. lra.
    + exact IH2.
Qed.

End Forecast.

(** X21. What the AI forecasts is what the engine does. For a single
    attack the damage, the effectiveness and the kill flag of the
    evaluation are the damage, the effectiveness and the defeat that
    [processSingleAttack] reports. For a splash attack on a well-formed
    battle, evaluated on the targets the splash will hit, the total damage
    is the sum of the damages reported and the kill count is the number of
    targets reported as defeated. And the targets the splash will hit are
    the available targets whenever these are at most three. *)
Theorem evaluation_matches_engine :
  forall (s : BattleSystem) (attacker : ref) (attackObj : AttackObj),
    (forall t allTargets fuel s' r,
        processSingleAttack fuel s attacker (gene attackObj) (Some t) = Ok s' r ->
        sr_damage r = damage (evaluateSingleAttack (heap s) attacker attackObj t allTargets)
        /\ sr_effectiveness r
           = effectiveness (evaluateSingleAttack (heap s) attacker attackObj t allTargets)
        /\ targetDefeated r
           = willKill (evaluateSingleAttack (heap s) attacker attackObj t allTargets))
    /\ (well_formed s ->
        forall fuel s' r,
          processSplashAttack fuel s attacker (gene attackObj) = Ok s' r ->
          totalDamage (evaluateSplashAttack (heap s) attacker attackObj
                                            (splashTargets s attacker))
          = Qsum (map sh_damage (sp_targets r))
          /\ (killCount (evaluateSplashAttack (heap s) attacker attackObj
                                              (splashTargets s attacker))
              == inject_Z (Z.of_nat (length (List.filter defeated (sp_targets r)))))%Q)
    /\ (getCurrentCharacter s = Some attacker ->
        (length (getAvailableTargets s) <= 3)%nat ->
        splashTargets s attacker = getAvailableTargets s).
Proof.
  intros s attacker attackObj. split; [|split].
  - intros t allTargets fuel s' r Hrun.
    apply processSingleAttack_run in Hrun. destruct Hrun as (_ & _ & _ & _ & ->).
    cbn [sr_damage sr_effectiveness targetDefeated].
    unfold evaluateSingleAttack. cbn [damage effectiveness willKill].
    split; [reflexivity|]. split; [reflexivity|].
    unfold takeDamage. cbn [snd]. apply defeated_iff_willKill.
  - intros Hwf fuel s' r Hrun.
    destruct (splash_hits s attacker (gene attackObj) Hwf) as (h1 & Hfold & _).
    destruct (processSplashAttack_run fuel s s' attacker (gene attackObj) r h1 Hfold Hrun)
      as (_ & ->).
    cbn [sp_targets]. unfold evaluateSplashAttack, Qsum.
    pose proof (splashStep_fold s attacker attackObj (splashTargets s attacker) 0 0 0)%Q
      as Hstep.
    destruct (fold_left (splashStep (heap s) attacker attackObj) (splashTargets s attacker) _)
      as [[total kills] bonus].
    destruct Hstep as [H1 H2]. cbn [totalDamage killCount].
    rewrite map_map. split.
    + rewrite H1. reflexivity.
    + rewrite H2.
      assert (Hlen : forall l,
                length (List.filter defeated (map (splashHitOf s attacker (gene attackObj)) l))
                = length (List.filter
                            (fun t => defeated (splashHitOf s attacker (gene attackObj) t)) l)).
      { induction l as [|x l IH]; [reflexivity|]. cbn [map List.filter].
        destruct (defeated (splashHitOf s attacker (gene attackObj) x)); cbn [length];
          rewrite IH; reflexivity. }
      rewrite Hlen. lra.
  - intros Hc Hlen. unfold splashTargets, getAvailableTargets in *. rewrite Hc in *.
    destruct (truthy (isPlayer (heap s attacker))); apply take_ge; exact Hlen.
Qed.

(** ** Setting up a battle *)

(** *** Keys *)

Lemma append_length (x y : string) :
  String.length (x +:+ y) = (String.length x + String.length y)%nat.
Proof. induction x as [|a x IH]; [reflexivity|]. rewrite append_cons. cbn. rewrite IH. reflexivity. Qed.

Lemma append_inj (x x' y y' : string) :
  String.length y = String.length y' ->
  x +:+ y = x' +:+ y' -> x = x' /\ y = y'.
Proof.
  intros Hlen. revert x'. induction x as [|a x IH]; intros x' H.
  - destruct x' as [|a' x']; [auto|]. exfalso.
    apply (f_equal String.length) in H. rewrite append_nil, append_length in H.
    cbn in H. lia.
  - destruct x' as [|a' x'].
    + exfalso. apply (f_equal String.length) in H. rewrite append_nil, append_length in H.
      cbn in H. lia.
    + rewrite !append_cons in H. injection H as <- H.
      destruct (IH _ H) as [<- <-]. auto.
Qed.

Lemma getCharId_battleCopy (p : bool) (c : GameCharacter) :
  getCharId (battleCopy p c) = id c +:+ (if p then "-P" else "-E").
Proof. destruct p; reflexivity. Qed.

Lemma getCharId_inj (p p' : bool) (c c' : GameCharacter) :
  getCharId (battleCopy p c) = getCharId (battleCopy p' c') -> id c = id c' /\ p = p'.
Proof.
  rewrite !getCharId_battleCopy. intros H.
  apply append_inj in H; [|destruct p, p'; reflexivity].
  destruct H as [H1 H2]. split; [exact H1|]. destruct p, p'; try reflexivity; discriminate.
Qed.

Lemma generateStats_bounds (i : string) :
  hp (generateStats i) = maxHp (generateStats i)
  /\ (80 <= maxHp (generateStats i) <= 360)%Q
  /\ (40 <= Character.attack (generateStats i) <= 120)%Q
  /\ (40 <= speed (generateStats i) <= 120)%Q.
Proof.
  unfold generateStats, getStatDistribution.
  destruct (lookup_stats CHARACTER_STATS i) as [[[h a] s]|] eqn:E.
  - apply lookup_stats_In in E.
    pose proof table_budget as Hb. rewrite forallb_forall in Hb.
    specialize (Hb _ E). cbn [snd] in Hb.
    repeat (apply andb_prop in Hb; destruct Hb as [Hb ?]).
    repeat match goal with H : Qle_bool _ _ = true |- _ => apply Qle_bool_iff in H end.
    cbn [hp maxHp Character.attack speed]. repeat split; lra.
  - cbn [hp maxHp Character.attack speed]. repeat split; lra.
Qed.

Lemma battleCopy_facts (p : bool) (c : GameCharacter) :
  id (battleCopy p c) = id c
  /\ genes (battleCopy p c) = genes c
  /\ isPlayer (battleCopy p c) = Some p
  /\ isAlive (battleCopy p c) = true
  /\ hp (stats (battleCopy p c)) = maxHp (stats (battleCopy p c))
  /\ (40 <= speed (stats (battleCopy p c)) <= 120)%Q
  /\ (40 <= Character.attack (stats (battleCopy p c)) <= 120)%Q
  /\ (80 <= maxHp (stats (battleCopy p c)) <= 360)%Q.
Proof.
  destruct (generateStats_bounds (id c)) as (Hfull & Hhp & Hatt & Hsp).
  unfold battleCopy, clone, resetForBattle, new_GameCharacter.
  cbn [id genes isPlayer set_isPlayer set_hp stats hp maxHp speed Character.attack].
  split; [reflexivity|]. split; [reflexivity|]. split; [reflexivity|].
  split; [|auto].
  unfold isAlive. cbn [stats set_isPlayer set_hp hp]. apply Qlt_bool_iff. lra.
Qed.

(** *** Allocation with contents *)

Lemma allocates_refl (s : BattleSystem) : allocates s s [] [].
Proof.
  split; [lia|]. split; [auto|]. split; [constructor|]. split; [intros r []|reflexivity].
Qed.

Lemma allocates_alloc (s : BattleSystem) (c : GameCharacter) :
  allocates s (fst (alloc s c)) [snd (alloc s c)] [c].
Proof.
  unfold allocates, alloc. cbn [fst snd heap nextRef set_nextRef set_heap].
  split; [lia|]. split.
  { intros r Hr. rewrite fn_lookup_insert_ne by lia. reflexivity. }
  split; [apply list.NoDup_singleton|]. split.
  { intros r [<-|[]]. lia. }
  cbn [map]. rewrite fn_lookup_insert. reflexivity.
Qed.

Lemma allocates_trans (s s1 s2 : BattleSystem) (new1 new2 : list ref)
      (cs1 cs2 : list GameCharacter) :
  allocates s s1 new1 cs1 -> allocates s1 s2 new2 cs2 ->
  allocates s s2 (new1 ++ new2) (cs1 ++ cs2).
Proof.
  intros (Hle1 & Hold1 & Hnd1 & Hr1 & Hc1) (Hle2 & Hold2 & Hnd2 & Hr2 & Hc2).
  split; [lia|]. split.
  { intros r Hr. rewrite Hold2 by lia. apply Hold1, Hr. }
  split.
  { apply list.NoDup_app. split; [exact Hnd1|]. split; [|exact Hnd2].
    intros r H1 H2. apply list_elem_of_In in H1, H2.
    specialize (Hr1 r H1). specialize (Hr2 r H2). lia. }
  split.
  { intros r Hr. apply in_app_iff in Hr. destruct Hr as [Hr|Hr].
    - specialize (Hr1 r Hr). lia.
    - specialize (Hr2 r Hr). lia. }
  rewrite map_app, Hc2. f_equal. rewrite <- Hc1.
  apply map_ext_in. intros r Hr. apply Hold2. specialize (Hr1 r Hr). lia.
Qed.

Lemma clonePlayers_spec (roster : list GameCharacter) :
  forall (s : BattleSystem) (team : list ref),
    exists s' new,
      fold_left clonePlayer roster (s, team) = (s', team ++ new)
      /\ allocates s s' new (map (battleCopy true) roster)
      /\ playerTeam s' = playerTeam s /\ enemyTeam s' = enemyTeam s.
Proof.
  induction roster as [|c roster IH]; intros s team.
  - exists s, []. cbn [fold_left map]. rewrite app_nil_r.
    split; [reflexivity|]. split; [apply allocates_refl|]. auto.
  - cbn [fold_left map]. unfold clonePlayer at 2. fold (battleCopy true c).
    pose proof (allocates_alloc s (battleCopy true c)) as Hal.
    destruct (alloc s (battleCopy true c)) as [s1 r] eqn:Ealloc. cbn [fst snd] in Hal.
    assert (Hs1 : playerTeam s1 = playerTeam s /\ enemyTeam s1 = enemyTeam s).
    { unfold alloc in Ealloc. injection Ealloc as <- _. split; reflexivity. }
    destruct (IH s1 (team ++ [r])) as (s' & new & Hfold & Hal' & Hp & He).
    exists s', (r :: new). split; [rewrite Hfold, <- app_assoc; reflexivity|].
    split; [exact (allocates_trans s s1 s' [r] new _ _ Hal Hal')|].
    destruct Hs1. split; congruence.
Qed.

(** *** Drawing without replacement *)

Lemma findIndex_id_In (c0 : GameCharacter) (l : list GameCharacter) :
  In c0 l -> exists n, findIndex_id (id c0) l = Some n.
Proof.
  induction l as [|x l IH]; intros Hin; [destruct Hin|].
  cbn [findIndex_id]. destruct (String.eqb (id x) (id c0)) eqn:E; [eauto|].
  destruct Hin as [->|Hin].
  - rewrite String.eqb_refl in E. discriminate.
  - destruct (IH Hin) as [n ->]. cbn. eauto.
Qed.

Lemma splice_id_spec (c0 : GameCharacter) (l : list GameCharacter) :
  NoDup (map id l) -> In c0 l ->
  NoDup (map id (splice_id (id c0) l))
  /\ forall c, In c (splice_id (id c0) l) <-> In c l /\ id c <> id c0.
Proof.
  unfold splice_id. induction l as [|x l IH]; intros Hnd Hin; [destruct Hin|].
  cbn [map] in Hnd. apply list.NoDup_cons in Hnd. destruct Hnd as [Hx Hnd].
  cbn [findIndex_id]. destruct (String.eqb (id x) (id c0)) eqn:E.
  - apply String.eqb_eq in E. cbn [delete list_delete]. split; [exact Hnd|].
    intros c. split.
    + intros Hc. split; [right; exact Hc|]. intros Heq. apply Hx. rewrite E, <- Heq.
      apply list_elem_of_In, in_map, Hc.
    + intros [[->|Hc] Hne]; [congruence | exact Hc].
  - apply String.eqb_neq in E.
    destruct Hin as [->|Hin]; [congruence|].
    destruct (findIndex_id_In c0 l Hin) as [n Hn]. rewrite Hn in *. cbn [option_map].
    destruct (IH Hnd Hin) as [IH1 IH2].
    change (delete (S n) (x :: l)) with (x :: delete n l).
    split.
    + cbn [map]. apply list.NoDup_cons. split; [|exact IH1].
      intros Hx'. apply Hx. apply list_elem_of_In in Hx'. apply in_map_iff in Hx'.
      destruct Hx' as (c & Hc1 & Hc2). apply IH2 in Hc2.
      apply list_elem_of_In. rewrite <- Hc1. apply in_map. tauto.
    + intros c. cbn [In]. rewrite IH2. split.
      * intros [<-|[Hc Hne]]; auto.
      * intros [[<-|Hc] Hne]; auto.
Qed.

Section PickDistinct.

Variable rand : nat -> Q.
Hypothesis Hrand : unit_draws rand.

Lemma pickDistinct_spec (idxs : list nat) :
  forall (pool : list GameCharacter) (s : BattleSystem),
    NoDup (map id pool) ->
    (length idxs <= length pool)%nat ->
    exists s' new picks,
      pickDistinct rand pool idxs s = Ok s' tt
      /\ playerTeam s' = playerTeam s
      /\ enemyTeam s' = enemyTeam s ++ new
      /\ length picks = length idxs
      /\ allocates s s' new (map (battleCopy false) picks)
      /\ NoDup (map id picks)
      /\ (forall c, In c picks -> In c pool).
Proof.
  induction idxs as [|i idxs IH]; intros pool s Hnd Hlen.
  - exists s, [], []. cbn [pickDistinct map length]. rewrite app_nil_r.
    do 4 (split; [reflexivity|]). split; [apply allocates_refl|].
    split; [constructor | intros c []].
  - cbn [length] in Hlen. cbn [pickDistinct].
    destruct (lookup_lt_Some pool (randomIndex (rand i) (length pool)))
      as (randomChar & Hpick & Hin).
    { destruct (Hrand i). apply randomIndex_lt; try assumption. lia. }
    rewrite Hpick. fold (battleCopy false randomChar).
    pose proof (allocates_alloc s (battleCopy false randomChar)) as Hal.
    destruct (alloc s (battleCopy false randomChar)) as [s1 r] eqn:Ealloc.
    cbn [fst snd] in Hal.
    assert (Hs1 : playerTeam s1 = playerTeam s /\ enemyTeam s1 = enemyTeam s).
    { unfold alloc in Ealloc. injection Ealloc as <- _. split; reflexivity. }
    destruct Hs1 as [Hp1 He1].
    destruct (splice_id_spec randomChar pool Hnd Hin) as [Hnd' Hpool'].
    destruct (IH (splice_id (id randomChar) pool)
                 (set_enemyTeam s1 (enemyTeam s1 ++ [r])) Hnd')
      as (s' & new & picks & Hrun & Hp & He & Hlen' & Hal' & Hndp & Hsub).
    { rewrite splice_id_length. lia. }
    exists s', (r :: new), (randomChar :: picks). split; [exact Hrun|].
    split; [rewrite Hp; exact Hp1|].
    split; [rewrite He; cbn [enemyTeam set_enemyTeam]; rewrite He1, <- app_assoc; reflexivity|].
    split; [cbn [length]; lia|].
    split.
    { apply (allocates_trans s s1 s' [r] new [battleCopy false randomChar]
                             (map (battleCopy false) picks) Hal).
      exact Hal'. }
    split.
    { cbn [map]. apply list.NoDup_cons. split; [|exact Hndp].
      intros Hx. apply list_elem_of_In, in_map_iff in Hx. destruct Hx as (c & Hc1 & Hc2).
      apply Hsub, Hpool' in Hc2. tauto. }
    intros c [<-|Hc]; [exact Hin|]. apply Hsub, Hpool' in Hc. tauto.
Qed.

End PickDistinct.

(** *** The first plan *)

Section CreateTurnQueueRun.

Variable s : BattleSystem.

Lemma init_bars_zero (l : list ref) :
  forall (m : gmap string jsnum),
    (forall k v, m !! k = Some v -> v = Fin 0) ->
    forall k v,
      fold_left (fun m r => <[getCharId (heap s r) := Fin 0]> m) l m !! k = Some v ->
      v = Fin 0.
Proof.
  induction l as [|r l IH]; intros m Hm k v; cbn [fold_left]; [apply Hm|].
  apply IH. intros k' v'. destruct (decide (getCharId (heap s r) = k')) as [<-|Hne].
  - rewrite lookup_insert_eq. congruence.
  - rewrite lookup_insert_ne by exact Hne. apply Hm.
Qed.

(** What [createTurnQueue] that returns has done. *)
Lemma createTurnQueue_run (fuel : nat) (s' : BattleSystem) (u : unit) :
  createTurnQueue fuel s = Ok s' u ->
  s' = set_turnQueue
         (set_upcomingTurns (set_actionBars s (actionBars s')) (upcomingTurns s'))
         (take 6 (upcomingTurns s'))
  /\ (forall k v, actionBars s' !! k = Some v -> v = Fin 0)
  /\ (forall r, In r (teamMembers s) -> isAlive (heap s r) = true ->
                actionBars s' !! getCharId (heap s r) = Some (Fin 0))
  /\ (forall r, In r (upcomingTurns s') ->
                In r (teamMembers s) /\ isAlive (heap s r) = true)
  /\ (aliveCharacters s <> [] -> (20 <= length (upcomingTurns s'))%nat).
Proof.
  unfold createTurnQueue.
  set (bars := fold_left (fun m r => <[getCharId (heap s r) := Fin 0]> m)
                         (aliveCharacters s) ∅).
  destruct (calculateUpcomingTurns fuel (set_actionBars s bars) 20) as [s1 u1| |] eqn:E;
    cbn [bind]; try discriminate.
  intros [= <- <-].
  apply calculateUpcomingTurns_result in E. destruct E as (E1 & Hin & _ & Hlen).
  change (aliveCharacters (set_actionBars s bars)) with (aliveCharacters s) in *.
  assert (Hbars : actionBars s1 = bars) by (rewrite E1; reflexivity).
  cbn [actionBars upcomingTurns set_turnQueue]. rewrite Hbars.
  split; [rewrite E1 at 1; reflexivity|]. split.
  { apply init_bars_zero. intros k v H. rewrite lookup_empty in H. discriminate. }
  split.
  { intros r Hr Hal. apply init_bars_lookup. apply filter_In. auto. }
  split; [intros r Hr; apply aliveCharacters_members, Hin, Hr|].
  intros Hne. apply (Hlen Hne).
Qed.

End CreateTurnQueueRun.

(** *** The battle that [setupBattle] builds *)

Lemma NoDup_map_filter_id {A B : Type} (f : A -> B) (p : A -> bool) (l : list A) :
  NoDup (map f l) -> NoDup (map f (List.filter p l)).
Proof.
  induction l as [|x l IH]; intros Hnd; [constructor|].
  cbn [map] in Hnd. apply list.NoDup_cons in Hnd. destruct Hnd as [Hx Hnd].
  cbn [List.filter]. destruct (p x); [|apply IH, Hnd].
  cbn [map]. apply list.NoDup_cons. split; [|apply IH, Hnd].
  intros H. apply Hx. apply list_elem_of_In in H. apply in_map_iff in H.
  destruct H as (y & Hy1 & Hy2). apply filter_In in Hy2.
  apply list_elem_of_In. rewrite <- Hy1. apply in_map. tauto.
Qed.

Lemma In_map_heap (h : ref -> GameCharacter) (l : list ref) (cs : list GameCharacter)
      (r : ref) :
  map h l = cs -> In r l -> In (h r) cs.
Proof. intros <- Hr. apply in_map, Hr. Qed.

Lemma NoDup_map_via {A B C : Type} (f : A -> B) (g : A -> C) (l : list A) :
  (forall x y, f x = f y -> g x = g y) -> NoDup (map g l) -> NoDup (map f l).
Proof.
  intros Hfg. induction l as [|x l IH]; intros Hnd; [constructor|].
  cbn [map] in *. apply list.NoDup_cons in Hnd. destruct Hnd as [Hx Hnd].
  apply list.NoDup_cons. split; [|apply IH, Hnd].
  intros H. apply Hx. apply list_elem_of_In in H. apply in_map_iff in H.
  destruct H as (y & Hy1 & Hy2). apply list_elem_of_In.
  rewrite <- (Hfg _ _ Hy1). apply in_map, Hy2.
Qed.

Lemma battle_keys_NoDup (roster picks : list GameCharacter) :
  NoDup (map id roster) -> NoDup (map id picks) ->
  NoDup (map getCharId (map (battleCopy true) roster ++ map (battleCopy false) picks)).
Proof.
  intros Hr Hp. rewrite map_app, !map_map. apply list.NoDup_app. split; [|split].
  - apply (NoDup_map_via _ id); [|exact Hr].
    intros x y H. apply getCharId_inj in H. tauto.
  - intros k H1 H2. apply list_elem_of_In in H1, H2.
    apply in_map_iff in H1, H2. destruct H1 as (x & Hx & _). destruct H2 as (y & Hy & _).
    rewrite <- Hy in Hx. apply getCharId_inj in Hx. destruct Hx as [_ Hx]. discriminate.
  - apply (NoDup_map_via _ id); [|exact Hp].
    intros x y H. apply getCharId_inj in H. tauto.
Qed.

Lemma inPlayerTeam_roster (s : BattleSystem) (roster : list GameCharacter) (i : string) :
  map (heap s) (playerTeam s) = map (battleCopy true) roster ->
  inPlayerTeam s i = existsb (fun p => String.eqb (id p) i) roster.
Proof.
  unfold inPlayerTeam. intros H.
  assert (Hmap : forall (A : Type) (g : A -> GameCharacter) (l : list A),
             existsb (fun c => String.eqb (id c) i) (map g l)
             = existsb (fun x => String.eqb (id (g x)) i) l).
  { intros A g l. induction l as [|x l IH]; [reflexivity|]. cbn [map existsb].
    rewrite IH. reflexivity. }
  rewrite <- (Hmap _ (heap s)), H, Hmap. reflexivity.
Qed.

Lemma generateEnemyTeam_distinct (rand : nat -> Q) (characters roster : list GameCharacter)
      (s : BattleSystem) :
  unit_draws rand ->
  NoDup (map id characters) ->
  map (heap s) (playerTeam s) = map (battleCopy true) roster ->
  (3 <= length (availableFor characters roster))%nat ->
  exists s' new picks,
    generateEnemyTeam rand characters s = Ok s' tt
    /\ playerTeam s' = playerTeam s
    /\ enemyTeam s' = new
    /\ length picks = 3%nat
    /\ allocates s s' new (map (battleCopy false) picks)
    /\ NoDup (map id picks)
    /\ (forall c, In c picks -> In c (availableFor characters roster)).
Proof.
  intros Hrand Hnd Hteam Hlen. unfold generateEnemyTeam.
  assert (Hav : List.filter (fun c => unlocked c && negb (inPlayerTeam s (id c))) characters
                = availableFor characters roster).
  { unfold availableFor. apply filter_ext. intros c.
    rewrite (inPlayerTeam_roster s roster (id c) Hteam). reflexivity. }
  rewrite Hav.
  replace (Nat.ltb (length (availableFor characters roster)) TEAM_SIZE) with false
    by (symmetry; apply Nat.ltb_ge; exact Hlen).
  destruct (pickDistinct_spec rand Hrand (seq 0 TEAM_SIZE) (availableFor characters roster)
              (set_enemyTeam s []))
    as (s' & new & picks & Hrun & Hp & He & Hl & Hal & Hndp & Hsub).
  { apply NoDup_map_filter_id, Hnd. }
  { exact Hlen. }
  exists s', new, picks. split; [exact Hrun|]. split; [exact Hp|]. split; [exact He|].
  split; [exact Hl|]. split; [exact Hal|]. auto.
Qed.

Lemma In_map_inv {A B : Type} (f : A -> B) (l : list A) (cs : list B) (x : A) :
  map f l = cs -> In x l -> In (f x) cs.
Proof. intros <- H. apply in_map, H. Qed.

Lemma setupBattle_run (fuel : nat) (rand : nat -> Q) (characters : list GameCharacter)
      (s : BattleSystem) (roster : list GameCharacter) (s' : BattleSystem) (r : SetupResult) :
  unit_draws rand ->
  roster <> [] ->
  NoDup (map id roster) ->
  NoDup (map id characters) ->
  (3 <= length (availableFor characters roster))%nat ->
  setupBattle fuel rand characters s roster = Ok s' r ->
  exists picks,
    map (heap s') (playerTeam s') = map (battleCopy true) roster
    /\ map (heap s') (enemyTeam s') = map (battleCopy false) picks
    /\ length picks = 3%nat
    /\ NoDup (map id picks)
    /\ (forall c, In c picks -> In c (availableFor characters roster))
    /\ (forall x, (x < nextRef s)%nat -> heap s' x = heap s x)
    /\ (forall x, In x (teamMembers s') -> (nextRef s <= x)%nat)
    /\ (forall k v, actionBars s' !! k = Some v -> v = Fin 0)
    /\ battlePhase s' = battle
    /\ battleLog s' = []
    /\ r = mkSetupResult (playerTeam s') (enemyTeam s') (getCurrentCharacter s')
    /\ battle_ready s'.
Proof.
  intros Hrand Hne Hndr Hndc Hav Hrun. unfold setupBattle in Hrun.
  destruct (clonePlayers_spec roster s []) as (s0 & team & Hfold & Hal0 & Hp0 & He0).
  cbn [app] in Hfold. rewrite Hfold in Hrun.
  set (s1 := set_playerTeam s0 team) in *.
  destruct Hal0 as (Hle0 & Hold0 & Hndt & Hrange0 & Hcont0).
  destruct (generateEnemyTeam_distinct rand characters roster s1 Hrand Hndc Hcont0 Hav)
    as (s2 & new & picks & Hgen & Hp2 & He2 & Hl & Hal2 & Hndp & Hsub).
  rewrite Hgen in Hrun. cbn [bind] in Hrun.
  destruct (createTurnQueue fuel s2) as [s3 u| |] eqn:Ect; cbn [bind] in Hrun;
    try discriminate.
  injection Hrun as <- <-.
  destruct (createTurnQueue_run s2 fuel s3 u Ect) as (E3 & Hzero & Hbars & Hturns & Hmany).
  destruct Hal2 as (Hle2 & Hold2 & Hndn & Hrange2 & Hcont2).
  change (nextRef s1) with (nextRef s0) in *.
  change (heap s1) with (heap s0) in *.
  change (playerTeam s1) with team in *.
  assert (Hh3 : heap s3 = heap s2) by (rewrite E3; reflexivity).
  assert (Hp3 : playerTeam s3 = team) by (rewrite E3; cbn; exact Hp2).
  assert (He3 : enemyTeam s3 = new) by (rewrite E3; cbn; exact He2).
  assert (Hcont1 : map (heap s2) team = map (battleCopy true) roster).
  { rewrite <- Hcont0. apply map_ext_in. intros x Hx. apply Hold2.
    specialize (Hrange0 x Hx). lia. }
  assert (Hpl : forall x, In x team -> exists c, In c roster /\ heap s2 x = battleCopy true c).
  { intros x Hx. pose proof (In_map_inv _ _ _ x Hcont1 Hx) as H.
    apply in_map_iff in H. destruct H as (c & Hc & Hin). eauto. }
  assert (Hen : forall x, In x new -> exists c, In c picks /\ heap s2 x = battleCopy false c).
  { intros x Hx. pose proof (In_map_inv _ _ _ x Hcont2 Hx) as H.
    apply in_map_iff in H. destruct H as (c & Hc & Hin). eauto. }
  assert (Hmem : forall x, In x (team ++ new) ->
                   exists p c, heap s2 x = battleCopy p c
                               /\ (p = true -> In x team) /\ (p = false -> In x new)).
  { intros x Hx. apply in_app_iff in Hx. destruct Hx as [Hx|Hx].
    - destruct (Hpl x Hx) as (c & _ & Hc). exists true, c. split; [exact Hc|].
      split; [auto | discriminate].
    - destruct (Hen x Hx) as (c & _ & Hc). exists false, c. split; [exact Hc|].
      split; [discriminate | auto]. }
  assert (Halive : forall x, In x (team ++ new) -> isAlive (heap s2 x) = true).
  { intros x Hx. destruct (Hmem x Hx) as (p & c & -> & _). apply battleCopy_facts. }
  assert (Hmembers2 : teamMembers s2 = team ++ new).
  { unfold teamMembers. rewrite Hp2, He2. reflexivity. }
  assert (Hnew_ne : new <> []).
  { intros Hnil. apply (f_equal (@length _)) in Hcont2.
    rewrite !length_map, Hl, Hnil in Hcont2. discriminate. }
  assert (Halive_ne : aliveCharacters s2 <> []).
  { destruct new as [|x new'] eqn:En; [congruence|].
    apply (aliveCharacters_member s2 x).
    - rewrite Hmembers2. apply in_or_app. right. left. reflexivity.
    - apply Halive. apply in_or_app. right. left. reflexivity. }
  exists picks.
  cbn [heap playerTeam enemyTeam actionBars battlePhase battleLog teamMembers
       set_selectedAttackObj set_isProcessingTurn set_attackButtonsDisabled
       set_battleLog set_battlePhase].
  unfold teamMembers.
  cbn [heap playerTeam enemyTeam actionBars battlePhase battleLog
       set_selectedAttackObj set_isProcessingTurn set_attackButtonsDisabled
       set_battleLog set_battlePhase].
  rewrite Hh3, Hp3, He3.
  split; [exact Hcont1|]. split; [exact Hcont2|]. split; [exact Hl|].
  split; [exact Hndp|]. split; [exact Hsub|]. split.
  { intros x Hx. rewrite Hold2 by lia. apply Hold0, Hx. }
  split.
  { intros x Hx. apply in_app_iff in Hx. destruct Hx as [Hx|Hx].
    - specialize (Hrange0 x Hx). lia.
    - specialize (Hrange2 x Hx). lia. }
  split; [exact Hzero|]. split; [reflexivity|]. split; [reflexivity|].
  split; [reflexivity|].
  assert (Hwf : well_formed
                  (set_selectedAttackObj
                     (set_isProcessingTurn
                        (set_attackButtonsDisabled
                           (set_battleLog (set_battlePhase s3 battle) []) false) false) None)).
  { constructor; unfold teamKeys, teamMembers;
      cbn [heap playerTeam enemyTeam actionBars upcomingTurns
           set_selectedAttackObj set_isProcessingTurn set_attackButtonsDisabled
           set_battleLog set_battlePhase]; rewrite ?Hh3, ?Hp3, ?He3.
    - rewrite <- (map_map (heap s2) getCharId), map_app, Hcont1, Hcont2.
      apply battle_keys_NoDup; assumption.
    - intros x Hx Hal. exists 0%Q. apply Hbars; [rewrite Hmembers2; exact Hx | exact Hal].
    - intros x Hx. destruct (Hmem x Hx) as (p & c & -> & _).
      pose proof (battleCopy_facts p c) as (_ & _ & _ & _ & _ & Hsp & _). lra.
    - intros x Hx. destruct (Hpl x Hx) as (c & _ & ->). apply battleCopy_facts.
    - intros x Hx. destruct (Hen x Hx) as (c & _ & ->). apply battleCopy_facts.
    - intros x Hx. apply Hturns in Hx. rewrite Hmembers2 in Hx. tauto. }
  constructor.
  - exact Hwf.
  - reflexivity.
  - cbn [heap upcomingTurns set_selectedAttackObj set_isProcessingTurn
         set_attackButtonsDisabled set_battleLog set_battlePhase].
    intros x Hx. rewrite Hh3. apply Hturns, Hx.
  - cbn [upcomingTurns set_selectedAttackObj set_isProcessingTurn
         set_attackButtonsDisabled set_battleLog set_battlePhase].
    apply Hmany, Halive_ne.
  - unfold someAlive.
    cbn [heap playerTeam set_selectedAttackObj set_isProcessingTurn
         set_attackButtonsDisabled set_battleLog set_battlePhase].
    rewrite Hh3, Hp3. apply existsb_exists.
    destruct team as [|x team'] eqn:Et.
    + apply (f_equal (@length _)) in Hcont1. rewrite !length_map in Hcont1.
      destruct roster; [congruence | discriminate].
    + exists x. split; [left; reflexivity|]. apply Halive. left. reflexivity.
  - unfold someAlive.
    cbn [heap enemyTeam set_selectedAttackObj set_isProcessingTurn
         set_attackButtonsDisabled set_battleLog set_battlePhase].
    rewrite Hh3, He3. apply existsb_exists.
    destruct new as [|x new'] eqn:En; [congruence|].
    exists x. split; [left; reflexivity|]. apply Halive. apply in_or_app. right.
    left. reflexivity.
Qed.

Lemma setupBattle_returns (rand : nat -> Q) (characters : list GameCharacter)
      (s : BattleSystem) (roster : list GameCharacter) :
  unit_draws rand ->
  NoDup (map id characters) ->
  (3 <= length (availableFor characters roster))%nat ->
  exists fuel s' r, setupBattle fuel rand characters s roster = Ok s' r.
Proof.
  intros Hrand Hndc Hav.
  destruct (clonePlayers_spec roster s []) as (s0 & team & Hfold & Hal0 & Hp0 & He0).
  cbn [app] in Hfold.
  set (s1 := set_playerTeam s0 team).
  destruct Hal0 as (Hle0 & Hold0 & Hndt & Hrange0 & Hcont0).
  destruct (generateEnemyTeam_distinct rand characters roster s1 Hrand Hndc Hcont0 Hav)
    as (s2 & new & picks & Hgen & Hp2 & He2 & Hl & Hal2 & Hndp & Hsub).
  destruct Hal2 as (Hle2 & Hold2 & Hndn & Hrange2 & Hcont2).
  destruct (createTurnQueue_terminates s2) as (fuel & s3 & H3).
  { intros x Hx. unfold teamMembers in Hx. rewrite Hp2, He2 in Hx.
    change (playerTeam s1) with team in Hx. unfold fit.
    apply in_app_iff in Hx. destruct Hx as [Hx|Hx].
    - assert (Hx' : heap s2 x = heap s0 x)
        by (apply Hold2; specialize (Hrange0 x Hx); change (nextRef s1) with (nextRef s0); lia).
      pose proof (In_map_inv _ _ _ x Hcont0 Hx) as H. change (heap s1) with (heap s0) in H.
      rewrite <- Hx' in H. apply in_map_iff in H. destruct H as (c & Hc & _).
      rewrite <- Hc. pose proof (battleCopy_facts true c) as (_ & _ & _ & _ & _ & Hsp & _).
      lra.
    - pose proof (In_map_inv _ _ _ x Hcont2 Hx) as H.
      apply in_map_iff in H. destruct H as (c & Hc & _).
      rewrite <- Hc. pose proof (battleCopy_facts false c) as (_ & _ & _ & _ & _ & Hsp & _).
      lra. }
  exists fuel. unfold setupBattle. rewrite Hfold. fold s1. rewrite Hgen. cbn [bind].
  rewrite H3. cbn [bind]. eauto.
Qed.

(** X22. [setupBattle] builds a ready battle whenever the game can offer
    three enemies: for a roster that is not empty and has distinct ids, a
    game whose characters have distinct ids and at least three unlocked
    characters outside the roster, and draws in [0, 1), it returns, and
    then the allies are fresh copies of the roster and the enemies fresh
    copies of three unlocked characters with distinct ids that the roster
    does not hold; all are new objects at full health, so the characters of
    the game are untouched; every action bar is 0, the log is empty, the
    phase is 'battle'; and the battle is ready: distinct action-bar keys,
    a bar for everyone and at least twenty planned turns. *)
Theorem setupBattle_ready :
  forall (rand : nat -> Q) (characters : list GameCharacter) (s : BattleSystem)
         (roster : list GameCharacter),
    unit_draws rand ->
    roster <> [] ->
    NoDup (map id roster) ->
    NoDup (map id characters) ->
    (3 <= length (availableFor characters roster))%nat ->
    (exists fuel s' r, setupBattle fuel rand characters s roster = Ok s' r)
    /\ forall fuel s' r,
        setupBattle fuel rand characters s roster = Ok s' r ->
        exists picks,
          map (heap s') (playerTeam s') = map (battleCopy true) roster
          /\ map (heap s') (enemyTeam s') = map (battleCopy false) picks
          /\ length picks = 3%nat
          /\ NoDup (map id picks)
          /\ (forall c, In c picks ->
                In c characters /\ unlocked c = true
                /\ forall p, In p roster -> id p <> id c)
          /\ (forall x, In x (teamMembers s') ->
                (nextRef s <= x)%nat
                /\ hp (stats (heap s' x)) = maxHp (stats (heap s' x))
                /\ isAlive (heap s' x) = true)
          /\ (forall x, (x < nextRef s)%nat -> heap s' x = heap s x)
          /\ (forall k v, actionBars s' !! k = Some v -> v = Fin 0)
          /\ battlePhase s' = battle
          /\ battleLog s' = []
          /\ r = mkSetupResult (playerTeam s') (enemyTeam s') (getCurrentCharacter s')
          /\ battle_ready s'.
Proof.
  intros rand characters s roster Hrand Hne Hndr Hndc Hav.
  split; [exact (setupBattle_returns rand characters s roster Hrand Hndc Hav)|].
  intros fuel s' r Hrun.
  destruct (setupBattle_run fuel rand characters s roster s' r Hrand Hne Hndr Hndc Hav Hrun)
    as (picks & Hpl & Hen & Hl & Hndp & Hsub & Hold & Hnew & Hzero & Hph & Hlog & Hr & Hbr).
  exists picks. do 4 (split; [assumption|]). split.
  { intros c Hc. apply Hsub in Hc. unfold availableFor in Hc. apply filter_In in Hc.
    destruct Hc as [Hc Hp]. apply andb_prop in Hp. destruct Hp as [Hu Hp].
    split; [exact Hc|]. split; [exact Hu|]. intros p Hp' Heq.
    apply negb_true_iff in Hp.
    assert (Hex : existsb (fun p => String.eqb (id p) (id c)) roster = true).
    { apply existsb_exists. exists p. split; [exact Hp'|]. apply String.eqb_eq, Heq. }
    congruence. }
  split.
  { intros x Hx. split; [apply Hnew, Hx|].
    assert (Hc : exists p c, heap s' x = battleCopy p c).
    { unfold teamMembers in Hx. apply in_app_iff in Hx. destruct Hx as [Hx|Hx].
      - pose proof (In_map_inv _ _ _ x Hpl Hx) as H. apply in_map_iff in H.
        destruct H as (c & Hc & _). eauto.
      - pose proof (In_map_inv _ _ _ x Hen Hx) as H. apply in_map_iff in H.
        destruct H as (c & Hc & _). eauto. }
    destruct Hc as (p & c & ->).
    pose proof (battleCopy_facts p c) as (_ & _ & _ & Hal & Hfull & _).
    split; [exact Hfull | exact Hal]. }
  do 5 (split; [assumption|]). exact Hbr.
Qed.

Lemma setupBattle_ready_witness :
  unit_draws Example.rand
  /\ Example.roster <> []
  /\ NoDup (map id Example.roster)
  /\ NoDup (map id Example.characters)
  /\ (3 <= length (availableFor Example.characters Example.roster))%nat
  /\ exists fuel s' r,
       setupBattle fuel Example.rand Example.characters Example.fresh Example.roster
       = Ok s' r.
Proof.
  assert (H2 : Example.roster <> []) by discriminate.
  assert (H3 : NoDup (map id Example.roster))
    by (apply (bool_decide_unpack _); vm_compute; reflexivity).
  assert (H4 : NoDup (map id Example.characters))
    by (apply (bool_decide_unpack _); vm_compute; reflexivity).
  assert (H5 : (3 <= length (availableFor Example.characters Example.roster))%nat)
    by (vm_compute; lia).
  split; [exact example_unit_draws|]. do 4 (split; [assumption|]).
  exact (proj1 (setupBattle_ready Example.rand Example.characters Example.fresh
                  Example.roster example_unit_draws H2 H3 H4 H5)).
Defined.

(** ** From the team screen to the battle *)

Lemma Forall2_ids_map (l l0 : list GameCharacter) :
  Forall2 (fun c c0 => id c = id c0 /\ (unlocked c0 = true -> unlocked c = true)) l l0 ->
  map id l = map id l0
  /\ (length (List.filter unlocked l0) <= length (List.filter unlocked l))%nat.
Proof.
  induction 1 as [|c c0 l l0 [Hid Hu] _ [IH1 IH2]]; [split; [reflexivity|cbn; lia]|].
  cbn [map List.filter]. rewrite Hid, IH1. split; [reflexivity|].
  destruct (unlocked c0); [rewrite (Hu eq_refl); cbn [length]; lia|].
  destruct (unlocked c); cbn [length]; lia.
Qed.

Lemma Forall2_map_l {A B : Type} (P : A -> B -> Prop) (f : A -> A) (l : list A) (l0 : list B) :
  (forall x y, P x y -> P (f x) y) -> Forall2 P l l0 -> Forall2 P (map f l) l0.
Proof.
  intros Hf. induction 1; cbn [map]; constructor; auto.
Qed.

Lemma toggle_selection (g : GameState.BreedingGame) (i : string) :
  NoDup (GameState.selectedBattleTeam g) ->
  (length (GameState.selectedBattleTeam g) <= 3)%nat ->
  GameState.characters (GameState.toggleBattleTeamSelection g i) = GameState.characters g
  /\ NoDup (GameState.selectedBattleTeam (GameState.toggleBattleTeamSelection g i))
  /\ (length (GameState.selectedBattleTeam (GameState.toggleBattleTeamSelection g i)) <= 3)%nat
  /\ forall j, In j (GameState.selectedBattleTeam (GameState.toggleBattleTeamSelection g i)) ->
               j = i \/ In j (GameState.selectedBattleTeam g).
Proof.
  intros Hnd Hlen. unfold GameState.toggleBattleTeamSelection.
  destruct (existsb (String.eqb i) (GameState.selectedBattleTeam g)) eqn:Ein.
  - cbn [GameState.selectedBattleTeam GameState.characters].
    split; [reflexivity|]. split.
    { apply NoDup_ListNoDup, List.NoDup_filter, NoDup_ListNoDup, Hnd. }
    split.
    { pose proof (List.filter_length_le (fun j => negb (String.eqb j i))
                    (GameState.selectedBattleTeam g)). lia. }
    intros j Hj. apply filter_In in Hj. tauto.
  - assert (Hnotin : ~ In i (GameState.selectedBattleTeam g)).
    { intros H. apply existsb_eqb_In in H. congruence. }
    destruct (Nat.ltb (length (GameState.selectedBattleTeam g)) 3) eqn:E3.
    + apply Nat.ltb_lt in E3. cbn [GameState.selectedBattleTeam GameState.characters].
      split; [reflexivity|]. split.
      { apply list.NoDup_app. split; [exact Hnd|]. split; [|apply list.NoDup_singleton].
        intros x Hx Hx'. apply list_elem_of_In in Hx, Hx'. destruct Hx' as [<-|[]].
        contradiction. }
      split; [rewrite length_app; cbn; lia|].
      intros j Hj. apply in_app_iff in Hj. destruct Hj as [Hj|[<-|[]]]; auto.
    + split; [reflexivity|]. split; [exact Hnd|]. split; [exact Hlen|]. auto.
Qed.

Lemma In_take {A : Type} (n : nat) (l : list A) (x : A) : In x (take n l) -> In x l.
Proof.
  revert l. induction n as [|n IH]; intros l; [intros []|].
  destruct l as [|y l]; [trivial|]. cbn [take]. intros [->|H]; [left; reflexivity|].
  right. apply IH, H.
Qed.

Lemma reachable_ok (g : GameState.BreedingGame) : reachable g -> game_ok g.
Proof.
  induction 1 as [|g c Hg IH Hc|g Hg IH|g c Hg IH Hc Hu|g shuffled Hg IH Hperm|g s Hg IH].
  - constructor; [|constructor|cbn; lia|intros i []].
    change (GameState.characters GameState.newGame) with GameState.generateCharacters.
    generalize GameState.generateCharacters as l. induction l; constructor; auto.
  - destruct IH as [H1 H2 H3 H4]. constructor; cbn; try assumption.
    + apply Forall2_map_l; [|exact H1]. intros x y [Hx1 Hx2].
      destruct (String.eqb (id x) (id c)); cbn; auto.
    + intros i Hi. rewrite map_map.
      replace (map _ (GameState.characters g)) with (map id (GameState.characters g));
        [apply H4, Hi|].
      apply map_ext. intros x. destruct (String.eqb (id x) (id c)); reflexivity.
  - destruct IH as [H1 H2 H3 H4]. constructor; cbn; try assumption.
    + apply Forall2_map_l; [|exact H1]. intros x y [Hx1 Hx2].
      destruct (unlocked x) eqn:Ex; cbn; auto.
    + intros i Hi. rewrite map_map.
      replace (map _ (GameState.characters g)) with (map id (GameState.characters g));
        [apply H4, Hi|].
      apply map_ext. intros x. destruct (negb (unlocked x)); reflexivity.
  - destruct IH as [H1 H2 H3 H4].
    destruct (toggle_selection g (id c) H2 H3) as (Hch & Hnd & Hlen & Hsub).
    constructor; try assumption.
    + rewrite Hch. exact H1.
    + intros i Hi. rewrite Hch. destruct (Hsub i Hi) as [->|Hi'].
      * apply in_map, Hc.
      * apply H4, Hi'.
  - destruct IH as [H1 H2 H3 H4]. unfold GameState.selectRandomTeam.
    destruct (Nat.ltb (length (GameState.getUnlockedCharacters g)) 3);
      [constructor; assumption|].
    assert (Hsub : forall x, In x (take 3 shuffled) -> In x (GameState.characters g)).
    { intros x Hx. apply In_take in Hx. apply (Permutation_in _ Hperm) in Hx.
      apply filter_In in Hx. tauto. }
    assert (Hnd : NoDup (map id shuffled)).
    { apply (list.NoDup_Permutation_proper
               (map id (GameState.getUnlockedCharacters g)) (map id shuffled)).
      - symmetry. apply Permutation_map, Hperm.
      - apply NoDup_map_filter_id.
        rewrite (proj1 (Forall2_ids_map _ _ H1)). apply generateCharacters_ids. }
    constructor; cbn; try assumption.
    + rewrite <- (take_drop 3 shuffled), map_app in Hnd.
      apply list.NoDup_app in Hnd. tauto.
    + rewrite length_map, length_take. lia.
    + intros i Hi. apply in_map_iff in Hi. destruct Hi as (x & <- & Hx).
      apply in_map, Hsub, Hx.
  - destruct IH as [H1 H2 H3 H4]. constructor; cbn; try assumption.
    + constructor.
    + lia.
    + intros i [].
Qed.

Lemma filter_without_id (f : GameCharacter -> bool) (i : string) (l : list GameCharacter) :
  NoDup (map id l) ->
  (length (List.filter f l)
   <= S (length (List.filter (fun c => f c && negb (String.eqb i (id c))) l)))%nat.
Proof.
  induction l as [|x l IH]; intros Hnd; [cbn; lia|].
  cbn [map] in Hnd. apply list.NoDup_cons in Hnd. destruct Hnd as [Hx Hnd].
  cbn [List.filter]. destruct (String.eqb i (id x)) eqn:E.
  - apply String.eqb_eq in E. subst i. rewrite andb_false_r.
    assert (Hsame : List.filter (fun c => f c && negb (String.eqb (id x) (id c))) l
                    = List.filter f l).
    { apply filter_ext_in. intros c Hc.
      destruct (String.eqb (id x) (id c)) eqn:Ec; [|apply andb_true_r].
      apply String.eqb_eq in Ec. exfalso. apply Hx. rewrite Ec.
      apply list_elem_of_In, in_map, Hc. }
    rewrite Hsame. destruct (f x); cbn [length]; lia.
  - rewrite andb_true_r. specialize (IH Hnd). destruct (f x); cbn [length]; lia.
Qed.

Lemma availableFor_count (characters roster : list GameCharacter) :
  NoDup (map id characters) ->
  (length (List.filter unlocked characters)
   <= length (availableFor characters roster) + length roster)%nat.
Proof.
  intros Hnd. unfold availableFor. induction roster as [|p roster IH].
  - cbn [existsb negb length].
    rewrite (filter_ext (fun c : GameCharacter => unlocked c && true) unlocked)
      by (intros c; apply andb_true_r). lia.
  - cbn [existsb length].
    pose proof (filter_without_id
                  (fun c => unlocked c
                            && negb (existsb (fun p => String.eqb (id p) (id c)) roster))
                  (id p) characters Hnd) as H.
    rewrite (filter_ext
               (fun c => unlocked c
                         && negb (String.eqb (id p) (id c)
                                  || existsb (fun p => String.eqb (id p) (id c)) roster))
               (fun c => unlocked c
                         && negb (existsb (fun p => String.eqb (id p) (id c)) roster)
                         && negb (String.eqb (id p) (id c)))).
    + lia.
    + intros c. destruct (unlocked c), (String.eqb (id p) (id c)), (existsb _ roster);
        reflexivity.
Qed.

Lemma selectedCharacters_spec (characters : list GameCharacter) (ids : list string) :
  (forall i, In i ids -> In i (map id characters)) ->
  exists roster,
    selectedCharacters characters ids = Some roster
    /\ map id roster = ids
    /\ forall c, In c roster -> In c characters.
Proof.
  induction ids as [|i ids IH]; intros Hknown.
  - exists []. split; [reflexivity|]. split; [reflexivity|]. intros c [].
  - destruct IH as (roster & Hsel & Hids & Hsub).
    { intros j Hj. apply Hknown. right. exact Hj. }
    assert (Hi : exists c, lookup_character characters i = Some c).
    { unfold lookup_character.
      destruct (find (fun c => String.eqb (id c) i) characters) as [c|] eqn:E; [eauto|].
      exfalso. specialize (Hknown i (or_introl eq_refl)).
      apply in_map_iff in Hknown. destruct Hknown as (c & Hc & Hin).
      pose proof (find_none _ _ E c Hin) as Hn. cbn in Hn.
      rewrite Hc, String.eqb_refl in Hn. discriminate. }
    destruct Hi as [c Hc]. exists (c :: roster). cbn [selectedCharacters].
    rewrite Hc, Hsel. unfold lookup_character in Hc. apply find_some in Hc.
    destruct Hc as [Hin Heq]. apply String.eqb_eq in Heq.
    split; [reflexivity|]. split; [cbn [map]; congruence|].
    intros x [<-|Hx]; auto.
Qed.

Lemma setupBattle_no_throw (fuel : nat) (rand : nat -> Q) (characters : list GameCharacter)
      (s : BattleSystem) (roster : list GameCharacter) (s' : BattleSystem) :
  unit_draws rand ->
  NoDup (map id characters) ->
  (3 <= length (availableFor characters roster))%nat ->
  setupBattle fuel rand characters s roster <> TypeError s'.
Proof.
  intros Hrand Hndc Hav.
  destruct (clonePlayers_spec roster s []) as (s0 & team & Hfold & Hal0 & Hp0 & He0).
  cbn [app] in Hfold.
  destruct Hal0 as (Hle0 & Hold0 & Hndt & Hrange0 & Hcont0).
  destruct (generateEnemyTeam_distinct rand characters roster (set_playerTeam s0 team)
              Hrand Hndc Hcont0 Hav)
    as (s2 & new & picks & Hgen & _).
  unfold setupBattle. rewrite Hfold, Hgen. cbn [bind].
  destruct (createTurnQueue fuel s2) as [s3 u|s3|] eqn:E; cbn [bind]; try discriminate.
  exfalso. exact (createTurnQueue_no_throw s2 fuel s3 E).
Qed.

(** X23. Every battle started from the team screen is a ready battle. In
    any game reached from a new game by unlocking characters, toggling
    unlocked characters in the battle team, choosing a random team and
    returning from battles, with three characters selected and draws in
    [0, 1): [startBattle] returns and never throws; the allies carry the
    selected ids in the order of selection; the three enemies have
    distinct ids, none of them a selected one, so the branch that
    duplicates and renames enemies is never taken; and the battle is
    ready (distinct action-bar keys, numeric bars, living characters, a
    plan of at least twenty turns). *)
Theorem startBattle_from_team_screen :
  forall (g : GameState.BreedingGame) (s : BattleSystem) (rand : nat -> Q),
    reachable g ->
    unit_draws rand ->
    length (GameState.selectedBattleTeam g) = 3%nat ->
    (exists fuel s', GameState.startBattleOf fuel rand g s = Ok s' tt)
    /\ (forall fuel s', GameState.startBattleOf fuel rand g s <> TypeError s')
    /\ forall fuel s',
        GameState.startBattleOf fuel rand g s = Ok s' tt ->
        battle_ready s'
        /\ battlePhase s' = battle
        /\ map (fun x => id (heap s' x)) (playerTeam s') = GameState.selectedBattleTeam g
        /\ length (enemyTeam s') = 3%nat
        /\ NoDup (map (fun x => id (heap s' x)) (enemyTeam s'))
        /\ (forall x, In x (enemyTeam s') ->
              ~ In (id (heap s' x)) (GameState.selectedBattleTeam g)
              /\ exists c, In c (GameState.characters g) /\ unlocked c = true
                           /\ id c = id (heap s' x))
        /\ (forall x, In x (teamMembers s') -> isAlive (heap s' x) = true).
Proof.
  intros g s rand Hreach Hrand H3.
  destruct (reachable_ok g Hreach) as [Hids Hnd Hlen Hknown].
  destruct (Forall2_ids_map _ _ Hids) as [Hmap Hunl].
  assert (Hndc : NoDup (map id (GameState.characters g)))
    by (rewrite Hmap; apply generateCharacters_ids).
  destruct (selectedCharacters_spec _ _ Hknown) as (roster & Hsel & Hrid & Hsub).
  assert (Hndr : NoDup (map id roster)) by (rewrite Hrid; exact Hnd).
  assert (Hrl : length roster = 3%nat)
    by (rewrite <- H3, <- Hrid, length_map; reflexivity).
  assert (Hne : roster <> []) by (intros ->; discriminate).
  assert (Hav : (3 <= length (availableFor (GameState.characters g) roster))%nat).
  { pose proof (availableFor_count (GameState.characters g) roster Hndc) as Hc.
    assert (H6 : length (List.filter unlocked GameState.generateCharacters) = 6%nat)
      by reflexivity.
    lia. }
  assert (Hunf : forall fuel,
             GameState.startBattleOf fuel rand g s
             = bind (setupBattle fuel rand (GameState.characters g) s roster)
                    (fun s1 _ => Ok s1 tt)).
  { intros fuel. unfold GameState.startBattleOf, startBattle. rewrite H3, Hsel. reflexivity. }
  split; [|split].
  - destruct (setupBattle_returns rand (GameState.characters g) s roster Hrand Hndc Hav)
      as (fuel & s' & r & H).
    exists fuel, s'. rewrite Hunf, H. reflexivity.
  - intros fuel s'. rewrite Hunf.
    destruct (setupBattle fuel rand (GameState.characters g) s roster) as [s1 r|s1|] eqn:E;
      cbn [bind]; try discriminate.
    exfalso.
    exact (setupBattle_no_throw fuel rand _ s roster s1 Hrand Hndc Hav E).
  - intros fuel s'. rewrite Hunf.
    destruct (setupBattle fuel rand (GameState.characters g) s roster) as [s1 r| |] eqn:E;
      cbn [bind]; try discriminate.
    intros [= <-].
    destruct (setupBattle_run fuel rand _ s roster s1 r Hrand Hne Hndr Hndc Hav E)
      as (picks & Hpl & Hen & Hl & Hndp & Hpsub & _ & _ & _ & Hph & _ & _ & Hbr).
    assert (Hpid : forall (p : bool) l, map (fun x => id (heap s1 x)) l
                                        = map id (map (heap s1) l))
      by (intros _ l; rewrite map_map; reflexivity).
    assert (Hcid : forall p l, map id (map (battleCopy p) l) = map id l).
    { intros p l. rewrite map_map. apply map_ext. intros c. apply battleCopy_facts. }
    split; [exact Hbr|]. split; [exact Hph|]. split.
    { rewrite (Hpid true), Hpl, Hcid. exact Hrid. }
    split.
    { apply (f_equal (@length _)) in Hen. rewrite !length_map in Hen. lia. }
    split.
    { rewrite (Hpid false), Hen, Hcid. exact Hndp. }
    split.
    { intros x Hx. pose proof (In_map_inv _ _ _ x Hen Hx) as H.
      apply in_map_iff in H. destruct H as (c & Hc & Hcin). rewrite <- Hc.
      replace (id (battleCopy false c)) with (id c) by (symmetry; apply battleCopy_facts).
      apply Hpsub in Hcin. unfold availableFor in Hcin. apply filter_In in Hcin.
      destruct Hcin as [Hcin Hp]. apply andb_prop in Hp. destruct Hp as [Hu Hp].
      split; [|exists c; auto].
      intros Hsel'. rewrite <- Hrid in Hsel'. apply in_map_iff in Hsel'.
      destruct Hsel' as (p & Hp1 & Hp2). apply negb_true_iff in Hp.
      assert (Hex : existsb (fun p => String.eqb (id p) (id c)) roster = true).
      { apply existsb_exists. exists p. split; [exact Hp2|]. apply String.eqb_eq, Hp1. }
      congruence. }
    intros x Hx. apply in_app_iff in Hx. destruct Hx as [Hx|Hx].
    + pose proof (In_map_inv _ _ _ x Hpl Hx) as H. apply in_map_iff in H.
      destruct H as (c & Hc & _). rewrite <- Hc. apply battleCopy_facts.
    + pose proof (In_map_inv _ _ _ x Hen Hx) as H. apply in_map_iff in H.
      destruct H as (c & Hc & _). rewrite <- Hc. apply battleCopy_facts.
Qed.

Lemma chosenGame_reachable : reachable chosenGame.
Proof.
  unfold chosenGame.
  apply (reach_toggle _ (new_GameCharacter "Purple" [Purple] true));
    [|vm_compute; do 5 right; left; reflexivity | reflexivity].
  apply (reach_toggle _ (new_GameCharacter "Blue" [Blue] true));
    [|vm_compute; do 4 right; left; reflexivity | reflexivity].
  apply (reach_toggle _ (new_GameCharacter "Red" [Red] true));
    [|vm_compute; left; reflexivity | reflexivity].
  apply reach_new.
Qed.

Lemma startBattle_from_team_screen_witness :
  reachable chosenGame
  /\ unit_draws Example.rand
  /\ length (GameState.selectedBattleTeam chosenGame) = 3%nat
  /\ exists fuel s',
       GameState.startBattleOf fuel Example.rand chosenGame Example.fresh = Ok s' tt.
Proof.
  assert (H3 : length (GameState.selectedBattleTeam chosenGame) = 3%nat) by reflexivity.
  split; [exact chosenGame_reachable|]. split; [exact example_unit_draws|].
  split; [exact H3|].
  exact (proj1 (startBattle_from_team_screen chosenGame Example.fresh Example.rand
                  chosenGame_reachable example_unit_draws H3)).
Defined.


(** ** The plan and the battle *)

(** *** States the scheduler cannot tell apart *)

Section Alike.

Variables s s' : BattleSystem.
Hypothesis Halike : alike s s'.

Lemma alike_key (r : ref) : getCharId (heap s' r) = getCharId (heap s r).
Proof. apply Halike. Qed.

Lemma alike_speed (r : ref) : speed (stats (heap s' r)) = speed (stats (heap s r)).
Proof. apply Halike. Qed.

Lemma alike_side (r : ref) : isPlayer (heap s' r) = isPlayer (heap s r).
Proof. apply Halike. Qed.

Lemma compareReady_alike (sim : gmap string jsnum) (a b : ref) :
  compareReady s' sim a b = compareReady s sim a b.
Proof.
  destruct Halike as (Hp & He & _). unfold compareReady. cbv zeta.
  rewrite !alike_key, !alike_speed, !alike_side, Hp, He. reflexivity.
Qed.

Lemma sort_alike (sim : gmap string jsnum) (l : list ref) :
  sort (compareReady s' sim) l = sort (compareReady s sim) l.
Proof.
  assert (Hins : forall x l, insert_sorted (compareReady s' sim) x l
                             = insert_sorted (compareReady s sim) x l).
  { intros x l0. induction l0 as [|y l0 IH]; [reflexivity|]. cbn [insert_sorted].
    unfold before. rewrite compareReady_alike, IH. reflexivity. }
  induction l as [|x l IH]; [reflexivity|]. cbn [sort]. rewrite IH. apply Hins.
Qed.

Lemma fill_bars_alike (chars : list ref) :
  forall sim, fill_bars s' chars sim = fill_bars s chars sim.
Proof.
  unfold fill_bars. induction chars as [|r chars IH]; intros sim; [reflexivity|].
  cbn [fold_left]. unfold fill_bar at 2 4. rewrite alike_key, alike_speed. apply IH.
Qed.

Lemma isReady_alike (sim : gmap string jsnum) (r : ref) :
  isReady s' sim r = isReady s sim r.
Proof. unfold isReady. rewrite alike_key. reflexivity. Qed.

Lemma consume_bars_alike (ready : list ref) :
  forall sim, consume_bars s' ready sim = consume_bars s ready sim.
Proof.
  unfold consume_bars. induction ready as [|r ready IH]; intros sim; [reflexivity|].
  cbn [fold_left]. unfold consume_bar at 2 4. cbv zeta. rewrite alike_key. apply IH.
Qed.

Lemma tick_alike (chars : list ref) (sim : gmap string jsnum) (turns : list ref) :
  tick s' chars sim turns = tick s chars sim turns.
Proof.
  unfold tick. cbv zeta. rewrite fill_bars_alike.
  rewrite (filter_ext (isReady s' (fill_bars s chars sim)) (isReady s (fill_bars s chars sim)))
    by (intros r; apply isReady_alike).
  rewrite sort_alike, consume_bars_alike. reflexivity.
Qed.

Lemma simulate_alike (fuel : nat) :
  forall (chars : list ref) (n : nat) (sim : gmap string jsnum) (turns : list ref),
    simulate fuel s' chars n sim turns = simulate fuel s chars n sim turns.
Proof.
  induction fuel as [|fuel IH]; intros chars n sim turns; [reflexivity|].
  cbn [simulate]. rewrite tick_alike.
  destruct (tick s chars sim turns) as [sim1 turns1]. rewrite IH. reflexivity.
Qed.

End Alike.

Lemma alike_refl_fields (s s' : BattleSystem) :
  heap s' = heap s -> playerTeam s' = playerTeam s -> enemyTeam s' = enemyTeam s ->
  alike s s'.
Proof. intros Hh Hp He. split; [exact Hp|]. split; [exact He|]. rewrite Hh. auto. Qed.

(** *** The first turn of a plan *)

Section FirstTurn.

Variable s : BattleSystem.
Hypothesis Hwf : well_formed s.

Variables chars chars' : list ref.
Hypothesis Hmem : forall r, In r chars -> In r (teamMembers s).
Hypothesis Hsub : forall r, In r chars' -> In r chars.
Hypothesis Hnd : List.NoDup (map (fun r => getCharId (heap s r)) chars).
Hypothesis Hnd' : List.NoDup (map (fun r => getCharId (heap s r)) chars').

(** Simulated bars that agree on the characters of the smaller list. *)
Local Abbreviation agree sim sim' :=
  (forall r, In r chars' -> sim' !! getCharId (heap s r) = sim !! getCharId (heap s r)).

Lemma fill_bars_agree (sim sim' : gmap string jsnum) :
  agree sim sim' -> agree (fill_bars s chars sim) (fill_bars s chars' sim').
Proof.
  intros Hag r Hr.
  rewrite (fill_bars_member s chars' sim' r Hnd' Hr).
  rewrite (fill_bars_member s chars sim r Hnd (Hsub r Hr)).
  rewrite (Hag r Hr). reflexivity.
Qed.

Lemma isReady_agree (sim sim' : gmap string jsnum) (r : ref) :
  agree sim sim' -> In r chars' -> isReady s sim' r = isReady s sim r.
Proof. intros Hag Hr. unfold isReady. rewrite (Hag r Hr). reflexivity. Qed.

Lemma sorted_head_least (sim : gmap string jsnum) (l : list ref) (c x : ref) (t : list ref) :
  (forall r, In r l -> In r (teamMembers s)) ->
  sort (compareReady s sim) (List.filter (isReady s sim) l) = c :: t ->
  In x (List.filter (isReady s sim) l) ->
  x = c \/ before (compareReady s sim) c x = true.
Proof.
  intros Hl Hsort Hx.
  pose proof (ready_sorted s sim l Hwf Hl) as Hss. rewrite Hsort in Hss.
  apply (sort_In (compareReady s sim)) in Hx. rewrite Hsort in Hx.
  destruct Hx as [<-|Hx]; [left; reflexivity|]. right.
  inversion Hss as [|? ? _ Hall]; subst. rewrite Forall_forall in Hall.
  apply Hall, Hx.
Qed.

Lemma first_turn_stable (fuel : nat) :
  forall (fuel' : nat) (sim sim' : gmap string jsnum) (n n' : nat) (c : ref)
         (rest res' : list ref),
    agree sim sim' ->
    (0 < n')%nat ->
    simulate fuel s chars n sim [] = Some (c :: rest) ->
    In c chars' ->
    simulate fuel' s chars' n' sim' [] = Some res' ->
    exists rest', res' = c :: rest'.
Proof.
  induction fuel as [|fuel IH]; intros fuel' sim sim' n n' c rest res' Hag Hn' Hsim Hc Hsim'.
  - cbn [simulate length] in Hsim. destruct (Nat.ltb 0 n); discriminate.
  - destruct n as [|n]; [cbn in Hsim; discriminate|].
    rewrite simulate_step in Hsim by (cbn; lia).
    destruct fuel' as [|fuel'].
    { cbn [simulate length] in Hsim'.
      replace (Nat.ltb 0 n') with true in Hsim' by (symmetry; apply Nat.ltb_lt; exact Hn').
      discriminate. }
    rewrite simulate_step in Hsim' by (cbn; lia).
    pose proof (fill_bars_agree sim sim' Hag) as Hag1.
    set (sim1 := fill_bars s chars sim) in *.
    set (sim1' := fill_bars s chars' sim') in *.
    pose proof (tick_turns s chars sim []) as Ht. fold sim1 in Ht. cbn [app] in Ht.
    pose proof (tick_turns s chars' sim' []) as Ht'. fold sim1' in Ht'. cbn [app] in Ht'.
    destruct (List.filter (isReady s sim1) chars) as [|x xs] eqn:Eready.
    + (* nobody is ready in this tick *)
      assert (Eready' : List.filter (isReady s sim1') chars' = []).
      { destruct (List.filter (isReady s sim1') chars') as [|y ys] eqn:E; [reflexivity|].
        exfalso.
        assert (Hy : In y (List.filter (isReady s sim1') chars')) by (rewrite E; left; reflexivity).
        apply filter_In in Hy. destruct Hy as [Hy1 Hy2].
        rewrite (isReady_agree sim1 sim1' y Hag1 Hy1) in Hy2.
        assert (Hin : In y (List.filter (isReady s sim1) chars))
          by (apply filter_In; split; [apply Hsub, Hy1 | exact Hy2]).
        rewrite Eready in Hin. destruct Hin. }
      assert (Etick : tick s chars sim [] = (sim1, [])).
      { unfold tick. cbv zeta. fold sim1. rewrite Eready. reflexivity. }
      assert (Etick' : tick s chars' sim' [] = (sim1', [])).
      { unfold tick. cbv zeta. fold sim1'. rewrite Eready'. reflexivity. }
      rewrite Etick in Hsim. rewrite Etick' in Hsim'. cbn [fst snd] in Hsim, Hsim'.
      exact (IH fuel' sim1 sim1' (S n) n' c rest res' Hag1 Hn' Hsim Hc Hsim').
    + (* somebody is ready: the first turn is decided here *)
      rewrite <- Eready in Ht.
      apply simulate_result in Hsim. destruct Hsim as (new & Hres & _).
      apply simulate_result in Hsim'. destruct Hsim' as (new' & Hres' & _).
      rewrite Ht in Hres. rewrite Ht' in Hres'.
      destruct (sort (compareReady s sim1) (List.filter (isReady s sim1) chars))
        as [|h t] eqn:Esort.
      { apply (f_equal (@length _)) in Esort. rewrite sort_length, Eready in Esort.
        discriminate. }
      cbn [app] in Hres. injection Hres as <- _.
      assert (Hcready : In c (List.filter (isReady s sim1) chars)).
      { apply (sort_In (compareReady s sim1)). rewrite Esort. left. reflexivity. }
      assert (Hcready' : In c (List.filter (isReady s sim1') chars')).
      { apply filter_In. split; [exact Hc|].
        rewrite (isReady_agree sim1 sim1' c Hag1 Hc). apply filter_In in Hcready. tauto. }
      destruct (sort (compareReady s sim1') (List.filter (isReady s sim1') chars'))
        as [|h' t'] eqn:Esort'.
      { apply (f_equal (@length _)) in Esort'. rewrite sort_length in Esort'.
        destruct (List.filter (isReady s sim1') chars'); [destruct Hcready'|discriminate]. }
      cbn [app] in Hres'. exists (t' ++ new'). rewrite Hres'. f_equal.
      assert (Hh'ready' : In h' (List.filter (isReady s sim1') chars')).
      { apply (sort_In (compareReady s sim1')). rewrite Esort'. left. reflexivity. }
      assert (Hh'ready : In h' (List.filter (isReady s sim1) chars)).
      { apply filter_In in Hh'ready'. destruct Hh'ready' as [H1 H2].
        apply filter_In. split; [apply Hsub, H1|].
        rewrite <- (isReady_agree sim1 sim1' h' Hag1 H1). exact H2. }
      assert (Hmem' : forall r, In r chars' -> In r (teamMembers s))
        by (intros r Hr; apply Hmem, Hsub, Hr).
      destruct (sorted_head_least sim1 chars c h' t Hmem Esort Hh'ready) as [Heq|Hb1];
        [exact Heq|].
      destruct (sorted_head_least sim1' chars' h' c t' Hmem' Esort' Hcready') as [Heq|Hb2];
        [symmetry; exact Heq|].
      destruct (ready_bar s sim1 chars Hwf Hmem c Hcready) as (Hcm & (bc & Hbc) & _).
      destruct (ready_bar s sim1 chars Hwf Hmem h' Hh'ready) as (Hhm & (bh & Hbh) & _).
      apply (ready_before_lexle s sim1 chars Hwf Hmem c h' bc bh Hcready Hh'ready Hbc Hbh)
        in Hb1.
      assert (Hbc' : sim1' !! getCharId (heap s c) = Some (Fin bc))
        by (rewrite (Hag1 c Hc); exact Hbc).
      assert (Hbh' : sim1' !! getCharId (heap s h') = Some (Fin bh)).
      { apply filter_In in Hh'ready'. rewrite (Hag1 h' (proj1 Hh'ready')). exact Hbh. }
      apply (ready_before_lexle s sim1' chars' Hwf Hmem' h' c bh bc Hh'ready' Hcready'
               Hbh' Hbc') in Hb2.
      symmetry. exact (lexle_antisym s Hwf c h' bc bh Hcm Hhm Hb1 Hb2).
Qed.

End FirstTurn.

(** *** Bars that hold the same numbers *)

Lemma bar_equiv_refl (v : option jsnum) : bar_equiv v v.
Proof. destruct v as [[a|]|]; cbn; [reflexivity|exact I|exact I]. Qed.

Lemma bar_equiv_sym (v w : option jsnum) : bar_equiv v w -> bar_equiv w v.
Proof. destruct v as [[a|]|], w as [[b|]|]; cbn; auto. intros H. symmetry. exact H. Qed.

Lemma bar_equiv_trans (u v w : option jsnum) :
  bar_equiv u v -> bar_equiv v w -> bar_equiv u w.
Proof.
  destruct u as [[a|]|], v as [[b|]|], w as [[c|]|]; cbn; auto; try contradiction.
  intros H1 H2. rewrite H1. exact H2.
Qed.

Lemma bars_equiv_refl (sim : gmap string jsnum) : bars_equiv sim sim.
Proof. intros k. apply bar_equiv_refl. Qed.

Lemma bar_equiv_jsadd (v w : option jsnum) (x : Q) :
  bar_equiv v w -> bar_equiv ((fun u => jsadd u x) <$> v) ((fun u => jsadd u x) <$> w).
Proof.
  destruct v as [[a|]|], w as [[b|]|]; cbn; auto. intros H. rewrite H. reflexivity.
Qed.

Lemma bar_equiv_jssub (v w : option jsnum) (x : Q) :
  bar_equiv v w -> bar_equiv (Some (jssub v x)) (Some (jssub w x)).
Proof.
  destruct v as [[a|]|], w as [[b|]|]; cbn; auto; try contradiction.
  intros H. rewrite H. reflexivity.
Qed.

Section Equiv.

Variable s : BattleSystem.

Lemma fill_bars_equiv (chars : list ref) :
  forall sim sim', bars_equiv sim sim' ->
                   bars_equiv (fill_bars s chars sim) (fill_bars s chars sim').
Proof.
  unfold fill_bars. induction chars as [|r chars IH]; intros sim sim' H; [exact H|].
  cbn [fold_left]. apply IH. intros k. unfold fill_bar.
  destruct (decide (getCharId (heap s r) = k)) as [<-|Hne].
  - rewrite !lookup_alter_eq. apply bar_equiv_jsadd, H.
  - rewrite !lookup_alter_ne by exact Hne. apply H.
Qed.

Lemma consume_bars_equiv (ready : list ref) :
  forall sim sim', bars_equiv sim sim' ->
                   bars_equiv (consume_bars s ready sim) (consume_bars s ready sim').
Proof.
  unfold consume_bars. induction ready as [|r ready IH]; intros sim sim' H; [exact H|].
  cbn [fold_left]. apply IH. intros k. unfold consume_bar. cbv zeta.
  destruct (decide (getCharId (heap s r) = k)) as [<-|Hne].
  - rewrite !lookup_insert_eq. apply bar_equiv_jssub, H.
  - rewrite !lookup_insert_ne by exact Hne. apply H.
Qed.

Lemma isReady_equiv (sim sim' : gmap string jsnum) (r : ref) :
  bar_equiv (sim !! getCharId (heap s r)) (sim' !! getCharId (heap s r)) ->
  isReady s sim r = isReady s sim' r.
Proof.
  unfold isReady.
  destruct (sim !! getCharId (heap s r)) as [[a|]|],
           (sim' !! getCharId (heap s r)) as [[b|]|]; cbn; try contradiction; auto.
  intros H.
  destruct (Qle_bool ACTION_THRESHOLD a) eqn:Ea, (Qle_bool ACTION_THRESHOLD b) eqn:Eb;
    try reflexivity.
  - apply Qle_bool_iff in Ea. apply Qle_bool_false_iff in Eb. lra.
  - apply Qle_bool_iff in Eb. apply Qle_bool_false_iff in Ea. lra.
Qed.

Lemma Qeq_bool_equiv (a a' b b' : Q) :
  (a == a')%Q -> (b == b')%Q -> Qeq_bool a b = Qeq_bool a' b'.
Proof.
  intros Ha Hb.
  destruct (Qeq_bool a b) eqn:E, (Qeq_bool a' b') eqn:E'; try reflexivity.
  - apply Qeq_bool_iff in E. apply Qeq_bool_false_iff in E'. exfalso. apply E'. lra.
  - apply Qeq_bool_iff in E'. apply Qeq_bool_false_iff in E. exfalso. apply E. lra.
Qed.

Lemma Qle_bool_equiv (a a' b b' : Q) :
  (a == a')%Q -> (b == b')%Q -> Qle_bool a b = Qle_bool a' b'.
Proof.
  intros Ha Hb.
  destruct (Qle_bool a b) eqn:E, (Qle_bool a' b') eqn:E'; try reflexivity.
  - apply Qle_bool_iff in E. apply Qle_bool_false_iff in E'. lra.
  - apply Qle_bool_iff in E'. apply Qle_bool_false_iff in E. lra.
Qed.

Lemma before_equiv (sim sim' : gmap string jsnum) (a b : ref) :
  bar_equiv (sim !! getCharId (heap s a)) (sim' !! getCharId (heap s a)) ->
  bar_equiv (sim !! getCharId (heap s b)) (sim' !! getCharId (heap s b)) ->
  before (compareReady s sim) a b = before (compareReady s sim') a b.
Proof.
  intros Ha Hb. unfold before, compareReady. cbv zeta.
  destruct (sim !! getCharId (heap s a)) as [[x|]|],
           (sim' !! getCharId (heap s a)) as [[x'|]|]; cbn in Ha; try contradiction;
  destruct (sim !! getCharId (heap s b)) as [[y|]|],
           (sim' !! getCharId (heap s b)) as [[y'|]|]; cbn in Hb; try contradiction;
  cbn [bar_neq bar_diff]; try reflexivity.
  rewrite (Qeq_bool_equiv x x' y y' Ha Hb).
  destruct (negb (Qeq_bool x' y')); [|reflexivity].
  apply Qle_bool_equiv; [rewrite Ha, Hb|]; reflexivity.
Qed.

Lemma sort_before_ext (cmp cmp' : ref -> ref -> jsnum) (l : list ref) :
  (forall a b, In a l -> In b l -> before cmp a b = before cmp' a b) ->
  sort cmp l = sort cmp' l.
Proof.
  induction l as [|x l IH]; intros H; [reflexivity|]. cbn [sort].
  rewrite IH by (intros a b Ha Hb; apply H; right; assumption).
  assert (Hins : forall l0, (forall y, In y l0 -> In y l) ->
                            insert_sorted cmp x l0 = insert_sorted cmp' x l0).
  { induction l0 as [|y l0 IH0]; intros Hl0; [reflexivity|]. cbn [insert_sorted].
    rewrite (H x y) by (cbn; auto using Hl0, in_eq).
    rewrite IH0 by (intros z Hz; apply Hl0; right; exact Hz). reflexivity. }
  apply Hins. intros y Hy. apply (sort_In cmp' l y). exact Hy.
Qed.

Lemma tick_equiv (chars : list ref) (sim sim' : gmap string jsnum) (turns turns' : list ref) :
  bars_equiv sim sim' ->
  bars_equiv (fst (tick s chars sim turns)) (fst (tick s chars sim' turns'))
  /\ exists new,
      snd (tick s chars sim turns) = turns ++ new
      /\ snd (tick s chars sim' turns') = turns' ++ new.
Proof.
  intros H. pose proof (fill_bars_equiv chars sim sim' H) as H1.
  rewrite !tick_turns.
  set (sim1 := fill_bars s chars sim) in *. set (sim1' := fill_bars s chars sim') in *.
  assert (Hready : List.filter (isReady s sim1) chars = List.filter (isReady s sim1') chars).
  { apply filter_ext. intros r. apply isReady_equiv, H1. }
  assert (Hsort : sort (compareReady s sim1) (List.filter (isReady s sim1) chars)
                  = sort (compareReady s sim1') (List.filter (isReady s sim1) chars)).
  { apply sort_before_ext. intros a b _ _. apply before_equiv; apply H1. }
  rewrite <- Hready, <- Hsort.
  split; [|eexists; split; reflexivity].
  unfold tick. cbv zeta. fold sim1 sim1'. rewrite <- Hready, <- Hsort.
  destruct (Nat.ltb 0 (length (List.filter (isReady s sim1) chars))); cbn [fst]; [|exact H1].
  apply consume_bars_equiv, H1.
Qed.

End Equiv.

(** *** A plan read from its second turn *)

Section PlanShift.

Variable s : BattleSystem.
Variable chars : list ref.

Lemma simulate_prefix (fuel : nat) :
  forall (fuel' n n' : nat) (sim : gmap string jsnum) (turns r r' : list ref),
    (n <= n')%nat ->
    simulate fuel s chars n sim turns = Some r ->
    simulate fuel' s chars n' sim turns = Some r' ->
    exists more, r' = r ++ more.
Proof.
  induction fuel as [|fuel IH]; intros fuel' n n' sim turns r r' Hle Hr Hr'.
  - cbn [simulate] in Hr. destruct (Nat.ltb (length turns) n) eqn:E; [discriminate|].
    inversion Hr; subst r.
    destruct (simulate_result s fuel' chars n' sim turns r' Hr') as (new & -> & _).
    exists new. reflexivity.
  - destruct (Nat.ltb_spec (length turns) n) as [Hlt|Hge].
    + rewrite simulate_step in Hr by exact Hlt.
      destruct fuel' as [|fuel'].
      { cbn [simulate] in Hr'.
        destruct (Nat.ltb_spec (length turns) n'); [discriminate|lia]. }
      rewrite simulate_step in Hr' by lia.
      exact (IH fuel' n n' _ _ r r' Hle Hr Hr').
    + rewrite simulate_done in Hr by exact Hge. inversion Hr; subst r.
      destruct (simulate_result s fuel' chars n' sim turns r' Hr') as (new & -> & _).
      exists new. reflexivity.
Qed.

Lemma simulate_shift (fuel : nat) :
  forall (n : nat) (sim sim' : gmap string jsnum) (c : ref) (turns final : list ref),
    bars_equiv sim sim' ->
    simulate fuel s chars n sim (c :: turns) = Some final ->
    exists rest,
      final = c :: rest
      /\ simulate fuel s chars (length rest) sim' turns = Some rest.
Proof.
  induction fuel as [|fuel IH]; intros n sim sim' c turns final Heq Hsim.
  - cbn [simulate] in Hsim.
    destruct (Nat.ltb (length (c :: turns)) n); [discriminate|].
    inversion Hsim; subst final. exists turns. split; [reflexivity|].
    apply simulate_done. lia.
  - destruct (Nat.ltb_spec (length (c :: turns)) n) as [Hlt|Hge].
    + rewrite simulate_step in Hsim by exact Hlt.
      destruct (tick_equiv s chars sim sim' (c :: turns) turns Heq) as (Heq1 & new & E1 & E2).
      rewrite E1 in Hsim. cbn [app] in Hsim.
      destruct (IH n _ _ c (turns ++ new) final Heq1 Hsim) as (rest & -> & Hrest).
      exists rest. split; [reflexivity|].
      destruct (simulate_result s fuel chars (length rest) _ (turns ++ new) rest Hrest)
        as (more & Emore & _).
      destruct (Nat.ltb_spec (length turns) (length rest)) as [Hl|Hl].
      * rewrite simulate_step by exact Hl. rewrite E2. exact Hrest.
      * assert (Hnil : new ++ more = []).
        { apply length_zero_iff_nil.
          apply (f_equal (@length ref)) in Emore.
          rewrite <- app_assoc, !length_app in Emore. rewrite length_app. lia. }
        apply app_eq_nil in Hnil as [-> ->].
        rewrite !app_nil_r in Emore. subst rest. apply simulate_done. lia.
    + rewrite simulate_done in Hsim by exact Hge. inversion Hsim; subst final.
      exists turns. split; [reflexivity|]. apply simulate_done. lia.
Qed.

End PlanShift.

(** *** The plan after the first turn is taken *)

Lemma sorted_unique (R : ref -> ref -> Prop) (l1 : list ref) :
  forall l2,
    Permutation l1 l2 ->
    StronglySorted R l1 -> StronglySorted R l2 ->
    (forall a b, In a l1 -> In b l1 -> R a b -> R b a -> a = b) ->
    l1 = l2.
Proof.
  induction l1 as [|x l1 IH]; intros l2 Hp H1 H2 Hanti.
  - apply Permutation_nil in Hp. symmetry. exact Hp.
  - destruct l2 as [|y l2].
    { apply Permutation_sym, Permutation_nil in Hp. discriminate. }
    inversion H1 as [|? ? H1' Hall1]; subst. inversion H2 as [|? ? H2' Hall2]; subst.
    rewrite Forall_forall in Hall1, Hall2.
    assert (Exy : x = y).
    { assert (Hx : In x (y :: l2)) by (eapply Permutation_in; [exact Hp|left; reflexivity]).
      assert (Hy : In y (x :: l1))
        by (eapply Permutation_in; [symmetry; exact Hp|left; reflexivity]).
      destruct Hx as [Hx|Hx]; [symmetry; exact Hx|].
      destruct Hy as [Hy|Hy]; [exact Hy|].
      apply Hanti; [left; reflexivity|right; exact Hy|apply Hall1, Hy|apply Hall2, Hx]. }
    subst y. f_equal. apply IH; try assumption.
    + eapply Permutation_cons_inv. exact Hp.
    + intros a b Ha Hb. apply Hanti; right; assumption.
Qed.

Lemma StronglySorted_ext_in (R R' : ref -> ref -> Prop) (l : list ref) :
  (forall a b, In a l -> In b l -> R a b -> R' a b) ->
  StronglySorted R l -> StronglySorted R' l.
Proof.
  induction l as [|x l IH]; intros Hext Hs; [constructor|].
  inversion Hs as [|? ? Hs' Hall]; subst. constructor.
  - apply IH; [|exact Hs']. intros a b Ha Hb. apply Hext; right; assumption.
  - rewrite Forall_forall in Hall |- *. intros y Hy.
    apply Hext; [left; reflexivity|right; exact Hy|apply Hall, Hy].
Qed.

Lemma Permutation_filter_ref (f : ref -> bool) (l l' : list ref) :
  Permutation l l' -> Permutation (List.filter f l) (List.filter f l').
Proof.
  induction 1 as [|x l l' _ IH|x y l|l l' l'' _ IH1 _ IH2]; cbn [List.filter].
  - constructor.
  - destruct (f x); [constructor|]; exact IH.
  - destruct (f x), (f y); try reflexivity. constructor.
  - etransitivity; eassumption.
Qed.

Lemma filter_all_ref (f : ref -> bool) (l : list ref) :
  (forall x, In x l -> f x = true) -> List.filter f l = l.
Proof.
  induction l as [|x l IH]; intros H; [reflexivity|]. cbn [List.filter].
  rewrite (H x) by (left; reflexivity). f_equal. apply IH.
  intros y Hy. apply H. right. exact Hy.
Qed.

Lemma keys_inj (s : BattleSystem) (l : list ref) (a b : ref) :
  List.NoDup (map (fun r => getCharId (heap s r)) l) ->
  In a l -> In b l -> getCharId (heap s a) = getCharId (heap s b) -> a = b.
Proof.
  induction l as [|x l IH]; intros Hnd Ha Hb E; [destruct Ha|].
  inversion Hnd as [|? ? Hnotin Hnd']; subst.
  destruct Ha as [->|Ha], Hb as [->|Hb].
  - reflexivity.
  - exfalso. apply Hnotin. rewrite E.
    apply (in_map (fun r => getCharId (heap s r))), Hb.
  - exfalso. apply Hnotin. rewrite <- E.
    apply (in_map (fun r => getCharId (heap s r))), Ha.
  - apply IH; assumption.
Qed.

Lemma filter_without (f g : ref -> bool) (c : ref) (l : list ref) :
  g c = false ->
  (forall r, In r l -> r <> c -> g r = f r) ->
  List.filter g l = List.filter (fun r => negb (Nat.eqb r c)) (List.filter f l).
Proof.
  intros Hc. induction l as [|r l IH]; intros Hsub; [reflexivity|]. cbn [List.filter].
  assert (IH' := IH (fun x Hx => Hsub x (or_intror Hx))).
  destruct (Nat.eqb_spec r c) as [->|Hne].
  - rewrite Hc. destruct (f c); cbn [List.filter]; [|exact IH'].
    rewrite Nat.eqb_refl. exact IH'.
  - rewrite (Hsub r (or_introl eq_refl) Hne).
    destruct (f r); cbn [List.filter]; [|exact IH'].
    destruct (Nat.eqb_spec r c) as [|_]; [contradiction|]. cbn [negb]. f_equal. exact IH'.
Qed.

Section PlanTail.

Variable s : BattleSystem.
Hypothesis Hwf : well_formed s.

Variable chars : list ref.
Hypothesis Hmem : forall r, In r chars -> In r (teamMembers s).
Hypothesis Hnd : List.NoDup (map (fun r => getCharId (heap s r)) chars).
Hypothesis Hspeed : forall r, In r chars -> (speed (stats (heap s r)) <= ACTION_THRESHOLD)%Q.

Variable c : ref.
Hypothesis Hc : In c chars.

Local Abbreviation key r := (getCharId (heap s r)).
Local Abbreviation spd r := (speed (stats (heap s r))).

Local Abbreviation behind := (behind s c).

Lemma key_inj (a b : ref) : In a chars -> In b chars -> key a = key b -> a = b.
Proof. exact (keys_inj s chars a b Hnd). Qed.

Lemma behind_other (b : Q) (sim simA : gmap string jsnum) (k : string) :
  behind b sim simA -> k <> key c -> bar_equiv (simA !! k) (sim !! k).
Proof.
  intros (_ & bA & _ & He) Hk. specialize (He k).
  rewrite lookup_insert_ne in He by (intros E; apply Hk; symmetry; exact E). exact He.
Qed.

Lemma behind_own (b : Q) (sim simA : gmap string jsnum) :
  behind b sim simA ->
  exists x, simA !! key c = Some (Fin x) /\ (x == b - ACTION_THRESHOLD)%Q.
Proof.
  intros (_ & bA & HbA & He). specialize (He (key c)).
  rewrite lookup_insert_eq in He.
  destruct (simA !! key c) as [[x|]|]; cbn in He; try contradiction.
  exists x. split; [reflexivity|]. rewrite He. exact HbA.
Qed.

Lemma behind_intro (b : Q) (sim simA : gmap string jsnum) (x : Q) :
  sim !! key c = Some (Fin b) ->
  simA !! key c = Some (Fin x) -> (x == b - ACTION_THRESHOLD)%Q ->
  (forall k, k <> key c -> bar_equiv (simA !! k) (sim !! k)) ->
  behind b sim simA.
Proof.
  intros Hb Hx Hxb Hother. split; [exact Hb|]. exists x. split; [exact Hxb|].
  intros k. destruct (decide (key c = k)) as [<-|Hne].
  - rewrite lookup_insert_eq, Hx. cbn. reflexivity.
  - rewrite lookup_insert_ne by exact Hne. apply Hother. intros E. apply Hne. symmetry. exact E.
Qed.

Lemma fill_behind (b : Q) (sim simA : gmap string jsnum) :
  behind b sim simA ->
  behind (b + spd c) (fill_bars s chars sim) (fill_bars s chars simA).
Proof.
  intros Hbe. pose proof Hbe as (Hb & _).
  destruct (behind_own b sim simA Hbe) as (x & Hx & Hxb).
  apply (behind_intro _ _ _ (x + spd c)%Q).
  - rewrite (fill_bars_member s chars sim c Hnd Hc), Hb. reflexivity.
  - rewrite (fill_bars_member s chars simA c Hnd Hc), Hx. reflexivity.
  - rewrite Hxb. ring.
  - intros k Hk.
    destruct (in_dec string_dec k (map (fun r => key r) chars)) as [Hin|Hout].
    + apply in_map_iff in Hin as (r & <- & Hr).
      rewrite (fill_bars_member s chars sim r Hnd Hr),
              (fill_bars_member s chars simA r Hnd Hr).
      apply bar_equiv_jsadd. exact (behind_other b sim simA _ Hbe Hk).
    + rewrite !fill_bars_other by exact Hout.
      exact (behind_other b sim simA _ Hbe Hk).
Qed.

Lemma tick_behind (b : Q) (sim simA : gmap string jsnum) :
  bars_below sim ACTION_THRESHOLD ->
  behind b sim simA ->
  (snd (tick s chars sim []) = [] ->
   behind (b + spd c) (fst (tick s chars sim [])) (fst (tick s chars simA []))
   /\ snd (tick s chars simA []) = [])
  /\ (forall rest0,
         snd (tick s chars sim []) = c :: rest0 ->
         bars_equiv (fst (tick s chars sim [])) (fst (tick s chars simA []))
         /\ snd (tick s chars simA []) = rest0).
Proof.
  intros Hbelow Hbe.
  pose proof (fill_behind b sim simA Hbe) as Hbe1.
  pose proof Hbe as (Hb & _). pose proof Hbe1 as (Hb1 & _).
  destruct (behind_own _ _ _ Hbe1) as (x1 & Hx1 & Hx1b).
  set (sim1 := fill_bars s chars sim) in *.
  set (simA1 := fill_bars s chars simA) in *.
  assert (Hother : forall r, In r chars -> r <> c ->
                             bar_equiv (simA1 !! key r) (sim1 !! key r)).
  { intros r Hr Hne. apply (behind_other _ _ _ _ Hbe1).
    intros E. apply Hne. apply key_inj; assumption. }
  assert (HcA : isReady s simA1 c = false).
  { unfold isReady. rewrite Hx1. apply Qle_bool_false_iff.
    pose proof (Hbelow _ _ Hb). pose proof (Hspeed c Hc).
    unfold ACTION_THRESHOLD in *. lra. }
  assert (HreadyA : List.filter (isReady s simA1) chars
                    = List.filter (fun r => negb (Nat.eqb r c))
                                  (List.filter (isReady s sim1) chars)).
  { apply filter_without; [exact HcA|].
    intros r Hr Hne. apply isReady_equiv, Hother; assumption. }
  rewrite !tick_turns. cbn [app]. fold sim1 simA1. split.
  - intros Hnil.
    assert (Hready : List.filter (isReady s sim1) chars = []).
    { apply Permutation_nil. rewrite <- Hnil. apply sort_perm. }
    rewrite HreadyA, Hready. cbn [List.filter sort]. split; [|reflexivity].
    unfold tick. cbv zeta. fold sim1 simA1. rewrite HreadyA, Hready.
    cbn. exact Hbe1.
  - intros rest0 Hsorted.
    set (ready := List.filter (isReady s sim1) chars) in *.
    assert (Hperm : Permutation (c :: rest0) ready).
    { rewrite <- Hsorted. apply sort_perm. }
    assert (Hndr : List.NoDup (map (fun r => key r) (c :: rest0))).
    { eapply Permutation_NoDup; [apply Permutation_map; symmetry; exact Hperm|].
      apply NoDup_map_filter, Hnd. }
    assert (Hnotin : ~ In c rest0).
    { intros Hin. inversion Hndr as [|? ? Hn _]; subst. apply Hn.
      apply (in_map (fun r => key r)), Hin. }
    assert (Hrest_in : forall r, In r rest0 -> In r chars /\ r <> c).
    { intros r Hr. split.
      - assert (Hr' : In r ready) by (eapply Permutation_in; [exact Hperm|right; exact Hr]).
        apply filter_In in Hr' as [Hr' _]. exact Hr'.
      - intros ->. contradiction. }
    assert (HsortA : sort (compareReady s simA1) (List.filter (isReady s simA1) chars)
                     = rest0).
    { apply (sorted_unique (fun a b => before (compareReady s sim1) a b = true)).
      - rewrite sort_perm, HreadyA.
        rewrite <- (Permutation_filter_ref _ _ _ Hperm). cbn [List.filter].
        rewrite Nat.eqb_refl. cbn [negb]. rewrite filter_all_ref; [reflexivity|].
        intros r Hr. destruct (Nat.eqb_spec r c) as [->|_]; [contradiction|reflexivity].
      - eapply StronglySorted_ext_in; [|exact (ready_sorted s simA1 chars Hwf Hmem)].
        intros a0 b0 Ha Hb0 Hab. cbv beta in Hab |- *.
        apply (proj1 (sort_In (compareReady s simA1) _ _)) in Ha, Hb0.
        rewrite HreadyA in Ha, Hb0.
        apply filter_In in Ha as [Ha Hac], Hb0 as [Hb0 Hbc].
        apply filter_In in Ha as [Ha _], Hb0 as [Hb0 _].
        rewrite <- Hab. symmetry. apply before_equiv; apply Hother; try assumption.
        + intros ->. rewrite Nat.eqb_refl in Hac. discriminate.
        + intros ->. rewrite Nat.eqb_refl in Hbc. discriminate.
      - pose proof (ready_sorted s sim1 chars Hwf Hmem) as Hss. fold ready in Hss.
        rewrite Hsorted in Hss. inversion Hss; subst. assumption.
      - intros a0 b0 Ha Hb0 Hab Hba.
        apply (proj1 (sort_In (compareReady s simA1) _ _)) in Ha, Hb0.
        rewrite HreadyA in Ha, Hb0.
        apply filter_In in Ha as [Ha _], Hb0 as [Hb0 _].
        destruct (ready_bar s sim1 chars Hwf Hmem a0 Ha) as (Hma & (ba & Hba') & _).
        destruct (ready_bar s sim1 chars Hwf Hmem b0 Hb0) as (Hmb & (bb & Hbb') & _).
        apply (ready_before_lexle s sim1 chars Hwf Hmem a0 b0 ba bb Ha Hb0 Hba' Hbb') in Hab.
        apply (ready_before_lexle s sim1 chars Hwf Hmem b0 a0 bb ba Hb0 Ha Hbb' Hba') in Hba.
        exact (lexle_antisym s Hwf a0 b0 ba bb Hma Hmb Hab Hba). }
    rewrite HsortA. split; [|reflexivity].
    assert (E1 : fst (tick s chars sim []) = consume_bars s (c :: rest0) sim1).
    { unfold tick. cbv zeta. fold sim1. fold ready. rewrite Hsorted.
      destruct ready as [|r0 rs]; [|reflexivity].
      apply Permutation_sym, Permutation_nil in Hperm. discriminate. }
    assert (E2 : fst (tick s chars simA []) = consume_bars s rest0 simA1).
    { unfold tick. cbv zeta. fold simA1. rewrite HsortA.
      destruct (List.filter (isReady s simA1) chars) as [|r0 rs] eqn:Er; [|reflexivity].
      cbn in HsortA. subst rest0. reflexivity. }
    rewrite E1, E2. intros k.
    assert (Hndr' : List.NoDup (map (fun r => key r) rest0))
      by (inversion Hndr; assumption).
    destruct (decide (k = key c)) as [->|Hk].
    + rewrite (consume_bars_member s (c :: rest0) sim1 c Hndr (or_introl eq_refl)), Hb1.
      rewrite consume_bars_other.
      * rewrite Hx1. cbn. rewrite Hx1b. reflexivity.
      * inversion Hndr; assumption.
    + destruct (in_dec string_dec k (map (fun r => key r) rest0)) as [Hin|Hout].
      * apply in_map_iff in Hin as (r & <- & Hr).
        rewrite (consume_bars_member s (c :: rest0) sim1 r Hndr (or_intror Hr)).
        rewrite (consume_bars_member s rest0 simA1 r Hndr' Hr).
        apply bar_equiv_jssub, bar_equiv_sym.
        exact (behind_other _ _ _ _ Hbe1 Hk).
      * rewrite !consume_bars_other.
        -- apply bar_equiv_sym. exact (behind_other _ _ _ _ Hbe1 Hk).
        -- exact Hout.
        -- intros [E|Hin]; [apply Hk; symmetry; exact E|contradiction].
Qed.

Lemma simulate_tail (fuel : nat) :
  forall (n : nat) (b : Q) (sim simA : gmap string jsnum) (rest : list ref),
    bars_below sim ACTION_THRESHOLD ->
    behind b sim simA ->
    simulate fuel s chars n sim [] = Some (c :: rest) ->
    simulate fuel s chars (length rest) simA [] = Some rest.
Proof.
  induction fuel as [|fuel IH]; intros n b sim simA rest Hbelow Hbe Hsim.
  - cbn [simulate length] in Hsim. destruct (Nat.ltb 0 n); discriminate.
  - destruct n as [|n]; [cbn in Hsim; discriminate|].
    rewrite simulate_step in Hsim by (cbn; lia).
    destruct rest as [|r1 rest].
    { apply simulate_done. cbn. lia. }
    rewrite simulate_step by (cbn; lia).
    destruct (tick_behind b sim simA Hbelow Hbe) as (Hidle & Hturn).
    destruct (tick_consumption s chars sim [] Hnd Hspeed Hbelow) as (Hbelow1 & _).
    destruct (snd (tick s chars sim [])) as [|d rest0] eqn:Esnd.
    + destruct (Hidle eq_refl) as (Hbe1 & ->).
      exact (IH (S n) _ _ _ (r1 :: rest) Hbelow1 Hbe1 Hsim).
    + destruct (simulate_result s fuel chars (S n) _ (d :: rest0) _ Hsim) as (more & E & _).
      injection E as <- E.
      destruct (Hturn rest0 eq_refl) as (Heq & ->).
      destruct (simulate_shift s chars fuel (S n) _ _ c rest0 _ Heq Hsim)
        as (rest' & E' & Hrest').
      injection E' as <-. exact Hrest'.
Qed.

End PlanTail.

(** *** Bars that agree on the characters simulated *)

Section Agree.

Variable s : BattleSystem.
Variable chars : list ref.
Hypothesis Hnd : List.NoDup (map (fun r => getCharId (heap s r)) chars).

Local Abbreviation key r := (getCharId (heap s r)).
Local Abbreviation agree sim sim' :=
  (forall r, In r chars -> sim' !! key r = sim !! key r).

Lemma tick_agree (sim sim' : gmap string jsnum) (turns : list ref) :
  agree sim sim' ->
  agree (fst (tick s chars sim turns)) (fst (tick s chars sim' turns))
  /\ snd (tick s chars sim' turns) = snd (tick s chars sim turns).
Proof.
  intros Hag.
  assert (Hag1 : agree (fill_bars s chars sim) (fill_bars s chars sim')).
  { intros r Hr. rewrite !(fill_bars_member s chars _ r Hnd Hr), (Hag r Hr). reflexivity. }
  set (sim1 := fill_bars s chars sim) in *. set (sim1' := fill_bars s chars sim') in *.
  assert (Hready : List.filter (isReady s sim1') chars = List.filter (isReady s sim1) chars).
  { apply filter_ext_in. intros r Hr. unfold isReady. rewrite (Hag1 r Hr). reflexivity. }
  assert (Hsort : sort (compareReady s sim1') (List.filter (isReady s sim1) chars)
                  = sort (compareReady s sim1) (List.filter (isReady s sim1) chars)).
  { apply sort_before_ext. intros a b Ha Hb.
    apply filter_In in Ha as [Ha _], Hb as [Hb _].
    apply before_equiv; [rewrite (Hag1 a Ha)|rewrite (Hag1 b Hb)]; apply bar_equiv_refl. }
  rewrite !tick_turns. fold sim1 sim1'. rewrite Hready, Hsort. split; [|reflexivity].
  unfold tick. cbv zeta. fold sim1 sim1'. rewrite Hready, Hsort.
  set (ready := List.filter (isReady s sim1) chars).
  destruct (Nat.ltb 0 (length ready)); cbn [fst]; [|exact Hag1].
  set (sorted := sort (compareReady s sim1) ready).
  assert (Hnds : List.NoDup (map (fun r => key r) sorted)).
  { eapply Permutation_NoDup; [apply Permutation_map; symmetry; apply sort_perm|].
    apply NoDup_map_filter, Hnd. }
  intros r Hr.
  destruct (in_dec Nat.eq_dec r sorted) as [Hin|Hout].
  - rewrite !(consume_bars_member s sorted _ r Hnds Hin), (Hag1 r Hr). reflexivity.
  - rewrite !consume_bars_other; [apply Hag1, Hr| |].
    + intros Hk. apply in_map_iff in Hk as (r' & E & Hr'). apply Hout.
      assert (Hr'c : In r' chars).
      { unfold sorted in Hr'. apply (proj1 (sort_In (compareReady s sim1) _ _)) in Hr'.
        apply filter_In in Hr'. tauto. }
      rewrite <- (keys_inj s chars r' r Hnd Hr'c Hr E). exact Hr'.
    + intros Hk. apply in_map_iff in Hk as (r' & E & Hr'). apply Hout.
      assert (Hr'c : In r' chars).
      { unfold sorted in Hr'. apply (proj1 (sort_In (compareReady s sim1) _ _)) in Hr'.
        apply filter_In in Hr'. tauto. }
      rewrite <- (keys_inj s chars r' r Hnd Hr'c Hr E). exact Hr'.
Qed.

Lemma simulate_agree (fuel : nat) :
  forall (n : nat) (sim sim' : gmap string jsnum) (turns : list ref),
    agree sim sim' ->
    simulate fuel s chars n sim' turns = simulate fuel s chars n sim turns.
Proof.
  induction fuel as [|fuel IH]; intros n sim sim' turns Hag; [reflexivity|].
  destruct (Nat.ltb_spec (length turns) n) as [Hlt|Hge].
  - rewrite !simulate_step by exact Hlt.
    destruct (tick_agree sim sim' turns Hag) as (Hag1 & ->). apply IH, Hag1.
  - rewrite !simulate_done by exact Hge. reflexivity.
Qed.

End Agree.

(** *** The plan through an attack *)

Lemma wounded_alike (s s' : BattleSystem) : wounded s s' -> alike s s'.
Proof.
  intros (Hp & He & Hh & _). split; [exact Hp|]. split; [exact He|].
  intros r. rewrite (Hh r). split; [reflexivity|]. split; reflexivity.
Qed.

Lemma wounded_members (s s' : BattleSystem) :
  wounded s s' -> teamMembers s' = teamMembers s.
Proof. intros (Hp & He & _). unfold teamMembers. rewrite Hp, He. reflexivity. Qed.

Lemma wounded_refl_fields (s s' : BattleSystem) :
  heap s' = heap s -> playerTeam s' = playerTeam s -> enemyTeam s' = enemyTeam s ->
  wounded s s'.
Proof.
  intros Hh Hp He. split; [exact Hp|]. split; [exact He|]. rewrite Hh. split.
  - intros r. destruct (heap s r) as [? ? ? [] ?]. reflexivity.
  - auto.
Qed.

Lemma wounded_trans (s s1 s2 : BattleSystem) :
  wounded s s1 -> wounded s1 s2 -> wounded s s2.
Proof.
  intros (Hp & He & Hh & Ha) (Hp' & He' & Hh' & Ha').
  split; [congruence|]. split; [congruence|]. split.
  - intros r. rewrite (Hh' r) at 1. rewrite (Hh r) at 1. reflexivity.
  - auto.
Qed.

Lemma wounded_alive (s s' : BattleSystem) (r : ref) :
  wounded s s' -> In r (aliveCharacters s') -> In r (aliveCharacters s).
Proof.
  intros (Hp & He & _ & Ha) Hr. unfold aliveCharacters in *.
  apply filter_In in Hr as [Hr Hal]. apply filter_In. rewrite Hp, He in Hr. auto.
Qed.

Lemma calculateUpcomingTurns_simulate (fuel : nat) (s s' : BattleSystem) (n : nat) (u : unit) :
  aliveCharacters s <> [] ->
  calculateUpcomingTurns fuel s n = Ok s' u ->
  s' = set_upcomingTurns s (upcomingTurns s')
  /\ simulate fuel s (aliveCharacters s) n (actionBars s) [] = Some (upcomingTurns s').
Proof.
  intros Hne. unfold calculateUpcomingTurns. cbv zeta.
  destruct (Nat.eqb_spec (length (aliveCharacters s)) 0) as [E|_].
  { apply length_zero_iff_nil in E. contradiction. }
  destruct (simulate fuel s (aliveCharacters s) n (actionBars s) []) as [turns|];
    [|discriminate].
  intros [= <- _]. split; reflexivity.
Qed.

Lemma planned_intro (s0 s : BattleSystem) (fuel n : nat) (bars : gmap string jsnum)
      (turns : list ref) :
  (20 <= n)%nat ->
  simulate fuel s0 (aliveCharacters s0) n bars [] = Some turns ->
  alike s0 s ->
  aliveCharacters s = aliveCharacters s0 ->
  actionBars s = bars -> upcomingTurns s = turns ->
  planned s.
Proof.
  intros Hn Hsim Hal Hch Hb Ht. exists n, fuel. split; [exact Hn|].
  rewrite (simulate_alike s0 s Hal), Hch, Hb, Ht. exact Hsim.
Qed.

Lemma aliveCharacters_fields (s s' : BattleSystem) :
  heap s' = heap s -> playerTeam s' = playerTeam s -> enemyTeam s' = enemyTeam s ->
  aliveCharacters s' = aliveCharacters s.
Proof. intros Hh Hp He. unfold aliveCharacters. rewrite Hh, Hp, He. reflexivity. Qed.

Lemma updateTurnQueue_planned (fuel : nat) (s s' : BattleSystem) (u : unit) :
  aliveCharacters s <> [] ->
  updateTurnQueue fuel s = Ok s' u ->
  s' = set_turnQueue
         (set_upcomingTurns
            (set_actionBars s (barsOfLiving s (teamMembers s) (actionBars s)))
            (upcomingTurns s'))
         (take 6 (upcomingTurns s'))
  /\ simulate fuel s (aliveCharacters s) 20
              (barsOfLiving s (teamMembers s) (actionBars s)) []
     = Some (upcomingTurns s')
  /\ planned s'.
Proof.
  intros Hne. unfold updateTurnQueue.
  fold (teamMembers s). fold (barsOfLiving s (teamMembers s) (actionBars s)).
  set (s0 := set_actionBars s (barsOfLiving s (teamMembers s) (actionBars s))).
  destruct (calculateUpcomingTurns fuel s0 20) as [s1 u1| |] eqn:E; cbn [bind];
    try discriminate.
  intros [= <- <-].
  apply calculateUpcomingTurns_simulate in E; [|exact Hne]. destruct E as (E1 & Hsim).
  change (aliveCharacters s0) with (aliveCharacters s) in Hsim.
  change (actionBars s0) with (barsOfLiving s (teamMembers s) (actionBars s)) in Hsim.
  assert (Hs0 : alike s s0) by (apply alike_refl_fields; reflexivity).
  rewrite (simulate_alike s s0 Hs0) in Hsim.
  split; [rewrite E1 at 1; reflexivity|]. split; [exact Hsim|].
  apply (planned_intro s _ fuel 20 _ _ ltac:(lia) Hsim).
  - apply alike_refl_fields; rewrite E1; reflexivity.
  - apply aliveCharacters_fields; rewrite E1; reflexivity.
  - rewrite E1. reflexivity.
  - reflexivity.
Qed.

Lemma barsOfLiving_below (s : BattleSystem) (members : list ref) (bars : gmap string jsnum)
      (bound : Q) :
  bars_below bars bound -> bars_below (barsOfLiving s members bars) bound.
Proof.
  intros H k v Hk. rewrite barsOfLiving_spec in Hk.
  destruct (existsb _ members); [discriminate|]. exact (H k v Hk).
Qed.

(** Replanning after hits keeps the first turn of the plan: nobody moves
    ahead of the character whose turn it is. *)
Lemma replan_keeps_turn (fuel : nat) (s s1 s2 : BattleSystem) (c : ref) (u : unit) :
  planned s ->
  getCurrentCharacter s = Some c ->
  wounded s s1 ->
  well_formed s1 ->
  actionBars s1 = actionBars s ->
  In c (teamMembers s1) -> isAlive (heap s1 c) = true ->
  updateTurnQueue fuel s1 = Ok s2 u ->
  planned s2
  /\ getCurrentCharacter s2 = Some c
  /\ wounded s s2
  /\ actionBars s2 = barsOfLiving s1 (teamMembers s1) (actionBars s).
Proof.
  intros (n & fuel0 & Hn & Hplan) Hcur Hw Hwf1 Hbars Hc Hal Hrun.
  assert (Hne : aliveCharacters s1 <> []) by exact (aliveCharacters_member s1 c Hc Hal).
  destruct (updateTurnQueue_planned fuel s1 s2 u Hne Hrun) as (E & Hsim & Hpl).
  rewrite Hbars in Hsim.
  split; [exact Hpl|].
  assert (Hw2 : wounded s s2).
  { eapply wounded_trans; [exact Hw|]. apply wounded_refl_fields; rewrite E; reflexivity. }
  split; [|split; [exact Hw2|rewrite E, Hbars; reflexivity]].
  unfold getCurrentCharacter in Hcur |- *.
  destruct (upcomingTurns s) as [|c0 rest] eqn:Eup; [discriminate|].
  cbn in Hcur. injection Hcur as ->.
  rewrite <- (simulate_alike s s1 (wounded_alike s s1 Hw)) in Hplan.
  pose proof Hw as (Hp & He & _).
  assert (Hteam : teamMembers s1 = teamMembers s) by (unfold teamMembers; congruence).
  destruct (first_turn_stable s1 Hwf1 (aliveCharacters s) (aliveCharacters s1)) with
    (fuel := fuel0) (fuel' := fuel) (sim := actionBars s)
    (sim' := barsOfLiving s1 (teamMembers s1) (actionBars s))
    (n := n) (n' := 20%nat) (c := c) (rest := rest) (res' := upcomingTurns s2)
    as (rest' & ->); try assumption; try lia.
  - intros r Hr. rewrite Hteam. apply aliveCharacters_members, Hr.
  - intros r Hr. exact (wounded_alive s s1 r Hw Hr).
  - unfold aliveCharacters. rewrite <- Hp, <- He. apply NoDup_map_filter.
    apply NoDup_ListNoDup. exact (wf_keys s1 Hwf1).
  - apply aliveCharacters_keys, Hwf1.
  - intros r Hr. apply filter_In in Hr as [Hr Hra].
    apply barsOfLiving_alive; assumption.
  - apply filter_In. split; assumption.
  - reflexivity.
Qed.

Lemma planned_fields (s s' : BattleSystem) :
  heap s' = heap s -> playerTeam s' = playerTeam s -> enemyTeam s' = enemyTeam s ->
  actionBars s' = actionBars s -> upcomingTurns s' = upcomingTurns s ->
  planned s -> planned s'.
Proof.
  intros Hh Hp He Hb Hu (n & fuel & Hn & Hsim).
  apply (planned_intro s s' fuel n (actionBars s) (upcomingTurns s) Hn Hsim).
  - apply alike_refl_fields; assumption.
  - apply aliveCharacters_fields; assumption.
  - exact Hb.
  - exact Hu.
Qed.

(** Replanning when nobody was defeated gives the beginning of the old
    plan. *)
Lemma replan_same_living (fuel : nat) (s s1 s2 : BattleSystem) (u : unit) :
  planned s ->
  wounded s s1 ->
  well_formed s1 ->
  actionBars s1 = actionBars s ->
  aliveCharacters s1 <> [] ->
  updateTurnQueue fuel s1 = Ok s2 u ->
  aliveCharacters s1 = aliveCharacters s ->
  exists more, upcomingTurns s = upcomingTurns s2 ++ more.
Proof.
  intros (n & fuel0 & Hn & Hplan) Hw Hwf1 Hbars Hne Hrun Hsame.
  destruct (updateTurnQueue_planned fuel s1 s2 u Hne Hrun) as (_ & Hsim & _).
  rewrite (simulate_agree s1 (aliveCharacters s1) (aliveCharacters_keys s1 Hwf1) fuel 20
             (actionBars s1)) in Hsim.
  - rewrite (simulate_alike s s1 (wounded_alike s s1 Hw)), Hsame, Hbars in Hsim.
    exact (simulate_prefix s (aliveCharacters s) fuel fuel0 20 n (actionBars s) []
             (upcomingTurns s2) (upcomingTurns s) Hn Hsim Hplan).
  - intros r Hr. apply aliveCharacters_members in Hr as [Hr Hal].
    apply barsOfLiving_alive; assumption.
Qed.

Lemma replan_kept (fuel : nat) (s s1 s2 : BattleSystem) (c : ref) (u : unit) :
  planned s ->
  getCurrentCharacter s = Some c ->
  wounded s s1 ->
  well_formed s1 ->
  actionBars s1 = actionBars s ->
  In c (teamMembers s1) -> isAlive (heap s1 c) = true ->
  updateTurnQueue fuel s1 = Ok s2 u ->
  turn_kept s s2 c.
Proof.
  intros Hpl Hcur Hw Hwf1 Hbars Hc Hal Hrun.
  destruct (replan_keeps_turn fuel s s1 s2 c u Hpl Hcur Hw Hwf1 Hbars Hc Hal Hrun)
    as (Hpl2 & Hcur2 & Hw2 & Hb2).
  assert (Hne : aliveCharacters s1 <> []) by exact (aliveCharacters_member s1 c Hc Hal).
  destruct (updateTurnQueue_planned fuel s1 s2 u Hne Hrun) as (E & _).
  constructor; try assumption.
  - intros bound Hbelow. rewrite Hb2. apply barsOfLiving_below, Hbelow.
  - intros r Hr Hal2. rewrite Hb2.
    pose proof (wounded_alike s s1 Hw) as Hlike.
    rewrite <- (alike_key s s1 Hlike r).
    apply barsOfLiving_alive; [exact Hwf1| |].
    + rewrite (wounded_members s s1 Hw). exact Hr.
    + rewrite E in Hal2. exact Hal2.
  - intros Hsame.
    apply (replan_same_living fuel s s1 s2 u Hpl Hw Hwf1 Hbars Hne Hrun).
    rewrite <- Hsame.
    symmetry. apply aliveCharacters_fields; rewrite E; reflexivity.
Qed.

Lemma wounded_hit (s : BattleSystem) (t : ref) (d : Q) :
  isAlive (heap s t) = true ->
  wounded s (store s t (fst (takeDamage (heap s t) d))).
Proof.
  intros Hal. split; [reflexivity|]. split; [reflexivity|]. split.
  - intros r. rewrite store_lookup. destruct (decide (t = r)) as [->|E].
    + reflexivity.
    + destruct (heap s r) as [? ? ? [] ?]. reflexivity.
  - intros r. rewrite store_lookup. destruct (decide (t = r)) as [->|E]; auto.
Qed.

Lemma processSingleAttack_kept (fuel : nat) (s s2 : BattleSystem) (attacker t : ref)
      (attackGene : option Gene) (r : SingleResult) :
  well_formed s -> planned s ->
  getCurrentCharacter s = Some attacker ->
  In attacker (teamMembers s) -> isAlive (heap s attacker) = true ->
  isAlive (heap s t) = true -> t <> attacker ->
  processSingleAttack fuel s attacker attackGene (Some t) = Ok s2 r ->
  turn_kept s s2 attacker.
Proof.
  intros Hwf Hpl Hcur Hin Hal Htal Hne Hrun.
  unfold processSingleAttack, takeDamage in Hrun. cbv beta iota zeta in Hrun.
  set (dmg := calculateDamage (heap s attacker) attackGene (heap s t)) in *.
  set (h' := Qmax 0 (hp (stats (heap s t)) - dmg)) in *.
  set (hit := set_hp (heap s t) h') in *.
  pose proof (well_formed_hit s t dmg Hwf Htal) as Hwf1.
  pose proof (wounded_hit s t dmg Htal) as Hw1.
  change (fst (takeDamage (heap s t) dmg)) with hit in Hwf1, Hw1.
  assert (Hatt : heap (store s t hit) attacker = heap s attacker).
  { rewrite store_lookup. destruct (decide (t = attacker)); [contradiction|reflexivity]. }
  destruct (Qeq_bool h' 0) eqn:Ed.
  - destruct (updateTurnQueue fuel (store s t hit)) as [s3 u| |] eqn:E; cbn [bind] in Hrun;
      try discriminate.
    injection Hrun as <- _.
    apply (replan_kept fuel s (store s t hit) s3 attacker u); try assumption.
    + reflexivity.
    + rewrite Hatt. exact Hal.
  - cbn [bind] in Hrun. injection Hrun as <- _.
    assert (Hsame : aliveCharacters (store s t hit) = aliveCharacters s).
    { unfold aliveCharacters. apply filter_ext. intros x. rewrite store_lookup.
      destruct (decide (t = x)) as [->|]; [|reflexivity]. rewrite Htal.
      unfold isAlive, hit. cbn [stats set_hp hp].
      apply Qeq_bool_false_iff in Ed. apply Qlt_bool_iff.
      pose proof (Q.le_max_l 0 (hp (stats (heap s x)) - dmg)) as Hge. fold h' in Hge.
      apply Qle_lt_or_eq in Hge. destruct Hge as [Hlt|Heq]; [exact Hlt|].
      exfalso. apply Ed. symmetry. exact Heq. }
    destruct Hpl as (n & fuel0 & Hn & Hsim).
    constructor.
    + apply (planned_intro s _ fuel0 n (actionBars s) (upcomingTurns s) Hn Hsim);
        [apply wounded_alike, Hw1 | exact Hsame | reflexivity | reflexivity].
    + exact Hcur.
    + exact Hw1.
    + intros bound Hb. exact Hb.
    + intros x _ _. reflexivity.
    + intros _. exists []. symmetry. apply app_nil_r.
Qed.

Lemma processSplashAttack_kept (fuel : nat) (s s2 : BattleSystem) (attacker : ref)
      (attackGene : option Gene) (r : SplashResult) :
  well_formed s -> planned s ->
  getCurrentCharacter s = Some attacker ->
  In attacker (teamMembers s) -> isAlive (heap s attacker) = true ->
  processSplashAttack fuel s attacker attackGene = Ok s2 r ->
  turn_kept s s2 attacker.
Proof.
  intros Hwf Hpl Hcur Hin Hal Hrun.
  destruct (splash_hits s attacker attackGene Hwf) as (h1 & Hfold & Hout & Hhit & Hwf1).
  assert (Hnot : ~ In attacker (splashTargets s attacker)).
  { intros H. apply splashTargets_spec in H as [_ H].
    exact (opposing_neq s attacker attacker Hwf Hin H eq_refl). }
  unfold processSplashAttack in Hrun. rewrite Hfold in Hrun.
  destruct (updateTurnQueue fuel (set_heap s h1)) as [s3 u| |] eqn:E; cbn [bind] in Hrun;
    try discriminate.
  injection Hrun as <- _.
  apply (replan_kept fuel s (set_heap s h1) s3 attacker u); try assumption.
  - split; [reflexivity|]. split; [reflexivity|]. cbn [heap set_heap]. split.
    + intros x. destruct (in_dec Nat.eq_dec x (splashTargets s attacker)) as [Hx|Hx].
      * rewrite (Hhit x Hx). reflexivity.
      * rewrite (Hout x Hx). destruct (heap s x) as [? ? ? [] ?]. reflexivity.
    + intros x. destruct (in_dec Nat.eq_dec x (splashTargets s attacker)) as [Hx|Hx].
      * intros _. apply (splashTargets_spec s attacker x Hx).
      * rewrite (Hout x Hx). auto.
  - reflexivity.
  - cbn. rewrite (Hout _ Hnot). exact Hal.
Qed.

Lemma resolveAttack_kept (fuel : nat) (s s2 : BattleSystem) (attacker : ref)
      (attackObj : AttackObj) (target : option ref) (tr : TurnResults) :
  well_formed s -> planned s ->
  getCurrentCharacter s = Some attacker ->
  In attacker (teamMembers s) -> isAlive (heap s attacker) = true ->
  (type attackObj <> splash ->
   exists t, target = Some t /\ isAlive (heap s t) = true /\ t <> attacker) ->
  resolveAttack fuel s attacker attackObj target = Ok s2 tr ->
  turn_kept s s2 attacker.
Proof.
  intros Hwf Hpl Hcur Hin Hal Htarget Hrun. unfold resolveAttack in Hrun.
  destruct (decide (type attackObj = splash)) as [Hs|Hs].
  - destruct (processSplashAttack fuel s attacker (gene attackObj)) as [s3 r| |] eqn:E;
      cbn [bind] in Hrun; try discriminate.
    injection Hrun as <- _.
    exact (processSplashAttack_kept fuel s s3 attacker _ r Hwf Hpl Hcur Hin Hal E).
  - destruct (Htarget Hs) as (t & -> & Htal & Hne).
    destruct (processSingleAttack fuel s attacker (gene attackObj) (Some t)) as [s3 r| |] eqn:E;
      cbn [bind] in Hrun; try discriminate.
    injection Hrun as <- _.
    exact (processSingleAttack_kept fuel s s3 attacker t _ r Hwf Hpl Hcur Hin Hal Htal Hne E).
Qed.

Lemma turn_kept_fields (s s1 s2 s3 : BattleSystem) (attacker : ref) :
  heap s1 = heap s -> playerTeam s1 = playerTeam s -> enemyTeam s1 = enemyTeam s ->
  actionBars s1 = actionBars s -> upcomingTurns s1 = upcomingTurns s ->
  heap s3 = heap s2 -> playerTeam s3 = playerTeam s2 -> enemyTeam s3 = enemyTeam s2 ->
  actionBars s3 = actionBars s2 -> upcomingTurns s3 = upcomingTurns s2 ->
  turn_kept s1 s2 attacker -> turn_kept s s3 attacker.
Proof.
  intros Hh Hp He Hb Hu Hh' Hp' He' Hb' Hu' [Hpl Hcur (Wp & We & Wh & Wa) Hbars Hliv Hpre].
  constructor.
  - exact (planned_fields s2 s3 Hh' Hp' He' Hb' Hu' Hpl).
  - unfold getCurrentCharacter in *. rewrite Hu'. exact Hcur.
  - split; [congruence|]. split; [congruence|]. rewrite Hh', <- Hh. split; assumption.
  - intros bound Hbelow. rewrite Hb'. apply Hbars. rewrite Hb. exact Hbelow.
  - intros r Hr Hal. rewrite Hb', <- Hb, <- Hh. apply Hliv.
    + unfold teamMembers in *. rewrite Hp, He. exact Hr.
    + rewrite <- Hh'. exact Hal.
  - intros Hsame. rewrite Hu', <- Hu. apply Hpre.
    rewrite <- (aliveCharacters_fields s2 s3 Hh' Hp' He').
    rewrite (aliveCharacters_fields s s1 Hh Hp He). exact Hsame.
Qed.

(** [processTurn] on a battle on schedule, with a legal move: whatever the
    attack did, the character whose turn it is stays first in the plan. *)
Lemma processTurn_kept (fuel : nat) (s s' : BattleSystem) (attackObj : AttackObj)
      (target : option ref) (o : TurnOutcome) :
  battle_ready s -> planned s ->
  legalMove s attackObj target ->
  processTurn fuel s attackObj target = Ok s' o ->
  exists attacker,
    getCurrentCharacter s = Some attacker /\ turn_kept s s' attacker.
Proof.
  intros Hbr Hpl Hlegal Hrun.
  destruct (battle_ready_current s Hbr) as (attacker & Hc & Hin & Hal).
  destruct Hbr as [Hwf Hidle Hturns Hmany Hp He].
  unfold processTurn in Hrun. rewrite Hidle in Hrun.
  change (getCurrentCharacter (set_isProcessingTurn s true)) with (getCurrentCharacter s)
    in Hrun.
  rewrite Hc in Hrun.
  change (heap (set_isProcessingTurn s true) attacker) with (heap s attacker) in Hrun.
  rewrite Hal in Hrun. cbn [negb] in Hrun.
  set (s1 := set_isProcessingTurn s true) in *.
  destruct (resolveAttack fuel s1 attacker attackObj target) as [s2 tr| |] eqn:E;
    cbn [bind] in Hrun; try discriminate.
  assert (Hkept : turn_kept s1 s2 attacker).
  { apply (resolveAttack_kept fuel s1 s2 attacker attackObj target tr); try assumption.
    - apply well_formed_processing, Hwf.
    - apply (planned_fields s s1); try reflexivity. exact Hpl.
    - intros Hs. exact (legalMove_target s attacker attackObj target Hwf Hc Hin Hlegal Hs). }
  exists attacker. split; [exact Hc|].
  unfold checkBattleEnd in Hrun.
  destruct (negb (someAlive s2 (playerTeam s2)) || negb (someAlive s2 (enemyTeam s2)));
    injection Hrun as <- <-;
    apply (turn_kept_fields s s1 s2 _ attacker); try reflexivity; exact Hkept.
Qed.

(** *** The plan through [nextTurn] *)

Lemma bars_equiv_eq (sim sim' : gmap string jsnum) : sim = sim' -> bars_equiv sim sim'.
Proof. intros ->. apply bars_equiv_refl. Qed.

(** [nextTurn] on a battle on schedule: the bar of the character that acted
    loses one threshold, and the new plan is the old one without its first
    turn, longer where it was rebuilt. *)
Lemma nextTurn_planned (fuel : nat) (s s' : BattleSystem) (r : NextTurn) :
  on_schedule s ->
  nextTurn fuel s = Ok s' r ->
  exists c b more,
    getCurrentCharacter s = Some c
    /\ actionBars s !! getCharId (heap s c) = Some (Fin b)
    /\ s' = set_turnQueue (set_upcomingTurns (afterConsumption s c) (upcomingTurns s'))
                          (take 6 (upcomingTurns s'))
    /\ actionBars s' = <[getCharId (heap s c) := Fin (b - ACTION_THRESHOLD)]> (actionBars s)
    /\ upcomingTurns s' = drop 1 (upcomingTurns s) ++ more
    /\ planned s'.
Proof.
  intros [Hbr (n & fuel0 & Hn & Hplan) Hbelow Hspeeds] Hrun.
  destruct (battle_ready_current s Hbr) as (c & Hc & Hin & Hal).
  pose proof (br_wf s Hbr) as Hwf. pose proof (br_many s Hbr) as Hmany.
  destruct (wf_bars s Hwf c Hin Hal) as (b & Hb).
  assert (Hcin : In c (aliveCharacters s)) by (apply filter_In; auto).
  assert (Hne : aliveCharacters s <> []) by exact (aliveCharacters_member s c Hin Hal).
  rewrite (nextTurn_unfold fuel s c Hc) in Hrun.
  set (sa := afterConsumption s c) in *.
  assert (Hbars : actionBars sa
                  = <[getCharId (heap s c) := Fin (b - ACTION_THRESHOLD)]> (actionBars s)).
  { unfold sa, afterConsumption. cbn [actionBars set_actionBars set_turnHistory
                                       set_upcomingTurns]. rewrite Hb. reflexivity. }
  assert (Hsa : alike s sa) by (apply alike_refl_fields; reflexivity).
  unfold getCurrentCharacter in Hc.
  destruct (upcomingTurns s) as [|c0 rest] eqn:Eup; [discriminate|].
  cbn in Hc. injection Hc as ->.
  assert (Hrest : upcomingTurns sa = rest).
  { unfold sa, afterConsumption. cbn [upcomingTurns set_upcomingTurns set_turnHistory
                                       set_actionBars]. rewrite Eup. reflexivity. }
  assert (Htail : simulate fuel0 s (aliveCharacters s) (length rest) (actionBars sa) []
                  = Some rest).
  { apply (simulate_tail s Hwf (aliveCharacters s)) with (c := c) (n := n) (b := b)
                                                        (sim := actionBars s).
    - intros x Hx. apply aliveCharacters_members, Hx.
    - apply aliveCharacters_keys, Hwf.
    - intros x Hx. apply Hspeeds. apply aliveCharacters_members, Hx.
    - exact Hcin.
    - exact Hbelow.
    - split; [exact Hb|]. exists (b - ACTION_THRESHOLD)%Q. split; [reflexivity|].
      apply bars_equiv_eq, Hbars.
    - exact Hplan. }
  cbn [length] in Hmany.
  exists c, b. rewrite Hrest in Hrun.
  destruct (Nat.ltb_spec (length rest) 20) as [Hlt|Hge].
  - destruct (calculateUpcomingTurns fuel sa 20) as [s3 u| |] eqn:E;
      cbn [bind] in Hrun; try discriminate.
    injection Hrun as <- _.
    apply calculateUpcomingTurns_simulate in E; [|exact Hne]. destruct E as (E3 & Hsim).
    change (aliveCharacters sa) with (aliveCharacters s) in Hsim.
    rewrite (simulate_alike s sa Hsa) in Hsim.
    destruct (simulate_prefix s (aliveCharacters s) fuel0 fuel (length rest) 20
                (actionBars sa) [] rest (upcomingTurns s3) ltac:(lia) Htail Hsim)
      as (more & Emore).
    exists more. cbn [upcomingTurns set_turnQueue actionBars].
    split; [unfold getCurrentCharacter; rewrite Eup; reflexivity|]. split; [exact Hb|].
    split; [rewrite E3 at 1; reflexivity|].
    split; [rewrite E3; exact Hbars|]. split; [exact Emore|].
    apply (planned_intro s _ fuel 20 (actionBars sa) (upcomingTurns s3) ltac:(lia) Hsim).
    + apply alike_refl_fields; rewrite E3; reflexivity.
    + apply aliveCharacters_fields; rewrite E3; reflexivity.
    + rewrite E3. reflexivity.
    + reflexivity.
  - cbn [bind] in Hrun. injection Hrun as <- _.
    exists []. cbn [upcomingTurns set_turnQueue actionBars]. rewrite Hrest.
    split; [unfold getCurrentCharacter; rewrite Eup; reflexivity|]. split; [exact Hb|].
    split. { rewrite <- Hrest at 1 2. reflexivity. }
    split; [exact Hbars|]. split; [cbn; symmetry; apply app_nil_r|].
    apply (planned_intro s _ fuel0 (length rest) (actionBars sa) rest Hge Htail).
    + apply alike_refl_fields; reflexivity.
    + apply aliveCharacters_fields; reflexivity.
    + reflexivity.
    + exact Hrest.
Qed.

Lemma speeds_bounded_wounded (s s' : BattleSystem) :
  wounded s s' -> speeds_bounded s -> speeds_bounded s'.
Proof.
  intros Hw Hsp r Hr. pose proof (wounded_alike s s' Hw) as (Hp & He & Hh).
  destruct (Hh r) as (_ & -> & _). apply Hsp. unfold teamMembers in *.
  rewrite <- Hp, <- He. exact Hr.
Qed.

Lemma nextTurn_on_schedule (fuel : nat) (s s' : BattleSystem) (r : NextTurn) :
  on_schedule s -> nextTurn fuel s = Ok s' r -> on_schedule s'.
Proof.
  intros Hos Hrun.
  destruct (nextTurn_planned fuel s s' r Hos Hrun)
    as (c & b & more & Hc & Hb & E & Hbars & _ & Hpl).
  destruct Hos as [Hbr _ Hbelow Hspeeds].
  constructor.
  - exact (nextTurn_ready fuel s s' r Hbr Hrun).
  - exact Hpl.
  - rewrite Hbars. intros k v Hk.
    destruct (decide (getCharId (heap s c) = k)) as [<-|Hne].
    + rewrite lookup_insert_eq in Hk. injection Hk as <-.
      pose proof (Hbelow _ _ Hb). unfold ACTION_THRESHOLD in *. lra.
    + rewrite lookup_insert_ne in Hk by exact Hne. exact (Hbelow k v Hk).
  - apply (speeds_bounded_wounded s s'); [|exact Hspeeds].
    apply wounded_refl_fields; rewrite E; reflexivity.
Qed.

Lemma processTurn_on_schedule (fuel : nat) (s s' : BattleSystem) (attackObj : AttackObj)
      (target : option ref) (tr : TurnResults) (w : option Winner) :
  on_schedule s ->
  legalMove s attackObj target ->
  processTurn fuel s attackObj target = Ok s' (Success tr false w) ->
  on_schedule s'.
Proof.
  intros [Hbr Hpl Hbelow Hspeeds] Hlegal Hrun.
  destruct (processTurn_kept fuel s s' attackObj target _ Hbr Hpl Hlegal Hrun)
    as (attacker & _ & [Hpl' _ Hw Hbars _ _]).
  destruct (processTurn_ready fuel s s' attackObj target _ Hbr Hlegal Hrun)
    as (a' & tr' & e & w' & _ & Eo & _ & _ & _ & _ & _ & _ & _ & _ & Hgo & _).
  injection Eo as _ <- _.
  constructor.
  - apply Hgo. reflexivity.
  - exact Hpl'.
  - apply Hbars, Hbelow.
  - exact (speeds_bounded_wounded s s' Hw Hspeeds).
Qed.

(** *** The plan at the start of a battle *)

Lemma createTurnQueue_planned (fuel : nat) (s s' : BattleSystem) (u : unit) :
  createTurnQueue fuel s = Ok s' u -> upcomingTurns s' <> [] -> planned s'.
Proof.
  unfold createTurnQueue.
  set (bars := fold_left (fun m r => <[getCharId (heap s r) := Fin 0]> m)
                         (aliveCharacters s) ∅).
  destruct (calculateUpcomingTurns fuel (set_actionBars s bars) 20) as [s1 u1| |] eqn:E;
    cbn [bind]; try discriminate.
  intros [= <- <-] Hne. cbn [upcomingTurns set_turnQueue] in Hne.
  assert (Halive : aliveCharacters s <> []).
  { intros Hnil. apply Hne.
    apply calculateUpcomingTurns_result in E. apply E. exact Hnil. }
  apply calculateUpcomingTurns_simulate in E; [|exact Halive]. destruct E as (E1 & Hsim).
  apply (planned_intro (set_actionBars s bars) _ fuel 20 bars (upcomingTurns s1)
           ltac:(lia) Hsim).
  - apply alike_refl_fields; rewrite E1; reflexivity.
  - apply aliveCharacters_fields; rewrite E1; reflexivity.
  - rewrite E1. reflexivity.
  - reflexivity.
Qed.

Lemma setupBattle_planned (fuel : nat) (rand : nat -> Q) (characters : list GameCharacter)
      (s : BattleSystem) (roster : list GameCharacter) (s' : BattleSystem) (r : SetupResult) :
  setupBattle fuel rand characters s roster = Ok s' r ->
  upcomingTurns s' <> [] -> planned s'.
Proof.
  unfold setupBattle.
  destruct (fold_left clonePlayer roster (s, [])) as [s0 team].
  destruct (generateEnemyTeam rand characters (set_playerTeam s0 team)) as [s2 u2| |];
    cbn [bind]; try discriminate.
  destruct (createTurnQueue fuel s2) as [s3 u3| |] eqn:E; cbn [bind]; try discriminate.
  intros [= <- _] Hne.
  apply (planned_fields s3); try reflexivity.
  exact (createTurnQueue_planned fuel s2 s3 u3 E Hne).
Qed.

Lemma setupBattle_on_schedule (fuel : nat) (rand : nat -> Q)
      (characters : list GameCharacter) (s : BattleSystem) (roster : list GameCharacter)
      (s' : BattleSystem) (r : SetupResult) :
  unit_draws rand ->
  roster <> [] ->
  NoDup (map id roster) ->
  NoDup (map id characters) ->
  (3 <= length (availableFor characters roster))%nat ->
  setupBattle fuel rand characters s roster = Ok s' r ->
  on_schedule s'.
Proof.
  intros Hrand Hne Hndr Hndc Hav Hrun.
  destruct (setupBattle_run fuel rand characters s roster s' r Hrand Hne Hndr Hndc Hav Hrun)
    as (picks & Hpl & Hen & _ & _ & _ & _ & _ & Hzero & _ & _ & _ & Hbr).
  constructor.
  - exact Hbr.
  - apply (setupBattle_planned fuel rand characters s roster s' r Hrun).
    pose proof (br_many s' Hbr) as Hmany. intros Hnil. rewrite Hnil in Hmany.
    cbn in Hmany. lia.
  - intros k v Hk. apply Hzero in Hk. injection Hk as ->. reflexivity.
  - intros x Hx. unfold teamMembers in Hx. apply in_app_iff in Hx.
    assert (Hcopy : exists p c, heap s' x = battleCopy p c).
    { destruct Hx as [Hx|Hx].
      - pose proof (In_map_inv _ _ _ x Hpl Hx) as H.
        apply in_map_iff in H. destruct H as (c & Hc & _). eauto.
      - pose proof (In_map_inv _ _ _ x Hen Hx) as H.
        apply in_map_iff in H. destruct H as (c & Hc & _). eauto. }
    destruct Hcopy as (p & c & ->).
    pose proof (battleCopy_facts p c) as (_ & _ & _ & _ & _ & Hsp & _).
    unfold ACTION_THRESHOLD. lra.
Qed.

(** *** Whole turns on schedule *)

Lemma take_common (k : nat) (p m1 m2 : list ref) :
  (k <= length p)%nat -> take k (p ++ m1) = take k (p ++ m2).
Proof. intros H. rewrite !take_app_le by exact H. reflexivity. Qed.

Lemma take_shorter (k n : nat) (a b : list ref) :
  (k <= n)%nat -> take n a = take n b -> take k a = take k b.
Proof.
  intros Hle H. apply (f_equal (take k)) in H. rewrite !take_take in H.
  replace (k `min` n)%nat with k in H by lia. exact H.
Qed.

Lemma lookup_within (i n : nat) (a b : list ref) :
  (i < n)%nat -> take n a = take n b -> a !! i = b !! i.
Proof.
  intros Hlt H. rewrite <- (lookup_take_lt a n i Hlt), H. apply lookup_take_lt, Hlt.
Qed.

Lemma example_on_schedule : on_schedule Example.started.
Proof.
  constructor.
  - exact example_battle_ready.
  - exists 20%nat, 200%nat. split; [lia|]. vm_compute. reflexivity.
  - exact example_bars_below.
  - exact example_speeds_bounded.
Qed.

(** A turn of the player that does not end the battle. *)
Lemma executePlayerTurn_scheduled (fuel : nat) (s s' : BattleSystem) (attackObj : AttackObj)
      (target : option ref) (r : TurnOutcome * option NextTurn) (tr : TurnResults)
      (w : option Winner) :
  on_schedule s ->
  legalMove s attackObj target ->
  Controls.executePlayerTurn fuel s attackObj target = Ok s' r ->
  fst r = Success tr false w ->
  on_schedule s'
  /\ exists attacker,
      getCurrentCharacter s = Some attacker
      /\ turnHistory s' = turnHistory s ++ [attacker]
      /\ wounded s s'
      /\ bar_spent s s' [attacker]
      /\ (aliveCharacters s' = aliveCharacters s ->
          take 19 (upcomingTurns s') = take 19 (drop 1 (upcomingTurns s))).
Proof.
  intros Hos Hlegal Hrun Hr.
  pose proof (os_ready s Hos) as Hbr.
  unfold Controls.executePlayerTurn in Hrun.
  destruct (processTurn fuel s attackObj target) as [s1 o| |] eqn:E1; cbn [bind] in Hrun;
    try discriminate.
  destruct (processTurn_ready fuel s s1 attackObj target o Hbr Hlegal E1)
    as (a0 & tr0 & e & w0 & Hc0 & -> & _ & _ & _ & _ & _ & Hhist & _ & Hmany1 & _).
  destruct e.
  { injection Hrun as <- <-. cbn in Hr. discriminate. }
  destruct (nextTurn fuel s1) as [s2 nt| |] eqn:E2; cbn [bind] in Hrun; try discriminate.
  injection Hrun as <- <-. clear Hr.
  pose proof (processTurn_on_schedule fuel s s1 attackObj target tr0 w0 Hos Hlegal E1) as Hos1.
  destruct (processTurn_kept fuel s s1 attackObj target _ Hbr (os_planned s Hos) Hlegal E1)
    as (attacker & Hc & [_ Hc1 Hw1 _ Hliv Hpre]).
  destruct (nextTurn_planned fuel s1 s2 nt Hos1 E2)
    as (c & b & more & Hc' & Hb1 & E & Hbars2 & Hup & _).
  assert (c = attacker) by congruence. subst c.
  split; [exact (nextTurn_on_schedule fuel s1 s2 nt Hos1 E2)|].
  exists attacker. split; [exact Hc|]. split.
  { rewrite E. cbn. rewrite Hhist. reflexivity. }
  assert (Hw2 : wounded s1 s2) by (apply wounded_refl_fields; rewrite E; reflexivity).
  split; [exact (wounded_trans s s1 s2 Hw1 Hw2)|].
  split.
  { pose proof (br_wf s Hbr) as Hwf.
    pose proof (wounded_alike s s1 Hw1) as Hlike.
    rewrite (alike_key s s1 Hlike attacker) in Hb1, Hbars2.
    destruct (battle_ready_current s Hbr) as (a1 & Ha1 & Hain & _).
    assert (a1 = attacker) by congruence. subst a1.
    intros x Hx Hal2.
    assert (Hal1 : isAlive (heap s1 x) = true) by (rewrite E in Hal2; exact Hal2).
    assert (Hal : isAlive (heap s x) = true) by (apply Hw1, Hal1).
    destruct (wf_bars s Hwf x Hx Hal) as (bx & Hbx).
    pose proof (Hliv x Hx Hal1) as Hkeep. rewrite Hbx in Hkeep.
    exists bx. unfold turnsOf. cbn [count_occ].
    destruct (Nat.eq_dec attacker x) as [->|Hne].
    - exists (bx - ACTION_THRESHOLD)%Q. split; [exact Hbx|].
      rewrite Hkeep in Hb1. injection Hb1 as <-.
      split; [rewrite Hbars2; apply lookup_insert_eq|].
      unfold ACTION_THRESHOLD. cbn. ring.
    - exists bx. split; [exact Hbx|]. split.
      + rewrite Hbars2, lookup_insert_ne; [exact Hkeep|].
        intros Ek. apply Hne.
        apply (keys_inj s (teamMembers s) attacker x); try assumption.
        apply NoDup_ListNoDup. exact (wf_keys s Hwf).
      + unfold ACTION_THRESHOLD. cbn. ring. }
  intros Hsame.
  assert (Hsame1 : aliveCharacters s1 = aliveCharacters s).
  { rewrite <- Hsame. symmetry. apply aliveCharacters_fields; rewrite E; reflexivity. }
  destruct (Hpre Hsame1) as (more1 & Hold).
  rewrite Hup, Hold.
  rewrite drop_app_le by lia.
  apply take_common. rewrite length_drop. lia.
Qed.

(** A turn of the AI that does not end the battle. *)
Lemma processAITurn_scheduled (fuel : nat) (rand : nat -> Q) (ai : BattleAI)
      (s s' : BattleSystem) (d : Decision) (tr : TurnResults) (w : option Winner)
      (next : option NextTurn) :
  on_schedule s ->
  unit_draws rand ->
  Controls.processAITurn fuel rand ai s = Ok s' (Controls.Decided d (Success tr false w) next) ->
  on_schedule s'
  /\ exists attacker,
      getCurrentCharacter s = Some attacker
      /\ turnHistory s' = turnHistory s ++ [attacker]
      /\ wounded s s'
      /\ bar_spent s s' [attacker]
      /\ (aliveCharacters s' = aliveCharacters s ->
          take 19 (upcomingTurns s') = take 19 (drop 1 (upcomingTurns s))).
Proof.
  intros Hos Hrand Hrun.
  destruct (processAITurn_unfold fuel rand ai s (os_ready s Hos) Hrand)
    as (attacker & a & t & _ & _ & _ & _ & Htin & E).
  rewrite E in Hrun.
  destruct (Controls.executePlayerTurn fuel s a (Some t)) as [s1 r| |] eqn:E1;
    cbn [bind] in Hrun; try discriminate.
  injection Hrun as <- _ Hr _.
  assert (Hlegal : legalMove s a (Some t)) by (intros _; exists t; auto).
  exact (executePlayerTurn_scheduled fuel s s1 a (Some t) r tr w Hos Hlegal E1 Hr).
Qed.

Lemma turn_scheduled (s s' : BattleSystem) :
  on_schedule s -> turn s s' ->
  on_schedule s'
  /\ exists attacker,
      getCurrentCharacter s = Some attacker
      /\ turnHistory s' = turnHistory s ++ [attacker]
      /\ wounded s s'
      /\ bar_spent s s' [attacker]
      /\ (aliveCharacters s' = aliveCharacters s ->
          take 19 (upcomingTurns s') = take 19 (drop 1 (upcomingTurns s))).
Proof.
  intros Hos Hturn. revert Hos.
  destruct Hturn as [fuel s0 a t s1 tr w next Hlegal Hrun
                    |fuel rand ai s0 s1 d tr w next Hrand Hrun]; intros Hos.
  - exact (executePlayerTurn_scheduled fuel s0 s1 a t _ tr w Hos Hlegal Hrun eq_refl).
  - exact (processAITurn_scheduled fuel rand ai s0 s1 d tr w next Hos Hrand Hrun).
Qed.

Lemma bar_spent_trans (s s1 s2 : BattleSystem) (acted1 acted2 : list ref) :
  wounded s s1 -> wounded s1 s2 ->
  bar_spent s s1 acted1 -> bar_spent s1 s2 acted2 ->
  bar_spent s s2 (acted1 ++ acted2).
Proof.
  intros Hw1 Hw2 H1 H2 r Hr Hal2.
  assert (Hal1 : isAlive (heap s1 r) = true) by (apply Hw2, Hal2).
  destruct (H1 r Hr Hal1) as (b & b1 & Hb & Hb1 & E1).
  assert (Hr1 : In r (teamMembers s1)) by (rewrite (wounded_members s s1 Hw1); exact Hr).
  destruct (H2 r Hr1 Hal2) as (b1' & b2 & Hb1' & Hb2 & E2).
  rewrite (alike_key s s1 (wounded_alike s s1 Hw1) r) in Hb1', Hb2.
  rewrite Hb1 in Hb1'. injection Hb1' as <-.
  exists b, b2. split; [exact Hb|]. split; [exact Hb2|].
  unfold turnsOf in *. rewrite count_occ_app, Nat2Z.inj_add, inject_Z_plus.
  rewrite E2, E1. ring.
Qed.

Lemma played_scheduled (s s' : BattleSystem) (acted : list ref) :
  on_schedule s -> played s acted s' ->
  on_schedule s'
  /\ turnHistory s' = turnHistory s ++ acted
  /\ wounded s s'
  /\ bar_spent s s' acted
  /\ forall c, In c acted -> In c (teamMembers s).
Proof.
  intros Hos Hpl. induction Hpl as [s|s s1 s2 acted c _ IH Hc Hturn].
  - split; [exact Hos|]. split; [symmetry; apply app_nil_r|].
    split; [apply wounded_refl_fields; reflexivity|]. split; [|intros c []].
    intros r Hr Hal.
    destruct (wf_bars s (br_wf s (os_ready s Hos)) r Hr Hal) as (b & Hb).
    exists b, b. split; [exact Hb|]. split; [exact Hb|]. cbn. ring.
  - destruct (IH Hos) as (Hos1 & Hh1 & Hw1 & Hsp1 & Hin1).
    destruct (turn_scheduled s1 s2 Hos1 Hturn) as (Hos2 & a & Ha & Hh2 & Hw2 & Hsp2 & _).
    assert (a = c) by congruence. subst a.
    split; [exact Hos2|]. split; [rewrite Hh2, Hh1, app_assoc; reflexivity|].
    split; [exact (wounded_trans s s1 s2 Hw1 Hw2)|].
    split; [exact (bar_spent_trans s s1 s2 acted [c] Hw1 Hw2 Hsp1 Hsp2)|].
    intros x Hx. apply in_app_iff in Hx. destruct Hx as [Hx|[<-|[]]]; [exact (Hin1 x Hx)|].
    destruct (battle_ready_current s1 (os_ready s1 Hos1)) as (c' & Hc' & Hin & _).
    assert (c' = c) by congruence. subst c'.
    rewrite <- (wounded_members s s1 Hw1). exact Hin.
Qed.

(** X24. An attack never takes the turn from the attacker. On a battle on
    schedule, a legal move is processed (the call returns), and whatever it
    did (hits, defeats, a replanning, even the end of the battle) the
    attacker is still the first of the plan. The characters differ from
    before at most in their hit points and nobody defeated is alive again;
    the plan is one the scheduler computes from the bars as they are now, no
    bar has reached the threshold, and when nobody was defeated the first
    twenty turns of the plan are those planned before. If the battle goes on
    it is on schedule again. *)
Theorem processTurn_keeps_current :
  forall (s : BattleSystem) (attackObj : AttackObj) (target : option ref),
    on_schedule s ->
    legalMove s attackObj target ->
    (exists fuel s' o, processTurn fuel s attackObj target = Ok s' o)
    /\ forall fuel s' o,
        processTurn fuel s attackObj target = Ok s' o ->
        exists attacker,
          getCurrentCharacter s = Some attacker
          /\ getCurrentCharacter s' = Some attacker
          /\ wounded s s'
          /\ planned s'
          /\ bars_below (actionBars s') ACTION_THRESHOLD
          /\ speeds_bounded s'
          /\ (aliveCharacters s' = aliveCharacters s ->
              take 20 (upcomingTurns s') = take 20 (upcomingTurns s))
          /\ (forall tr w, o = Success tr false w -> on_schedule s').
Proof.
  intros s attackObj target Hos Hlegal.
  pose proof (os_ready s Hos) as Hbr.
  split; [exact (proj1 (processTurn_returns s attackObj target Hbr Hlegal))|].
  intros fuel s' o Hrun.
  destruct (processTurn_kept fuel s s' attackObj target o Hbr (os_planned s Hos) Hlegal Hrun)
    as (attacker & Hc & [Hpl' Hc' Hw Hbars Hliv Hpre]).
  destruct (processTurn_ready fuel s s' attackObj target o Hbr Hlegal Hrun)
    as (_ & _ & _ & _ & _ & _ & _ & _ & _ & _ & _ & _ & _ & Hmany & _).
  exists attacker. split; [exact Hc|]. split; [exact Hc'|]. split; [exact Hw|].
  split; [exact Hpl'|]. split; [exact (Hbars _ (os_bars s Hos))|].
  split; [exact (speeds_bounded_wounded s s' Hw (os_speeds s Hos))|]. split.
  - intros Hsame. destruct (Hpre Hsame) as (more & ->).
    rewrite take_app_le by exact Hmany. reflexivity.
  - intros tr w ->.
    exact (processTurn_on_schedule fuel s s' attackObj target tr w Hos Hlegal Hrun).
Qed.

Lemma processTurn_keeps_current_witness :
  on_schedule Example.started
  /\ legalMove Example.started (mkAttack (Some Blue) single) (Some 3%nat)
  /\ exists fuel s' o,
       processTurn fuel Example.started (mkAttack (Some Blue) single) (Some 3%nat) = Ok s' o.
Proof.
  assert (Hlegal : legalMove Example.started (mkAttack (Some Blue) single) (Some 3%nat)).
  { intros _. exists 3%nat. split; [reflexivity|]. vm_compute. left. reflexivity. }
  split; [exact example_on_schedule|]. split; [exact Hlegal|].
  exact (proj1 (processTurn_keeps_current _ _ _ example_on_schedule Hlegal)).
Defined.

(** X25. [nextTurn] moves the plan on by exactly one turn. On a battle on
    schedule it returns; the character that acted is appended to the
    history and its action bar loses one threshold, the other bars are
    untouched; the new plan is the old plan without its first turn, with
    further turns behind it where it had to be rebuilt, so a rebuilt plan
    never contradicts the turns announced before; the queue shown is the
    old plan from its second to its seventh turn, the next character the
    second of the old plan; and the battle is on schedule again. *)
Theorem nextTurn_shifts_plan :
  forall (s : BattleSystem),
    on_schedule s ->
    (exists fuel s' r, nextTurn fuel s = Ok s' r)
    /\ forall fuel s' r,
        nextTurn fuel s = Ok s' r ->
        on_schedule s'
        /\ exists c b more,
            getCurrentCharacter s = Some c
            /\ actionBars s !! getCharId (heap s c) = Some (Fin b)
            /\ actionBars s'
               = <[getCharId (heap s c) := Fin (b - ACTION_THRESHOLD)]> (actionBars s)
            /\ turnHistory s' = turnHistory s ++ [c]
            /\ upcomingTurns s' = drop 1 (upcomingTurns s) ++ more
            /\ turnQueue s' = take 6 (drop 1 (upcomingTurns s))
            /\ nextCharacter r = upcomingTurns s !! 1%nat.
Proof.
  intros s Hos. pose proof (os_ready s Hos) as Hbr.
  destruct (battle_ready_current s Hbr) as (c0 & Hc0 & _ & _).
  split; [exact (nextTurn_returns s c0 (br_wf s Hbr) Hc0)|].
  intros fuel s' r Hrun.
  split; [exact (nextTurn_on_schedule fuel s s' r Hos Hrun)|].
  destruct (nextTurn_planned fuel s s' r Hos Hrun)
    as (c & b & more & Hc & Hb & E & Hbars & Hup & _).
  destruct (nextTurn_run fuel s s' c r (br_wf s Hbr) Hc Hrun) as (_ & Er & _).
  pose proof (br_many s Hbr) as Hmany.
  assert (Hlen : (19 <= length (drop 1 (upcomingTurns s)))%nat)
    by (rewrite length_drop; lia).
  exists c, b, more. do 3 (split; [assumption|]).
  split; [rewrite E; reflexivity|]. split; [exact Hup|]. split.
  - rewrite E. cbn [turnQueue set_turnQueue]. rewrite Hup.
    apply take_app_le. lia.
  - rewrite Er. cbn [nextCharacter]. unfold getCurrentCharacter. rewrite Hup.
    rewrite lookup_app_l by lia. rewrite lookup_drop. reflexivity.
Qed.

Lemma nextTurn_shifts_plan_witness :
  on_schedule Example.started
  /\ exists fuel s' r, nextTurn fuel Example.started = Ok s' r.
Proof.
  split; [exact example_on_schedule|].
  exact (proj1 (nextTurn_shifts_plan Example.started example_on_schedule)).
Defined.

(** X26. A whole turn of the player keeps the announced order. From a
    battle on schedule, a legal move that does not end the battle leaves a
    battle on schedule; the history grows by the character whose turn was
    announced, even when the attack defeated somebody and the plan was
    rebuilt in between; and when nobody was defeated, the queue shown
    afterwards is the plan shown before, moved on by one turn. *)
Theorem executePlayerTurn_shifts_queue :
  forall (s : BattleSystem) (attackObj : AttackObj) (target : option ref),
    on_schedule s ->
    legalMove s attackObj target ->
    (exists fuel s' r, Controls.executePlayerTurn fuel s attackObj target = Ok s' r)
    /\ forall fuel s' r tr w,
        Controls.executePlayerTurn fuel s attackObj target = Ok s' r ->
        fst r = Success tr false w ->
        on_schedule s'
        /\ exists attacker nt,
            getCurrentCharacter s = Some attacker
            /\ turnHistory s' = turnHistory s ++ [attacker]
            /\ heap s' attacker = heap s attacker
            /\ wounded s s'
            /\ snd r = Some nt
            /\ nt_turnQueue nt = turnQueue s'
            /\ (aliveCharacters s' = aliveCharacters s ->
                turnQueue s' = take 6 (drop 1 (upcomingTurns s))
                /\ nextCharacter nt = upcomingTurns s !! 1%nat).
Proof.
  intros s attackObj target Hos Hlegal. pose proof (os_ready s Hos) as Hbr.
  destruct (executePlayerTurn_cycle s attackObj target Hbr Hlegal) as (Hret & _ & Hcyc).
  split; [exact Hret|].
  intros fuel s' r tr w Hrun Hr.
  destruct (executePlayerTurn_scheduled fuel s s' attackObj target r tr w Hos Hlegal Hrun Hr)
    as (Hos' & attacker & Hc & Hhist & Hw & _ & Hshift).
  destruct (Hcyc fuel s' r Hrun) as (tr' & e & w' & Hr' & _ & _ & Hgo).
  assert (e = false) by congruence. subst e.
  destruct (Hgo eq_refl) as (_ & _ & _ & nt & c' & Hnt & Hnc & Hc' & _).
  split; [exact Hos'|]. exists attacker, nt.
  split; [exact Hc|]. split; [exact Hhist|].
  assert (Hq : turnQueue s' = take 6 (upcomingTurns s') /\ nt_turnQueue nt = turnQueue s'
               /\ heap s' attacker = heap s attacker).
  { unfold Controls.executePlayerTurn in Hrun.
    destruct (processTurn fuel s attackObj target) as [s1 o| |] eqn:E1; cbn [bind] in Hrun;
      try discriminate.
    destruct (processTurn_ready fuel s s1 attackObj target o Hbr Hlegal E1)
      as (a0 & tr0 & e & w0 & Hc0 & -> & Hwf1 & _ & _ & _ & Hheap & _ & _ & _ & Hgo1 & _).
    assert (a0 = attacker) by congruence. subst a0.
    destruct e.
    { injection Hrun as <- <-. cbn in Hnt. discriminate. }
    destruct (nextTurn fuel s1) as [s2 nt2| |] eqn:E2; cbn [bind] in Hrun; try discriminate.
    injection Hrun as <- <-. cbn in Hnt. injection Hnt as ->.
    destruct (Hgo1 eq_refl) as (_ & Hbr1 & _).
    destruct (battle_ready_current s1 Hbr1) as (c1 & Hc1 & _ & _).
    destruct (nextTurn_run fuel s1 s2 c1 nt Hwf1 Hc1 E2) as (E & Er & _).
    split; [rewrite E; reflexivity|]. split; [rewrite Er, E; reflexivity|].
    rewrite E. exact Hheap. }
  destruct Hq as (Hq & Hq' & Hheap).
  split; [exact Hheap|]. split; [exact Hw|]. split; [exact Hnt|]. split; [exact Hq'|].
  intros Hsame. specialize (Hshift Hsame).
  pose proof (br_many s' (os_ready s' Hos')) as Hmany'.
  pose proof (br_many s Hbr) as Hmany.
  split.
  - rewrite Hq. apply (take_shorter 6 19); [lia|exact Hshift].
  - rewrite Hnc, <- Hc'. unfold getCurrentCharacter.
    rewrite (lookup_within 0 19 _ _ ltac:(lia) Hshift). apply lookup_drop.
Qed.

Lemma executePlayerTurn_shifts_queue_witness :
  on_schedule Example.started
  /\ legalMove Example.started (mkAttack (Some Blue) single) (Some 3%nat)
  /\ exists fuel s' r,
       Controls.executePlayerTurn fuel Example.started (mkAttack (Some Blue) single)
                                  (Some 3%nat) = Ok s' r.
Proof.
  assert (Hlegal : legalMove Example.started (mkAttack (Some Blue) single) (Some 3%nat)).
  { intros _. exists 3%nat. split; [reflexivity|]. vm_compute. left. reflexivity. }
  split; [exact example_on_schedule|]. split; [exact Hlegal|].
  exact (proj1 (executePlayerTurn_shifts_queue _ _ _ example_on_schedule Hlegal)).
Defined.

(** X27. Every battle is on schedule for as long as it lasts. After
    [setupBattle] (for a roster that is not empty and has distinct ids, a
    game with distinct ids that offers three enemies, draws in [0, 1)) and
    any number of turns that do not end it, legal moves of the player and
    turns of the AI in any order, the battle is ready for the next turn, its
    plan is the one the scheduler computes from the action bars, no bar has
    reached the threshold, and the history is the history at the start
    followed by the characters that were announced, in the order of their
    turns. The characters are those of the start but for their hit
    points. The stored action bars never fill: the bar of a living
    character is minus one threshold for each turn it has taken; bars fill
    only inside the simulation that plans the turns. *)
Theorem turns_stay_on_schedule :
  forall (fuel : nat) (rand : nat -> Q) (characters : list GameCharacter)
         (s : BattleSystem) (roster : list GameCharacter) (s0 : BattleSystem)
         (r : SetupResult) (acted : list ref) (s' : BattleSystem),
    unit_draws rand ->
    roster <> [] ->
    NoDup (map id roster) ->
    NoDup (map id characters) ->
    (3 <= length (availableFor characters roster))%nat ->
    setupBattle fuel rand characters s roster = Ok s0 r ->
    played s0 acted s' ->
    on_schedule s0
    /\ on_schedule s'
    /\ turnHistory s' = turnHistory s0 ++ acted
    /\ wounded s0 s'
    /\ (forall c, In c acted -> In c (teamMembers s0))
    /\ (forall c, In c (teamMembers s0) -> isAlive (heap s' c) = true ->
         exists b, actionBars s' !! getCharId (heap s0 c) = Some (Fin b)
                   /\ (b == - (ACTION_THRESHOLD * inject_Z (Z.of_nat (turnsOf c acted))))%Q)
    /\ exists next, getCurrentCharacter s' = Some next
                    /\ In next (teamMembers s0) /\ isAlive (heap s' next) = true.
Proof.
  intros fuel rand characters s roster s0 r acted s' Hrand Hne Hndr Hndc Hav Hrun Hpl.
  pose proof (setupBattle_on_schedule fuel rand characters s roster s0 r
                Hrand Hne Hndr Hndc Hav Hrun) as Hos0.
  destruct (played_scheduled s0 s' acted Hos0 Hpl) as (Hos' & Hhist & Hw & Hsp & Hacted).
  split; [exact Hos0|]. split; [exact Hos'|]. split; [exact Hhist|]. split; [exact Hw|].
  split; [exact Hacted|]. split.
  { destruct (setupBattle_run fuel rand characters s roster s0 r
                Hrand Hne Hndr Hndc Hav Hrun)
      as (_ & _ & _ & _ & _ & _ & _ & _ & Hzero & _).
    intros c Hc Hal. destruct (Hsp c Hc Hal) as (b & b' & Hb & Hb' & E).
    apply Hzero in Hb. injection Hb as ->.
    exists b'. split; [exact Hb'|]. rewrite E. ring. }
  destruct (battle_ready_current s' (os_ready s' Hos')) as (next & Hn & Hin & Hal).
  exists next. split; [exact Hn|]. split; [|exact Hal].
  rewrite <- (wounded_members s0 s' Hw). exact Hin.
Qed.

Lemma turns_stay_on_schedule_witness :
  unit_draws Example.rand
  /\ Example.roster <> []
  /\ NoDup (map id Example.roster)
  /\ NoDup (map id Example.characters)
  /\ (3 <= length (availableFor Example.characters Example.roster))%nat
  /\ played Example.started [1%nat] after_first_move
  /\ on_schedule after_first_move.
Proof.
  assert (H2 : Example.roster <> []) by discriminate.
  assert (H3 : NoDup (map id Example.roster))
    by (apply (bool_decide_unpack _); vm_compute; reflexivity).
  assert (H4 : NoDup (map id Example.characters))
    by (apply (bool_decide_unpack _); vm_compute; reflexivity).
  assert (H5 : (3 <= length (availableFor Example.characters Example.roster))%nat)
    by (vm_compute; lia).
  assert (Hrun : setupBattle 200 Example.rand Example.characters Example.fresh Example.roster
                 = Ok Example.started
                      (mkSetupResult (playerTeam Example.started) (enemyTeam Example.started)
                                     (getCurrentCharacter Example.started)))
    by (vm_compute; reflexivity).
  assert (Hlegal : legalMove Example.started (mkAttack (Some Blue) single) (Some 3%nat)).
  { intros _. exists 3%nat. split; [reflexivity|]. vm_compute. left. reflexivity. }
  assert (Hturn : turn Example.started after_first_move).
  { eapply (turn_player 200 Example.started (mkAttack (Some Blue) single) (Some 3%nat));
      [exact Hlegal|]. vm_compute. reflexivity. }
  assert (Hpl : played Example.started [1%nat] after_first_move).
  { apply (played_more Example.started Example.started after_first_move [] 1%nat);
      [apply played_none | vm_compute; reflexivity | exact Hturn]. }
  split; [exact example_unit_draws|]. do 4 (split; [assumption|]). split; [exact Hpl|].
  exact (proj1 (proj2 (turns_stay_on_schedule 200 Example.rand Example.characters
                         Example.fresh Example.roster Example.started _ [1%nat]
                         after_first_move example_unit_draws H2 H3 H4 H5 Hrun Hpl))).
Defined.


(** ** Every battle ends *)

Lemma vigour_hit (c : GameCharacter) (dmg : Q) :
  isAlive c = true -> (10 <= dmg)%Q ->
  (vigour (set_hp c (Qmax 0 (hp (stats c) - dmg))) + 1 <= vigour c)%Q.
Proof.
  intros Hal Hdmg. unfold vigour. rewrite Hal.
  unfold isAlive in *. cbn [stats set_hp hp].
  apply Qlt_bool_iff in Hal.
  pose proof (Q.max_spec 0 (hp (stats c) - dmg)) as Hmax.
  set (m := Qmax 0 (hp (stats c) - dmg)) in *. clearbody m.
  destruct (Qlt_bool 0 m) eqn:Em.
  - apply Qlt_bool_iff in Em. destruct Hmax as [[H1 H2]|[H1 H2]]; lra.
  - apply Qlt_bool_false_iff in Em. destruct Hmax as [[H1 H2]|[H1 H2]]; lra.
Qed.

Lemma vigourOf_le (h h' : ref -> GameCharacter) (l : list ref) :
  (forall r, In r l -> (vigour (h' r) <= vigour (h r))%Q) ->
  (vigourOf h' l <= vigourOf h l)%Q.
Proof.
  induction l as [|x l IH]; intros H; cbn [vigourOf]; [lra|].
  pose proof (H x (or_introl eq_refl)).
  pose proof (IH (fun r Hr => H r (or_intror Hr))). lra.
Qed.

Lemma vigourOf_drop (h h' : ref -> GameCharacter) (l : list ref) (t : ref) :
  (forall r, In r l -> (vigour (h' r) <= vigour (h r))%Q) ->
  In t l -> (vigour (h' t) + 1 <= vigour (h t))%Q ->
  (vigourOf h' l + 1 <= vigourOf h l)%Q.
Proof.
  induction l as [|x l IH]; intros H Ht Hdrop; [destruct Ht|]. cbn [vigourOf].
  destruct Ht as [->|Ht].
  - pose proof (vigourOf_le h h' l (fun r Hr => H r (or_intror Hr))). lra.
  - pose proof (H x (or_introl eq_refl)).
    pose proof (IH (fun r Hr => H r (or_intror Hr)) Ht Hdrop). lra.
Qed.

Lemma vigourOf_bounds (h : ref -> GameCharacter) (l : list ref) :
  (forall r, In r l -> (0 <= hp (stats (h r)) <= 360)%Q) ->
  (0 <= vigourOf h l <= 37 * inject_Z (Z.of_nat (length l)))%Q.
Proof.
  induction l as [|x l IH]; intros H; cbn [vigourOf length].
  - change (inject_Z (Z.of_nat 0)) with 0%Q. lra.
  - pose proof (H x (or_introl eq_refl)) as Hx.
    pose proof (IH (fun r Hr => H r (or_intror Hr))) as Hl.
    rewrite Nat2Z.inj_succ, <- Z.add_1_r, inject_Z_plus.
    change (inject_Z 1) with 1%Q.
    unfold vigour. destruct (isAlive (h x)); lra.
Qed.

Lemma effectiveness_half (g : option Gene) (c : GameCharacter) :
  (1 # 2 <= getEffectiveness g c)%Q.
Proof.
  pose proof (getEffectiveness_in_multipliers g c) as H. unfold multipliers in H.
  cbn [In] in H. destruct H as [<-|[<-|[<-|[<-|[<-|[]]]]]]; lra.
Qed.

Lemma damage_ten (a e : Q) : (40 <= a)%Q -> (1 # 2 <= e)%Q -> (10 <= a * e * (1 # 2))%Q.
Proof. intros Ha He. nra. Qed.

Lemma vigour_same_hp (c : GameCharacter) : vigour (set_hp c (hp (stats c))) = vigour c.
Proof. destruct c as [? ? ? [] ?]. reflexivity. Qed.

(** The attack of a turn costs the teams one unit of vigour at least. *)
Lemma resolveAttack_vigour (fuel : nat) (s s2 : BattleSystem) (attacker : ref)
      (attackObj : AttackObj) (target : option ref) (tr : TurnResults) :
  well_formed s -> armed s ->
  In attacker (teamMembers s) ->
  splashTargets s attacker <> [] ->
  (type attackObj <> splash ->
   exists t, target = Some t /\ isAlive (heap s t) = true /\ In t (teamMembers s)) ->
  resolveAttack fuel s attacker attackObj target = Ok s2 tr ->
  armed s2 /\ (battleVigour s2 + 1 <= battleVigour s)%Q.
Proof.
  intros Hwf Harm Hin Hsome Htarget Hrun. unfold resolveAttack in Hrun.
  destruct (Harm attacker Hin) as (_ & Hatt).
  destruct (decide (type attackObj = splash)) as [Hs|Hs].
  - destruct (processSplashAttack fuel s attacker (gene attackObj)) as [s3 r| |] eqn:E;
      cbn [bind] in Hrun; try discriminate.
    injection Hrun as <- _.
    destruct (splash_hits s attacker (gene attackObj) Hwf) as (h1 & Hfold & Hout & Hhit & _).
    destruct (processSplashAttack_run fuel s s3 attacker _ r h1 Hfold E)
      as ((bars & turns & ->) & _).
    unfold armed, battleVigour, teamMembers.
    cbn [heap playerTeam enemyTeam set_turnQueue set_upcomingTurns set_actionBars set_heap].
    fold (teamMembers s).
    assert (Hdmg : forall t, (10 <= splashDamageOn s attacker (gene attackObj) t)%Q).
    { intros t. unfold splashDamageOn, SPLASH_DAMAGE_MULTIPLIER.
      apply damage_ten; [exact Hatt|apply effectiveness_half]. }
    split.
    + intros x Hx. destruct (Harm x Hx) as (Hhp & Ha).
      destruct (in_dec Nat.eq_dec x (splashTargets s attacker)) as [Ht|Ht].
      * rewrite (Hhit x Ht). cbn [stats set_hp hp Character.attack].
        split; [apply Q.le_max_l|]. destruct (heap s x) as [? ? ? [] ?]. exact Ha.
      * rewrite (Hout x Ht). auto.
    + assert (Hex : exists t0, In t0 (splashTargets s attacker)).
      { destruct (splashTargets s attacker) as [|t0 ts]; [congruence|].
        exists t0. left. reflexivity. }
      destruct Hex as (t0 & Ht0).
      assert (Hstep : forall x, In x (splashTargets s attacker) ->
                                (vigour (h1 x) + 1 <= vigour (heap s x))%Q).
      { intros x Hx. rewrite (Hhit x Hx).
        apply vigour_hit; [apply (splashTargets_spec s attacker x Hx)|apply Hdmg]. }
      apply (vigourOf_drop (heap s) h1 (teamMembers s) t0).
      * intros x _.
        destruct (in_dec Nat.eq_dec x (splashTargets s attacker)) as [Ht|Ht].
        -- pose proof (Hstep x Ht). lra.
        -- rewrite (Hout x Ht). lra.
      * destruct (splashTargets_spec s attacker t0 Ht0) as (_ & Hopp).
        unfold teamMembers. apply in_or_app.
        destruct (truthy (isPlayer (heap s attacker))); auto.
      * exact (Hstep t0 Ht0).
  - destruct (Htarget Hs) as (t & -> & Htal & Htin).
    destruct (processSingleAttack fuel s attacker (gene attackObj) (Some t)) as [s3 r| |] eqn:E;
      cbn [bind] in Hrun; try discriminate.
    injection Hrun as <- _.
    destruct (processSingleAttack_run fuel s s3 attacker t _ r E) as (Hh & Hp & He & _).
    unfold armed, battleVigour, teamMembers. rewrite Hh, Hp, He. fold (teamMembers s).
    set (dmg := calculateDamage (heap s attacker) (gene attackObj) (heap s t)) in *.
    assert (Hdmg : (10 <= dmg)%Q).
    { unfold dmg, calculateDamage.
      pose proof (effectiveness_half (gene attackObj) (heap s t)). nra. }
    split.
    + intros x Hx. destruct (Harm x Hx) as (Hhp & Ha). rewrite store_lookup.
      destruct (decide (t = x)) as [->|_]; [|auto].
      unfold takeDamage. cbn [fst stats set_hp hp Character.attack].
      split; [apply Q.le_max_l|]. destruct (heap s x) as [? ? ? [] ?]. exact Ha.
    + apply (vigourOf_drop (heap s) _ (teamMembers s) t).
      * intros x _. rewrite store_lookup. destruct (decide (t = x)) as [->|_]; [|lra].
        pose proof (vigour_hit (heap s x) dmg Htal Hdmg). unfold takeDamage. cbn [fst]. lra.
      * exact Htin.
      * rewrite store_lookup. destruct (decide (t = t)) as [_|]; [|contradiction].
        unfold takeDamage. cbn [fst]. exact (vigour_hit (heap s t) dmg Htal Hdmg).
Qed.

Lemma battle_ready_splashTargets (s : BattleSystem) (attacker : ref) :
  battle_ready s -> splashTargets s attacker <> [].
Proof.
  intros Hbr. unfold splashTargets.
  assert (Hne : forall team, someAlive s team = true ->
                             take 3 (List.filter (fun r => isAlive (heap s r)) team) <> []).
  { intros team H. unfold someAlive in H. apply existsb_exists in H as (x & Hx & Hal).
    assert (Hin : In x (List.filter (fun r => isAlive (heap s r)) team))
      by (apply filter_In; auto).
    destruct (List.filter (fun r => isAlive (heap s r)) team); [destruct Hin|discriminate]. }
  destruct (truthy (isPlayer (heap s attacker)));
    [apply Hne, (br_enemies s Hbr)|apply Hne, (br_players s Hbr)].
Qed.

Lemma armed_fields (s s' : BattleSystem) :
  heap s' = heap s -> playerTeam s' = playerTeam s -> enemyTeam s' = enemyTeam s ->
  (armed s -> armed s') /\ battleVigour s' = battleVigour s.
Proof.
  intros Hh Hp He. unfold armed, battleVigour, teamMembers. rewrite Hh, Hp, He.
  split; [auto|reflexivity].
Qed.

Lemma processTurn_vigour (fuel : nat) (s s' : BattleSystem) (attackObj : AttackObj)
      (target : option ref) (o : TurnOutcome) :
  battle_ready s -> armed s ->
  legalMove s attackObj target ->
  processTurn fuel s attackObj target = Ok s' o ->
  armed s' /\ (battleVigour s' + 1 <= battleVigour s)%Q.
Proof.
  intros Hbr Harm Hlegal Hrun.
  destruct (battle_ready_current s Hbr) as (attacker & Hc & Hin & Hal).
  pose proof (battle_ready_splashTargets s attacker Hbr) as Hsome.
  destruct Hbr as [Hwf Hidle Hturns Hmany Hp He].
  unfold processTurn in Hrun. rewrite Hidle in Hrun.
  change (getCurrentCharacter (set_isProcessingTurn s true)) with (getCurrentCharacter s)
    in Hrun.
  rewrite Hc in Hrun.
  change (heap (set_isProcessingTurn s true) attacker) with (heap s attacker) in Hrun.
  rewrite Hal in Hrun. cbn [negb] in Hrun.
  set (s1 := set_isProcessingTurn s true) in *.
  destruct (resolveAttack fuel s1 attacker attackObj target) as [s2 tr| |] eqn:E;
    cbn [bind] in Hrun; try discriminate.
  assert (H2 : armed s2 /\ (battleVigour s2 + 1 <= battleVigour s1)%Q).
  { apply (resolveAttack_vigour fuel s1 s2 attacker attackObj target tr); try assumption.
    - apply well_formed_processing, Hwf.
    - intros Hs. destruct (Hlegal Hs) as (t & -> & Ht).
      destruct (getAvailableTargets_spec s attacker t Hc Ht) as [Htal Hopp].
      exists t. split; [reflexivity|]. split; [exact Htal|].
      unfold teamMembers. apply in_or_app.
      destruct (truthy (isPlayer (heap s attacker))); auto. }
  destruct H2 as (Harm2 & Hv2).
  change (battleVigour s1) with (battleVigour s) in Hv2.
  unfold checkBattleEnd in Hrun.
  destruct (negb (someAlive s2 (playerTeam s2)) || negb (someAlive s2 (enemyTeam s2)));
    injection Hrun as <- <-; split; assumption.
Qed.

Lemma executePlayerTurn_vigour (fuel : nat) (s s' : BattleSystem) (attackObj : AttackObj)
      (target : option ref) (r : TurnOutcome * option NextTurn) :
  battle_ready s -> armed s ->
  legalMove s attackObj target ->
  Controls.executePlayerTurn fuel s attackObj target = Ok s' r ->
  armed s' /\ (battleVigour s' + 1 <= battleVigour s)%Q.
Proof.
  intros Hbr Harm Hlegal Hrun.
  unfold Controls.executePlayerTurn in Hrun.
  destruct (processTurn fuel s attackObj target) as [s1 o| |] eqn:E1; cbn [bind] in Hrun;
    try discriminate.
  destruct (processTurn_vigour fuel s s1 attackObj target o Hbr Harm Hlegal E1)
    as (Harm1 & Hv1).
  destruct (processTurn_ready fuel s s1 attackObj target o Hbr Hlegal E1)
    as (a0 & tr0 & e & w0 & _ & -> & Hwf1 & _ & _ & _ & _ & _ & _ & _ & Hgo & _).
  destruct e.
  { injection Hrun as <- _. split; assumption. }
  destruct (nextTurn fuel s1) as [s2 nt| |] eqn:E2; cbn [bind] in Hrun; try discriminate.
  injection Hrun as <- _.
  destruct (Hgo eq_refl) as (_ & Hbr1 & _).
  destruct (battle_ready_current s1 Hbr1) as (c1 & Hc1 & _ & _).
  destruct (nextTurn_run fuel s1 s2 c1 nt Hwf1 Hc1 E2) as (E & _).
  destruct (armed_fields s1 s2) as (Ha & Hv); try (rewrite E; reflexivity).
  split; [exact (Ha Harm1)|]. rewrite Hv. exact Hv1.
Qed.

Lemma turn_vigour (s s' : BattleSystem) :
  battle_ready s -> armed s -> turn s s' ->
  armed s' /\ (battleVigour s' + 1 <= battleVigour s)%Q.
Proof.
  intros Hbr Harm Hturn. revert Hbr Harm.
  destruct Hturn as [fuel s0 a t s1 tr w next Hlegal Hrun
                    |fuel rand ai s0 s1 d tr w next Hrand Hrun]; intros Hbr Harm.
  - exact (executePlayerTurn_vigour fuel s0 s1 a t _ Hbr Harm Hlegal Hrun).
  - destruct (processAITurn_unfold fuel rand ai s0 Hbr Hrand)
      as (attacker & a & t & _ & _ & _ & _ & Htin & E).
    rewrite E in Hrun.
    destruct (Controls.executePlayerTurn fuel s0 a (Some t)) as [s2 r| |] eqn:E1;
      cbn [bind] in Hrun; try discriminate.
    injection Hrun as <- _ _ _.
    assert (Hlegal : legalMove s0 a (Some t)) by (intros _; exists t; auto).
    exact (executePlayerTurn_vigour fuel s0 s2 a (Some t) r Hbr Harm Hlegal E1).
Qed.

Lemma played_vigour (s s' : BattleSystem) (acted : list ref) :
  on_schedule s -> armed s -> played s acted s' ->
  armed s'
  /\ (battleVigour s' + inject_Z (Z.of_nat (length acted)) <= battleVigour s)%Q.
Proof.
  intros Hos Harm Hpl. induction Hpl as [s|s s1 s2 acted c Hpl IH Hc Hturn].
  - split; [exact Harm|]. change (inject_Z (Z.of_nat (length (@nil ref)))) with 0%Q. lra.
  - destruct (IH Hos Harm) as (Harm1 & Hv1).
    destruct (played_scheduled s s1 acted Hos Hpl) as (Hos1 & _).
    destruct (turn_vigour s1 s2 (os_ready s1 Hos1) Harm1 Hturn) as (Harm2 & Hv2).
    split; [exact Harm2|].
    rewrite length_app. cbn [length]. rewrite Nat2Z.inj_add, inject_Z_plus.
    change (inject_Z (Z.of_nat 1)) with 1%Q. lra.
Qed.

(** X28. Every battle ends. After [setupBattle] (a roster that is not
    empty and has distinct ids, a game with distinct ids that offers three
    enemies, draws in [0, 1)), every turn, a legal move of the player or a
    turn of the AI, costs the teams at least one unit of vigour (a tenth of
    the hit points of all, plus one for each character alive): an attack
    deals at least 20 points, a splash attack at least 10 to each of its
    targets, of which there is one at least. The vigour is never negative
    and at most 37 for each character at the start, so the turns that do
    not end the battle are at most 37 times the number of characters: at
    most 222 for a team of three. *)
Theorem battle_ends :
  forall (fuel : nat) (rand : nat -> Q) (characters : list GameCharacter)
         (s : BattleSystem) (roster : list GameCharacter) (s0 : BattleSystem)
         (r : SetupResult) (acted : list ref) (s' : BattleSystem),
    unit_draws rand ->
    roster <> [] ->
    NoDup (map id roster) ->
    NoDup (map id characters) ->
    (3 <= length (availableFor characters roster))%nat ->
    setupBattle fuel rand characters s roster = Ok s0 r ->
    played s0 acted s' ->
    armed s'
    /\ (battleVigour s' + inject_Z (Z.of_nat (length acted)) <= battleVigour s0)%Q
    /\ (0 <= battleVigour s')%Q
    /\ (battleVigour s0 <= 37 * inject_Z (Z.of_nat (length roster + 3)))%Q
    /\ (length acted <= 37 * (length roster + 3))%nat.
Proof.
  intros fuel rand characters s roster s0 r acted s' Hrand Hne Hndr Hndc Hav Hrun Hpl.
  pose proof (setupBattle_on_schedule fuel rand characters s roster s0 r
                Hrand Hne Hndr Hndc Hav Hrun) as Hos0.
  destruct (setupBattle_run fuel rand characters s roster s0 r Hrand Hne Hndr Hndc Hav Hrun)
    as (picks & Hcp & Hce & Hl & _).
  assert (Hcopy : forall x, In x (teamMembers s0) -> exists p c, heap s0 x = battleCopy p c).
  { intros x Hx. unfold teamMembers in Hx. apply in_app_iff in Hx. destruct Hx as [Hx|Hx].
    - pose proof (In_map_inv _ _ _ x Hcp Hx) as H.
      apply in_map_iff in H. destruct H as (c & Hc & _). eauto.
    - pose proof (In_map_inv _ _ _ x Hce Hx) as H.
      apply in_map_iff in H. destruct H as (c & Hc & _). eauto. }
  assert (Harm0 : armed s0).
  { intros x Hx. destruct (Hcopy x Hx) as (p & c & ->).
    pose proof (battleCopy_facts p c) as (_ & _ & _ & _ & Hfull & _ & Hatt & Hmax).
    rewrite Hfull. split; lra. }
  assert (Hlen : length (teamMembers s0) = (length roster + 3)%nat).
  { unfold teamMembers. rewrite length_app.
    apply (f_equal (@length _)) in Hcp. apply (f_equal (@length _)) in Hce.
    rewrite !length_map in Hcp, Hce. lia. }
  assert (Hv0 : (battleVigour s0 <= 37 * inject_Z (Z.of_nat (length roster + 3)))%Q).
  { rewrite <- Hlen. apply vigourOf_bounds. intros x Hx.
    destruct (Hcopy x Hx) as (p & c & ->).
    pose proof (battleCopy_facts p c) as (_ & _ & _ & _ & Hfull & _ & _ & Hmax).
    rewrite Hfull. split; lra. }
  destruct (played_vigour s0 s' acted Hos0 Harm0 Hpl) as (Harm' & Hv).
  assert (Hv' : (0 <= battleVigour s')%Q).
  { assert (Hge : forall l, (forall x, In x l -> (0 <= hp (stats (heap s' x)))%Q) ->
                            (0 <= vigourOf (heap s') l)%Q).
    { induction l as [|x l IH]; intros H; cbn [vigourOf]; [lra|].
      pose proof (H x (or_introl eq_refl)). pose proof (IH (fun y Hy => H y (or_intror Hy))).
      unfold vigour. destruct (isAlive (heap s' x)); lra. }
    apply Hge. intros x Hx. apply Harm', Hx. }
  split; [exact Harm'|]. split; [exact Hv|]. split; [exact Hv'|]. split; [exact Hv0|].
  assert (Hq : (inject_Z (Z.of_nat (length acted))
                <= inject_Z (37 * Z.of_nat (length roster + 3)))%Q).
  { rewrite inject_Z_mult. change (inject_Z 37) with 37%Q. lra. }
  rewrite <- Zle_Qle in Hq. lia.
Qed.

Lemma battle_ends_witness :
  unit_draws Example.rand
  /\ Example.roster <> []
  /\ NoDup (map id Example.roster)
  /\ NoDup (map id Example.characters)
  /\ (3 <= length (availableFor Example.characters Example.roster))%nat
  /\ played Example.started [1%nat] after_first_move
  /\ armed after_first_move.
Proof.
  assert (H2 : Example.roster <> []) by discriminate.
  assert (H3 : NoDup (map id Example.roster))
    by (apply (bool_decide_unpack _); vm_compute; reflexivity).
  assert (H4 : NoDup (map id Example.characters))
    by (apply (bool_decide_unpack _); vm_compute; reflexivity).
  assert (H5 : (3 <= length (availableFor Example.characters Example.roster))%nat)
    by (vm_compute; lia).
  assert (Hrun : setupBattle 200 Example.rand Example.characters Example.fresh Example.roster
                 = Ok Example.started
                      (mkSetupResult (playerTeam Example.started) (enemyTeam Example.started)
                                     (getCurrentCharacter Example.started)))
    by (vm_compute; reflexivity).
  assert (Hlegal : legalMove Example.started (mkAttack (Some Blue) single) (Some 3%nat)).
  { intros _. exists 3%nat. split; [reflexivity|]. vm_compute. left. reflexivity. }
  assert (Hturn : turn Example.started after_first_move).
  { eapply (turn_player 200 Example.started (mkAttack (Some Blue) single) (Some 3%nat));
      [exact Hlegal|]. vm_compute. reflexivity. }
  assert (Hpl : played Example.started [1%nat] after_first_move).
  { apply (played_more Example.started Example.started after_first_move [] 1%nat);
      [apply played_none | vm_compute; reflexivity | exact Hturn]. }
  split; [exact example_unit_draws|]. do 4 (split; [assumption|]). split; [exact Hpl|].
  exact (proj1 (battle_ends 200 Example.rand Example.characters
                  Example.fresh Example.roster Example.started _ [1%nat]
                  after_first_move example_unit_draws H2 H3 H4 H5 Hrun Hpl)).
Defined.
